(** * The symbolication engine (profile-logic/symbolication.js)

    A shallow embedding of the address collector, the request aggregator,
    the substitution engine and the orchestrator, followed by the
    properties the specification states about them.

    Conventions of the embedding.
    - Table indices are [nat]; addresses and lib indices are [Z] (the
      source compares lib indices with [-1]).
    - A columnar table is a record of lists plus its own [length] field,
      exactly as in the source: the field and the arrays may disagree.
    - A JavaScript [Map] or [Set] whose iteration order the code relies on
      is an insertion-ordered list ([JsMap], [JsSet]); [resultsForLib],
      which is only ever looked up, is a [gmap].
    - A function returns a [completion]: a value, a thrown [Error], or
      [OutOfType] when the source would go on with [undefined] where its
      Flow type promises a value (an index outside an array, a write that
      would leave a hole).  Nothing is claimed about [OutOfType] runs. *)

From Stdlib Require Import ZArith String Ascii HexString.
From stdpp Require Import base list gmap strings pretty.

Open Scope string_scope.
Open Scope list_scope.

(* ================================================================== *)
(** * Part I: definitions                                              *)
(* ================================================================== *)

(** ** Errors and completions *)

(** Modelled from the spec: the error classes of errors.js are not part of
    the sources at hand.  The spec distinguishes the "not found" kind,
    which the orchestrator tests with [instanceof SymbolsNotFoundError],
    from every other thrown error. *)
Inductive JsError : Type :=
  | Error (message : string)
  | SymbolsNotFoundError (message : string).

Global Instance JsError_eq_dec : EqDecision JsError.
Proof. solve_decision. Defined.

Inductive completion (A : Type) : Type :=
  | Returns (a : A)
  | Throws (error : JsError)
  | OutOfType.
Arguments Returns {A} a.
Arguments Throws {A} error.
Arguments OutOfType {A}.

Global Instance completion_ret : MRet completion := λ A a, Returns a.
Global Instance completion_bind : MBind completion := λ A B f m,
  match m with
  | Returns a => f a
  | Throws error => Throws error
  | OutOfType => OutOfType
  end.

Fixpoint foldlM {A B : Type} (f : A → B → completion A) (a : A) (l : list B)
  : completion A :=
  match l with
  | [] => Returns a
  | b :: l' => a' ← f a b; foldlM f a' l'
  end.

(** [array.map(f)] for an [f] that may throw. *)
Definition mapM {A B : Type} (f : A → completion B) (l : list A)
  : completion (list B) :=
  foldlM (λ bs a, b ← f a; Returns (bs ++ [b])) [] l.

(** [column[i]] read where the Flow type promises a value. *)
Definition read {A : Type} (column : list A) (i : nat) : completion A :=
  match column !! i with
  | Some a => Returns a
  | None => OutOfType
  end.

(** [column[i] = a]: overwrites inside the array, extends it by one at its
    end; further out JavaScript would leave holes. *)
Definition write {A : Type} (column : list A) (i : nat) (a : A)
  : completion (list A) :=
  if decide (i < length column) then Returns (<[i:=a]> column)
  else if decide (i = length column) then Returns (column ++ [a])
  else OutOfType.

(** [array[z]] for a number [z] that may be negative. *)
Definition lookupZ {A : Type} (l : list A) (z : Z) : option A :=
  if decide (0 ≤ z)%Z then l !! Z.to_nat z else None.

(** ** Insertion-ordered maps and sets *)

Module JsMap.
Section defs.
Context {K V : Type} `{EqDecision K}.

Fixpoint get (m : list (K * V)) (k : K) : option V :=
    match m with
    | [] => None
    | (k', v) :: m' => if decide (k' = k) then Some v else get m' k
    end.

Definition has (m : list (K * V)) (k : K) : bool :=
    match get m k with Some _ => true | None => false end.

  (** An existing key keeps its place; a new key goes last. *)
Fixpoint set (m : list (K * V)) (k : K) (v : V) : list (K * V) :=
    match m with
    | [] => [(k, v)]
    | (k', v') :: m' =>
        if decide (k' = k) then (k', v) :: m' else (k', v') :: set m' k v
    end.

Fixpoint delete (m : list (K * V)) (k : K) : list (K * V) :=
    match m with
    | [] => []
    | (k', v') :: m' =>
        if decide (k' = k) then m' else (k', v') :: delete m' k
    end.

Definition keys (m : list (K * V)) : list K := m.*1.
End defs.
End JsMap.

Module JsSet.
Section defs.
Context {K : Type} `{EqDecision K}.

Definition has (s : list K) (k : K) : bool := bool_decide (k ∈ s).

Definition add (s : list K) (k : K) : list K :=
    if has s k then s else s ++ [k].

Fixpoint delete (s : list K) (k : K) : list K :=
    match s with
    | [] => []
    | k' :: s' => if decide (k' = k) then s' else k' :: delete s' k
    end.

  (** [new Set(iterable)] *)
Definition of_list (l : list K) : list K := foldl add [] l.
End defs.
End JsSet.

(** ** Numbers to strings *)

(** [z.toString(16)] for an integer [z]. *)
Definition toString16 (z : Z) : string :=
  match z with
  | Z0 => "0"
  | Zpos p => HexString.Raw.of_pos p ""
  | Zneg p => "-" +:+ HexString.Raw.of_pos p ""
  end.

(** ** The string table

    Modelled from the spec: the string table class (UniqueStringArray) is
    not part of the sources at hand.  The spec says that names are
    string-table indices and that the table is append-only: [getString]
    reads an index and throws outside the table, [indexForString] returns
    the index of a string and appends the string when it is new. *)

Definition getString (stringTable : list string) (index : nat)
  : completion string :=
  match stringTable !! index with
  | Some s => Returns s
  | None => Throws (Error ("index " +:+ pretty index
                           +:+ " not in UniqueStringArray"))
  end.

Definition indexForString (s : string) (stringTable : list string)
  : nat * list string :=
  match list_find (λ x, x = s) stringTable with
  | Some (index, _) => (index, stringTable)
  | None => (length stringTable, stringTable ++ [s])
  end.

(** ** The data model *)

Module Lib.
Record t := mk { debugName : string; breakpadId : string }.
End Lib.

Module ResourceTable.
Record t := mk {
    length : nat;
    lib : list (option Z);      (* [None] is [null] *)
    type : list nat }.
End ResourceTable.

(** Modelled from the spec: the constant [resourceTypes.library] of
    data-structures.js, the resource kind "library". *)
Definition resourceTypes_library : nat := 1.

Module FrameTable.
Record t := mk {
    length : nat;
    address : list Z;
    func : list nat;
    nativeSymbol : list (option nat);
    line : list (option nat);
    innerWindowID : list (option nat) }.
End FrameTable.

Module FuncTable.
Record t := mk {
    length : nat;
    name : list nat;
    fileName : list (option nat);
    resource : list Z;
    isJS : list bool;
    relevantForJS : list bool;
    lineNumber : list (option nat);
    columnNumber : list (option nat) }.
End FuncTable.

Module NativeSymbolTable.
Record t := mk {
    length : nat;
    libIndex : list Z;
    address : list Z;
    name : list nat }.
End NativeSymbolTable.

Module Thread.
Record t := mk {
    libs : list Lib.t;
    frameTable : FrameTable.t;
    funcTable : FuncTable.t;
    nativeSymbols : NativeSymbolTable.t;
    resourceTable : ResourceTable.t;
    stringTable : list string }.
End Thread.

Module AddressResult.
Record t := mk {
    symbolAddress : Z;
    name : string;
    file : option string;       (* [None] is [undefined] *)
    line : option nat }.
End AddressResult.

Module ThreadLibSymbolicationInfo.
Record t := mk {
    resourceIndex : nat;
    libIndex : Z;
    allFuncsForThisLib : list nat;
    allNativeSymbolsForThisLib : list nat;
    allFramesForThisLib : list nat;
    frameAddresses : list Z }.
End ThreadLibSymbolicationInfo.

Module SymbolicationStepInfo.
Record t := mk {
    threadLibSymbolicationInfo : ThreadLibSymbolicationInfo.t;
    resultsForLib : gmap Z AddressResult.t }.
End SymbolicationStepInfo.

(** [LibKey]: a string of the form [${debugName}/${breakpadId}]. *)
Definition libKey (lib : Lib.t) : string :=
  Lib.debugName lib +:+ "/" +:+ Lib.breakpadId lib.

(** [s.split(sep)] for a one-character separator. *)
Fixpoint split (sep : ascii) (s : string) : list string :=
  match s with
  | EmptyString => [EmptyString]
  | String c s' =>
      if decide (c = sep) then EmptyString :: split sep s'
      else match split sep s' with
           | [] => [String c EmptyString]
           | part :: parts => String c part :: parts
           end
  end.

Fixpoint contains (c : ascii) (s : string) : bool :=
  match s with
  | EmptyString => false
  | String c' s' => if decide (c' = c) then true else contains c s'
  end.

(** ** makeConsensusMap *)

Section consensus.
Context {K V : Type} `{EqDecision K, EqDecision V}.

Definition consensusStep (st : list (K * V) * list K) (entry : K * V)
    : list (K * V) * list K :=
    let '(consensusMap, divergentKeys) := st in
    let '(key, value) := entry in
    if JsSet.has divergentKeys key then st
    else match JsMap.get consensusMap key with
         | None => (JsMap.set consensusMap key value, divergentKeys)
         | Some previousValue =>
             if decide (previousValue = value) then st
             else (JsMap.delete consensusMap key, JsSet.add divergentKeys key)
         end.

Definition makeConsensusMap (iterableOfEntryPairs : list (K * V))
    : list (K * V) :=
    (foldl consensusStep ([], []) iterableOfEntryPairs).1.
End consensus.

(** ** getThreadSymbolicationInfo: the address collector *)

Definition collectFuncs (funcTable : FuncTable.t) (resourceIndex : nat)
  : list nat :=
  filter (λ funcIndex,
            FuncTable.resource funcTable !! funcIndex
            = Some (Z.of_nat resourceIndex))
         (seq 0 (FuncTable.length funcTable)).

Definition collectNativeSymbols (nativeSymbols : NativeSymbolTable.t)
  (libIndex : Z) : list nat :=
  filter (λ nativeSymbolIndex,
            NativeSymbolTable.libIndex nativeSymbols !! nativeSymbolIndex
            = Some libIndex)
         (seq 0 (NativeSymbolTable.length nativeSymbols)).

Definition frameIsInResource (frameTable : FrameTable.t)
  (funcTable : FuncTable.t) (resourceIndex frameIndex : nat) : Prop :=
  (FrameTable.func frameTable !! frameIndex)
    ≫= (λ funcIndex, FuncTable.resource funcTable !! funcIndex)
  = Some (Z.of_nat resourceIndex).

Global Instance frameIsInResource_dec ft fn r f :
  Decision (frameIsInResource ft fn r f).
Proof. unfold frameIsInResource. apply _. Defined.

Definition collectFrames (frameTable : FrameTable.t) (funcTable : FuncTable.t)
  (resourceIndex : nat) : completion (list nat * list Z) :=
  foldlM (λ '(allFramesForThisLib, frameAddresses) frameIndex,
            if decide (frameIsInResource frameTable funcTable
                         resourceIndex frameIndex)
            then address ← read (FrameTable.address frameTable) frameIndex;
                 Returns (allFramesForThisLib ++ [frameIndex],
                          frameAddresses ++ [address])
            else Returns (allFramesForThisLib, frameAddresses))
         ([], []) (seq 0 (FrameTable.length frameTable)).

(** The record built for one library resource (the body of the loop after
    the lib row has been found). *)
Definition collectLib (thread : Thread.t) (resourceIndex : nat) (libIndex : Z)
  : completion ThreadLibSymbolicationInfo.t :=
  '(allFramesForThisLib, frameAddresses) ←
     collectFrames (Thread.frameTable thread) (Thread.funcTable thread)
       resourceIndex;
  Returns {|
    ThreadLibSymbolicationInfo.resourceIndex := resourceIndex;
    ThreadLibSymbolicationInfo.libIndex := libIndex;
    ThreadLibSymbolicationInfo.allFuncsForThisLib :=
      collectFuncs (Thread.funcTable thread) resourceIndex;
    ThreadLibSymbolicationInfo.allNativeSymbolsForThisLib :=
      collectNativeSymbols (Thread.nativeSymbols thread) libIndex;
    ThreadLibSymbolicationInfo.allFramesForThisLib := allFramesForThisLib;
    ThreadLibSymbolicationInfo.frameAddresses := frameAddresses |}.

Definition collectResource (thread : Thread.t)
  (map : list (string * ThreadLibSymbolicationInfo.t)) (resourceIndex : nat)
  : completion (list (string * ThreadLibSymbolicationInfo.t)) :=
  let resourceTable := Thread.resourceTable thread in
  if decide (ResourceTable.type resourceTable !! resourceIndex
             = Some resourceTypes_library)
  then match ResourceTable.lib resourceTable !! resourceIndex with
       | None | Some None => Returns map
       | Some (Some libIndex) =>
           if decide (libIndex = (-1)%Z) then Returns map
           else match lookupZ (Thread.libs thread) libIndex with
                | None => Throws (Error "Did not find a lib.")
                | Some lib =>
                    info ← collectLib thread resourceIndex libIndex;
                    Returns (JsMap.set map (libKey lib) info)
                end
       end
  else Returns map.

Definition getThreadSymbolicationInfo (thread : Thread.t)
  : completion (list (string * ThreadLibSymbolicationInfo.t)) :=
  foldlM (collectResource thread) []
         (seq 0 (ResourceTable.length (Thread.resourceTable thread))).

(** ** buildLibSymbolicationRequestsForAllThreads: the request aggregator *)

Module RequestLib.
  (** The destructured result of [libKey.split('/')]; [None] is
      [undefined]. *)
Record t := mk { debugName : option string; breakpadId : option string }.
End RequestLib.

Module LibSymbolicationRequest.
Record t := mk { lib : RequestLib.t; addresses : list Z }.
End LibSymbolicationRequest.

Definition addFrameAddresses (libKeyToAddressesMap : list (string * list Z))
  (entry : string * ThreadLibSymbolicationInfo.t) : list (string * list Z) :=
  let '(libKey, info) := entry in
  let addressSet :=
    match JsMap.get libKeyToAddressesMap libKey with
    | Some addressSet => addressSet
    | None => []
    end in
  JsMap.set libKeyToAddressesMap libKey
    (foldl JsSet.add addressSet
       (ThreadLibSymbolicationInfo.frameAddresses info)).

Definition libKeyToAddressesMap
  (symbolicationInfo : list (list (string * ThreadLibSymbolicationInfo.t)))
  : list (string * list Z) :=
  foldl (λ map threadSymbolicationInfo,
           foldl addFrameAddresses map threadSymbolicationInfo)
        [] symbolicationInfo.

Definition splitLibKey (libKey : string) : RequestLib.t :=
  let parts := split "/" libKey in
  {| RequestLib.debugName := parts !! 0; RequestLib.breakpadId := parts !! 1 |}.

Definition buildLibSymbolicationRequestsForAllThreads
  (symbolicationInfo : list (list (string * ThreadLibSymbolicationInfo.t)))
  : list LibSymbolicationRequest.t :=
  (λ '(libKey, addresses),
     {| LibSymbolicationRequest.lib := splitLibKey libKey;
        LibSymbolicationRequest.addresses := addresses |})
  <$> libKeyToAddressesMap symbolicationInfo.

(** ** applySymbolicationStep: the substitution engine *)

Definition placeholderName (address : Z) : string :=
  "0x" +:+ toString16 address.

(** First loop, one frame: the frame's old native symbol and the
    [addressResult] the loop settles on. *)
Definition resolveFrame (thread : Thread.t)
  (resultsForLib : gmap Z AddressResult.t) (frameIndex : nat)
  : completion (option nat * AddressResult.t) :=
  let oldFrameTable := Thread.frameTable thread in
  let oldNativeSymbols := Thread.nativeSymbols thread in
  oldFrameSymbol ← read (FrameTable.nativeSymbol oldFrameTable) frameIndex;
  address ← read (FrameTable.address oldFrameTable) frameIndex;
  addressResult ←
    match resultsForLib !! address with
    | Some addressResult => Returns addressResult
    | None =>
        match oldFrameSymbol with
        | Some oldFrameSymbol =>
            nameIndex ←
              read (NativeSymbolTable.name oldNativeSymbols) oldFrameSymbol;
            oldSymbolName ← getString (Thread.stringTable thread) nameIndex;
            symbolAddress ←
              read (NativeSymbolTable.address oldNativeSymbols) oldFrameSymbol;
            Returns {| AddressResult.symbolAddress := symbolAddress;
                       AddressResult.name := oldSymbolName;
                       AddressResult.file := None;
                       AddressResult.line := None |}
        | None =>
            Returns {| AddressResult.symbolAddress := address;
                       AddressResult.name := placeholderName address;
                       AddressResult.file := None;
                       AddressResult.line := None |}
        end
    end;
  Returns (oldFrameSymbol, addressResult).

Module StepA.
  (** The locals of the first loop. *)
Record t := mk {
    availableNativeSymbols : list nat;
    frameToSymbolAddressMap : list (nat * Z);
    symbolAddressToNameMap : list (Z * string);
    symbolAddressToCanonicalSymbolIndexMap : list (Z * nat) }.
End StepA.

Definition resolveSymbolAddress (thread : Thread.t)
  (resultsForLib : gmap Z AddressResult.t) (st : StepA.t) (frameIndex : nat)
  : completion StepA.t :=
  '(oldFrameSymbol, addressResult) ←
     resolveFrame thread resultsForLib frameIndex;
  let symbolAddress := AddressResult.symbolAddress addressResult in
  let frameToSymbolAddressMap :=
    JsMap.set (StepA.frameToSymbolAddressMap st) frameIndex symbolAddress in
  let symbolAddressToNameMap :=
    JsMap.set (StepA.symbolAddressToNameMap st) symbolAddress
      (AddressResult.name addressResult) in
  let canonical := StepA.symbolAddressToCanonicalSymbolIndexMap st in
  let available := StepA.availableNativeSymbols st in
  let unmatched :=
    {| StepA.availableNativeSymbols := available;
       StepA.frameToSymbolAddressMap := frameToSymbolAddressMap;
       StepA.symbolAddressToNameMap := symbolAddressToNameMap;
       StepA.symbolAddressToCanonicalSymbolIndexMap := canonical |} in
  match oldFrameSymbol with
  | Some oldFrameSymbol =>
      if negb (JsMap.has canonical symbolAddress)
      then if JsSet.has available oldFrameSymbol
           then Returns
             {| StepA.availableNativeSymbols :=
                  JsSet.delete available oldFrameSymbol;
                StepA.frameToSymbolAddressMap := frameToSymbolAddressMap;
                StepA.symbolAddressToNameMap := symbolAddressToNameMap;
                StepA.symbolAddressToCanonicalSymbolIndexMap :=
                  JsMap.set canonical symbolAddress oldFrameSymbol |}
           else Returns unmatched
      else Returns unmatched
  | None => Returns unmatched
  end.

Definition stepA (thread : Thread.t) (info : ThreadLibSymbolicationInfo.t)
  (resultsForLib : gmap Z AddressResult.t) : completion StepA.t :=
  foldlM (resolveSymbolAddress thread resultsForLib)
    {| StepA.availableNativeSymbols :=
         JsSet.of_list
           (ThreadLibSymbolicationInfo.allNativeSymbolsForThisLib info);
       StepA.frameToSymbolAddressMap := [];
       StepA.symbolAddressToNameMap := [];
       StepA.symbolAddressToCanonicalSymbolIndexMap := [] |}
    (ThreadLibSymbolicationInfo.allFramesForThisLib info).

(** Modelled from the spec: [shallowCloneNativeSymbolTable] and
    [shallowCloneFuncTable] of data-structures.js are not part of the
    sources at hand.  The spec says the engine works on newly allocated
    copies of the columns it touches; on table values a copy is the table
    itself, and the copies' identity is the business of [ByReference]
    below. *)
Definition shallowCloneNativeSymbolTable (t : NativeSymbolTable.t)
  : NativeSymbolTable.t := t.
Definition shallowCloneFuncTable (t : FuncTable.t) : FuncTable.t := t.

Module StepB.
  (** The state of the second loop. *)
Record t := mk {
    stringTable : list string;
    availableNativeSymbolIterator : list nat;
    nativeSymbols : NativeSymbolTable.t;
    symbolAddressToCanonicalSymbolIndexMap : list (Z * nat) }.
End StepB.

(** [symbolIndex = nativeSymbols.length; nativeSymbols.libIndex[symbolIndex]
    = libIndex; nativeSymbols.length++] *)
Definition addNativeSymbol (nativeSymbols : NativeSymbolTable.t) (libIndex : Z)
  : completion (nat * NativeSymbolTable.t) :=
  let symbolIndex := NativeSymbolTable.length nativeSymbols in
  libIndexColumn ←
    write (NativeSymbolTable.libIndex nativeSymbols) symbolIndex libIndex;
  Returns (symbolIndex,
           {| NativeSymbolTable.length := S symbolIndex;
              NativeSymbolTable.libIndex := libIndexColumn;
              NativeSymbolTable.address :=
                NativeSymbolTable.address nativeSymbols;
              NativeSymbolTable.name := NativeSymbolTable.name nativeSymbols |}).

Definition canonicalizeSymbol (libIndex : Z) (st : StepB.t)
  (entry : Z * string) : completion StepB.t :=
  let '(symbolAddress, symbolName) := entry in
  let '(symbolStringIndex, stringTable) :=
    indexForString symbolName (StepB.stringTable st) in
  '(symbolIndex, iterator, nativeSymbols, canonical) ←
    match JsMap.get (StepB.symbolAddressToCanonicalSymbolIndexMap st)
            symbolAddress with
    | Some symbolIndex =>
        Returns (symbolIndex, StepB.availableNativeSymbolIterator st,
                 StepB.nativeSymbols st,
                 StepB.symbolAddressToCanonicalSymbolIndexMap st)
    | None =>
        '(symbolIndex, iterator, nativeSymbols) ←
          match StepB.availableNativeSymbolIterator st with
          | symbolIndex :: iterator =>
              Returns (symbolIndex, iterator, StepB.nativeSymbols st)
          | [] =>
              '(symbolIndex, nativeSymbols) ←
                 addNativeSymbol (StepB.nativeSymbols st) libIndex;
              Returns (symbolIndex, [], nativeSymbols)
          end;
        Returns (symbolIndex, iterator, nativeSymbols,
                 JsMap.set (StepB.symbolAddressToCanonicalSymbolIndexMap st)
                   symbolAddress symbolIndex)
    end;
  addressColumn ←
    write (NativeSymbolTable.address nativeSymbols) symbolIndex symbolAddress;
  nameColumn ←
    write (NativeSymbolTable.name nativeSymbols) symbolIndex symbolStringIndex;
  Returns {|
    StepB.stringTable := stringTable;
    StepB.availableNativeSymbolIterator := iterator;
    StepB.nativeSymbols :=
      {| NativeSymbolTable.length := NativeSymbolTable.length nativeSymbols;
         NativeSymbolTable.libIndex :=
           NativeSymbolTable.libIndex nativeSymbols;
         NativeSymbolTable.address := addressColumn;
         NativeSymbolTable.name := nameColumn |};
    StepB.symbolAddressToCanonicalSymbolIndexMap := canonical |}.

Definition stepB (thread : Thread.t) (libIndex : Z) (a : StepA.t)
  : completion StepB.t :=
  foldlM (canonicalizeSymbol libIndex)
    {| StepB.stringTable := Thread.stringTable thread;
       StepB.availableNativeSymbolIterator := StepA.availableNativeSymbols a;
       StepB.nativeSymbols :=
         shallowCloneNativeSymbolTable (Thread.nativeSymbols thread);
       StepB.symbolAddressToCanonicalSymbolIndexMap :=
         StepA.symbolAddressToCanonicalSymbolIndexMap a |}
    (StepA.symbolAddressToNameMap a).

(** The loop that fills [newFrameTableNativeSymbolsColumn]. *)
Definition assignNativeSymbol (canonical : list (Z * nat))
  (column : list (option nat)) (entry : nat * Z)
  : completion (list (option nat)) :=
  let '(frameIndex, symbolAddress) := entry in
  match JsMap.get canonical symbolAddress with
  | None =>
      Throws (Error "Impossible, all symbolAddresses have a canonical symbol at this point.")
  | Some symbolIndex => write column frameIndex (Some symbolIndex)
  end.

Definition assignNativeSymbols (canonical : list (Z * nat))
  (oldColumn : list (option nat)) (frameToSymbolAddressMap : list (nat * Z))
  : completion (list (option nat)) :=
  foldlM (assignNativeSymbol canonical) oldColumn frameToSymbolAddressMap.

Module StepC.
  (** The state of the third loop.  [resolved] is not a variable of the
      source: it keeps, per frame visited, the [addressResult] the loop
      used, so that properties can speak about it. *)
Record t := mk {
    stringTable : list string;
    availableFuncIter : list nat;
    funcTable : FuncTable.t;
    funcKeyToFuncMap : list (string * nat);
    oldFuncToNewFuncEntries : list (nat * nat);
    newFrameTableFuncColumn : list nat;
    newFrameTableLineColumn : list (option nat);
    resolved : list (nat * AddressResult.t) }.
End StepC.

(** [`${functionStringIndex}:${fileNameStringIndex ?? ''}`] *)
Definition funcKey (functionStringIndex : nat)
  (fileNameStringIndex : option nat) : string :=
  pretty functionStringIndex +:+ ":" +:+
  match fileNameStringIndex with
  | Some index => pretty index
  | None => ""
  end.

(** [file !== undefined ? stringTable.indexForString(file) : null] *)
Definition indexForOptionalString (file : option string)
  (stringTable : list string) : option nat * list string :=
  match file with
  | Some file =>
      let '(index, stringTable) := indexForString file stringTable in
      (Some index, stringTable)
  | None => (None, stringTable)
  end.

(** The "Need a new func" branch. *)
Definition addFunc (funcTable : FuncTable.t) (resourceIndex : nat)
  : completion (nat * FuncTable.t) :=
  let funcIndex := FuncTable.length funcTable in
  isJS ← write (FuncTable.isJS funcTable) funcIndex false;
  relevantForJS ← write (FuncTable.relevantForJS funcTable) funcIndex false;
  resource ←
    write (FuncTable.resource funcTable) funcIndex (Z.of_nat resourceIndex);
  lineNumber ← write (FuncTable.lineNumber funcTable) funcIndex None;
  columnNumber ← write (FuncTable.columnNumber funcTable) funcIndex None;
  Returns (funcIndex,
           {| FuncTable.length := S funcIndex;
              FuncTable.name := FuncTable.name funcTable;
              FuncTable.fileName := FuncTable.fileName funcTable;
              FuncTable.resource := resource;
              FuncTable.isJS := isJS;
              FuncTable.relevantForJS := relevantForJS;
              FuncTable.lineNumber := lineNumber;
              FuncTable.columnNumber := columnNumber |}).

(** [funcTable.name[funcIndex] = ...; funcTable.fileName[funcIndex] = ...] *)
Definition nameFunc (funcTable : FuncTable.t) (funcIndex : nat)
  (functionStringIndex : nat) (fileNameStringIndex : option nat)
  : completion FuncTable.t :=
  name ← write (FuncTable.name funcTable) funcIndex functionStringIndex;
  fileName ←
    write (FuncTable.fileName funcTable) funcIndex fileNameStringIndex;
  Returns {| FuncTable.length := FuncTable.length funcTable;
             FuncTable.name := name;
             FuncTable.fileName := fileName;
             FuncTable.resource := FuncTable.resource funcTable;
             FuncTable.isJS := FuncTable.isJS funcTable;
             FuncTable.relevantForJS := FuncTable.relevantForJS funcTable;
             FuncTable.lineNumber := FuncTable.lineNumber funcTable;
             FuncTable.columnNumber := FuncTable.columnNumber funcTable |}.

(** Third loop, one frame: the [addressResult] it settles on. *)
Definition funcAddressResult (oldFrameTable : FrameTable.t)
  (resultsForLib : gmap Z AddressResult.t)
  (nativeSymbols : NativeSymbolTable.t)
  (newFrameTableNativeSymbolsColumn : list (option nat))
  (stringTable : list string) (funcTable : FuncTable.t)
  (frameIndex oldFunc : nat) : completion AddressResult.t :=
  nativeSymbolIndex ← read newFrameTableNativeSymbolsColumn frameIndex;
  match nativeSymbolIndex with
  | None => Throws (Error "Impossible, all frames now have native symbols.")
  | Some nativeSymbolIndex =>
      address ← read (FrameTable.address oldFrameTable) frameIndex;
      match resultsForLib !! address with
      | Some addressResult => Returns addressResult
      | None =>
          symbolName ←
            read (NativeSymbolTable.name nativeSymbols) nativeSymbolIndex;
          fileNameIndex ← read (FuncTable.fileName funcTable) oldFunc;
          symbolAddress ←
            read (NativeSymbolTable.address nativeSymbols) nativeSymbolIndex;
          name ← getString stringTable symbolName;
          file ← match fileNameIndex with
                 | Some fileNameIndex =>
                     s ← getString stringTable fileNameIndex; Returns (Some s)
                 | None => Returns None
                 end;
          line ← read (FrameTable.line oldFrameTable) frameIndex;
          Returns {| AddressResult.symbolAddress := symbolAddress;
                     AddressResult.name := name;
                     AddressResult.file := file;
                     AddressResult.line := line |}
      end
  end.

Definition canonicalizeFunc (oldFrameTable : FrameTable.t)
  (resultsForLib : gmap Z AddressResult.t)
  (nativeSymbols : NativeSymbolTable.t)
  (newFrameTableNativeSymbolsColumn : list (option nat))
  (resourceIndex : nat) (st : StepC.t) (frameIndex : nat)
  : completion StepC.t :=
  oldFunc ← read (FrameTable.func oldFrameTable) frameIndex;
  addressResult ←
    funcAddressResult oldFrameTable resultsForLib nativeSymbols
      newFrameTableNativeSymbolsColumn (StepC.stringTable st)
      (StepC.funcTable st) frameIndex oldFunc;
  let '(functionStringIndex, stringTable) :=
    indexForString (AddressResult.name addressResult) (StepC.stringTable st) in
  let '(fileNameStringIndex, stringTable) :=
    indexForOptionalString (AddressResult.file addressResult) stringTable in
  let funcKey := funcKey functionStringIndex fileNameStringIndex in
  '(funcIndex, iterator, funcTable, funcKeyToFuncMap) ←
    match JsMap.get (StepC.funcKeyToFuncMap st) funcKey with
    | Some funcIndex =>
        Returns (funcIndex, StepC.availableFuncIter st, StepC.funcTable st,
                 StepC.funcKeyToFuncMap st)
    | None =>
        '(funcIndex, iterator, funcTable) ←
          match StepC.availableFuncIter st with
          | funcIndex :: iterator =>
              Returns (funcIndex, iterator, StepC.funcTable st)
          | [] =>
              '(funcIndex, funcTable) ←
                 addFunc (StepC.funcTable st) resourceIndex;
              Returns (funcIndex, [], funcTable)
          end;
        funcTable ←
          nameFunc funcTable funcIndex functionStringIndex fileNameStringIndex;
        Returns (funcIndex, iterator, funcTable,
                 JsMap.set (StepC.funcKeyToFuncMap st) funcKey funcIndex)
    end;
  funcColumn ← write (StepC.newFrameTableFuncColumn st) frameIndex funcIndex;
  lineColumn ←
    write (StepC.newFrameTableLineColumn st) frameIndex
      (AddressResult.line addressResult);
  Returns {|
    StepC.stringTable := stringTable;
    StepC.availableFuncIter := iterator;
    StepC.funcTable := funcTable;
    StepC.funcKeyToFuncMap := funcKeyToFuncMap;
    StepC.oldFuncToNewFuncEntries :=
      StepC.oldFuncToNewFuncEntries st ++ [(oldFunc, funcIndex)];
    StepC.newFrameTableFuncColumn := funcColumn;
    StepC.newFrameTableLineColumn := lineColumn;
    StepC.resolved := StepC.resolved st ++ [(frameIndex, addressResult)] |}.

Definition stepC (thread : Thread.t) (info : ThreadLibSymbolicationInfo.t)
  (resultsForLib : gmap Z AddressResult.t) (stringTable : list string)
  (nativeSymbols : NativeSymbolTable.t)
  (newFrameTableNativeSymbolsColumn : list (option nat))
  : completion StepC.t :=
  let oldFrameTable := Thread.frameTable thread in
  foldlM (canonicalizeFunc oldFrameTable resultsForLib nativeSymbols
            newFrameTableNativeSymbolsColumn
            (ThreadLibSymbolicationInfo.resourceIndex info))
    {| StepC.stringTable := stringTable;
       StepC.availableFuncIter :=
         JsSet.of_list (ThreadLibSymbolicationInfo.allFuncsForThisLib info);
       StepC.funcTable := shallowCloneFuncTable (Thread.funcTable thread);
       StepC.funcKeyToFuncMap := [];
       StepC.oldFuncToNewFuncEntries := [];
       StepC.newFrameTableFuncColumn := FrameTable.func oldFrameTable;
       StepC.newFrameTableLineColumn := FrameTable.line oldFrameTable;
       StepC.resolved := [] |}
    (ThreadLibSymbolicationInfo.allFramesForThisLib info).

Module Run.
  (** What a call leaves behind: the returned thread, the caller's map
      after the call, and the locals the properties refer to. *)
Record t := mk {
    thread : Thread.t;
    oldFuncToNewFuncMap : list (nat * nat);
    stepA : StepA.t;
    stepB : StepB.t;
    stepC : StepC.t;
    oldFuncToNewFuncMapForThisLib : list (nat * nat) }.
End Run.

Definition runSymbolicationStep (thread : Thread.t)
  (symbolicationStepInfo : SymbolicationStepInfo.t)
  (oldFuncToNewFuncMap : list (nat * nat)) : completion Run.t :=
  let info :=
    SymbolicationStepInfo.threadLibSymbolicationInfo symbolicationStepInfo in
  let resultsForLib :=
    SymbolicationStepInfo.resultsForLib symbolicationStepInfo in
  let oldFrameTable := Thread.frameTable thread in
  a ← stepA thread info resultsForLib;
  b ← stepB thread (ThreadLibSymbolicationInfo.libIndex info) a;
  newFrameTableNativeSymbolsColumn ←
    assignNativeSymbols (StepB.symbolAddressToCanonicalSymbolIndexMap b)
      (FrameTable.nativeSymbol oldFrameTable)
      (StepA.frameToSymbolAddressMap a);
  c ← stepC thread info resultsForLib (StepB.stringTable b)
        (StepB.nativeSymbols b) newFrameTableNativeSymbolsColumn;
  let frameTable :=
    {| FrameTable.length := FrameTable.length oldFrameTable;
       FrameTable.address := FrameTable.address oldFrameTable;
       FrameTable.func := StepC.newFrameTableFuncColumn c;
       FrameTable.nativeSymbol := newFrameTableNativeSymbolsColumn;
       FrameTable.line := StepC.newFrameTableLineColumn c;
       FrameTable.innerWindowID := FrameTable.innerWindowID oldFrameTable |} in
  let oldFuncToNewFuncMapForThisLib :=
    makeConsensusMap (StepC.oldFuncToNewFuncEntries c) in
  Returns {|
    Run.thread :=
      {| Thread.libs := Thread.libs thread;
         Thread.frameTable := frameTable;
         Thread.funcTable := StepC.funcTable c;
         Thread.nativeSymbols := StepB.nativeSymbols b;
         Thread.resourceTable := Thread.resourceTable thread;
         Thread.stringTable := StepC.stringTable c |};
    Run.oldFuncToNewFuncMap :=
      foldl (λ map '(oldFunc, newFunc), JsMap.set map oldFunc newFunc)
        oldFuncToNewFuncMap oldFuncToNewFuncMapForThisLib;
    Run.stepA := a;
    Run.stepB := b;
    Run.stepC := c;
    Run.oldFuncToNewFuncMapForThisLib := oldFuncToNewFuncMapForThisLib |}.

(** The function as its callers see it: the new thread, and the map the
    caller passed in, updated. *)
Definition applySymbolicationStep (thread : Thread.t)
  (symbolicationStepInfo : SymbolicationStepInfo.t)
  (oldFuncToNewFuncMap : list (nat * nat))
  : completion (Thread.t * list (nat * nat)) :=
  run ← runSymbolicationStep thread symbolicationStepInfo oldFuncToNewFuncMap;
  Returns (Run.thread run, Run.oldFuncToNewFuncMap run).

(** ** symbolicateProfile: the orchestrator *)

Inductive ProviderAnswer : Type :=
  | Resolved (results : gmap Z AddressResult.t)
  | Failed (error : JsError).

Module World.
  (** What a run does to its surroundings: the calls of
      [symbolicationStepCallback] and of [console.warn], in order. *)
Record t := mk {
    steps : list (nat * SymbolicationStepInfo.t);
    warnings : list JsError }.
End World.

(** A value spliced into a template literal. *)
Definition spliced (s : option string) : string := default "undefined" s.

Definition finishSymbolicationForLib
  (symbolicationInfo : list (list (string * ThreadLibSymbolicationInfo.t)))
  (resultsForLib : gmap Z AddressResult.t) (libKey : string)
  : list (nat * SymbolicationStepInfo.t) :=
  omap (λ '(threadIndex, threadSymbolicationInfo),
          match JsMap.get threadSymbolicationInfo libKey with
          | None => None
          | Some threadLibSymbolicationInfo =>
              Some (threadIndex,
                    {| SymbolicationStepInfo.threadLibSymbolicationInfo :=
                         threadLibSymbolicationInfo;
                       SymbolicationStepInfo.resultsForLib := resultsForLib |})
          end)
       (imap pair symbolicationInfo).

(** The success callback handed to the symbol store. *)
Definition onSuccess
  (symbolicationInfo : list (list (string * ThreadLibSymbolicationInfo.t)))
  (request : LibSymbolicationRequest.t) (results : gmap Z AddressResult.t)
  (w : World.t) : World.t * completion unit :=
  let lib := LibSymbolicationRequest.lib request in
  let libKey := spliced (RequestLib.debugName lib) +:+ "/"
                +:+ spliced (RequestLib.breakpadId lib) in
  ({| World.steps :=
        World.steps w
        ++ finishSymbolicationForLib symbolicationInfo results libKey;
      World.warnings := World.warnings w |},
   Returns ()).

(** The failure callback handed to the symbol store. *)
Definition onFailure (request : LibSymbolicationRequest.t) (error : JsError)
  (w : World.t) : World.t * completion unit :=
  match error with
  | SymbolsNotFoundError _ =>
      ({| World.steps := World.steps w;
          World.warnings := World.warnings w ++ [error] |},
       Returns ())
  | _ => (w, Throws error)
  end.

(** Modelled from the spec: the symbol store is an external collaborator,
    specified by its contract only.  It fires one success-or-failure
    callback per requested library, in an order of its choosing, and an
    error thrown by a callback propagates to whoever awaits the task.  The
    store is therefore given by the answers it delivers, in delivery
    order. *)
Fixpoint getSymbols
  (answers : list (LibSymbolicationRequest.t * ProviderAnswer))
  (successCb : LibSymbolicationRequest.t → gmap Z AddressResult.t →
               World.t → World.t * completion unit)
  (errorCb : LibSymbolicationRequest.t → JsError →
             World.t → World.t * completion unit)
  (w : World.t) : World.t * completion unit :=
  match answers with
  | [] => (w, Returns ())
  | (request, answer) :: answers' =>
      let '(w', c) :=
        match answer with
        | Resolved results => successCb request results w
        | Failed error => errorCb request error w
        end in
      match c with
      | Returns _ => getSymbols answers' successCb errorCb w'
      | _ => (w', c)
      end
  end.

Definition symbolicateProfile (profile : list Thread.t)
  (symbolStore : list LibSymbolicationRequest.t →
                 list (LibSymbolicationRequest.t * ProviderAnswer))
  (w : World.t) : World.t * completion unit :=
  match mapM getThreadSymbolicationInfo profile with
  | Returns symbolicationInfo =>
      let libSymbolicationRequests :=
        buildLibSymbolicationRequestsForAllThreads symbolicationInfo in
      getSymbols (symbolStore libSymbolicationRequests)
        (onSuccess symbolicationInfo) onFailure w
  | Throws error => (w, Throws error)
  | OutOfType => (w, OutOfType)
  end.

(** ** Threads as objects: who shares which array

    The tables above are values.  To say what a call shares with its input
    and what it leaves alone, the step is given here a second time, on
    objects: a thread is an object whose columns are references into a
    store of arrays, the string table is one more object of the store,
    and the step reads and writes through the references, statement by
    statement as the source does.  A reference is a position in the store
    and a new array is appended to the store, so an array is new exactly
    when its reference is beyond the old store. *)

Module ByReference.

Inductive object : Type :=
    | Indices (column : list nat)
    | Nullables (column : list (option nat))
    | Integers (column : list Z)
    | Booleans (column : list bool)
    | Strings (table : list string).

  (** The element types of the arrays of a thread, and how an array of
      each is an object of the store. *)
Class Element (A : Type) := {
    inject : list A → object;
    project : object → option (list A) }.

Global Instance index_element : Element nat := {|
    inject := Indices;
    project o := match o with Indices l => Some l | _ => None end |}.
Global Instance nullable_element : Element (option nat) := {|
    inject := Nullables;
    project o := match o with Nullables l => Some l | _ => None end |}.
Global Instance integer_element : Element Z := {|
    inject := Integers;
    project o := match o with Integers l => Some l | _ => None end |}.
Global Instance boolean_element : Element bool := {|
    inject := Booleans;
    project o := match o with Booleans l => Some l | _ => None end |}.

  (** The array a reference stands for. *)
Definition array {A : Type} `{Element A} (σ : list object) (r : nat)
    : completion (list A) :=
    match σ !! r ≫= project with
    | Some column => Returns column
    | None => OutOfType
    end.

Definition strings (σ : list object) (r : nat) : completion (list string) :=
    match σ !! r with Some (Strings l) => Returns l | _ => OutOfType end.

  (** Code that works on the store: it returns a value and the store it
      leaves, or throws. *)
Definition M (A : Type) : Type := list object → completion (A * list object).

Global Instance M_ret : MRet M := λ A a σ, Returns (a, σ).
Global Instance M_bind : MBind M := λ A B f m σ,
    match m σ with
    | Returns (a, σ') => f a σ'
    | Throws error => Throws error
    | OutOfType => OutOfType
    end.

Definition throw {A : Type} (error : JsError) : M A := λ _, Throws error.

Fixpoint foldlM {A B : Type} (f : A → B → M A) (a : A) (l : list B) : M A :=
    match l with
    | [] => mret a
    | b :: l' => a' ← f a b; foldlM f a' l'
    end.

  (** [column[i]], read where the Flow type promises a value. *)
Definition readAt {A : Type} `{Element A} (r i : nat) : M A := λ σ,
    column ← array σ r; a ← read column i; Returns (a, σ).

  (** [column[i] = a]: the array itself is changed. *)
Definition writeAt {A : Type} `{Element A} (r i : nat) (a : A) : M unit :=
    λ σ, column ← array (A:=A) σ r;
         column' ← write column i a;
         Returns ((), <[r := inject column']> σ).

  (** [column.slice()]: a new array with the elements of the old one. *)
Definition slice (r : nat) : M nat := λ σ,
    match σ !! r with
    | Some (Strings _) | None => OutOfType
    | Some o => Returns (length σ, σ ++ [o])
    end.

  (** Modelled from the spec: the string table class (UniqueStringArray)
      is not part of the sources at hand; see [getString] and
      [indexForString] above.  The table is an object of its own, and
      [indexForString] appends to that object. *)
Definition stringTable_getString (stringTable index : nat) : M string :=
    λ σ, table ← strings σ stringTable;
         s ← getString table index;
         Returns (s, σ).

Definition stringTable_indexForString (stringTable : nat) (s : string)
    : M nat := λ σ,
    table ← strings σ stringTable;
    let '(index, table') := indexForString s table in
    Returns (index, <[stringTable := Strings table']> σ).

Module FrameTableObject.
Record t := mk {
      length : nat;
      address : nat;
      func : nat;
      nativeSymbol : nat;
      line : nat;
      innerWindowID : nat }.
End FrameTableObject.

Module FuncTableObject.
Record t := mk {
      length : nat;
      name : nat;
      fileName : nat;
      resource : nat;
      isJS : nat;
      relevantForJS : nat;
      lineNumber : nat;
      columnNumber : nat }.
End FuncTableObject.

Module NativeSymbolsObject.
Record t := mk {
      length : nat;
      libIndex : nat;
      address : nat;
      name : nat }.
End NativeSymbolsObject.

Module ThreadObject.
    (** [libs] and [resourceTable], which the step neither reads nor
        writes, stay values. *)
Record t := mk {
      libs : list Lib.t;
      frameTable : FrameTableObject.t;
      funcTable : FuncTableObject.t;
      nativeSymbols : NativeSymbolsObject.t;
      resourceTable : ResourceTable.t;
      stringTable : nat }.
End ThreadObject.

Definition loadFrameTable (σ : list object) (o : FrameTableObject.t)
    : completion FrameTable.t :=
    address ← array σ (FrameTableObject.address o);
    func ← array σ (FrameTableObject.func o);
    nativeSymbol ← array σ (FrameTableObject.nativeSymbol o);
    line ← array σ (FrameTableObject.line o);
    innerWindowID ← array σ (FrameTableObject.innerWindowID o);
    Returns {| FrameTable.length := FrameTableObject.length o;
               FrameTable.address := address;
               FrameTable.func := func;
               FrameTable.nativeSymbol := nativeSymbol;
               FrameTable.line := line;
               FrameTable.innerWindowID := innerWindowID |}.

Definition loadFuncTable (σ : list object) (o : FuncTableObject.t)
    : completion FuncTable.t :=
    name ← array σ (FuncTableObject.name o);
    fileName ← array σ (FuncTableObject.fileName o);
    resource ← array σ (FuncTableObject.resource o);
    isJS ← array σ (FuncTableObject.isJS o);
    relevantForJS ← array σ (FuncTableObject.relevantForJS o);
    lineNumber ← array σ (FuncTableObject.lineNumber o);
    columnNumber ← array σ (FuncTableObject.columnNumber o);
    Returns {| FuncTable.length := FuncTableObject.length o;
               FuncTable.name := name;
               FuncTable.fileName := fileName;
               FuncTable.resource := resource;
               FuncTable.isJS := isJS;
               FuncTable.relevantForJS := relevantForJS;
               FuncTable.lineNumber := lineNumber;
               FuncTable.columnNumber := columnNumber |}.

Definition loadNativeSymbols (σ : list object) (o : NativeSymbolsObject.t)
    : completion NativeSymbolTable.t :=
    libIndex ← array σ (NativeSymbolsObject.libIndex o);
    address ← array σ (NativeSymbolsObject.address o);
    name ← array σ (NativeSymbolsObject.name o);
    Returns {| NativeSymbolTable.length := NativeSymbolsObject.length o;
               NativeSymbolTable.libIndex := libIndex;
               NativeSymbolTable.address := address;
               NativeSymbolTable.name := name |}.

  (** The thread as the value its references stand for in the store. *)
Definition load (σ : list object) (o : ThreadObject.t)
    : completion Thread.t :=
    frameTable ← loadFrameTable σ (ThreadObject.frameTable o);
    funcTable ← loadFuncTable σ (ThreadObject.funcTable o);
    nativeSymbols ← loadNativeSymbols σ (ThreadObject.nativeSymbols o);
    stringTable ← strings σ (ThreadObject.stringTable o);
    Returns {| Thread.libs := ThreadObject.libs o;
               Thread.frameTable := frameTable;
               Thread.funcTable := funcTable;
               Thread.nativeSymbols := nativeSymbols;
               Thread.resourceTable := ThreadObject.resourceTable o;
               Thread.stringTable := stringTable |}.

  (** Modelled from the spec: [shallowCloneNativeSymbolTable] of
      data-structures.js is not part of the sources at hand.  The spec
      says the table is replaced by a copy with newly allocated arrays:
      a new table object whose columns are copies of the old columns. *)
Definition shallowCloneNativeSymbolTable (t : NativeSymbolsObject.t)
    : M NativeSymbolsObject.t :=
    libIndex ← slice (NativeSymbolsObject.libIndex t);
    address ← slice (NativeSymbolsObject.address t);
    name ← slice (NativeSymbolsObject.name t);
    mret {| NativeSymbolsObject.length := NativeSymbolsObject.length t;
            NativeSymbolsObject.libIndex := libIndex;
            NativeSymbolsObject.address := address;
            NativeSymbolsObject.name := name |}.

  (** Modelled from the spec: [shallowCloneFuncTable] of
      data-structures.js is not part of the sources at hand; as for the
      native symbols. *)
Definition shallowCloneFuncTable (t : FuncTableObject.t)
    : M FuncTableObject.t :=
    isJS ← slice (FuncTableObject.isJS t);
    relevantForJS ← slice (FuncTableObject.relevantForJS t);
    name ← slice (FuncTableObject.name t);
    resource ← slice (FuncTableObject.resource t);
    fileName ← slice (FuncTableObject.fileName t);
    lineNumber ← slice (FuncTableObject.lineNumber t);
    columnNumber ← slice (FuncTableObject.columnNumber t);
    mret {| FuncTableObject.length := FuncTableObject.length t;
            FuncTableObject.name := name;
            FuncTableObject.fileName := fileName;
            FuncTableObject.resource := resource;
            FuncTableObject.isJS := isJS;
            FuncTableObject.relevantForJS := relevantForJS;
            FuncTableObject.lineNumber := lineNumber;
            FuncTableObject.columnNumber := columnNumber |}.

  (** First loop, one frame: the frame's old native symbol and the
      [addressResult] the loop settles on (lines 431-449). *)
Definition resolveFrame (thread : ThreadObject.t)
    (resultsForLib : gmap Z AddressResult.t) (frameIndex : nat)
    : M (option nat * AddressResult.t) :=
    let oldFrameTable := ThreadObject.frameTable thread in
    let oldNativeSymbols := ThreadObject.nativeSymbols thread in
    let stringTable := ThreadObject.stringTable thread in
    oldFrameSymbol ←
      readAt (FrameTableObject.nativeSymbol oldFrameTable) frameIndex;
    address ← readAt (FrameTableObject.address oldFrameTable) frameIndex;
    addressResult ←
      match resultsForLib !! address with
      | Some addressResult => mret addressResult
      | None =>
          match oldFrameSymbol with
          | Some oldFrameSymbol =>
              nameIndex ←
                readAt (NativeSymbolsObject.name oldNativeSymbols)
                  oldFrameSymbol;
              oldSymbolName ← stringTable_getString stringTable nameIndex;
              symbolAddress ←
                readAt (NativeSymbolsObject.address oldNativeSymbols)
                  oldFrameSymbol;
              mret {| AddressResult.symbolAddress := symbolAddress;
                      AddressResult.name := oldSymbolName;
                      AddressResult.file := None;
                      AddressResult.line := None |}
          | None =>
              mret {| AddressResult.symbolAddress := address;
                      AddressResult.name := placeholderName address;
                      AddressResult.file := None;
                      AddressResult.line := None |}
          end
      end;
    mret (oldFrameSymbol, addressResult).

  (** First loop, one frame (lines 430-481); its locals are maps and sets
      of the call's own, [StepA.t]. *)
Definition resolveSymbolAddress (thread : ThreadObject.t)
    (resultsForLib : gmap Z AddressResult.t) (st : StepA.t) (frameIndex : nat)
    : M StepA.t :=
    '(oldFrameSymbol, addressResult) ←
       resolveFrame thread resultsForLib frameIndex;
    let symbolAddress := AddressResult.symbolAddress addressResult in
    let frameToSymbolAddressMap :=
      JsMap.set (StepA.frameToSymbolAddressMap st) frameIndex symbolAddress in
    let symbolAddressToNameMap :=
      JsMap.set (StepA.symbolAddressToNameMap st) symbolAddress
        (AddressResult.name addressResult) in
    let canonical := StepA.symbolAddressToCanonicalSymbolIndexMap st in
    let available := StepA.availableNativeSymbols st in
    let unmatched :=
      {| StepA.availableNativeSymbols := available;
         StepA.frameToSymbolAddressMap := frameToSymbolAddressMap;
         StepA.symbolAddressToNameMap := symbolAddressToNameMap;
         StepA.symbolAddressToCanonicalSymbolIndexMap := canonical |} in
    match oldFrameSymbol with
    | Some oldFrameSymbol =>
        if negb (JsMap.has canonical symbolAddress)
        then if JsSet.has available oldFrameSymbol
             then mret
               {| StepA.availableNativeSymbols :=
                    JsSet.delete available oldFrameSymbol;
                  StepA.frameToSymbolAddressMap := frameToSymbolAddressMap;
                  StepA.symbolAddressToNameMap := symbolAddressToNameMap;
                  StepA.symbolAddressToCanonicalSymbolIndexMap :=
                    JsMap.set canonical symbolAddress oldFrameSymbol |}
             else mret unmatched
        else mret unmatched
    | None => mret unmatched
    end.

Definition stepA (thread : ThreadObject.t)
    (info : ThreadLibSymbolicationInfo.t)
    (resultsForLib : gmap Z AddressResult.t) : M StepA.t :=
    foldlM (resolveSymbolAddress thread resultsForLib)
      {| StepA.availableNativeSymbols :=
           JsSet.of_list
             (ThreadLibSymbolicationInfo.allNativeSymbolsForThisLib info);
         StepA.frameToSymbolAddressMap := [];
         StepA.symbolAddressToNameMap := [];
         StepA.symbolAddressToCanonicalSymbolIndexMap := [] |}
      (ThreadLibSymbolicationInfo.allFramesForThisLib info).

Module StepBObject.
    (** The locals of the second loop; [nativeSymbols] is the clone. *)
Record t := mk {
      availableNativeSymbolIterator : list nat;
      nativeSymbols : NativeSymbolsObject.t;
      symbolAddressToCanonicalSymbolIndexMap : list (Z * nat) }.
End StepBObject.

  (** [symbolIndex = nativeSymbols.length; nativeSymbols.libIndex[symbolIndex]
      = libIndex; nativeSymbols.length++] *)
Definition addNativeSymbol (nativeSymbols : NativeSymbolsObject.t)
    (libIndex : Z) : M (nat * NativeSymbolsObject.t) :=
    let symbolIndex := NativeSymbolsObject.length nativeSymbols in
    _ ← writeAt (NativeSymbolsObject.libIndex nativeSymbols) symbolIndex
          libIndex;
    mret (symbolIndex,
          {| NativeSymbolsObject.length := S symbolIndex;
             NativeSymbolsObject.libIndex :=
               NativeSymbolsObject.libIndex nativeSymbols;
             NativeSymbolsObject.address :=
               NativeSymbolsObject.address nativeSymbols;
             NativeSymbolsObject.name :=
               NativeSymbolsObject.name nativeSymbols |}).

  (** Second loop, one symbol address (lines 503-522). *)
Definition canonicalizeSymbol (stringTable : nat) (libIndex : Z)
    (st : StepBObject.t) (entry : Z * string) : M StepBObject.t :=
    let '(symbolAddress, symbolName) := entry in
    symbolStringIndex ← stringTable_indexForString stringTable symbolName;
    '(symbolIndex, iterator, nativeSymbols, canonical) ←
      match JsMap.get (StepBObject.symbolAddressToCanonicalSymbolIndexMap st)
              symbolAddress with
      | Some symbolIndex =>
          mret (symbolIndex, StepBObject.availableNativeSymbolIterator st,
                StepBObject.nativeSymbols st,
                StepBObject.symbolAddressToCanonicalSymbolIndexMap st)
      | None =>
          '(symbolIndex, iterator, nativeSymbols) ←
            match StepBObject.availableNativeSymbolIterator st with
            | symbolIndex :: iterator =>
                mret (symbolIndex, iterator, StepBObject.nativeSymbols st)
            | [] =>
                '(symbolIndex, nativeSymbols) ←
                   addNativeSymbol (StepBObject.nativeSymbols st) libIndex;
                mret (symbolIndex, [], nativeSymbols)
            end;
          mret (symbolIndex, iterator, nativeSymbols,
                JsMap.set
                  (StepBObject.symbolAddressToCanonicalSymbolIndexMap st)
                  symbolAddress symbolIndex)
      end;
    _ ← writeAt (NativeSymbolsObject.address nativeSymbols) symbolIndex
          symbolAddress;
    _ ← writeAt (NativeSymbolsObject.name nativeSymbols) symbolIndex
          symbolStringIndex;
    mret {| StepBObject.availableNativeSymbolIterator := iterator;
            StepBObject.nativeSymbols := nativeSymbols;
            StepBObject.symbolAddressToCanonicalSymbolIndexMap := canonical |}.

  (** Lines 501-522: the clone, then the loop. *)
Definition stepB (thread : ThreadObject.t) (libIndex : Z) (a : StepA.t)
    : M StepBObject.t :=
    nativeSymbols ←
      shallowCloneNativeSymbolTable (ThreadObject.nativeSymbols thread);
    foldlM (canonicalizeSymbol (ThreadObject.stringTable thread) libIndex)
      {| StepBObject.availableNativeSymbolIterator :=
           StepA.availableNativeSymbols a;
         StepBObject.nativeSymbols := nativeSymbols;
         StepBObject.symbolAddressToCanonicalSymbolIndexMap :=
           StepA.symbolAddressToCanonicalSymbolIndexMap a |}
      (StepA.symbolAddressToNameMap a).

  (** The loop that fills [newFrameTableNativeSymbolsColumn], one entry
      (lines 527-536). *)
Definition assignNativeSymbol (canonical : list (Z * nat))
    (newFrameTableNativeSymbolsColumn : nat) (_ : unit) (entry : nat * Z)
    : M unit :=
    let '(frameIndex, symbolAddress) := entry in
    match JsMap.get canonical symbolAddress with
    | None =>
        throw (Error "Impossible, all symbolAddresses have a canonical symbol at this point.")
    | Some symbolIndex =>
        writeAt newFrameTableNativeSymbolsColumn frameIndex (Some symbolIndex)
    end.

  (** Lines 526-536: the copy of the column, then the loop. *)
Definition assignNativeSymbols (canonical : list (Z * nat))
    (oldColumn : nat) (frameToSymbolAddressMap : list (nat * Z)) : M nat :=
    newFrameTableNativeSymbolsColumn ← slice oldColumn;
    _ ← foldlM (assignNativeSymbol canonical newFrameTableNativeSymbolsColumn)
          () frameToSymbolAddressMap;
    mret newFrameTableNativeSymbolsColumn.

Module StepCObject.
    (** The locals of the third loop; [funcTable] is the clone, and the
        two columns are the copies. *)
Record t := mk {
      availableFuncIter : list nat;
      funcTable : FuncTableObject.t;
      funcKeyToFuncMap : list (string * nat);
      oldFuncToNewFuncEntries : list (nat * nat);
      newFrameTableFuncColumn : nat;
      newFrameTableLineColumn : nat }.
End StepCObject.

  (** The "Need a new func" branch (lines 587-594). *)
Definition addFunc (funcTable : FuncTableObject.t) (resourceIndex : nat)
    : M (nat * FuncTableObject.t) :=
    let funcIndex := FuncTableObject.length funcTable in
    _ ← writeAt (FuncTableObject.isJS funcTable) funcIndex false;
    _ ← writeAt (FuncTableObject.relevantForJS funcTable) funcIndex false;
    _ ← writeAt (FuncTableObject.resource funcTable) funcIndex
          (Z.of_nat resourceIndex);
    _ ← writeAt (FuncTableObject.lineNumber funcTable) funcIndex
          (None : option nat);
    _ ← writeAt (FuncTableObject.columnNumber funcTable) funcIndex
          (None : option nat);
    mret (funcIndex,
          {| FuncTableObject.length := S funcIndex;
             FuncTableObject.name := FuncTableObject.name funcTable;
             FuncTableObject.fileName := FuncTableObject.fileName funcTable;
             FuncTableObject.resource := FuncTableObject.resource funcTable;
             FuncTableObject.isJS := FuncTableObject.isJS funcTable;
             FuncTableObject.relevantForJS :=
               FuncTableObject.relevantForJS funcTable;
             FuncTableObject.lineNumber :=
               FuncTableObject.lineNumber funcTable;
             FuncTableObject.columnNumber :=
               FuncTableObject.columnNumber funcTable |}).

  (** [funcTable.name[funcIndex] = ...; funcTable.fileName[funcIndex] = ...]
      (lines 596-597). *)
Definition nameFunc (funcTable : FuncTableObject.t) (funcIndex : nat)
    (functionStringIndex : nat) (fileNameStringIndex : option nat)
    : M unit :=
    _ ← writeAt (FuncTableObject.name funcTable) funcIndex
          functionStringIndex;
    writeAt (FuncTableObject.fileName funcTable) funcIndex
      fileNameStringIndex.

  (** Third loop, one frame: the [addressResult] it settles on
      (lines 555-573). *)
Definition funcAddressResult (thread : ThreadObject.t)
    (resultsForLib : gmap Z AddressResult.t)
    (nativeSymbols : NativeSymbolsObject.t)
    (newFrameTableNativeSymbolsColumn : nat) (funcTable : FuncTableObject.t)
    (frameIndex oldFunc : nat) : M AddressResult.t :=
    let oldFrameTable := ThreadObject.frameTable thread in
    let stringTable := ThreadObject.stringTable thread in
    nativeSymbolIndex ← readAt newFrameTableNativeSymbolsColumn frameIndex;
    match nativeSymbolIndex with
    | None => throw (Error "Impossible, all frames now have native symbols.")
    | Some nativeSymbolIndex =>
        address ← readAt (FrameTableObject.address oldFrameTable) frameIndex;
        match resultsForLib !! address with
        | Some addressResult => mret addressResult
        | None =>
            symbolName ←
              readAt (NativeSymbolsObject.name nativeSymbols)
                nativeSymbolIndex;
            fileNameIndex ←
              readAt (FuncTableObject.fileName funcTable) oldFunc;
            symbolAddress ←
              readAt (NativeSymbolsObject.address nativeSymbols)
                nativeSymbolIndex;
            name ← stringTable_getString stringTable symbolName;
            file ← match fileNameIndex with
                   | Some fileNameIndex =>
                       s ← stringTable_getString stringTable fileNameIndex;
                       mret (Some s)
                   | None => mret None
                   end;
            line ← readAt (FrameTableObject.line oldFrameTable) frameIndex;
            mret {| AddressResult.symbolAddress := symbolAddress;
                    AddressResult.name := name;
                    AddressResult.file := file;
                    AddressResult.line := line |}
        end
    end.

  (** Third loop, one frame (lines 553-604). *)
Definition canonicalizeFunc (thread : ThreadObject.t)
    (resultsForLib : gmap Z AddressResult.t)
    (nativeSymbols : NativeSymbolsObject.t)
    (newFrameTableNativeSymbolsColumn : nat) (resourceIndex : nat)
    (st : StepCObject.t) (frameIndex : nat) : M StepCObject.t :=
    let oldFrameTable := ThreadObject.frameTable thread in
    let stringTable := ThreadObject.stringTable thread in
    oldFunc ← readAt (FrameTableObject.func oldFrameTable) frameIndex;
    addressResult ←
      funcAddressResult thread resultsForLib nativeSymbols
        newFrameTableNativeSymbolsColumn (StepCObject.funcTable st)
        frameIndex oldFunc;
    functionStringIndex ←
      stringTable_indexForString stringTable (AddressResult.name addressResult);
    fileNameStringIndex ←
      match AddressResult.file addressResult with
      | Some file =>
          index ← stringTable_indexForString stringTable file;
          mret (Some index)
      | None => mret None
      end;
    let funcKey := funcKey functionStringIndex fileNameStringIndex in
    '(funcIndex, iterator, funcTable, funcKeyToFuncMap) ←
      match JsMap.get (StepCObject.funcKeyToFuncMap st) funcKey with
      | Some funcIndex =>
          mret (funcIndex, StepCObject.availableFuncIter st,
                StepCObject.funcTable st, StepCObject.funcKeyToFuncMap st)
      | None =>
          '(funcIndex, iterator, funcTable) ←
            match StepCObject.availableFuncIter st with
            | funcIndex :: iterator =>
                mret (funcIndex, iterator, StepCObject.funcTable st)
            | [] =>
                '(funcIndex, funcTable) ←
                   addFunc (StepCObject.funcTable st) resourceIndex;
                mret (funcIndex, [], funcTable)
            end;
          _ ← nameFunc funcTable funcIndex functionStringIndex
                fileNameStringIndex;
          mret (funcIndex, iterator, funcTable,
                JsMap.set (StepCObject.funcKeyToFuncMap st) funcKey funcIndex)
      end;
    _ ← writeAt (StepCObject.newFrameTableFuncColumn st) frameIndex funcIndex;
    _ ← writeAt (StepCObject.newFrameTableLineColumn st) frameIndex
          (AddressResult.line addressResult);
    mret {| StepCObject.availableFuncIter := iterator;
            StepCObject.funcTable := funcTable;
            StepCObject.funcKeyToFuncMap := funcKeyToFuncMap;
            StepCObject.oldFuncToNewFuncEntries :=
              StepCObject.oldFuncToNewFuncEntries st
              ++ [(oldFunc, funcIndex)];
            StepCObject.newFrameTableFuncColumn :=
              StepCObject.newFrameTableFuncColumn st;
            StepCObject.newFrameTableLineColumn :=
              StepCObject.newFrameTableLineColumn st |}.

  (** Lines 543-604: the clone, the two copies, then the loop. *)
Definition stepC (thread : ThreadObject.t)
    (info : ThreadLibSymbolicationInfo.t)
    (resultsForLib : gmap Z AddressResult.t)
    (nativeSymbols : NativeSymbolsObject.t)
    (newFrameTableNativeSymbolsColumn : nat) : M StepCObject.t :=
    let oldFrameTable := ThreadObject.frameTable thread in
    funcTable ← shallowCloneFuncTable (ThreadObject.funcTable thread);
    newFrameTableFuncColumn ← slice (FrameTableObject.func oldFrameTable);
    newFrameTableLineColumn ← slice (FrameTableObject.line oldFrameTable);
    foldlM (canonicalizeFunc thread resultsForLib nativeSymbols
              newFrameTableNativeSymbolsColumn
              (ThreadLibSymbolicationInfo.resourceIndex info))
      {| StepCObject.availableFuncIter :=
           JsSet.of_list (ThreadLibSymbolicationInfo.allFuncsForThisLib info);
         StepCObject.funcTable := funcTable;
         StepCObject.funcKeyToFuncMap := [];
         StepCObject.oldFuncToNewFuncEntries := [];
         StepCObject.newFrameTableFuncColumn := newFrameTableFuncColumn;
         StepCObject.newFrameTableLineColumn := newFrameTableLineColumn |}
      (ThreadLibSymbolicationInfo.allFramesForThisLib info).

  (** The step on objects: what the source reads it reads through the
      references of the thread it is given, what it writes it writes into
      the array the reference stands for, and an array is new only where
      the source makes one ([slice()], a clone).  The caller's map is
      handed back as the call leaves it. *)
Definition applySymbolicationStep (thread : ThreadObject.t)
    (symbolicationStepInfo : SymbolicationStepInfo.t)
    (oldFuncToNewFuncMap : list (nat * nat))
    : M (ThreadObject.t * list (nat * nat)) :=
    let info :=
      SymbolicationStepInfo.threadLibSymbolicationInfo symbolicationStepInfo in
    let resultsForLib :=
      SymbolicationStepInfo.resultsForLib symbolicationStepInfo in
    let oldFrameTable := ThreadObject.frameTable thread in
    a ← stepA thread info resultsForLib;
    b ← stepB thread (ThreadLibSymbolicationInfo.libIndex info) a;
    newFrameTableNativeSymbolsColumn ←
      assignNativeSymbols
        (StepBObject.symbolAddressToCanonicalSymbolIndexMap b)
        (FrameTableObject.nativeSymbol oldFrameTable)
        (StepA.frameToSymbolAddressMap a);
    c ← stepC thread info resultsForLib (StepBObject.nativeSymbols b)
          newFrameTableNativeSymbolsColumn;
    let frameTable :=
      {| FrameTableObject.length := FrameTableObject.length oldFrameTable;
         FrameTableObject.address := FrameTableObject.address oldFrameTable;
         FrameTableObject.func := StepCObject.newFrameTableFuncColumn c;
         FrameTableObject.nativeSymbol := newFrameTableNativeSymbolsColumn;
         FrameTableObject.line := StepCObject.newFrameTableLineColumn c;
         FrameTableObject.innerWindowID :=
           FrameTableObject.innerWindowID oldFrameTable |} in
    let oldFuncToNewFuncMapForThisLib :=
      makeConsensusMap (StepCObject.oldFuncToNewFuncEntries c) in
    mret ({| ThreadObject.libs := ThreadObject.libs thread;
             ThreadObject.frameTable := frameTable;
             ThreadObject.funcTable := StepCObject.funcTable c;
             ThreadObject.nativeSymbols := StepBObject.nativeSymbols b;
             ThreadObject.resourceTable := ThreadObject.resourceTable thread;
             ThreadObject.stringTable := ThreadObject.stringTable thread |},
          foldl (λ map '(oldFunc, newFunc), JsMap.set map oldFunc newFunc)
            oldFuncToNewFuncMap oldFuncToNewFuncMapForThisLib).

End ByReference.

(** What holds of the element types: an array is told from its object,
    and no array is a string table. *)
Class ElementLaws (A : Type) `{ByReference.Element A} := {
  project_inject (l : list A) :
    ByReference.project (ByReference.inject l) = Some l;
  project_Some (o : ByReference.object) (l : list A) :
    ByReference.project o = Some l → o = ByReference.inject l;
  project_Strings (t : list string) :
    ByReference.project (A:=A) (ByReference.Strings t) = None }.

(** ** Vocabulary of the properties *)

(** [a] is a frame address recorded for library key [k] by some entry. *)
Definition recordedAddress
  (entries : list (string * ThreadLibSymbolicationInfo.t))
  (k : string) (a : Z) : Prop :=
  ∃ info, (k, info) ∈ entries
          ∧ a ∈ ThreadLibSymbolicationInfo.frameAddresses info.

(** [m] is the aggregation of [entries]: one key per library key of the
    entries, holding the set of the addresses recorded for it. *)
Definition aggregates
  (entries : list (string * ThreadLibSymbolicationInfo.t))
  (m : list (string * list Z)) : Prop :=
  NoDup m.*1
  ∧ (∀ k, k ∈ m.*1 ↔ k ∈ entries.*1)
  ∧ ∀ k s, JsMap.get m k = Some s →
           NoDup s ∧ ∀ a, a ∈ s ↔ recordedAddress entries k a.

(** Resource row [resourceIndex] is of kind library and has a lib index
    (not [null], [undefined] or [-1]) with no row in the thread's libs. *)
Definition pointsAtMissingLib (thread : Thread.t) (resourceIndex : nat)
  : Prop :=
  ResourceTable.type (Thread.resourceTable thread) !! resourceIndex
  = Some resourceTypes_library
  ∧ ∃ libIndex : Z,
      ResourceTable.lib (Thread.resourceTable thread) !! resourceIndex
      = Some (Some libIndex)
      ∧ libIndex ≠ (-1)%Z
      ∧ lookupZ (Thread.libs thread) libIndex = None.

(** What holds of the locals of the first loop once it has visited the
    frames [visited]; [symbols] is the library's set of native symbols. *)
Definition stepA_invariant (thread : Thread.t)
  (resultsForLib : gmap Z AddressResult.t) (symbols visited : list nat)
  (a : StepA.t) : Prop :=
  let frameToSymbolAddressMap := StepA.frameToSymbolAddressMap a in
  let symbolAddressToNameMap := StepA.symbolAddressToNameMap a in
  let canonical := StepA.symbolAddressToCanonicalSymbolIndexMap a in
  let available := StepA.availableNativeSymbols a in
  NoDup frameToSymbolAddressMap.*1
  ∧ (∀ f, f ∈ frameToSymbolAddressMap.*1 ↔ f ∈ visited)
  ∧ (∀ f symbolAddress,
       JsMap.get frameToSymbolAddressMap f = Some symbolAddress →
       ∃ old r, resolveFrame thread resultsForLib f = Returns (old, r)
                ∧ AddressResult.symbolAddress r = symbolAddress)
  ∧ NoDup symbolAddressToNameMap.*1
  ∧ (∀ symbolAddress,
       symbolAddress ∈ symbolAddressToNameMap.*1
       ↔ ∃ f, JsMap.get frameToSymbolAddressMap f = Some symbolAddress)
  ∧ NoDup canonical.*1
  ∧ canonical.*1 ⊆ symbolAddressToNameMap.*1
  ∧ NoDup canonical.*2
  ∧ NoDup available
  ∧ (∀ s, s ∈ canonical.*2 → s ∈ symbols)
  ∧ (∀ s, s ∈ available ↔ s ∈ symbols ∧ s ∉ canonical.*2).

(** ** A small profile to run the engine on

    The unsymbolicated thread of the engine's tests: five native frames in
    one library, one func per frame, no native symbols yet; and two symbol
    tables for it, a coarse one and a complete one. *)
Module Example.

Definition lib : Lib.t :=
    {| Lib.debugName := "firefox.pdb";
       Lib.breakpadId := "000000000000000000000000000000000" |}.

Definition thread : Thread.t :=
    {| Thread.libs := [lib];
       Thread.frameTable :=
         {| FrameTable.length := 5;
            FrameTable.address := [10; 8192; 0; 6671; 3855]%Z;
            FrameTable.func := [0; 1; 2; 3; 4];
            FrameTable.nativeSymbol := [None; None; None; None; None];
            FrameTable.line := [None; None; None; None; None];
            FrameTable.innerWindowID := [None; None; None; None; None] |};
       Thread.funcTable :=
         {| FuncTable.length := 5;
            FuncTable.name := [0; 1; 2; 3; 4];
            FuncTable.fileName := [None; None; None; None; None];
            FuncTable.resource := [0; 0; 0; 0; 0]%Z;
            FuncTable.isJS := [false; false; false; false; false];
            FuncTable.relevantForJS := [false; false; false; false; false];
            FuncTable.lineNumber := [None; None; None; None; None];
            FuncTable.columnNumber := [None; None; None; None; None] |};
       Thread.nativeSymbols :=
         {| NativeSymbolTable.length := 0;
            NativeSymbolTable.libIndex := [];
            NativeSymbolTable.address := [];
            NativeSymbolTable.name := [] |};
       Thread.resourceTable :=
         {| ResourceTable.length := 1;
            ResourceTable.lib := [Some 0%Z];
            ResourceTable.type := [resourceTypes_library] |};
       Thread.stringTable :=
         ["0x000a"; "0x2000"; "0x0000"; "0x1a0f"; "0x0f0f";
          "example lib"; "example host"] |}.

Definition symbol (symbolAddress : Z) (name : string) : AddressResult.t :=
    {| AddressResult.symbolAddress := symbolAddress;
       AddressResult.name := name;
       AddressResult.file := None;
       AddressResult.line := None |}.

  (** A provider that has nothing for any address. *)
Definition noSymbols : gmap Z AddressResult.t := ∅.

  (** One symbol swallows the first four addresses. *)
Definition partialSymbolTable : gmap Z AddressResult.t :=
    list_to_map
      [(0%Z, symbol 0 "overencompassing first symbol");
       (10%Z, symbol 0 "overencompassing first symbol");
       (3855%Z, symbol 0 "overencompassing first symbol");
       (6671%Z, symbol 0 "overencompassing first symbol");
       (8192%Z, symbol 8192 "last symbol")].

Definition completeSymbolTable : gmap Z AddressResult.t :=
    list_to_map
      [(0%Z, symbol 0 "first symbol");
       (10%Z, symbol 0 "first symbol");
       (3855%Z, symbol 3840 "second symbol");
       (6671%Z, symbol 6656 "third symbol");
       (8192%Z, symbol 8192 "last symbol")].

  (** The library's slice of a thread, as the collector gives it for
      resource 0 and lib 0. *)
Definition infoOf (t : Thread.t) : ThreadLibSymbolicationInfo.t :=
    match collectLib t 0 0 with
    | Returns info => info
    | _ =>
        {| ThreadLibSymbolicationInfo.resourceIndex := 0;
           ThreadLibSymbolicationInfo.libIndex := 0;
           ThreadLibSymbolicationInfo.allFuncsForThisLib := [];
           ThreadLibSymbolicationInfo.allNativeSymbolsForThisLib := [];
           ThreadLibSymbolicationInfo.allFramesForThisLib := [];
           ThreadLibSymbolicationInfo.frameAddresses := [] |}
    end.

Definition stepOf (t : Thread.t) (results : gmap Z AddressResult.t)
    : SymbolicationStepInfo.t :=
    {| SymbolicationStepInfo.threadLibSymbolicationInfo := infoOf t;
       SymbolicationStepInfo.resultsForLib := results |}.

  (** The thread and the map after a step, or the input where the step
      does not return. *)
Definition after (t : Thread.t) (results : gmap Z AddressResult.t)
    : Thread.t * list (nat * nat) :=
    match applySymbolicationStep t (stepOf t results) [] with
    | Returns out => out
    | _ => (t, [])
    end.

Definition coarse : Thread.t * list (nat * nat) :=
    Eval vm_compute in after thread partialSymbolTable.

Definition fine : Thread.t * list (nat * nat) :=
    Eval vm_compute in after thread completeSymbolTable.

  (** Re-symbolication of the coarse thread with the complete table. *)
Definition refined : Thread.t * list (nat * nat) :=
    Eval vm_compute in after coarse.1 completeSymbolTable.

End Example.

(** The example thread with its resource row pointing at lib 3, which the
    thread does not have. *)
Definition danglingThread : Thread.t :=
  {| Thread.libs := Thread.libs Example.thread;
     Thread.frameTable := Thread.frameTable Example.thread;
     Thread.funcTable := Thread.funcTable Example.thread;
     Thread.nativeSymbols := Thread.nativeSymbols Example.thread;
     Thread.resourceTable :=
       {| ResourceTable.length := 1;
          ResourceTable.lib := [Some 3%Z];
          ResourceTable.type := [resourceTypes_library] |};
     Thread.stringTable := Thread.stringTable Example.thread |}.

(** What holds of the consensus map and the divergent keys once the pairs
    [seen] have gone through the reduction. *)
Definition consensus_invariant {K V : Type} `{EqDecision K}
  (seen : list (K * V)) (st : list (K * V) * list K) : Prop :=
  NoDup (st.1).*1
  ∧ (∀ k, k ∈ st.2 ↔ ∃ v v', (k, v) ∈ seen ∧ (k, v') ∈ seen ∧ v ≠ v')
  ∧ ∀ k v, JsMap.get (st.1) k = Some v ↔ (k ∉ st.2) ∧ (k, v) ∈ seen.

(** The step callbacks a delivery of [answers] gives rise to: those of the
    resolved libraries, in delivery order. *)
Definition deliveredSteps
  (symbolicationInfo : list (list (string * ThreadLibSymbolicationInfo.t)))
  (answers : list (LibSymbolicationRequest.t * ProviderAnswer))
  : list (nat * SymbolicationStepInfo.t) :=
  concat
    (omap (λ '(request, answer),
             match answer with
             | Resolved results =>
                 let lib := LibSymbolicationRequest.lib request in
                 Some (finishSymbolicationForLib symbolicationInfo results
                         (spliced (RequestLib.debugName lib) +:+ "/"
                          +:+ spliced (RequestLib.breakpadId lib)))
             | Failed _ => None
             end) answers).

(** The errors of the failed libraries, in delivery order. *)
Definition reportedFailures
  (answers : list (LibSymbolicationRequest.t * ProviderAnswer))
  : list JsError :=
  omap (λ '(_, answer),
          match answer with
          | Resolved _ => None
          | Failed error => Some error
          end) answers.

(** Every failure among [answers] is of the not-found kind. *)
Definition onlyNotFound
  (answers : list (LibSymbolicationRequest.t * ProviderAnswer)) : Prop :=
  ∀ request error, (request, Failed error) ∈ answers →
                   ∃ message, error = SymbolsNotFoundError message.

(** Symbol stores for the example: one that finds no symbols for any
    library, one that fails with another error, and one that resolves
    every library with the complete table. *)
Definition notFoundStore (requests : list LibSymbolicationRequest.t)
  : list (LibSymbolicationRequest.t * ProviderAnswer) :=
  (λ request,
     (request,
      Failed (SymbolsNotFoundError "Should only have libs called firefox.pdb")))
  <$> requests.

Definition brokenStore (requests : list LibSymbolicationRequest.t)
  : list (LibSymbolicationRequest.t * ProviderAnswer) :=
  (λ request, (request, Failed (Error "boom"))) <$> requests.

Definition completeStore (requests : list LibSymbolicationRequest.t)
  : list (LibSymbolicationRequest.t * ProviderAnswer) :=
  (λ request, (request, Resolved Example.completeSymbolTable)) <$> requests.

Definition quietWorld : World.t :=
  {| World.steps := []; World.warnings := [] |}.

(** The example thread as an object: its columns laid out in a store,
    the string table last. *)
Definition exampleStore : list ByReference.object :=
  let frameTable := Thread.frameTable Example.thread in
  let funcTable := Thread.funcTable Example.thread in
  let nativeSymbols := Thread.nativeSymbols Example.thread in
  [ ByReference.Integers (FrameTable.address frameTable);
    ByReference.Indices (FrameTable.func frameTable);
    ByReference.Nullables (FrameTable.nativeSymbol frameTable);
    ByReference.Nullables (FrameTable.line frameTable);
    ByReference.Nullables (FrameTable.innerWindowID frameTable);
    ByReference.Indices (FuncTable.name funcTable);
    ByReference.Nullables (FuncTable.fileName funcTable);
    ByReference.Integers (FuncTable.resource funcTable);
    ByReference.Booleans (FuncTable.isJS funcTable);
    ByReference.Booleans (FuncTable.relevantForJS funcTable);
    ByReference.Nullables (FuncTable.lineNumber funcTable);
    ByReference.Nullables (FuncTable.columnNumber funcTable);
    ByReference.Integers (NativeSymbolTable.libIndex nativeSymbols);
    ByReference.Integers (NativeSymbolTable.address nativeSymbols);
    ByReference.Indices (NativeSymbolTable.name nativeSymbols);
    ByReference.Strings (Thread.stringTable Example.thread) ].

Definition exampleThreadObject : ByReference.ThreadObject.t :=
  {| ByReference.ThreadObject.libs := Thread.libs Example.thread;
     ByReference.ThreadObject.frameTable :=
       {| ByReference.FrameTableObject.length := 5;
          ByReference.FrameTableObject.address := 0;
          ByReference.FrameTableObject.func := 1;
          ByReference.FrameTableObject.nativeSymbol := 2;
          ByReference.FrameTableObject.line := 3;
          ByReference.FrameTableObject.innerWindowID := 4 |};
     ByReference.ThreadObject.funcTable :=
       {| ByReference.FuncTableObject.length := 5;
          ByReference.FuncTableObject.name := 5;
          ByReference.FuncTableObject.fileName := 6;
          ByReference.FuncTableObject.resource := 7;
          ByReference.FuncTableObject.isJS := 8;
          ByReference.FuncTableObject.relevantForJS := 9;
          ByReference.FuncTableObject.lineNumber := 10;
          ByReference.FuncTableObject.columnNumber := 11 |};
     ByReference.ThreadObject.nativeSymbols :=
       {| ByReference.NativeSymbolsObject.length := 0;
          ByReference.NativeSymbolsObject.libIndex := 12;
          ByReference.NativeSymbolsObject.address := 13;
          ByReference.NativeSymbolsObject.name := 14 |};
     ByReference.ThreadObject.resourceTable :=
       Thread.resourceTable Example.thread;
     ByReference.ThreadObject.stringTable := 15 |}.

(** ** Vocabulary of the step on objects *)

(** The store [σ] still has every object of the store [σ0] as it was,
    but for the string table [s]. *)
Definition keeps (σ0 : list ByReference.object) (s : nat) (σ : list ByReference.object)
  : Prop :=
  (length σ0 ≤ length σ)%nat
  ∧ ∀ r, r < length σ0 → r ≠ s → σ !! r = σ0 !! r.

(** The locals of the second loop on objects stand for the locals [b] on
    values: the clone's columns are arrays of the call's own, and the
    string table and they hold what [b] holds. *)
Definition denotesB (σ0 : list ByReference.object) (s : nat)
  (σ : list ByReference.object) (st : ByReference.StepBObject.t) (b : StepB.t) : Prop :=
  let nativeSymbols := ByReference.StepBObject.nativeSymbols st in
  keeps σ0 s σ
  ∧ ByReference.strings σ s = Returns (StepB.stringTable b)
  ∧ ((length σ0 ≤ ByReference.NativeSymbolsObject.libIndex nativeSymbols)%nat
     ∧ ByReference.NativeSymbolsObject.libIndex nativeSymbols
       < ByReference.NativeSymbolsObject.address nativeSymbols
     ∧ ByReference.NativeSymbolsObject.address nativeSymbols
       < ByReference.NativeSymbolsObject.name nativeSymbols)
  ∧ ByReference.loadNativeSymbols σ nativeSymbols = Returns (StepB.nativeSymbols b)
  ∧ ByReference.StepBObject.availableNativeSymbolIterator st
    = StepB.availableNativeSymbolIterator b
  ∧ ByReference.StepBObject.symbolAddressToCanonicalSymbolIndexMap st
    = StepB.symbolAddressToCanonicalSymbolIndexMap b.

(** The store [σ'] is the store [σ] but for the objects at [refs]. *)
Definition only (refs : list nat) (σ σ' : list ByReference.object) : Prop :=
  length σ' = length σ ∧ ∀ r, r ∉ refs → σ' !! r = σ !! r.

(** The locals of the third loop on objects stand for the locals [c] on
    values.  The step's new arrays come one after the other in the store:
    the clone of the native symbols, the copy of the [nativeSymbol]
    column, the clone of the func table, the copies of the [func] and
    [line] columns. *)
Definition denotesC (σ0 : list ByReference.object) (s : nat)
  (nativeSymbols : ByReference.NativeSymbolsObject.t)
  (newNativeSymbols : NativeSymbolTable.t)
  (newFrameTableNativeSymbolsColumn : nat) (column : list (option nat))
  (σ : list ByReference.object) (st : ByReference.StepCObject.t) (c : StepC.t) : Prop :=
  let funcTable := ByReference.StepCObject.funcTable st in
  keeps σ0 s σ
  ∧ ByReference.strings σ s = Returns (StepC.stringTable c)
  ∧ ((length σ0 ≤ ByReference.NativeSymbolsObject.libIndex nativeSymbols)%nat
     ∧ ByReference.NativeSymbolsObject.libIndex nativeSymbols
       < ByReference.NativeSymbolsObject.address nativeSymbols
     ∧ ByReference.NativeSymbolsObject.address nativeSymbols
       < ByReference.NativeSymbolsObject.name nativeSymbols
     ∧ ByReference.NativeSymbolsObject.name nativeSymbols
       < newFrameTableNativeSymbolsColumn
     ∧ newFrameTableNativeSymbolsColumn < ByReference.FuncTableObject.isJS funcTable
     ∧ ByReference.FuncTableObject.isJS funcTable
       < ByReference.FuncTableObject.relevantForJS funcTable
     ∧ ByReference.FuncTableObject.relevantForJS funcTable
       < ByReference.FuncTableObject.name funcTable
     ∧ ByReference.FuncTableObject.name funcTable
       < ByReference.FuncTableObject.resource funcTable
     ∧ ByReference.FuncTableObject.resource funcTable
       < ByReference.FuncTableObject.fileName funcTable
     ∧ ByReference.FuncTableObject.fileName funcTable
       < ByReference.FuncTableObject.lineNumber funcTable
     ∧ ByReference.FuncTableObject.lineNumber funcTable
       < ByReference.FuncTableObject.columnNumber funcTable
     ∧ ByReference.FuncTableObject.columnNumber funcTable
       < ByReference.StepCObject.newFrameTableFuncColumn st
     ∧ ByReference.StepCObject.newFrameTableFuncColumn st
       < ByReference.StepCObject.newFrameTableLineColumn st)
  ∧ ByReference.loadNativeSymbols σ nativeSymbols = Returns newNativeSymbols
  ∧ ByReference.array σ newFrameTableNativeSymbolsColumn = Returns column
  ∧ ByReference.loadFuncTable σ funcTable = Returns (StepC.funcTable c)
  ∧ ByReference.array σ (ByReference.StepCObject.newFrameTableFuncColumn st)
    = Returns (StepC.newFrameTableFuncColumn c)
  ∧ ByReference.array σ (ByReference.StepCObject.newFrameTableLineColumn st)
    = Returns (StepC.newFrameTableLineColumn c)
  ∧ ByReference.StepCObject.availableFuncIter st = StepC.availableFuncIter c
  ∧ ByReference.StepCObject.funcKeyToFuncMap st = StepC.funcKeyToFuncMap c
  ∧ ByReference.StepCObject.oldFuncToNewFuncEntries st
    = StepC.oldFuncToNewFuncEntries c.

(** The references of the arrays a thread object owns through its frame
    table's [func], [nativeSymbol] and [line] columns, its func table and
    its native-symbol table. *)
Definition touchedColumns (o : ByReference.ThreadObject.t) : list nat :=
  let frameTable := ByReference.ThreadObject.frameTable o in
  let funcTable := ByReference.ThreadObject.funcTable o in
  let nativeSymbols := ByReference.ThreadObject.nativeSymbols o in
  [ ByReference.FrameTableObject.func frameTable;
    ByReference.FrameTableObject.nativeSymbol frameTable;
    ByReference.FrameTableObject.line frameTable;
    ByReference.FuncTableObject.name funcTable;
    ByReference.FuncTableObject.fileName funcTable;
    ByReference.FuncTableObject.resource funcTable;
    ByReference.FuncTableObject.isJS funcTable;
    ByReference.FuncTableObject.relevantForJS funcTable;
    ByReference.FuncTableObject.lineNumber funcTable;
    ByReference.FuncTableObject.columnNumber funcTable;
    ByReference.NativeSymbolsObject.libIndex nativeSymbols;
    ByReference.NativeSymbolsObject.address nativeSymbols;
    ByReference.NativeSymbolsObject.name nativeSymbols ].

(** The example thread object and store after a step with the complete
    table (the input where the step does not return). *)
Definition exampleAfter
  : ByReference.ThreadObject.t * list (nat * nat) * list ByReference.object :=
  Eval vm_compute in
    match ByReference.applySymbolicationStep exampleThreadObject
            (Example.stepOf Example.thread Example.completeSymbolTable) []
            exampleStore with
    | Returns out => out
    | _ => (exampleThreadObject, [], exampleStore)
    end.

(** The index at which the string table holds [s], if it does. *)
Definition lookupIndex (stringTable : list string) (s : string)
  : option nat :=
  fst <$> list_find (λ x, x = s) stringTable.

(** The func key of an address result over a string table that already
    holds its name and file. *)
Definition keyIn (stringTable : list string) (r : AddressResult.t)
  : option string :=
  nameIndex ← lookupIndex stringTable (AddressResult.name r);
  fileIndex ← match AddressResult.file r with
              | Some file => Some <$> lookupIndex stringTable file
              | None => Some None
              end;
  Some (funcKey nameIndex fileIndex).

(** What holds of the state of the third loop once it has visited the
    frames [visited]; [available] is the library's set of funcs and
    [length0] the length of the func table before the loop. *)
Definition stepC_invariant (available : list nat) (length0 : nat)
  (visited : list nat) (c : StepC.t) : Prop :=
  let funcKeyToFuncMap := StepC.funcKeyToFuncMap c in
  let funcTable := StepC.funcTable c in
  (StepC.resolved c).*1 = visited
  ∧ NoDup funcKeyToFuncMap.*1
  ∧ NoDup funcKeyToFuncMap.*2
  ∧ (∃ used,
       available = used ++ StepC.availableFuncIter c
       ∧ ∀ n, n ∈ funcKeyToFuncMap.*2
              ↔ n ∈ used ∨ (length0 ≤ n < FuncTable.length funcTable)%nat)
  ∧ (length0 ≤ FuncTable.length funcTable)%nat
  ∧ (StepC.availableFuncIter c ≠ [] → FuncTable.length funcTable = length0)
  ∧ (∀ f r, (f, r) ∈ StepC.resolved c →
       ∃ key n,
         keyIn (StepC.stringTable c) r = Some key
         ∧ JsMap.get funcKeyToFuncMap key = Some n
         ∧ StepC.newFrameTableFuncColumn c !! f = Some n)
  ∧ ∀ key n,
      JsMap.get funcKeyToFuncMap key = Some n →
      ∃ nameIndex fileIndex,
        key = funcKey nameIndex fileIndex
        ∧ FuncTable.name funcTable !! n = Some nameIndex
        ∧ FuncTable.fileName funcTable !! n = Some fileIndex.

(** The run behind [Example.refined], with its locals. *)
Definition refinedRun : option Run.t :=
  Eval vm_compute in
    match runSymbolicationStep Example.coarse.1
            (Example.stepOf Example.coarse.1 Example.completeSymbolTable) []
    with
    | Returns run => Some run
    | _ => None
    end.

(** ** Vocabulary of the further properties *)

(** The indices listed by [l] go up. *)
Definition increasing (l : list nat) : Prop :=
  ∀ i j m n, l !! i = Some m → l !! j = Some n → i < j → m < n.

(** Resource row [resourceIndex] is a library with a lib row, whose key is
    [key] and for which the collector builds the record [info]. *)
Definition libraryRow (thread : Thread.t) (resourceIndex : nat)
  (key : string) (info : ThreadLibSymbolicationInfo.t) : Prop :=
  ∃ (libIndex : Z) (lib : Lib.t),
    ResourceTable.type (Thread.resourceTable thread) !! resourceIndex
    = Some resourceTypes_library
    ∧ ResourceTable.lib (Thread.resourceTable thread) !! resourceIndex
      = Some (Some libIndex)
    ∧ libIndex ≠ (-1)%Z
    ∧ lookupZ (Thread.libs thread) libIndex = Some lib
    ∧ key = libKey lib
    ∧ collectLib thread resourceIndex libIndex = Returns info.

(** The example thread with a second resource row for the same lib, and
    the frames' funcs split between the two rows. *)
Definition twoRowThread : Thread.t :=
  {| Thread.libs := Thread.libs Example.thread;
     Thread.frameTable := Thread.frameTable Example.thread;
     Thread.funcTable :=
       {| FuncTable.length := 5;
          FuncTable.name := [0; 1; 2; 3; 4];
          FuncTable.fileName := [None; None; None; None; None];
          FuncTable.resource := [0; 0; 0; 1; 1]%Z;
          FuncTable.isJS := [false; false; false; false; false];
          FuncTable.relevantForJS := [false; false; false; false; false];
          FuncTable.lineNumber := [None; None; None; None; None];
          FuncTable.columnNumber := [None; None; None; None; None] |};
     Thread.nativeSymbols := Thread.nativeSymbols Example.thread;
     Thread.resourceTable :=
       {| ResourceTable.length := 2;
          ResourceTable.lib := [Some 0%Z; Some 0%Z];
          ResourceTable.type := [resourceTypes_library; resourceTypes_library] |};
     Thread.stringTable := Thread.stringTable Example.thread |}.

(** The error the string table throws for an index it does not hold. *)
Definition notInStringTable (index : nat) : JsError :=
  Error ("index " +:+ pretty index +:+ " not in UniqueStringArray").

(** The example thread after the coarse step, its one named symbol
    pointing at a string the table does not hold. *)
Definition brokenNameThread : Thread.t :=
  let coarse := Example.coarse.1 in
  {| Thread.libs := Thread.libs coarse;
     Thread.frameTable := Thread.frameTable coarse;
     Thread.funcTable := Thread.funcTable coarse;
     Thread.nativeSymbols :=
       {| NativeSymbolTable.length :=
            NativeSymbolTable.length (Thread.nativeSymbols coarse);
          NativeSymbolTable.libIndex :=
            NativeSymbolTable.libIndex (Thread.nativeSymbols coarse);
          NativeSymbolTable.address :=
            NativeSymbolTable.address (Thread.nativeSymbols coarse);
          NativeSymbolTable.name :=
            const 99 <$> NativeSymbolTable.name (Thread.nativeSymbols coarse) |};
     Thread.resourceTable := Thread.resourceTable coarse;
     Thread.stringTable := Thread.stringTable coarse |}.

(** The two-row thread after a step for its first resource row with the
    complete table (the input where the step does not return). *)
Definition twoRowAfter : Thread.t * list (nat * nat) :=
  Eval vm_compute in
    Example.after twoRowThread Example.completeSymbolTable.

(** Row [n] of a func table: what kind of func it is, and what it is
    called. *)
Definition funcRowKind (funcTable : FuncTable.t) (n : nat)
  : option Z * option bool * option bool
    * option (option nat) * option (option nat) :=
  (FuncTable.resource funcTable !! n,
   FuncTable.isJS funcTable !! n,
   FuncTable.relevantForJS funcTable !! n,
   FuncTable.lineNumber funcTable !! n,
   FuncTable.columnNumber funcTable !! n).

Definition funcRowName (funcTable : FuncTable.t) (n : nat)
  : option nat * option (option nat) :=
  (FuncTable.name funcTable !! n, FuncTable.fileName funcTable !! n).

(** Row [s] of a native-symbol table: its library, and the symbol it
    stands for. *)
Definition symbolRowLib (nativeSymbols : NativeSymbolTable.t) (s : nat)
  : option Z :=
  NativeSymbolTable.libIndex nativeSymbols !! s.

Definition symbolRowName (nativeSymbols : NativeSymbolTable.t) (s : nat)
  : option Z * option nat :=
  (NativeSymbolTable.address nativeSymbols !! s,
   NativeSymbolTable.name nativeSymbols !! s).

(** The example thread with all its frames in one func, the only row of
    its func table; and that thread after a step with the complete table
    (the input where the step does not return). *)
Definition mergedThread : Thread.t :=
  {| Thread.libs := Thread.libs Example.thread;
     Thread.frameTable :=
       {| FrameTable.length := 5;
          FrameTable.address := [10; 8192; 0; 6671; 3855]%Z;
          FrameTable.func := [0; 0; 0; 0; 0];
          FrameTable.nativeSymbol := [None; None; None; None; None];
          FrameTable.line := [None; None; None; None; None];
          FrameTable.innerWindowID := [None; None; None; None; None] |};
     Thread.funcTable :=
       {| FuncTable.length := 1;
          FuncTable.name := [0];
          FuncTable.fileName := [None];
          FuncTable.resource := [0%Z];
          FuncTable.isJS := [false];
          FuncTable.relevantForJS := [false];
          FuncTable.lineNumber := [None];
          FuncTable.columnNumber := [None] |};
     Thread.nativeSymbols := Thread.nativeSymbols Example.thread;
     Thread.resourceTable := Thread.resourceTable Example.thread;
     Thread.stringTable := Thread.stringTable Example.thread |}.

Definition mergedAfter : Thread.t * list (nat * nat) :=
  Eval vm_compute in Example.after mergedThread Example.completeSymbolTable.

(** The library key the success callback of the orchestrator computes
    from a request. *)
Definition requestKey (request : LibSymbolicationRequest.t) : string :=
  let lib := LibSymbolicationRequest.lib request in
  spliced (RequestLib.debugName lib) +:+ "/"
  +:+ spliced (RequestLib.breakpadId lib).

(** ** Active-tab tracks: topmost pages and threads

    The functions that decide which threads belong to the tab itself.  A
    page and a marker payload are given by the fields these functions
    read; a payload's [innerWindowID] that is [undefined] is [None]. *)

Module Page.
Record t := mk {
    innerWindowID : nat;
    embedderInnerWindowID : nat;
    url : string }.
End Page.

Module MarkerPayload.
Record t := mk {
    type : string;
    innerWindowID : option nat }.
End MarkerPayload.

Module RawMarkerTable.
Record t := mk {
    length : nat;
    data : list (option MarkerPayload.t) }.   (* [None] is [null] *)
End RawMarkerTable.

Definition getTopmostInnerWindowIDs (relevantPages : list Page.t)
  : list nat :=
  let topmostInnerWindowIDs :=
    foldl (λ topmostInnerWindowIDs page,
             if decide (Page.embedderInnerWindowID page = 0)
             then topmostInnerWindowIDs ++ [Page.innerWindowID page]
             else topmostInnerWindowIDs)
          [] relevantPages in
  JsSet.of_list topmostInnerWindowIDs.

(** One turn of the first loop of [isTopmostThread]: does the frame make
    the function return [true]? *)
Definition frameIsTopmost (frameTable : FrameTable.t)
  (topmostInnerWindowIDs : list nat) (frameIndex : nat) : bool :=
  match FrameTable.innerWindowID frameTable !! frameIndex with
  | Some (Some innerWindowID) => JsSet.has topmostInnerWindowIDs innerWindowID
  | _ => false
  end.

(** One turn of the second loop: [data && data.innerWindowID &&
    data.type !== 'Network' && topmostInnerWindowIDs.has(...)]. *)
Definition markerIsTopmost (markers : RawMarkerTable.t)
  (topmostInnerWindowIDs : list nat) (markerIndex : nat) : bool :=
  match RawMarkerTable.data markers !! markerIndex with
  | Some (Some data) =>
      match MarkerPayload.innerWindowID data with
      | Some innerWindowID =>
          negb (bool_decide (innerWindowID = 0))
          && negb (bool_decide (MarkerPayload.type data = "Network"))
          && JsSet.has topmostInnerWindowIDs innerWindowID
      | None => false
      end
  | _ => false
  end.

(** A [for] loop over [0 .. length) that returns [true] at the first index
    for which [test] holds, and [otherwise] when it runs to its end. *)
Fixpoint returnsTrueAt (test : nat → bool) (index count : nat)
  (otherwise : bool) : bool :=
  match count with
  | 0 => otherwise
  | S count' =>
      if test index then true
      else returnsTrueAt test (S index) count' otherwise
  end.

(** [const { frameTable, markers } = thread] *)
Definition isTopmostThread (frameTable : FrameTable.t)
  (markers : RawMarkerTable.t) (topmostInnerWindowIDs : list nat) : bool :=
  returnsTrueAt (frameIsTopmost frameTable topmostInnerWindowIDs) 0
    (FrameTable.length frameTable)
    (returnsTrueAt (markerIsTopmost markers topmostInnerWindowIDs) 0
       (RawMarkerTable.length markers) false).

Definition _getInnerWindowIDToPageMap (pages : list Page.t)
  : list (nat * Page.t) :=
  foldl (λ innerWindowIDToPageMap page,
           JsMap.set innerWindowIDToPageMap (Page.innerWindowID page) page)
        [] pages.

(** A tab with a page of its own, an iframe in it, and a second page
    that reuses the tab's window id. *)
Definition examplePages : list Page.t :=
  [ {| Page.innerWindowID := 11; Page.embedderInnerWindowID := 0;
       Page.url := "https://example.org/" |};
    {| Page.innerWindowID := 12; Page.embedderInnerWindowID := 11;
       Page.url := "https://example.org/frame" |};
    {| Page.innerWindowID := 11; Page.embedderInnerWindowID := 0;
       Page.url := "https://example.org/next" |} ].

(** What holds of the state of the second loop once it has visited the
    entries [visited] of [symbolAddressToNameMap]; [canonical0] and
    [available0] are the canonical symbols and the available symbols the
    first loop left, and [length0] is the length of the native-symbol
    table before the loop. *)
Definition stepB_invariant (canonical0 : list (Z * nat))
  (available0 : list nat) (length0 : nat) (visited : list (Z * string))
  (b : StepB.t) : Prop :=
  let canonical := StepB.symbolAddressToCanonicalSymbolIndexMap b in
  let nativeSymbols := StepB.nativeSymbols b in
  NoDup canonical.*1
  ∧ NoDup canonical.*2
  ∧ (∃ used,
       available0 = used ++ StepB.availableNativeSymbolIterator b
       ∧ ∀ s, s ∈ canonical.*2
              ↔ s ∈ canonical0.*2 ∨ s ∈ used
                ∨ (length0 ≤ s < NativeSymbolTable.length nativeSymbols)%nat)
  ∧ (length0 ≤ NativeSymbolTable.length nativeSymbols)%nat
  ∧ (StepB.availableNativeSymbolIterator b ≠ [] →
     NativeSymbolTable.length nativeSymbols = length0)
  ∧ (∀ symbolAddress s,
       JsMap.get canonical0 symbolAddress = Some s →
       JsMap.get canonical symbolAddress = Some s)
  ∧ ∀ symbolAddress name,
      (symbolAddress, name) ∈ visited →
      ∃ s index,
        JsMap.get canonical symbolAddress = Some s
        ∧ NativeSymbolTable.address nativeSymbols !! s = Some symbolAddress
        ∧ NativeSymbolTable.name nativeSymbols !! s = Some index
        ∧ StepB.stringTable b !! index = Some name.

(** The run behind [mergedAfter], with its locals. *)
Definition mergedRun : option Run.t :=
  Eval vm_compute in
    match runSymbolicationStep mergedThread
            (Example.stepOf mergedThread Example.completeSymbolTable) []
    with
    | Returns run => Some run
    | _ => None
    end.

(** [x] is [null] or an index below [bound]. *)
Definition nullOrBelow (bound : nat) (x : option nat) : Prop :=
  match x with
  | Some index => index < bound
  | None => True
  end.

Global Instance nullOrBelow_dec bound x : Decision (nullOrBelow bound x).
Proof. destruct x; simpl; apply _. Defined.

(** The tables of a thread fit together: every column is at least as long
    as its table says; within the tables' lengths, the frames' funcs are
    rows of the func table and their native symbols rows of the
    native-symbol table; and the names of the native symbols and the files
    of the funcs are indices into the string table. *)
Definition wellFormed (thread : Thread.t) : Prop :=
  let frameTable := Thread.frameTable thread in
  let funcTable := Thread.funcTable thread in
  let nativeSymbols := Thread.nativeSymbols thread in
  let strings := length (Thread.stringTable thread) in
  Forall (λ columnLength, (FrameTable.length frameTable ≤ columnLength)%nat)
    [ length (FrameTable.address frameTable);
      length (FrameTable.func frameTable);
      length (FrameTable.nativeSymbol frameTable);
      length (FrameTable.line frameTable) ]
  ∧ Forall (λ columnLength, (FuncTable.length funcTable ≤ columnLength)%nat)
      [ length (FuncTable.name funcTable);
        length (FuncTable.fileName funcTable);
        length (FuncTable.resource funcTable);
        length (FuncTable.isJS funcTable);
        length (FuncTable.relevantForJS funcTable);
        length (FuncTable.lineNumber funcTable);
        length (FuncTable.columnNumber funcTable) ]
  ∧ Forall (λ columnLength,
              (NativeSymbolTable.length nativeSymbols ≤ columnLength)%nat)
      [ length (NativeSymbolTable.libIndex nativeSymbols);
        length (NativeSymbolTable.address nativeSymbols);
        length (NativeSymbolTable.name nativeSymbols) ]
  ∧ Forall (λ func, func < FuncTable.length funcTable)
      (take (FrameTable.length frameTable) (FrameTable.func frameTable))
  ∧ Forall (nullOrBelow (NativeSymbolTable.length nativeSymbols))
      (take (FrameTable.length frameTable)
         (FrameTable.nativeSymbol frameTable))
  ∧ Forall (λ name, name < strings)
      (take (NativeSymbolTable.length nativeSymbols)
         (NativeSymbolTable.name nativeSymbols))
  ∧ Forall (nullOrBelow strings)
      (take (FuncTable.length funcTable) (FuncTable.fileName funcTable)).

Global Instance wellFormed_dec thread : Decision (wellFormed thread).
Proof. unfold wellFormed. apply _. Defined.

(** The slice names frames, funcs and native symbols that the thread's
    tables have. *)
Definition sliceOf (thread : Thread.t) (info : ThreadLibSymbolicationInfo.t)
  : Prop :=
  Forall (λ f, f < FrameTable.length (Thread.frameTable thread))
    (ThreadLibSymbolicationInfo.allFramesForThisLib info)
  ∧ Forall (λ n, n < FuncTable.length (Thread.funcTable thread))
      (ThreadLibSymbolicationInfo.allFuncsForThisLib info)
  ∧ Forall (λ s, s < NativeSymbolTable.length (Thread.nativeSymbols thread))
      (ThreadLibSymbolicationInfo.allNativeSymbolsForThisLib info).

Global Instance sliceOf_dec thread info : Decision (sliceOf thread info).
Proof. unfold sliceOf. apply _. Defined.

(** The state of the second loop fits together: the native-symbol table
    is as [wellFormed] wants it, and the symbols still to be handed out
    and those already canonical are rows of it. *)
Definition stepB_fits (b : StepB.t) : Prop :=
  let nativeSymbols := StepB.nativeSymbols b in
  ((NativeSymbolTable.length nativeSymbols
    ≤ length (NativeSymbolTable.libIndex nativeSymbols))%nat
   ∧ (NativeSymbolTable.length nativeSymbols
      ≤ length (NativeSymbolTable.address nativeSymbols))%nat
   ∧ (NativeSymbolTable.length nativeSymbols
      ≤ length (NativeSymbolTable.name nativeSymbols))%nat)
  ∧ (∀ s, s ∈ StepB.availableNativeSymbolIterator b →
          s < NativeSymbolTable.length nativeSymbols)
  ∧ (∀ s, s ∈ (StepB.symbolAddressToCanonicalSymbolIndexMap b).*2 →
          s < NativeSymbolTable.length nativeSymbols)
  ∧ ∀ s index, s < NativeSymbolTable.length nativeSymbols →
               NativeSymbolTable.name nativeSymbols !! s = Some index →
               index < length (StepB.stringTable b).

(** The state of the third loop fits together: the func table is as
    [wellFormed] wants it and has not shrunk, the funcs still to be handed
    out, those already given to a func key and those of the frames are
    rows of it, and the string table has at least [strings] strings. *)
Definition stepC_fits (thread : Thread.t) (strings : nat) (c : StepC.t)
  : Prop :=
  let funcTable := StepC.funcTable c in
  let frameTable := Thread.frameTable thread in
  ((FuncTable.length funcTable ≤ length (FuncTable.name funcTable))%nat
   ∧ (FuncTable.length funcTable ≤ length (FuncTable.fileName funcTable))%nat
   ∧ (FuncTable.length funcTable ≤ length (FuncTable.resource funcTable))%nat
   ∧ (FuncTable.length funcTable ≤ length (FuncTable.isJS funcTable))%nat
   ∧ (FuncTable.length funcTable
      ≤ length (FuncTable.relevantForJS funcTable))%nat
   ∧ (FuncTable.length funcTable
      ≤ length (FuncTable.lineNumber funcTable))%nat
   ∧ (FuncTable.length funcTable
      ≤ length (FuncTable.columnNumber funcTable))%nat)
  ∧ (FuncTable.length (Thread.funcTable thread)
     ≤ FuncTable.length funcTable)%nat
  ∧ (strings ≤ length (StepC.stringTable c))%nat
  ∧ (∀ n, n ∈ StepC.availableFuncIter c → n < FuncTable.length funcTable)
  ∧ (∀ n, n ∈ (StepC.funcKeyToFuncMap c).*2 →
          n < FuncTable.length funcTable)
  ∧ (∀ n index, n < FuncTable.length funcTable →
                FuncTable.fileName funcTable !! n = Some (Some index) →
                index < length (StepC.stringTable c))
  ∧ length (StepC.newFrameTableFuncColumn c)
    = length (FrameTable.func frameTable)
  ∧ length (StepC.newFrameTableLineColumn c)
    = length (FrameTable.line frameTable)
  ∧ ∀ f n, f < FrameTable.length frameTable →
           StepC.newFrameTableFuncColumn c !! f = Some n →
           n < FuncTable.length funcTable.

(** A second library, the example thread with the funcs of its last two
    frames in that library, and the thread after a step for the first
    library with the complete table. *)
Definition otherLib : Lib.t :=
  {| Lib.debugName := "xul.pdb";
     Lib.breakpadId := "111111111111111111111111111111111" |}.

Definition twoLibThread : Thread.t :=
  {| Thread.libs := [Example.lib; otherLib];
     Thread.frameTable := Thread.frameTable Example.thread;
     Thread.funcTable := Thread.funcTable twoRowThread;
     Thread.nativeSymbols := Thread.nativeSymbols Example.thread;
     Thread.resourceTable :=
       {| ResourceTable.length := 2;
          ResourceTable.lib := [Some 0%Z; Some 1%Z];
          ResourceTable.type := [resourceTypes_library; resourceTypes_library] |};
     Thread.stringTable := Thread.stringTable Example.thread |}.

Definition twoLibAfter : Thread.t * list (nat * nat) :=
  Eval vm_compute in Example.after twoLibThread Example.completeSymbolTable.

(** ** _getActiveTabResourceName: the name of a resource track *)

(** [array.find(test)]: the first element that passes the test; [None] is
    [undefined]. *)
Fixpoint arrayFind {A : Type} (test : A → bool) (array : list A)
  : option A :=
  match array with
  | [] => None
  | x :: rest => if test x then Some x else arrayFind test rest
  end.

(** [(innerWindowID) => innerWindowID && innerWindowID !== 0] *)
Definition isWindowID (innerWindowID : option nat) : bool :=
  match innerWindowID with
  | Some innerWindowID => negb (bool_decide (innerWindowID = 0))
  | None => false
  end.

(** The test of [thread.markers.data.find]: a marker with a window id that
    is not a network marker, and whose page is known and is neither
    about:blank nor about:newtab. *)
Definition markerNamesPage (innerWindowIDToPageMap : list (nat * Page.t))
  (data : option MarkerPayload.t) : bool :=
  match data with
  | Some data =>
      match MarkerPayload.innerWindowID data with
      | Some innerWindowID =>
          if negb (bool_decide (innerWindowID = 0))
             && negb (bool_decide (MarkerPayload.type data = "Network"))
          then match JsMap.get innerWindowIDToPageMap innerWindowID with
               | Some page =>
                   negb (bool_decide (Page.url page = "about:blank"))
                   && negb (bool_decide (Page.url page = "about:newtab"))
               | None => false
               end
          else false
      | None => false
      end
  | None => false
  end.

Section resource_name.
(** [ensureExists] of utils/flow.js and [isMainThread] of tracks.js are not
    part of the sources at hand.  The first enters as a function on what
    [innerWindowIDToPageMap.get] returns, of which the properties say what
    they assume; the second as the boolean it returns for the thread.  Of
    the thread the function reads the name, the frame table and the
    markers. *)
Variable ensureExists : option Page.t → completion Page.t.

Definition _getActiveTabResourceName (isMainThread : bool) (name : string)
  (frameTable : FrameTable.t) (markers : RawMarkerTable.t)
  (innerWindowIDToPageMap : list (nat * Page.t)) : completion string :=
  if isMainThread then
    let firstInnerWindowID : option nat :=
      match arrayFind isWindowID (FrameTable.innerWindowID frameTable) with
      | Some (Some innerWindowID) => Some innerWindowID
      | _ => None
      end in
    let firstInnerWindowID :=
      match firstInnerWindowID with
      | Some _ => firstInnerWindowID
      | None =>
          match arrayFind (markerNamesPage innerWindowIDToPageMap)
                  (RawMarkerTable.data markers) with
          | Some (Some markerData) =>
              match MarkerPayload.innerWindowID markerData with
              | Some innerWindowID =>
                  if decide (innerWindowID = 0) then None
                  else Some innerWindowID
              | None => None
              end
          | _ => None
          end
      end in
    match firstInnerWindowID with
    | None => Throws (Error "There must be an innerWindowID in the thread")
    | Some firstInnerWindowID =>
        page ← ensureExists
                 (JsMap.get innerWindowIDToPageMap firstInnerWindowID);
        Returns (Page.url page)
    end
  else Returns name.
End resource_name.

(** A thread of the iframe of [examplePages]: its frames have no window
    id, its first marker is a network marker of the tab's window and its
    second a marker of the iframe's. *)
Definition iframeFrameTable : FrameTable.t :=
  {| FrameTable.length := 2;
     FrameTable.address := [0; 0]%Z;
     FrameTable.func := [0; 0];
     FrameTable.nativeSymbol := [None; None];
     FrameTable.line := [None; None];
     FrameTable.innerWindowID := [None; Some 0] |}.

Definition iframeMarkers : RawMarkerTable.t :=
  {| RawMarkerTable.length := 2;
     RawMarkerTable.data :=
       [ Some {| MarkerPayload.type := "Network";
                 MarkerPayload.innerWindowID := Some 11 |};
         Some {| MarkerPayload.type := "DOMEvent";
                 MarkerPayload.innerWindowID := Some 12 |} ] |}.

(** ** Vocabulary of the func grouping *)




(* ================================================================== *)
(** * Part II: properties                                              *)
(* ================================================================== *)

(** ** Insertion-ordered maps and sets *)

Section jsmap_facts.
Context {K V : Type} `{EqDecision K}.
Implicit Types (m : list (K * V)) (k : K) (v : V).

Lemma jsmap_get_set_eq m k v : JsMap.get (JsMap.set m k v) k = Some v.
Proof.
    induction m as [|[k' v'] m IH]; simpl.
    - by rewrite decide_True.
    - destruct (decide (k' = k)) as [->|Hne]; simpl.
      + by rewrite decide_True.
      + by rewrite decide_False.
Qed.

Lemma jsmap_get_set_ne m k k' v :
    k ≠ k' → JsMap.get (JsMap.set m k v) k' = JsMap.get m k'.
Proof.
    intros Hne. induction m as [|[k0 v0] m IH]; simpl.
    - by rewrite decide_False.
    - destruct (decide (k0 = k)) as [->|Hne0]; simpl.
      + by rewrite !decide_False.
      + destruct (decide (k0 = k')); auto.
Qed.

Lemma jsmap_get_set m k k' v :
    JsMap.get (JsMap.set m k v) k'
    = if decide (k = k') then Some v else JsMap.get m k'.
Proof.
    destruct (decide (k = k')) as [->|Hne].
    - apply jsmap_get_set_eq.
    - by apply jsmap_get_set_ne.
Qed.

Lemma jsmap_get_None m k : JsMap.get m k = None ↔ k ∉ m.*1.
Proof.
    induction m as [|[k' v'] m IH]; simpl.
    - split; [intros _; apply not_elem_of_nil | done].
    - rewrite not_elem_of_cons. destruct (decide (k' = k)) as [->|Hne].
      + split; [done | intros [? _]; done].
      + rewrite IH. naive_solver.
Qed.

Lemma jsmap_get_Some_elem m k v : JsMap.get m k = Some v → (k, v) ∈ m.
Proof.
    induction m as [|[k' v'] m IH]; simpl; [done|].
    destruct (decide (k' = k)) as [->|Hne].
    - intros [= ->]. left.
    - intros. right. auto.
Qed.

Lemma jsmap_elem_get m k v :
    NoDup m.*1 → (k, v) ∈ m → JsMap.get m k = Some v.
Proof.
    induction m as [|[k' v'] m IH]; simpl.
    - by intros _ ?%elem_of_nil.
    - rewrite NoDup_cons. intros [Hk Hnd] [[= -> ->]|Hin]%elem_of_cons.
      + by rewrite decide_True.
      + rewrite decide_False; [auto|].
        intros ->. apply Hk. apply list_elem_of_fmap. by exists (k, v).
Qed.

Lemma jsmap_keys_set m k v :
    (JsMap.set m k v).*1
    = if JsMap.has m k then m.*1 else m.*1 ++ [k].
Proof.
    unfold JsMap.has. induction m as [|[k' v'] m IH]; csimpl; [done|].
    destruct (decide (k' = k)) as [->|Hne]; csimpl; [done|].
    rewrite IH. by destruct (JsMap.get m k).
Qed.

Lemma jsmap_has_true m k : JsMap.has m k = true ↔ k ∈ m.*1.
Proof.
    unfold JsMap.has. destruct (JsMap.get m k) eqn:E.
    - split; [intros _|done].
      apply jsmap_get_Some_elem in E. apply list_elem_of_fmap. by exists (k, v).
    - apply jsmap_get_None in E. split; [done|contradiction].
Qed.

Lemma jsmap_NoDup_set m k v : NoDup m.*1 → NoDup (JsMap.set m k v).*1.
Proof.
    intros Hnd. rewrite jsmap_keys_set.
    destruct (JsMap.has m k) eqn:E; [done|].
    apply NoDup_app. split_and!; [done| |apply NoDup_singleton].
    intros x Hx ->%list_elem_of_singleton.
    apply jsmap_has_true in Hx. congruence.
Qed.

Lemma jsmap_elem_of_keys_set m k v k' :
    k' ∈ (JsMap.set m k v).*1 ↔ k' = k ∨ k' ∈ m.*1.
Proof.
    rewrite jsmap_keys_set. destruct (JsMap.has m k) eqn:E.
    - apply jsmap_has_true in E. naive_solver.
    - rewrite elem_of_app, list_elem_of_singleton. naive_solver.
Qed.

Lemma jsmap_get_delete_ne m k k' :
    k ≠ k' → JsMap.get (JsMap.delete m k) k' = JsMap.get m k'.
Proof.
    intros Hne. induction m as [|[k0 v0] m IH]; simpl; [done|].
    destruct (decide (k0 = k)) as [->|Hne0]; simpl.
    - by rewrite decide_False.
    - destruct (decide (k0 = k')); auto.
Qed.

Lemma jsmap_keys_delete_subseteq m k : (JsMap.delete m k).*1 ⊆ m.*1.
Proof.
    induction m as [|[k0 v0] m IH]; csimpl; [done|].
    destruct (decide (k0 = k)); csimpl.
    - intros x Hx. by right.
    - intros x [->|Hx]%elem_of_cons; [left | right; auto].
Qed.

Lemma jsmap_NoDup_delete m k : NoDup m.*1 → NoDup (JsMap.delete m k).*1.
Proof.
    induction m as [|[k0 v0] m IH]; csimpl; [done|].
    rewrite NoDup_cons. intros [Hk Hnd].
    destruct (decide (k0 = k)); csimpl; [done|].
    apply NoDup_cons. split; [|auto].
    intros Hin. apply Hk. by apply (jsmap_keys_delete_subseteq m k).
Qed.

Lemma jsmap_get_delete_eq m k :
    NoDup m.*1 → JsMap.get (JsMap.delete m k) k = None.
Proof.
    induction m as [|[k0 v0] m IH]; csimpl; [done|].
    rewrite NoDup_cons. intros [Hk Hnd].
    destruct (decide (k0 = k)) as [->|Hne]; csimpl.
    - by apply jsmap_get_None.
    - rewrite decide_False by done. auto.
Qed.
End jsmap_facts.

Section jsset_facts.
Context {K : Type} `{EqDecision K}.
Implicit Types (s : list K) (k : K).

Lemma jsset_has_true s k : JsSet.has s k = true ↔ k ∈ s.
  Proof. unfold JsSet.has. apply bool_decide_eq_true. Qed.

Lemma jsset_has_false s k : JsSet.has s k = false ↔ k ∉ s.
  Proof. unfold JsSet.has. apply bool_decide_eq_false. Qed.

Lemma jsset_elem_of_add s k k' : k' ∈ JsSet.add s k ↔ k' = k ∨ k' ∈ s.
Proof.
    unfold JsSet.add. destruct (JsSet.has s k) eqn:E.
    - apply jsset_has_true in E. naive_solver.
    - rewrite elem_of_app, list_elem_of_singleton. naive_solver.
Qed.

Lemma jsset_NoDup_add s k : NoDup s → NoDup (JsSet.add s k).
Proof.
    intros Hnd. unfold JsSet.add. destruct (JsSet.has s k) eqn:E; [done|].
    apply jsset_has_false in E.
    apply NoDup_app. split_and!; [done| |apply NoDup_singleton].
    by intros x Hx ->%list_elem_of_singleton.
Qed.

Lemma jsset_foldl_add s (l : list K) :
    NoDup s →
    NoDup (foldl JsSet.add s l)
    ∧ ∀ k, k ∈ foldl JsSet.add s l ↔ k ∈ s ∨ k ∈ l.
Proof.
    revert s. induction l as [|x l IH]; intros s Hnd; simpl.
    - split; [done|]. intros k. rewrite elem_of_nil. naive_solver.
    - destruct (IH (JsSet.add s x) (jsset_NoDup_add s x Hnd)) as [Hnd' Hin].
      split; [done|]. intros k. rewrite Hin, jsset_elem_of_add, elem_of_cons.
      naive_solver.
Qed.

Lemma jsset_of_list_NoDup_id (l : list K) : NoDup l → JsSet.of_list l = l.
Proof.
    unfold JsSet.of_list. intros Hnd.
    cut (∀ s, NoDup (s ++ l) → foldl JsSet.add s l = s ++ l).
    { intros Hcut. by apply (Hcut []). }
    clear Hnd. induction l as [|x l IH]; intros s Hnd; simpl.
    - by rewrite app_nil_r.
    - assert (x ∉ s) as Hx.
      { apply NoDup_app in Hnd as (_ & Hd & _). intros Hin.
        apply (Hd x Hin). left. }
      unfold JsSet.add at 2. apply jsset_has_false in Hx. rewrite Hx.
      rewrite IH; [by rewrite <-app_assoc|]. by rewrite <-app_assoc.
Qed.

Lemma jsset_of_list_spec (l : list K) :
    NoDup (JsSet.of_list l) ∧ ∀ k, k ∈ JsSet.of_list l ↔ k ∈ l.
Proof.
    destruct (jsset_foldl_add [] l (NoDup_nil_2)) as [Hnd Hin].
    split; [done|]. intros k. unfold JsSet.of_list. rewrite Hin, elem_of_nil.
    naive_solver.
Qed.

Lemma jsset_elem_of_delete s k k' :
    NoDup s → k' ∈ JsSet.delete s k ↔ k' ≠ k ∧ k' ∈ s.
Proof.
    induction s as [|x s IH]; simpl.
    - intros _. rewrite elem_of_nil. naive_solver.
    - rewrite NoDup_cons. intros [Hx Hnd].
      destruct (decide (x = k)) as [->|Hne].
      + rewrite elem_of_cons. split; [|naive_solver].
        intros Hin. split; [|by right]. by intros ->.
      + rewrite !elem_of_cons, IH by done. naive_solver.
Qed.

Lemma jsset_NoDup_delete s k : NoDup s → NoDup (JsSet.delete s k).
Proof.
    induction s as [|x s IH]; simpl; [done|].
    rewrite NoDup_cons. intros [Hx Hnd].
    destruct (decide (x = k)) as [->|Hne]; [done|].
    apply NoDup_cons. split; [|auto].
    rewrite jsset_elem_of_delete by done. naive_solver.
Qed.
End jsset_facts.

(** ** Library keys *)

Lemma split_no_separator sep s : contains sep s = false → split sep s = [s].
Proof.
  induction s as [|c s IH]; simpl; [done|].
  destruct (decide (c = sep)); [done|]. intros Hs. by rewrite IH.
Qed.

Lemma split_at_separator sep s1 s2 :
  contains sep s1 = false →
  split sep (s1 +:+ String sep s2) = s1 :: split sep s2.
Proof.
  induction s1 as [|c s1 IH]; simpl.
  - intros _. by rewrite decide_True.
  - destruct (decide (c = sep)); [done|]. intros Hs. by rewrite IH.
Qed.

Lemma split_head_clean sep s :
  ∃ h t, split sep s = h :: t ∧ contains sep h = false.
Proof.
  induction s as [|c s (h & t & E & Hh)]; simpl.
  - by exists "", [].
  - rewrite E. destruct (decide (c = sep)) as [->|Hne].
    + by exists "", (h :: t).
    + exists (String c h), t. split; [done|]. simpl. by rewrite decide_False.
Qed.

Lemma split_head_append sep s1 s2 :
  contains sep s1 = true →
  split sep (s1 +:+ s2) !! 0 = split sep s1 !! 0.
Proof.
  induction s1 as [|c s1 IH]; simpl; [done|].
  destruct (decide (c = sep)); [done|]. intros Hs. specialize (IH Hs).
  destruct (split_head_clean sep (s1 +:+ s2)) as (h & t & E & _).
  destruct (split_head_clean sep s1) as (h' & t' & E' & _).
  rewrite E, E' in *. simpl in *. congruence.
Qed.

Lemma libKey_unfold (lib : Lib.t) :
  libKey lib = Lib.debugName lib +:+ String "/" (Lib.breakpadId lib).
Proof. reflexivity. Qed.

Lemma splitLibKey_clean (lib : Lib.t) :
  contains "/" (Lib.debugName lib) = false →
  contains "/" (Lib.breakpadId lib) = false →
  splitLibKey (libKey lib)
  = {| RequestLib.debugName := Some (Lib.debugName lib);
       RequestLib.breakpadId := Some (Lib.breakpadId lib) |}.
Proof.
  intros Hd Hb. unfold splitLibKey. rewrite libKey_unfold.
  rewrite split_at_separator by done. by rewrite split_no_separator.
Qed.

Lemma splitLibKey_slash_in_debugName (lib : Lib.t) :
  contains "/" (Lib.debugName lib) = true →
  RequestLib.debugName (splitLibKey (libKey lib)) ≠ Some (Lib.debugName lib).
Proof.
  intros Hd. unfold splitLibKey. rewrite libKey_unfold. simpl.
  rewrite split_head_append by done.
  destruct (split_head_clean "/" (Lib.debugName lib)) as (h & t & -> & Hh).
  simpl. intros [= ->]. congruence.
Qed.

(** ** The request aggregator *)

Lemma foldl_foldl_concat {A B : Type} (f : A → B → A) (a : A)
  (ls : list (list B)) :
  foldl (λ a l, foldl f a l) a ls = foldl f a (concat ls).
Proof.
  revert a. induction ls as [|l ls IH]; intros a; simpl; [done|].
  by rewrite IH, foldl_app.
Qed.

Lemma aggregates_nil : aggregates [] [].
Proof.
  split_and!; [constructor|done|]. by intros k s [=].
Qed.

Lemma aggregates_snoc entries m e :
  aggregates entries m → aggregates (entries ++ [e]) (addFrameAddresses m e).
Proof.
  intros (Hnd & Hkeys & Hsets). destruct e as [k info]. simpl.
  set (old := match JsMap.get m k with Some s => s | None => [] end).
  assert (NoDup old ∧ ∀ a, a ∈ old ↔ recordedAddress entries k a)
    as [Hold_nd Hold].
  { unfold old. destruct (JsMap.get m k) as [s|] eqn:E; [by apply Hsets|].
    split; [constructor|]. intros a. split; [by intros ?%elem_of_nil|].
    intros (info' & Hin & _). apply jsmap_get_None in E. destruct E.
    apply Hkeys, list_elem_of_fmap. by exists (k, info'). }
  destruct (jsset_foldl_add old
              (ThreadLibSymbolicationInfo.frameAddresses info) Hold_nd)
    as [Hnew_nd Hnew].
  split_and!.
  - by apply jsmap_NoDup_set.
  - intros k'. rewrite jsmap_elem_of_keys_set, Hkeys, fmap_app, elem_of_app.
    simpl. rewrite list_elem_of_singleton. naive_solver.
  - intros k' s. rewrite jsmap_get_set.
    destruct (decide (k = k')) as [<-|Hne].
    + intros [= <-]. split; [done|]. intros a. rewrite Hnew, Hold.
      unfold recordedAddress. split.
      * intros [(info' & Hin & Ha)|Ha].
        -- exists info'. rewrite elem_of_app. auto.
        -- exists info. rewrite elem_of_app, list_elem_of_singleton. auto.
      * intros (info' & [Hin|[= ->]%list_elem_of_singleton]%elem_of_app & Ha);
          [left; by exists info'|by right].
    + intros Hget. destruct (Hsets k' s Hget) as [Hs_nd Hs].
      split; [done|]. intros a. rewrite Hs. unfold recordedAddress.
      split; intros (info' & Hin & Ha); exists info'; split; try done.
      * rewrite elem_of_app. by left.
      * apply elem_of_app in Hin as [Hin|Hin%list_elem_of_singleton];
          [done|congruence].
Qed.

Lemma aggregates_foldl entries m l :
  aggregates entries m →
  aggregates (entries ++ l) (foldl addFrameAddresses m l).
Proof.
  revert entries m. induction l as [|e l IH]; intros entries m Hagg; simpl.
  - by rewrite app_nil_r.
  - rewrite (cons_middle e), app_assoc. apply IH. by apply aggregates_snoc.
Qed.

Lemma libKeyToAddressesMap_aggregates symbolicationInfo :
  aggregates (concat symbolicationInfo)
             (libKeyToAddressesMap symbolicationInfo).
Proof.
  unfold libKeyToAddressesMap. rewrite foldl_foldl_concat.
  apply (aggregates_foldl [] []), aggregates_nil.
Qed.

Lemma elem_of_concat {A : Type} (ls : list (list A)) (x : A) :
  x ∈ concat ls ↔ ∃ l, l ∈ ls ∧ x ∈ l.
Proof.
  induction ls as [|l ls IH]; simpl.
  - split; [by intros ?%elem_of_nil|]. by intros (l & ?%elem_of_nil & _).
  - rewrite elem_of_app, IH. split.
    + intros [Hx|(l' & Hl' & Hx)]; [exists l; split; [left|done]|].
      exists l'. split; [by right|done].
    + intros (l' & [->|Hl']%elem_of_cons & Hx); [by left|].
      right. by exists l'.
Qed.

Lemma elem_of_concat_fst {A B : Type} (ls : list (list (A * B))) (k : A) :
  k ∈ (concat ls).*1 ↔ ∃ l, l ∈ ls ∧ k ∈ l.*1.
Proof.
  rewrite list_elem_of_fmap. split.
  - intros ([k' v] & -> & (l & Hl & Hin)%elem_of_concat).
    exists l. split; [done|]. apply list_elem_of_fmap. by exists (k', v).
  - intros (l & Hl & ([k' v] & -> & Hin)%list_elem_of_fmap).
    exists (k', v). split; [done|]. apply elem_of_concat. by exists l.
Qed.

(** C9.  One request per distinct library key of the threads' maps, and
    its address set is the duplicate-free union of the frame addresses
    recorded for that key in all threads. *)
Theorem buildLibSymbolicationRequestsForAllThreads_spec
  (symbolicationInfo : list (list (string * ThreadLibSymbolicationInfo.t))) :
  ∃ libKeys : list string,
    NoDup libKeys
    ∧ (∀ k, k ∈ libKeys ↔ ∃ tsi, tsi ∈ symbolicationInfo ∧ k ∈ tsi.*1)
    ∧ Forall2
        (λ k request,
           LibSymbolicationRequest.lib request = splitLibKey k
           ∧ NoDup (LibSymbolicationRequest.addresses request)
           ∧ ∀ a, a ∈ LibSymbolicationRequest.addresses request
                  ↔ ∃ tsi info,
                      tsi ∈ symbolicationInfo ∧ (k, info) ∈ tsi
                      ∧ a ∈ ThreadLibSymbolicationInfo.frameAddresses info)
        libKeys
        (buildLibSymbolicationRequestsForAllThreads symbolicationInfo).
Proof.
  destruct (libKeyToAddressesMap_aggregates symbolicationInfo)
    as (Hnd & Hkeys & Hsets).
  exists (libKeyToAddressesMap symbolicationInfo).*1. split_and!.
  - done.
  - intros k. by rewrite Hkeys, elem_of_concat_fst.
  - unfold buildLibSymbolicationRequestsForAllThreads.
    apply Forall2_fmap, Forall_Forall2_diag, Forall_forall.
    intros [k s] Hin. simpl.
    destruct (Hsets k s (jsmap_elem_get _ _ _ Hnd Hin)) as [Hs_nd Hs].
    split_and!; [done..|]. intros a. rewrite Hs. unfold recordedAddress.
    split.
    + intros (info & (tsi & Htsi & Hi)%elem_of_concat & Ha).
      by exists tsi, info.
    + intros (tsi & info & Htsi & Hi & Ha). exists info. split; [|done].
      apply elem_of_concat. by exists tsi.
Qed.

(** C10 (amended).  When neither the debug name nor the breakpad id of a
    lib contains a slash, splitting the lib's key at the slashes gives back
    exactly the two, and the request aggregated for that key carries them
    as its [lib]; when the debug name contains a slash, what comes back
    differs from the lib. *)
Theorem libKey_split_roundtrip (lib : Lib.t) :
  let original :=
    {| RequestLib.debugName := Some (Lib.debugName lib);
       RequestLib.breakpadId := Some (Lib.breakpadId lib) |} in
  (contains "/" (Lib.debugName lib) = false →
   contains "/" (Lib.breakpadId lib) = false →
   splitLibKey (libKey lib) = original
   ∧ ∀ symbolicationInfo tsi info,
       tsi ∈ symbolicationInfo → (libKey lib, info) ∈ tsi →
       ∃ request,
         request ∈ buildLibSymbolicationRequestsForAllThreads symbolicationInfo
         ∧ LibSymbolicationRequest.lib request = original)
  ∧ (contains "/" (Lib.debugName lib) = true →
     splitLibKey (libKey lib) ≠ original).
Proof.
  intros original. split.
  - intros Hd Hb. pose proof (splitLibKey_clean lib Hd Hb) as Hsplit.
    split; [done|]. intros symbolicationInfo tsi info Htsi Hin.
    destruct (libKeyToAddressesMap_aggregates symbolicationInfo)
      as (_ & Hkeys & _).
    assert (libKey lib ∈ (libKeyToAddressesMap symbolicationInfo).*1)
      as ([k s] & Hk & Hks)%list_elem_of_fmap.
    { apply Hkeys, elem_of_concat_fst. exists tsi. split; [done|].
      apply list_elem_of_fmap. by exists (libKey lib, info). }
    simpl in Hk. subst k.
    exists {| LibSymbolicationRequest.lib := splitLibKey (libKey lib);
              LibSymbolicationRequest.addresses := s |}.
    split; [|done]. unfold buildLibSymbolicationRequestsForAllThreads.
    apply list_elem_of_fmap. by exists (libKey lib, s).
  - intros Hd Heq. apply (splitLibKey_slash_in_debugName lib Hd).
    by rewrite Heq.
Qed.

Lemma libKey_split_roundtrip_witness :
  splitLibKey (libKey (Lib.mk "firefox.pdb" "000000000000000000000000000000000"))
  = {| RequestLib.debugName := Some "firefox.pdb";
       RequestLib.breakpadId := Some "000000000000000000000000000000000" |}
  ∧ splitLibKey (libKey (Lib.mk "dir/firefox.pdb" "0"))
    ≠ {| RequestLib.debugName := Some "dir/firefox.pdb";
         RequestLib.breakpadId := Some "0" |}.
Proof.
  split.
  - apply (libKey_split_roundtrip
             (Lib.mk "firefox.pdb" "000000000000000000000000000000000"));
      reflexivity.
  - apply (libKey_split_roundtrip (Lib.mk "dir/firefox.pdb" "0")).
    reflexivity.
Defined.

(** The claim as first stated asks only that the debug name be free of
    slashes; a slash in the breakpad id already breaks the round trip. *)
Lemma libKey_split_roundtrip_counterexample :
  contains "/" (Lib.debugName (Lib.mk "a" "b/c")) = false
  ∧ splitLibKey (libKey (Lib.mk "a" "b/c"))
    ≠ {| RequestLib.debugName := Some "a";
         RequestLib.breakpadId := Some "b/c" |}.
Proof. split; [reflexivity | discriminate]. Qed.

(** ** The address collector *)

Lemma foldlM_app {A B : Type} (f : A → B → completion A) a l1 l2 :
  foldlM f a (l1 ++ l2) = (a' ← foldlM f a l1; foldlM f a' l2).
Proof.
  revert a. induction l1 as [|b l1 IH]; intros a; simpl; [done|].
  destruct (f a b); simpl; auto.
Qed.

Lemma foldlM_returns {A B : Type} (f : A → B → completion A) a l :
  (∀ a b, b ∈ l → ∃ a', f a b = Returns a') →
  ∃ a', foldlM f a l = Returns a'.
Proof.
  revert a. induction l as [|b l IH]; intros a Hf; simpl; [by eexists|].
  destruct (Hf a b) as [a' ->]; [left|]. simpl.
  apply IH. intros a0 b0 Hb0. apply Hf. by right.
Qed.

Lemma foldlM_throws {A B : Type} (f : A → B → completion A)
  (bad : B → Prop) error a l :
  (∀ a b, b ∈ l →
     (bad b ∧ f a b = Throws error) ∨ (¬ bad b ∧ ∃ a', f a b = Returns a')) →
  (foldlM f a l = Throws error ∧ Exists bad l)
  ∨ (∃ a', foldlM f a l = Returns a') ∧ Forall (λ b, ¬ bad b) l.
Proof.
  revert a. induction l as [|b l IH]; intros a Hf; simpl.
  - right. split; [by eexists|constructor].
  - destruct (Hf a b) as [[Hbad ->]|[Hgood [a' ->]]]; [left|..]; simpl.
    + left. split; [done|by left].
    + destruct (IH a') as [[-> Hex]|[Hret Hall]].
      * intros a0 b0 Hb0. apply Hf. by right.
      * left. split; [done|by right].
      * right. split; [done|by constructor].
Qed.

Lemma collectFrames_returns frameTable funcTable resourceIndex :
  (FrameTable.length frameTable
   ≤ length (FrameTable.address frameTable))%nat →
  ∃ r, collectFrames frameTable funcTable resourceIndex = Returns r.
Proof.
  intros Hlen. apply foldlM_returns.
  intros [frames addresses] b [_ Hb]%elem_of_seq.
  destruct (decide _); [|by eexists].
  destruct (lookup_lt_is_Some_2 (FrameTable.address frameTable) b) as [z Hz];
    [lia|].
  unfold read. rewrite Hz. by eexists.
Qed.

Lemma collectLib_returns thread resourceIndex libIndex :
  (FrameTable.length (Thread.frameTable thread)
   ≤ length (FrameTable.address (Thread.frameTable thread)))%nat →
  ∃ info, collectLib thread resourceIndex libIndex = Returns info.
Proof.
  intros Hlen. unfold collectLib.
  destruct (collectFrames_returns _ (Thread.funcTable thread)
              resourceIndex Hlen) as [[frames addresses] ->].
  by eexists.
Qed.

Lemma collectResource_skips thread map resourceIndex :
  ResourceTable.lib (Thread.resourceTable thread) !! resourceIndex
    ∈ [None; Some None; Some (Some (-1)%Z)] →
  collectResource thread map resourceIndex = Returns map.
Proof.
  intros Hlib. unfold collectResource. destruct (decide _); [|done].
  repeat (apply elem_of_cons in Hlib as [->|Hlib]); try done.
  by apply elem_of_nil in Hlib.
Qed.

Lemma collectResource_cases thread map resourceIndex :
  (FrameTable.length (Thread.frameTable thread)
   ≤ length (FrameTable.address (Thread.frameTable thread)))%nat →
  (pointsAtMissingLib thread resourceIndex
   ∧ collectResource thread map resourceIndex
     = Throws (Error "Did not find a lib."))
  ∨ (¬ pointsAtMissingLib thread resourceIndex
     ∧ ∃ map', collectResource thread map resourceIndex = Returns map').
Proof.
  intros Hlen. unfold collectResource, pointsAtMissingLib.
  destruct (decide _) as [Htype|Htype]; [|right; naive_solver].
  destruct (ResourceTable.lib _ !! resourceIndex) as [[libIndex|]|] eqn:Hlib;
    [|right; naive_solver..].
  destruct (decide (libIndex = (-1)%Z)) as [->|Hne]; [right; naive_solver|].
  destruct (lookupZ (Thread.libs thread) libIndex) as [lib|] eqn:Hlookup.
  - right. split; [naive_solver|].
    destruct (collectLib_returns thread resourceIndex libIndex Hlen)
      as [info ->].
    by eexists.
  - left. split; [|done]. split; [done|]. by exists libIndex.
Qed.

(** C8.  The address collector throws exactly when some resource row of
    kind library has a lib index without a lib row; rows of kind library
    whose lib index is null, undefined or -1 are passed over and leave the
    map as it was.  (The frame table's address column is taken to be as
    long as the table says, as its type promises.) *)
Theorem getThreadSymbolicationInfo_throws (thread : Thread.t) :
  (FrameTable.length (Thread.frameTable thread)
   ≤ length (FrameTable.address (Thread.frameTable thread)))%nat →
  ((∃ error, getThreadSymbolicationInfo thread = Throws error)
   ↔ ∃ resourceIndex,
       resourceIndex < ResourceTable.length (Thread.resourceTable thread)
       ∧ pointsAtMissingLib thread resourceIndex)
  ∧ ((∃ map, getThreadSymbolicationInfo thread = Returns map)
     ∨ getThreadSymbolicationInfo thread
       = Throws (Error "Did not find a lib."))
  ∧ ∀ map resourceIndex,
      ResourceTable.type (Thread.resourceTable thread) !! resourceIndex
      = Some resourceTypes_library →
      ResourceTable.lib (Thread.resourceTable thread) !! resourceIndex
        ∈ [None; Some None; Some (Some (-1)%Z)] →
      collectResource thread map resourceIndex = Returns map.
Proof.
  intros Hlen.
  pose proof (foldlM_throws (collectResource thread)
                (pointsAtMissingLib thread) (Error "Did not find a lib.") []
                (seq 0 (ResourceTable.length (Thread.resourceTable thread))))
    as Hfold.
  fold (getThreadSymbolicationInfo thread) in Hfold.
  destruct Hfold as [[Hthrows Hex]|[[map Hret] Hall]].
  { intros a b _. by apply collectResource_cases. }
  - split_and!.
    + split; [intros _|by eexists].
      apply Exists_exists in Hex as (r & [_ Hr]%elem_of_seq & Hbad).
      exists r. split; [lia|done].
    + by right.
    + intros map r _ Hlib. by apply collectResource_skips.
  - split_and!.
    + split; [intros [error Herr]; congruence|].
      intros (r & Hr & Hbad). exfalso.
      rewrite Forall_forall in Hall. apply (Hall r); [|done].
      apply elem_of_seq. lia.
    + left. by exists map.
    + intros map' r _ Hlib. by apply collectResource_skips.
Qed.

(** ** Reading and writing columns, folding with completions *)

Lemma bind_Returns {A B : Type} (m : completion A) (f : A → completion B) b :
  m ≫= f = Returns b ↔ ∃ a, m = Returns a ∧ f a = Returns b.
Proof.
  destruct m as [a| |]; simpl.
  - split; [by exists a | by intros (? & [= ->] & ?)].
  - split; [done | by intros (? & [=] & _)].
  - split; [done | by intros (? & [=] & _)].
Qed.

Lemma read_Returns {A : Type} (column : list A) i a :
  read column i = Returns a ↔ column !! i = Some a.
Proof. unfold read. destruct (column !! i); naive_solver. Qed.

Lemma write_Returns {A : Type} (column : list A) i a column' :
  write column i a = Returns column' →
  column' !! i = Some a
  ∧ (∀ j, j ≠ i → column' !! j = column !! j)
  ∧ (length column ≤ length column')%nat
  ∧ (i < length column → length column' = length column).
Proof.
  unfold write. destruct (decide (i < length column)) as [Hlt|Hge].
  - intros [= <-]. split_and!.
    + by apply list_lookup_insert_eq.
    + intros j Hj. by apply list_lookup_insert_ne.
    + by rewrite length_insert.
    + intros _. by rewrite length_insert.
  - destruct (decide (i = length column)) as [->|]; [|done].
    intros [= <-]. split_and!.
    + rewrite lookup_app_r by done. by rewrite Nat.sub_diag.
    + intros j Hj. destruct (decide (j < length column)).
      * by rewrite lookup_app_l.
      * rewrite !lookup_ge_None_2; [done|lia|rewrite length_app; simpl; lia].
    + rewrite length_app. lia.
    + lia.
Qed.

Lemma write_same {A : Type} (column : list A) i a :
  column !! i = Some a → write column i a = Returns column.
Proof.
  intros Hi. unfold write. rewrite decide_True by by eapply lookup_lt_Some.
  by rewrite list_insert_id.
Qed.

Lemma write_is_Returns {A : Type} (column : list A) i a :
  (i ≤ length column)%nat → ∃ column', write column i a = Returns column'.
Proof.
  intros Hi. unfold write. destruct (decide (i < length column)); [by eexists|].
  rewrite decide_True by lia. by eexists.
Qed.

Lemma foldlM_invariant {A B : Type} (f : A → B → completion A)
  (P : list B → A → Prop) l a a' :
  P [] a →
  (∀ pre b post a a',
     l = pre ++ b :: post → P pre a → f a b = Returns a' → P (pre ++ [b]) a') →
  foldlM f a l = Returns a' → P l a'.
Proof.
  intros H0 Hstep.
  cut (∀ post pre a, l = pre ++ post → P pre a →
                     foldlM f a post = Returns a' → P l a').
  { intros Hcut. by apply (Hcut l [] a). }
  induction post as [|b post IH]; intros pre a0 Hl Hpre; simpl.
  - intros [= <-]. by rewrite Hl, app_nil_r.
  - intros (a1 & Hf & Hrest)%bind_Returns.
    apply (IH (pre ++ [b]) a1); [by rewrite <-app_assoc| |done].
    by apply (Hstep pre b post a0).
Qed.

(** ** First loop: a symbol address for every frame *)

Lemma resolveSymbolAddress_Returns thread results a frameIndex a' :
  resolveSymbolAddress thread results a frameIndex = Returns a' →
  ∃ oldFrameSymbol addressResult,
    let symbolAddress := AddressResult.symbolAddress addressResult in
    resolveFrame thread results frameIndex
    = Returns (oldFrameSymbol, addressResult)
    ∧ StepA.frameToSymbolAddressMap a'
      = JsMap.set (StepA.frameToSymbolAddressMap a) frameIndex symbolAddress
    ∧ StepA.symbolAddressToNameMap a'
      = JsMap.set (StepA.symbolAddressToNameMap a) symbolAddress
          (AddressResult.name addressResult)
    ∧ ((StepA.symbolAddressToCanonicalSymbolIndexMap a'
        = StepA.symbolAddressToCanonicalSymbolIndexMap a
        ∧ StepA.availableNativeSymbols a' = StepA.availableNativeSymbols a
        ∧ (∀ s, oldFrameSymbol = Some s →
                JsMap.has (StepA.symbolAddressToCanonicalSymbolIndexMap a)
                  symbolAddress = true
                ∨ s ∉ StepA.availableNativeSymbols a))
       ∨ ∃ s, oldFrameSymbol = Some s
              ∧ JsMap.has (StepA.symbolAddressToCanonicalSymbolIndexMap a)
                  symbolAddress = false
              ∧ s ∈ StepA.availableNativeSymbols a
              ∧ StepA.symbolAddressToCanonicalSymbolIndexMap a'
                = JsMap.set (StepA.symbolAddressToCanonicalSymbolIndexMap a)
                    symbolAddress s
              ∧ StepA.availableNativeSymbols a'
                = JsSet.delete (StepA.availableNativeSymbols a) s).
Proof.
  unfold resolveSymbolAddress.
  intros ([o r] & Hres & Hrest)%bind_Returns.
  exists o, r. simpl. split; [done|].
  destruct o as [s|]; [|injection Hrest as <-; simpl; naive_solver].
  destruct (JsMap.has _ _) eqn:Hhas; simpl in Hrest;
    [injection Hrest as <-; simpl; naive_solver|].
  destruct (JsSet.has _ s) eqn:Havail; injection Hrest as <-; simpl.
  - apply jsset_has_true in Havail. split_and!; [done..|]. right.
    by exists s.
  - apply jsset_has_false in Havail. split_and!; [done..|]. left.
    split_and!; [done..|]. intros ? [= <-]. by right.
Qed.

Lemma jsmap_set_new {K V : Type} `{EqDecision K} (m : list (K * V)) k v :
  JsMap.has m k = false → JsMap.set m k v = m ++ [(k, v)].
Proof.
  unfold JsMap.has. induction m as [|[k' v'] m IH]; simpl; [done|].
  destruct (decide (k' = k)); [done|]. intros Hm. by rewrite IH.
Qed.

Lemma jsmap_has_false {K V : Type} `{EqDecision K} (m : list (K * V)) k :
  JsMap.has m k = false ↔ JsMap.get m k = None.
Proof. unfold JsMap.has. by destruct (JsMap.get m k). Qed.

Lemma jsmap_get_is_Some {K V : Type} `{EqDecision K} (m : list (K * V)) k :
  k ∈ m.*1 → ∃ v, JsMap.get m k = Some v.
Proof.
  intros Hk. destruct (JsMap.get m k) as [v|] eqn:E; [by exists v|].
  by apply jsmap_get_None in E.
Qed.

Lemma jsmap_get_elem_of_keys {K V : Type} `{EqDecision K}
  (m : list (K * V)) k v : JsMap.get m k = Some v → k ∈ m.*1.
Proof.
  intros Hget%jsmap_get_Some_elem. apply list_elem_of_fmap. by exists (k, v).
Qed.

Lemma jsmap_get_elem_of_values {K V : Type} `{EqDecision K}
  (m : list (K * V)) k v : JsMap.get m k = Some v → v ∈ m.*2.
Proof.
  intros Hget%jsmap_get_Some_elem. apply list_elem_of_fmap. by exists (k, v).
Qed.

Lemma stepA_invariant_init thread results symbols :
  stepA_invariant thread results (JsSet.of_list symbols) []
    {| StepA.availableNativeSymbols := JsSet.of_list symbols;
       StepA.frameToSymbolAddressMap := [];
       StepA.symbolAddressToNameMap := [];
       StepA.symbolAddressToCanonicalSymbolIndexMap := [] |}.
Proof.
  destruct (jsset_of_list_spec symbols) as [Hnd _].
  unfold stepA_invariant; simpl. split_and!; try by constructor.
  - done.
  - intros sa. split; [by intros ?%elem_of_nil|]. by intros (f & [=]).
  - done.
  - done.
  - by intros s ?%elem_of_nil.
  - intros s. split; [|naive_solver]. intros Hs. split; [done|].
    apply not_elem_of_nil.
Qed.

Lemma stepA_invariant_step thread results symbols visited a f a' :
  stepA_invariant thread results symbols visited a →
  resolveSymbolAddress thread results a f = Returns a' →
  stepA_invariant thread results symbols (visited ++ [f]) a'.
Proof.
  intros (Hf_nd & Hf_keys & Hf_res & Hn_nd & Hn_keys & Hc_nd & Hc_sub
          & Hv_nd & Ha_nd & Hv_sym & Ha_mem)
         (old & r & Hres & Hf2sa & Hsa2n & Hcanon)%resolveSymbolAddress_Returns.
  simpl in *. set (sa := AddressResult.symbolAddress r) in *.
  assert (∀ sa', JsMap.get (StepA.frameToSymbolAddressMap a) f = Some sa' →
                 sa' = sa) as Hdet.
  { intros sa' (old' & r' & Hres' & <-)%Hf_res. unfold sa. congruence. }
  assert (∀ sa', sa' ∈ (StepA.symbolAddressToNameMap a').*1
                 ↔ sa' = sa ∨ sa' ∈ (StepA.symbolAddressToNameMap a).*1)
    as Hn_keys'.
  { intros sa'. rewrite Hsa2n. apply jsmap_elem_of_keys_set. }
  unfold stepA_invariant.
  assert (NoDup (StepA.frameToSymbolAddressMap a').*1
          ∧ (∀ f', f' ∈ (StepA.frameToSymbolAddressMap a').*1
                    ↔ f' ∈ visited ++ [f])
          ∧ (∀ f' sa',
               JsMap.get (StepA.frameToSymbolAddressMap a') f' = Some sa' →
               ∃ old r, resolveFrame thread results f' = Returns (old, r)
                        ∧ AddressResult.symbolAddress r = sa')
          ∧ NoDup (StepA.symbolAddressToNameMap a').*1
          ∧ (∀ sa', sa' ∈ (StepA.symbolAddressToNameMap a').*1
                    ↔ ∃ f', JsMap.get (StepA.frameToSymbolAddressMap a') f'
                            = Some sa'))
    as (? & ? & ? & ? & ?).
  { rewrite Hf2sa. split_and!.
    - by apply jsmap_NoDup_set.
    - intros f'. rewrite jsmap_elem_of_keys_set, Hf_keys, elem_of_app,
        list_elem_of_singleton. naive_solver.
    - intros f' sa'. rewrite jsmap_get_set.
      destruct (decide (f = f')) as [<-|Hne]; [|by apply Hf_res].
      intros [= <-]. by exists old, r.
    - rewrite Hsa2n. by apply jsmap_NoDup_set.
    - intros sa'. rewrite Hn_keys', Hn_keys. split.
      + intros [->|(f' & Hf')].
        * exists f. by rewrite jsmap_get_set_eq.
        * exists f'. rewrite jsmap_get_set.
          destruct (decide (f = f')) as [<-|Hne]; [|done].
          by rewrite (Hdet _ Hf').
      + intros (f' & Hf'). rewrite jsmap_get_set in Hf'.
        destruct (decide (f = f')) as [<-|Hne]; [left; congruence|].
        right. by exists f'. }
  destruct Hcanon as [(E1 & E2 & _)|(s & E0 & Hhas & Hs & E1 & E2)];
    rewrite E1, E2.
  - split_and!; try done. intros sa' Hsa'. apply Hn_keys'. right.
    by apply Hc_sub.
  - apply Ha_mem in Hs as [Hs_sym Hs_new].
    rewrite jsmap_set_new by done. rewrite !fmap_app. simpl.
    split_and!; try done.
    + apply NoDup_app. split_and!; [done| |apply NoDup_singleton].
      intros sa' Hsa' ->%list_elem_of_singleton.
      apply jsmap_has_false, jsmap_get_None in Hhas. done.
    + intros sa' [Hsa'| ->%list_elem_of_singleton]%elem_of_app;
        apply Hn_keys'; [right; by apply Hc_sub|by left].
    + apply NoDup_app. split_and!; [done| |apply NoDup_singleton].
      by intros s' Hs' ->%list_elem_of_singleton.
    + by apply jsset_NoDup_delete.
    + intros s' [Hs'| ->%list_elem_of_singleton]%elem_of_app; auto.
    + intros s'. rewrite jsset_elem_of_delete, Ha_mem, not_elem_of_app,
        list_elem_of_singleton by done. naive_solver.
Qed.

Lemma stepA_spec thread info results a :
  stepA thread info results = Returns a →
  stepA_invariant thread results
    (JsSet.of_list (ThreadLibSymbolicationInfo.allNativeSymbolsForThisLib info))
    (ThreadLibSymbolicationInfo.allFramesForThisLib info) a.
Proof.
  apply (foldlM_invariant _ (stepA_invariant thread results _)).
  - apply stepA_invariant_init.
  - intros pre b post a0 a1 _. apply stepA_invariant_step.
Qed.

(** ** Second loop: a canonical symbol for every symbol address *)

Lemma canonicalizeSymbol_Returns libIndex b symbolAddress symbolName b' :
  canonicalizeSymbol libIndex b (symbolAddress, symbolName) = Returns b' →
  ∃ symbolStringIndex symbolIndex nativeSymbols addressColumn nameColumn,
    indexForString symbolName (StepB.stringTable b)
    = (symbolStringIndex, StepB.stringTable b')
    ∧ JsMap.get (StepB.symbolAddressToCanonicalSymbolIndexMap b')
        symbolAddress = Some symbolIndex
    ∧ ((JsMap.get (StepB.symbolAddressToCanonicalSymbolIndexMap b)
          symbolAddress = Some symbolIndex
        ∧ StepB.availableNativeSymbolIterator b'
          = StepB.availableNativeSymbolIterator b
        ∧ nativeSymbols = StepB.nativeSymbols b
        ∧ StepB.symbolAddressToCanonicalSymbolIndexMap b'
          = StepB.symbolAddressToCanonicalSymbolIndexMap b)
       ∨ (JsMap.get (StepB.symbolAddressToCanonicalSymbolIndexMap b)
            symbolAddress = None
          ∧ StepB.symbolAddressToCanonicalSymbolIndexMap b'
            = JsMap.set (StepB.symbolAddressToCanonicalSymbolIndexMap b)
                symbolAddress symbolIndex
          ∧ ((StepB.availableNativeSymbolIterator b
              = symbolIndex :: StepB.availableNativeSymbolIterator b'
              ∧ nativeSymbols = StepB.nativeSymbols b)
             ∨ (StepB.availableNativeSymbolIterator b = []
                ∧ StepB.availableNativeSymbolIterator b' = []
                ∧ addNativeSymbol (StepB.nativeSymbols b) libIndex
                  = Returns (symbolIndex, nativeSymbols)))))
    ∧ write (NativeSymbolTable.address nativeSymbols) symbolIndex
        symbolAddress = Returns addressColumn
    ∧ write (NativeSymbolTable.name nativeSymbols) symbolIndex
        symbolStringIndex = Returns nameColumn
    ∧ StepB.nativeSymbols b'
      = {| NativeSymbolTable.length := NativeSymbolTable.length nativeSymbols;
           NativeSymbolTable.libIndex :=
             NativeSymbolTable.libIndex nativeSymbols;
           NativeSymbolTable.address := addressColumn;
           NativeSymbolTable.name := nameColumn |}.
Proof.
  unfold canonicalizeSymbol.
  destruct (indexForString symbolName (StepB.stringTable b))
    as [symbolStringIndex stringTable] eqn:Hidx.
  intros ([[[symbolIndex iterator] nativeSymbols] canonical]
          & Hpick & Hrest)%bind_Returns.
  apply bind_Returns in Hrest as (addressColumn & Haddr & Hrest).
  apply bind_Returns in Hrest as (nameColumn & Hname & [= <-]). simpl.
  exists symbolStringIndex, symbolIndex, nativeSymbols, addressColumn,
    nameColumn.
  destruct (JsMap.get (StepB.symbolAddressToCanonicalSymbolIndexMap b)
              symbolAddress) as [s|] eqn:Hget.
  - injection Hpick as <- <- <- <-.
    split; [done|]. split; [done|]. split; [by left|done].
  - apply bind_Returns in Hpick as ([[s it] ns] & Hnext & [= <- <- <- <-]).
    split; [done|]. split; [apply jsmap_get_set_eq|]. split; [|done]. right.
    split; [done|]. split; [done|].
    destruct (StepB.availableNativeSymbolIterator b) as [|s' it'] eqn:Hit.
    + apply bind_Returns in Hnext as ([s'' ns'] & Hadd & [= <- <- <-]).
      by right.
    + injection Hnext as <- <- <-. by left.
Qed.

Lemma stepB_covers thread libIndex a b :
  stepB thread libIndex a = Returns b →
  ∀ symbolAddress,
    symbolAddress ∈ (StepA.symbolAddressToNameMap a).*1 →
    symbolAddress ∈ (StepB.symbolAddressToCanonicalSymbolIndexMap b).*1.
Proof.
  unfold stepB.
  apply (foldlM_invariant _
           (λ pre b, ∀ sa, sa ∈ pre.*1 →
                 sa ∈ (StepB.symbolAddressToCanonicalSymbolIndexMap b).*1));
    [by intros sa ?%elem_of_nil|].
  intros pre [sa name] post b0 b1 _ IH
    (idx & s & ns & ac & nc & _ & Hget & Hcases & _)%canonicalizeSymbol_Returns
    sa'.
  rewrite fmap_app, elem_of_app. simpl. rewrite list_elem_of_singleton.
  intros [Hsa'| ->]; [|by eapply jsmap_get_elem_of_keys].
  destruct Hcases as [(_ & _ & _ & ->)|(_ & -> & _)]; [by apply IH|].
  apply jsmap_elem_of_keys_set. right. by apply IH.
Qed.

(** ** The native-symbol column *)

Lemma assignNativeSymbols_spec canonical column frameToSymbolAddressMap
  column' :
  NoDup frameToSymbolAddressMap.*1 →
  (∀ f, f ∈ frameToSymbolAddressMap.*1 → f < length column) →
  assignNativeSymbols canonical column frameToSymbolAddressMap
  = Returns column' →
  length column' = length column
  ∧ (∀ f symbolAddress,
       JsMap.get frameToSymbolAddressMap f = Some symbolAddress →
       ∃ s, JsMap.get canonical symbolAddress = Some s
            ∧ column' !! f = Some (Some s))
  ∧ ∀ f, f ∉ frameToSymbolAddressMap.*1 → column' !! f = column !! f.
Proof.
  intros Hnd Hlen Hassign.
  apply (foldlM_invariant _
           (λ pre col,
              length col = length column
              ∧ (∀ f sa, (f, sa) ∈ pre →
                   ∃ s, JsMap.get canonical sa = Some s
                        ∧ col !! f = Some (Some s))
              ∧ ∀ f, f ∉ pre.*1 → col !! f = column !! f))
    in Hassign.
  - destruct Hassign as (Hl & Hin & Hout). split_and!; [done| |done].
    intros f sa Hget%jsmap_get_Some_elem. by apply Hin.
  - split_and!; [done| |done]. by intros f sa ?%elem_of_nil.
  - intros pre [f sa] post col col' Heq (Hl & Hin & Hout) Hstep.
    unfold assignNativeSymbol in Hstep.
    destruct (JsMap.get canonical sa) as [s|] eqn:Hget; [|done].
    apply write_Returns in Hstep as (Hf & Hother & _ & Hsame).
    assert (f < length col) as Hf_lt.
    { rewrite Hl. apply Hlen. rewrite Heq, fmap_app, elem_of_app. right.
      left. }
    assert (f ∉ pre.*1) as Hf_new.
    { rewrite Heq, fmap_app in Hnd. apply NoDup_app in Hnd as (_ & Hd & _).
      intros Hf_pre. apply (Hd f Hf_pre). left. }
    split_and!.
    + rewrite Hsame; [done|lia].
    + intros f' sa' [Hpre|[= -> ->]%list_elem_of_singleton]%elem_of_app.
      * destruct (Hin f' sa' Hpre) as (s' & Hs' & Hcol). exists s'.
        split; [done|]. rewrite Hother; [done|]. intros ->. apply Hf_new.
        apply list_elem_of_fmap. by exists (f, sa').
      * by exists s.
    + intros f'. rewrite fmap_app, not_elem_of_app. simpl.
      rewrite list_elem_of_singleton. intros [Hpre Hne].
      rewrite Hother by done. by apply Hout.
Qed.

Lemma resolveFrame_in_range thread results f old r :
  resolveFrame thread results f = Returns (old, r) →
  FrameTable.nativeSymbol (Thread.frameTable thread) !! f = Some old
  ∧ is_Some (FrameTable.address (Thread.frameTable thread) !! f).
Proof.
  unfold resolveFrame.
  intros (old' & Hold%read_Returns & Hrest)%bind_Returns.
  apply bind_Returns in Hrest as (address & Haddr%read_Returns & Hrest).
  apply bind_Returns in Hrest as (r' & _ & [= -> ->]).
  split; [done|by eexists].
Qed.

Lemma runSymbolicationStep_Returns thread symbolicationStepInfo map run :
  runSymbolicationStep thread symbolicationStepInfo map = Returns run →
  let info :=
    SymbolicationStepInfo.threadLibSymbolicationInfo symbolicationStepInfo in
  let results := SymbolicationStepInfo.resultsForLib symbolicationStepInfo in
  let new := Run.thread run in
  stepA thread info results = Returns (Run.stepA run)
  ∧ stepB thread (ThreadLibSymbolicationInfo.libIndex info) (Run.stepA run)
    = Returns (Run.stepB run)
  ∧ assignNativeSymbols
      (StepB.symbolAddressToCanonicalSymbolIndexMap (Run.stepB run))
      (FrameTable.nativeSymbol (Thread.frameTable thread))
      (StepA.frameToSymbolAddressMap (Run.stepA run))
    = Returns (FrameTable.nativeSymbol (Thread.frameTable new))
  ∧ stepC thread info results (StepB.stringTable (Run.stepB run))
      (StepB.nativeSymbols (Run.stepB run))
      (FrameTable.nativeSymbol (Thread.frameTable new))
    = Returns (Run.stepC run)
  ∧ FrameTable.func (Thread.frameTable new)
    = StepC.newFrameTableFuncColumn (Run.stepC run)
  ∧ FrameTable.line (Thread.frameTable new)
    = StepC.newFrameTableLineColumn (Run.stepC run)
  ∧ FrameTable.address (Thread.frameTable new)
    = FrameTable.address (Thread.frameTable thread)
  ∧ FrameTable.length (Thread.frameTable new)
    = FrameTable.length (Thread.frameTable thread)
  ∧ FrameTable.innerWindowID (Thread.frameTable new)
    = FrameTable.innerWindowID (Thread.frameTable thread)
  ∧ Thread.funcTable new = StepC.funcTable (Run.stepC run)
  ∧ Thread.nativeSymbols new = StepB.nativeSymbols (Run.stepB run)
  ∧ Thread.stringTable new = StepC.stringTable (Run.stepC run)
  ∧ Thread.resourceTable new = Thread.resourceTable thread
  ∧ Thread.libs new = Thread.libs thread
  ∧ Run.oldFuncToNewFuncMapForThisLib run
    = makeConsensusMap (StepC.oldFuncToNewFuncEntries (Run.stepC run))
  ∧ Run.oldFuncToNewFuncMap run
    = foldl (λ map '(oldFunc, newFunc), JsMap.set map oldFunc newFunc) map
        (Run.oldFuncToNewFuncMapForThisLib run).
Proof.
  unfold runSymbolicationStep.
  intros (a & Ha & Hrest)%bind_Returns.
  apply bind_Returns in Hrest as (b & Hb & Hrest).
  apply bind_Returns in Hrest as (col & Hcol & Hrest).
  apply bind_Returns in Hrest as (c & Hc & [= <-]). simpl.
  by split_and!.
Qed.

(** C1.  When a step returns, every frame of the library has a native
    symbol in the new frame table, never null, and two frames of the
    library whose symbol addresses, as the first loop resolves them, are
    equal have the same native symbol. *)
Theorem applySymbolicationStep_merges_native_symbols
  (thread : Thread.t) (symbolicationStepInfo : SymbolicationStepInfo.t)
  (oldFuncToNewFuncMap : list (nat * nat))
  (thread' : Thread.t) (oldFuncToNewFuncMap' : list (nat * nat)) :
  let frames :=
    ThreadLibSymbolicationInfo.allFramesForThisLib
      (SymbolicationStepInfo.threadLibSymbolicationInfo
         symbolicationStepInfo) in
  let resolved f :=
    resolveFrame thread
      (SymbolicationStepInfo.resultsForLib symbolicationStepInfo) f in
  let nativeSymbol' := FrameTable.nativeSymbol (Thread.frameTable thread') in
  applySymbolicationStep thread symbolicationStepInfo oldFuncToNewFuncMap
  = Returns (thread', oldFuncToNewFuncMap') →
  (∀ f, f ∈ frames →
     (∃ old r, resolved f = Returns (old, r))
     ∧ ∃ s : nat, nativeSymbol' !! f = Some (Some s))
  ∧ ∀ f g oldf rf oldg rg,
      f ∈ frames → g ∈ frames →
      resolved f = Returns (oldf, rf) → resolved g = Returns (oldg, rg) →
      AddressResult.symbolAddress rf = AddressResult.symbolAddress rg →
      nativeSymbol' !! f = nativeSymbol' !! g.
Proof.
  intros frames resolved nativeSymbol'. unfold applySymbolicationStep.
  intros (run & Hrun%runSymbolicationStep_Returns & [= <- <-])%bind_Returns.
  destruct Hrun as (Ha & Hb & Hcol & _).
  apply stepA_spec in Ha
      as (Hf_nd & Hf_keys & Hf_res & _ & Hn_keys & _).
  pose proof (stepB_covers _ _ _ _ Hb) as Hcover.
  apply assignNativeSymbols_spec in Hcol as (_ & Hcol & _); [|done|].
  2:{ intros f (sa & Hsa)%jsmap_get_is_Some.
      destruct (Hf_res f sa Hsa) as (old & r & Hres & _).
      apply resolveFrame_in_range in Hres as [Hres _].
      by eapply lookup_lt_Some. }
  assert (∀ f, f ∈ frames →
            ∃ old r s, resolved f = Returns (old, r)
              ∧ JsMap.get (StepB.symbolAddressToCanonicalSymbolIndexMap
                             (Run.stepB run))
                  (AddressResult.symbolAddress r) = Some s
              ∧ nativeSymbol' !! f = Some (Some s)) as Hframe.
  { intros f (sa & Hsa)%Hf_keys%jsmap_get_is_Some.
    destruct (Hf_res f sa Hsa) as (old & r & Hres & <-).
    destruct (Hcol f _ Hsa) as (s & Hs & Hf).
    by exists old, r, s. }
  split.
  - intros f (old & r & s & Hres & _ & Hs)%Hframe. split; by eauto.
  - intros f g oldf rf oldg rg
      (oldf' & rf' & sf & Hresf & Hsf & Hf)%Hframe
      (oldg' & rg' & sg & Hresg & Hsg & Hg)%Hframe Hrf Hrg Heq.
    rewrite Hf, Hg. congruence.
Qed.

Lemma applySymbolicationStep_merges_native_symbols_witness :
  FrameTable.nativeSymbol (Thread.frameTable Example.coarse.1) !! 0
  = FrameTable.nativeSymbol (Thread.frameTable Example.coarse.1) !! 2
  ∧ ∃ s : nat,
      FrameTable.nativeSymbol (Thread.frameTable Example.coarse.1) !! 0
      = Some (Some s).
Proof.
  pose proof (applySymbolicationStep_merges_native_symbols Example.thread
                (Example.stepOf Example.thread Example.partialSymbolTable) []
                Example.coarse.1 Example.coarse.2 eq_refl) as [Hall Hsame].
  split.
  - apply (Hsame 0 2 None (Example.symbol 0 "overencompassing first symbol")
             None (Example.symbol 0 "overencompassing first symbol"));
      [by left | right; right; by left | reflexivity..].
  - apply (Hall 0). by left.
Defined.

(** ** Step A: what a frame resolves to *)

Lemma resolveFrame_Returns thread results f old r :
  resolveFrame thread results f = Returns (old, r) →
  ∃ address,
    FrameTable.nativeSymbol (Thread.frameTable thread) !! f = Some old
    ∧ FrameTable.address (Thread.frameTable thread) !! f = Some address
    ∧ match results !! address with
      | Some r' => r = r'
      | None =>
          match old with
          | Some s =>
              ∃ nameIndex,
                NativeSymbolTable.name (Thread.nativeSymbols thread) !! s
                = Some nameIndex
                ∧ Thread.stringTable thread !! nameIndex
                  = Some (AddressResult.name r)
                ∧ NativeSymbolTable.address (Thread.nativeSymbols thread) !! s
                  = Some (AddressResult.symbolAddress r)
                ∧ AddressResult.file r = None ∧ AddressResult.line r = None
          | None =>
              r = {| AddressResult.symbolAddress := address;
                     AddressResult.name := placeholderName address;
                     AddressResult.file := None;
                     AddressResult.line := None |}
          end
      end.
Proof.
  unfold resolveFrame.
  intros (old' & Hold%read_Returns & Hrest)%bind_Returns.
  apply bind_Returns in Hrest as (address & Haddr%read_Returns & Hrest).
  apply bind_Returns in Hrest as (r' & Hr & [= -> ->]).
  exists address. split_and!; [done..|].
  destruct (results !! address) as [r0|]; [by injection Hr|].
  destruct old as [s|]; [|by injection Hr].
  apply bind_Returns in Hr as (nameIndex & Hn%read_Returns & Hr).
  apply bind_Returns in Hr as (name & Hs & Hr).
  apply bind_Returns in Hr as (sa & Hsa%read_Returns & [= <-]). simpl.
  exists nameIndex. split_and!; try done.
  unfold getString in Hs. destruct (_ !! nameIndex); by simplify_eq.
Qed.

(** C4.  When the first loop returns, each frame of the library has been
    resolved; where the results have nothing for the frame's address, the
    resolution is the address and name of the frame's existing native
    symbol if it has one, and else the frame's own address with the
    placeholder name ["0x" + address.toString(16)].  Either way the frame
    has a symbol address, and the symbol address a name. *)
Theorem stepA_resolves_every_frame
  (thread : Thread.t) (info : ThreadLibSymbolicationInfo.t)
  (resultsForLib : gmap Z AddressResult.t) (a : StepA.t) :
  stepA thread info resultsForLib = Returns a →
  ∀ f, f ∈ ThreadLibSymbolicationInfo.allFramesForThisLib info →
    ∃ old address r,
      FrameTable.nativeSymbol (Thread.frameTable thread) !! f = Some old
      ∧ FrameTable.address (Thread.frameTable thread) !! f = Some address
      ∧ resolveFrame thread resultsForLib f = Returns (old, r)
      ∧ (resultsForLib !! address = None →
         match old with
         | Some s =>
             ∃ nameIndex,
               NativeSymbolTable.name (Thread.nativeSymbols thread) !! s
               = Some nameIndex
               ∧ Thread.stringTable thread !! nameIndex
                 = Some (AddressResult.name r)
               ∧ NativeSymbolTable.address (Thread.nativeSymbols thread) !! s
                 = Some (AddressResult.symbolAddress r)
         | None =>
             AddressResult.symbolAddress r = address
             ∧ AddressResult.name r = "0x" +:+ toString16 address
         end)
      ∧ JsMap.get (StepA.frameToSymbolAddressMap a) f
        = Some (AddressResult.symbolAddress r)
      ∧ ∃ name,
          JsMap.get (StepA.symbolAddressToNameMap a)
            (AddressResult.symbolAddress r) = Some name.
Proof.
  intros (_ & Hf_keys & Hf_res & _ & Hn_keys & _)%stepA_spec f
         (sa & Hsa)%Hf_keys%jsmap_get_is_Some.
  destruct (Hf_res f sa Hsa) as (old & r & Hres & <-).
  destruct (resolveFrame_Returns _ _ _ _ _ Hres)
    as (address & Hold & Haddr & Hcases).
  exists old, address, r. split_and!; try done.
  - intros Hnone. rewrite Hnone in Hcases. destruct old as [s|].
    + destruct Hcases as (nameIndex & ? & ? & ? & _). by exists nameIndex.
    + by subst r.
  - apply jsmap_get_is_Some, Hn_keys. by exists f.
Qed.

Lemma stepA_resolves_every_frame_witness :
  ∃ old address r,
    FrameTable.nativeSymbol (Thread.frameTable Example.thread) !! 3 = Some old
    ∧ FrameTable.address (Thread.frameTable Example.thread) !! 3
      = Some address
    ∧ resolveFrame Example.thread Example.noSymbols 3 = Returns (old, r)
    ∧ (Example.noSymbols !! address = None →
       match old with
       | Some s =>
           ∃ nameIndex,
             NativeSymbolTable.name (Thread.nativeSymbols Example.thread)
               !! s = Some nameIndex
             ∧ Thread.stringTable Example.thread !! nameIndex
               = Some (AddressResult.name r)
             ∧ NativeSymbolTable.address
                 (Thread.nativeSymbols Example.thread) !! s
               = Some (AddressResult.symbolAddress r)
       | None =>
           AddressResult.symbolAddress r = address
           ∧ AddressResult.name r = "0x" +:+ toString16 address
       end)
    ∧ JsMap.get
        [(0, 10%Z); (1, 8192%Z); (2, 0%Z); (3, 6671%Z); (4, 3855%Z)] 3
      = Some (AddressResult.symbolAddress r)
    ∧ ∃ name,
        JsMap.get
          [(10%Z, "0xa"); (8192%Z, "0x2000"); (0%Z, "0x0");
           (6671%Z, "0x1a0f"); (3855%Z, "0xf0f")]
          (AddressResult.symbolAddress r) = Some name.
Proof.
  apply (stepA_resolves_every_frame Example.thread
           (Example.infoOf Example.thread) Example.noSymbols
           {| StepA.availableNativeSymbols := [];
              StepA.frameToSymbolAddressMap :=
                [(0, 10%Z); (1, 8192%Z); (2, 0%Z); (3, 6671%Z); (4, 3855%Z)];
              StepA.symbolAddressToNameMap :=
                [(10%Z, "0xa"); (8192%Z, "0x2000"); (0%Z, "0x0");
                 (6671%Z, "0x1a0f"); (3855%Z, "0xf0f")];
              StepA.symbolAddressToCanonicalSymbolIndexMap := [] |}).
  - vm_compute. reflexivity.
  - vm_compute. do 3 right. by left.
Defined.

Example placeholderName_frame_3 : placeholderName 6671 = "0x1a0f".
Proof. reflexivity. Qed.

Lemma getThreadSymbolicationInfo_throws_witness :
  ((∃ error, getThreadSymbolicationInfo danglingThread = Throws error)
   ↔ ∃ resourceIndex,
       resourceIndex < ResourceTable.length (Thread.resourceTable danglingThread)
       ∧ pointsAtMissingLib danglingThread resourceIndex)
  ∧ ((∃ map, getThreadSymbolicationInfo danglingThread = Returns map)
     ∨ getThreadSymbolicationInfo danglingThread
       = Throws (Error "Did not find a lib."))
  ∧ ∀ map resourceIndex,
      ResourceTable.type (Thread.resourceTable danglingThread) !! resourceIndex
      = Some resourceTypes_library →
      ResourceTable.lib (Thread.resourceTable danglingThread) !! resourceIndex
        ∈ [None; Some None; Some (Some (-1)%Z)] →
      collectResource danglingThread map resourceIndex = Returns map.
Proof.
  apply (getThreadSymbolicationInfo_throws danglingThread). simpl. lia.
Defined.

Example getThreadSymbolicationInfo_dangling :
  getThreadSymbolicationInfo danglingThread
  = Throws (Error "Did not find a lib.").
Proof. reflexivity. Qed.

Example getThreadSymbolicationInfo_example :
  getThreadSymbolicationInfo Example.thread
  = Returns [("firefox.pdb/000000000000000000000000000000000",
Example.infoOf Example.thread)].
Proof. reflexivity. Qed.

(** ** The consensus map *)

Section consensus_facts.
Context {K V : Type} `{EqDecision K, EqDecision V}.
Implicit Types (k : K) (v : V) (l : list (K * V)).

Lemma divergent_snoc l k v k' :
  (∃ v1 v2, (k', v1) ∈ l ++ [(k, v)] ∧ (k', v2) ∈ l ++ [(k, v)] ∧ v1 ≠ v2)
  ↔ (∃ v1 v2, (k', v1) ∈ l ∧ (k', v2) ∈ l ∧ v1 ≠ v2)
    ∨ (k' = k ∧ ∃ v0, (k, v0) ∈ l ∧ v0 ≠ v).
Proof.
  split.
  - intros (v1 & v2 & [H1|E1%list_elem_of_singleton]%elem_of_app
            & [H2|E2%list_elem_of_singleton]%elem_of_app & Hne).
    + left. by exists v1, v2.
    + injection E2 as -> ->. right. split; [done|]. by exists v1.
    + injection E1 as -> ->. right. split; [done|]. exists v2.
      split; [done|congruence].
    + congruence.
  - intros [(v1 & v2 & H1 & H2 & Hne)|[-> (v0 & H0 & Hne)]].
    + exists v1, v2. rewrite !elem_of_app. auto.
    + exists v0, v. rewrite !elem_of_app, !list_elem_of_singleton. auto.
Qed.

Lemma consensus_invariant_step l st k v :
  consensus_invariant l st →
  consensus_invariant (l ++ [(k, v)]) (consensusStep st (k, v)).
Proof.
  destruct st as [m d]. intros (Hnd & Hd & Hm). simpl in *.
  assert (∀ k' v', (k', v') ∈ l ++ [(k, v)]
                   ↔ (k', v') ∈ l ∨ (k' = k ∧ v' = v)) as Hin.
  { intros k' v'. rewrite elem_of_app, list_elem_of_singleton.
    split; (intros [?|E]; [by left|right]); [by simplify_eq|].
    by destruct E as [-> ->]. }
  unfold consensus_invariant.
  destruct (JsSet.has d k) eqn:Hhas.
  { apply jsset_has_true in Hhas. simpl. split; [done|]. split.
    - intros k'. rewrite divergent_snoc, <-Hd. split; [by left|].
      intros [?|[-> _]]; done.
    - intros k' v'. rewrite Hm, Hin. split.
      + intros [? ?]. auto.
      + intros [? [?|[-> _]]]; done. }
  apply jsset_has_false in Hhas.
  destruct (JsMap.get m k) as [previousValue|] eqn:Hget.
  - apply Hm in Hget as Hprev. destruct Hprev as [_ Hprev].
    destruct (decide (previousValue = v)) as [->|Hne]; simpl.
    + split; [done|]. split.
      * intros k'. rewrite divergent_snoc, <-Hd. split; [by left|].
        intros [?|[-> (v0 & H0 & Hne)]]; [done|].
        apply Hd. by exists v0, v.
      * intros k' v'. rewrite Hm, Hin. split.
        -- intros [? ?]. auto.
        -- intros [? [?|[-> ->]]]; done.
    + split; [by apply jsmap_NoDup_delete|]. split.
      * intros k'. rewrite jsset_elem_of_add, divergent_snoc, <-Hd. split.
        -- intros [->|?]; [right|by left]. split; [done|].
           by exists previousValue.
        -- intros [?|[-> _]]; [by right|by left].
      * intros k' v'. rewrite jsset_elem_of_add, Hin.
        destruct (decide (k = k')) as [<-|Hk].
        -- rewrite jsmap_get_delete_eq by done. split; [done|].
           intros [Hk _]. destruct Hk. by left.
        -- rewrite jsmap_get_delete_ne, Hm by done. split.
           ++ intros [? ?]. split; [|by left]. intros [->|?]; done.
           ++ intros [Hk' [?|[-> _]]]; [|done]. split; [|done].
              intros ?. apply Hk'. by right.
  - assert (∀ v', (k, v') ∉ l) as Hfresh.
    { intros v' Hv'. assert (JsMap.get m k = Some v') by by apply Hm.
      congruence. }
    simpl. split; [by apply jsmap_NoDup_set|]. split.
    + intros k'. rewrite divergent_snoc, <-Hd. split; [by left|].
      intros [?|[-> (v0 & H0 & _)]]; [done|]. by apply Hfresh in H0.
    + intros k' v'. rewrite jsmap_get_set, Hin.
      destruct (decide (k = k')) as [<-|Hk].
      * split.
        -- intros [= <-]. split; [done|by right].
        -- intros [_ [?%Hfresh|[_ ->]]]; done.
      * rewrite Hm. split.
        -- intros [? ?]. auto.
        -- intros [? [?|[-> _]]]; done.
Qed.

Lemma consensus_invariant_foldl l :
  consensus_invariant l (foldl consensusStep ([], []) l).
Proof.
  induction l as [|[k v] l IH] using rev_ind.
  - split_and!; simpl; [constructor| |].
    + intros k. split; [by intros ?%elem_of_nil|].
      by intros (? & ? & ?%elem_of_nil & _).
    + intros k v. split; [done|]. by intros [_ ?%elem_of_nil].
  - rewrite foldl_app. simpl. by apply consensus_invariant_step.
Qed.

Lemma makeConsensusMap_NoDup l : NoDup (makeConsensusMap l).*1.
Proof. apply (consensus_invariant_foldl l). Qed.

Lemma makeConsensusMap_spec l k v :
  JsMap.get (makeConsensusMap l) k = Some v
  ↔ (k, v) ∈ l ∧ ∀ v', (k, v') ∈ l → v' = v.
Proof.
  destruct (consensus_invariant_foldl l) as (_ & Hd & Hm).
  unfold makeConsensusMap. rewrite Hm, Hd. split.
  - intros [Hdiv Hin]. split; [done|]. intros v' Hv'.
    destruct (decide (v' = v)) as [|Hne]; [done|].
    destruct Hdiv. by exists v', v.
  - intros [Hin Hall]. split; [|done]. intros (v1 & v2 & H1 & H2 & Hne).
    apply Hall in H1, H2. congruence.
Qed.
End consensus_facts.

Lemma jsmap_get_foldl_set {K V : Type} `{EqDecision K}
  (m l : list (K * V)) k :
  NoDup l.*1 →
  JsMap.get (foldl (λ map '(key, value), JsMap.set map key value) m l) k
  = match JsMap.get l k with Some v => Some v | None => JsMap.get m k end.
Proof.
  revert m. induction l as [|[k1 v1] l IH]; intros m; csimpl; [done|].
  rewrite NoDup_cons. intros [Hk1 Hnd]. rewrite IH by done.
  destruct (decide (k1 = k)) as [->|Hne].
  - apply jsmap_get_None in Hk1. rewrite Hk1. apply jsmap_get_set_eq.
  - by rewrite jsmap_get_set_ne.
Qed.

(** ** Third loop: a func for every frame *)

Lemma canonicalizeFunc_Returns oldFrameTable results nativeSymbols column
  resourceIndex c f c' :
  canonicalizeFunc oldFrameTable results nativeSymbols column resourceIndex
    c f = Returns c' →
  ∃ oldFunc r nameIndex stringTable fileIndex funcIndex funcTable,
    FrameTable.func oldFrameTable !! f = Some oldFunc
    ∧ funcAddressResult oldFrameTable results nativeSymbols column
        (StepC.stringTable c) (StepC.funcTable c) f oldFunc = Returns r
    ∧ indexForString (AddressResult.name r) (StepC.stringTable c)
      = (nameIndex, stringTable)
    ∧ indexForOptionalString (AddressResult.file r) stringTable
      = (fileIndex, StepC.stringTable c')
    ∧ JsMap.get (StepC.funcKeyToFuncMap c') (funcKey nameIndex fileIndex)
      = Some funcIndex
    ∧ ((JsMap.get (StepC.funcKeyToFuncMap c) (funcKey nameIndex fileIndex)
        = Some funcIndex
        ∧ StepC.availableFuncIter c' = StepC.availableFuncIter c
        ∧ StepC.funcTable c' = StepC.funcTable c
        ∧ StepC.funcKeyToFuncMap c' = StepC.funcKeyToFuncMap c)
       ∨ (JsMap.get (StepC.funcKeyToFuncMap c) (funcKey nameIndex fileIndex)
          = None
          ∧ StepC.funcKeyToFuncMap c'
            = JsMap.set (StepC.funcKeyToFuncMap c)
                (funcKey nameIndex fileIndex) funcIndex
          ∧ ((StepC.availableFuncIter c
              = funcIndex :: StepC.availableFuncIter c'
              ∧ funcTable = StepC.funcTable c)
             ∨ (StepC.availableFuncIter c = []
                ∧ StepC.availableFuncIter c' = []
                ∧ addFunc (StepC.funcTable c) resourceIndex
                  = Returns (funcIndex, funcTable)))
          ∧ nameFunc funcTable funcIndex nameIndex fileIndex
            = Returns (StepC.funcTable c')))
    ∧ write (StepC.newFrameTableFuncColumn c) f funcIndex
      = Returns (StepC.newFrameTableFuncColumn c')
    ∧ write (StepC.newFrameTableLineColumn c) f (AddressResult.line r)
      = Returns (StepC.newFrameTableLineColumn c')
    ∧ StepC.oldFuncToNewFuncEntries c'
      = StepC.oldFuncToNewFuncEntries c ++ [(oldFunc, funcIndex)]
    ∧ StepC.resolved c' = StepC.resolved c ++ [(f, r)].
Proof.
  unfold canonicalizeFunc.
  intros (oldFunc & Hold%read_Returns & Hrest)%bind_Returns.
  apply bind_Returns in Hrest as (r & Hr & Hrest).
  destruct (indexForString (AddressResult.name r) (StepC.stringTable c))
    as [nameIndex stringTable] eqn:Hname.
  destruct (indexForOptionalString (AddressResult.file r) stringTable)
    as [fileIndex stringTable'] eqn:Hfile.
  apply bind_Returns in Hrest
      as ([[[funcIndex iterator] funcTable'] keymap] & Hpick & Hrest).
  apply bind_Returns in Hrest as (funcColumn & Hfunc & Hrest).
  apply bind_Returns in Hrest as (lineColumn & Hline & [= <-]). simpl.
  destruct (JsMap.get (StepC.funcKeyToFuncMap c)
              (funcKey nameIndex fileIndex)) as [n|] eqn:Hget.
  - injection Hpick as <- <- <- <-.
    exists oldFunc, r, nameIndex, stringTable, fileIndex, n,
      (StepC.funcTable c).
    split_and!; try done. by left.
  - apply bind_Returns in Hpick as ([[n it] ft1] & Hnext & Hpick).
    apply bind_Returns in Hpick as (ft2 & Hnamed & [= <- <- <- <-]).
    exists oldFunc, r, nameIndex, stringTable, fileIndex, n, ft1.
    split_and!; try done; [apply jsmap_get_set_eq|]. right.
    split_and!; try done.
    destruct (StepC.availableFuncIter c) as [|n' it'] eqn:Hit.
    + apply bind_Returns in Hnext as ([n'' ft1'] & Hadd & [= <- <- <-]).
      by right.
    + injection Hnext as <- <- <-. by left.
Qed.

Lemma stepC_entries thread info results stringTable nativeSymbols column c :
  stepC thread info results stringTable nativeSymbols column = Returns c →
  ∀ f, f ∈ ThreadLibSymbolicationInfo.allFramesForThisLib info →
    ∃ oldFunc newFunc,
      FrameTable.func (Thread.frameTable thread) !! f = Some oldFunc
      ∧ StepC.newFrameTableFuncColumn c !! f = Some newFunc
      ∧ (oldFunc, newFunc) ∈ StepC.oldFuncToNewFuncEntries c.
Proof.
  unfold stepC.
  apply (foldlM_invariant _
           (λ visited c, ∀ f, f ∈ visited →
              ∃ oldFunc newFunc,
                FrameTable.func (Thread.frameTable thread) !! f = Some oldFunc
                ∧ StepC.newFrameTableFuncColumn c !! f = Some newFunc
                ∧ (oldFunc, newFunc) ∈ StepC.oldFuncToNewFuncEntries c));
    [by intros f ?%elem_of_nil|].
  intros visited f post c0 c1 _ IH
    (oldFunc & r & ni & st & fi & n & ft & Hold & _ & _ & _ & _ & _ & Hw & _
     & Hentries & _)%canonicalizeFunc_Returns f'.
  apply write_Returns in Hw as (Hf & Hother & _).
  rewrite Hentries. setoid_rewrite elem_of_app.
  destruct (decide (f' = f)) as [->|Hne].
  - intros _. exists oldFunc, n. split_and!; [done..|]. right. left.
  - intros [Hin|?%list_elem_of_singleton]; [|done].
    destruct (IH f' Hin) as (o' & n' & ? & ? & ?). exists o', n'.
    rewrite Hother by done. auto.
Qed.

(** C3 (amended).  The reduction keeps [key ↦ value] exactly when every
    recorded pair for [key] carries [value]; once two different values
    have been recorded for a key, nothing recorded later brings it back.
    For a step whose incoming map has no entry for an old func of the
    library's frames (the assumption the source documents for
    [oldFuncToNewFuncMap]: existing entries are for other libs): every
    frame whose old func is a key of the resulting map has the mapped func
    in the new frame table, and an old func whose frames end up with two
    different funcs is not a key of the resulting map. *)
Theorem makeConsensusMap_sound :
  (∀ (entries : list (nat * nat)) key value,
     JsMap.get (makeConsensusMap entries) key = Some value
     ↔ (key, value) ∈ entries ∧ ∀ v, (key, v) ∈ entries → v = value)
  ∧ (∀ (before between after : list (nat * nat)) key first other,
       first ≠ other →
       JsMap.get
         (makeConsensusMap
            (before ++ (key, first) :: between ++ (key, other) :: after))
         key = None)
  ∧ ∀ thread symbolicationStepInfo oldFuncToNewFuncMap thread'
      oldFuncToNewFuncMap',
      let frames :=
        ThreadLibSymbolicationInfo.allFramesForThisLib
          (SymbolicationStepInfo.threadLibSymbolicationInfo
             symbolicationStepInfo) in
      let func := FrameTable.func (Thread.frameTable thread) in
      let func' := FrameTable.func (Thread.frameTable thread') in
      applySymbolicationStep thread symbolicationStepInfo oldFuncToNewFuncMap
      = Returns (thread', oldFuncToNewFuncMap') →
      (∀ f oldFunc, f ∈ frames → func !! f = Some oldFunc →
                    JsMap.get oldFuncToNewFuncMap oldFunc = None) →
      (∀ oldFunc newFunc f,
         JsMap.get oldFuncToNewFuncMap' oldFunc = Some newFunc →
         f ∈ frames → func !! f = Some oldFunc → func' !! f = Some newFunc)
      ∧ (∀ oldFunc f g,
           f ∈ frames → g ∈ frames →
           func !! f = Some oldFunc → func !! g = Some oldFunc →
           func' !! f ≠ func' !! g →
           JsMap.get oldFuncToNewFuncMap' oldFunc = None).
Proof.
  split_and!.
  - intros entries key value. apply makeConsensusMap_spec.
  - intros before between after key first other Hne.
    destruct (JsMap.get _ key) as [value|] eqn:Hget; [|done].
    apply makeConsensusMap_spec in Hget as [_ Hall].
    destruct Hne. rewrite (Hall first), (Hall other); [done|..];
      rewrite !elem_of_app, !elem_of_cons, ?elem_of_app, ?elem_of_cons;
      auto.
  - intros thread si map thread' map' frames func func'.
    unfold applySymbolicationStep.
    intros (run & Hrun%runSymbolicationStep_Returns & [= <- <-])%bind_Returns
           Hfresh.
    destruct Hrun
      as (_ & _ & _ & Hc & Hfunc & _ & _ & _ & _ & _ & _ & _ & _ & _ & Hcons
          & Hmap).
    pose proof (stepC_entries _ _ _ _ _ _ _ Hc) as Hentries.
    assert (∀ oldFunc f, f ∈ frames → func !! f = Some oldFunc →
              JsMap.get (Run.oldFuncToNewFuncMap run) oldFunc
              = JsMap.get (makeConsensusMap
                             (StepC.oldFuncToNewFuncEntries (Run.stepC run)))
                  oldFunc) as Hget.
    { intros oldFunc f Hf Hold. rewrite Hmap, Hcons.
      rewrite jsmap_get_foldl_set by apply makeConsensusMap_NoDup.
      destruct (JsMap.get (makeConsensusMap _) oldFunc); [done|].
      by eapply Hfresh. }
    unfold func'. rewrite Hfunc. split.
    + intros oldFunc newFunc f Hmap' Hf Hold.
      rewrite (Hget oldFunc f Hf Hold) in Hmap'.
      apply makeConsensusMap_spec in Hmap' as [_ Hall].
      destruct (Hentries f Hf) as (o & n & Ho & Hn & Hin).
      rewrite Hn. f_equal. apply Hall. unfold func in Hold. congruence.
    + intros oldFunc f g Hf Hg Holdf Holdg Hne.
      rewrite (Hget oldFunc f Hf Holdf).
      destruct (JsMap.get (makeConsensusMap _) oldFunc) as [v|] eqn:Hv;
        [|done].
      apply makeConsensusMap_spec in Hv as [_ Hall].
      destruct (Hentries f Hf) as (o1 & n1 & Ho1 & Hn1 & Hin1).
      destruct (Hentries g Hg) as (o2 & n2 & Ho2 & Hn2 & Hin2).
      destruct Hne. rewrite Hn1, Hn2. unfold func in *.
      rewrite (Hall n1), (Hall n2); [done|congruence..].
Qed.

Lemma makeConsensusMap_sound_witness :
  JsMap.get
    (makeConsensusMap ([(1, 5)] ++ (2, 6) :: [] ++ (2, 7) :: [(2, 6)]))
    2 = None
  ∧ FrameTable.func (Thread.frameTable Example.coarse.1) !! 4 = Some 0
  ∧ JsMap.get Example.refined.2 0 = None
  ∧ FrameTable.func (Thread.frameTable Example.refined.1) !! 1 = Some 1.
Proof.
  destruct makeConsensusMap_sound as (_ & Hblacklist & Hstep).
  split; [apply Hblacklist; discriminate|].
  assert (applySymbolicationStep Example.coarse.1
            (Example.stepOf Example.coarse.1 Example.completeSymbolTable) []
          = Returns (Example.refined.1, Example.refined.2)) as Hrun
    by (vm_compute; reflexivity).
  destruct (Hstep _ _ _ _ _ Hrun) as [Hkept Hsplit]; [intros; reflexivity|].
  split; [reflexivity|]. split.
  - apply (Hsplit 0 0 4); [by left | by do 4 right; left | reflexivity..
                           | discriminate].
  - apply (Hkept 1 1 1); [reflexivity | right; by left | reflexivity].
Defined.

(** The claim as first stated puts no condition on the incoming map.  The
    step only ever sets entries of that map, so an entry it comes with
    stays: here the caller's map already sends old func 0 to 9, the step
    splits func 0 between funcs 0 and 2, and the resulting map still sends
    0 to 9. *)
Lemma makeConsensusMap_sound_counterexample :
  applySymbolicationStep Example.coarse.1
    (Example.stepOf Example.coarse.1 Example.completeSymbolTable) [(0, 9)]
  = Returns (Example.refined.1, [(0, 9); (1, 1)])
  ∧ ThreadLibSymbolicationInfo.allFramesForThisLib
      (Example.infoOf Example.coarse.1) = [0; 1; 2; 3; 4]
  ∧ FrameTable.func (Thread.frameTable Example.coarse.1) !! 0 = Some 0
  ∧ FrameTable.func (Thread.frameTable Example.coarse.1) !! 3 = Some 0
  ∧ JsMap.get [(0, 9); (1, 1)] 0 = Some 9
  ∧ FrameTable.func (Thread.frameTable Example.refined.1) !! 0 = Some 0
  ∧ FrameTable.func (Thread.frameTable Example.refined.1) !! 3 = Some 2.
Proof. split_and!; by vm_compute. Qed.

Example makeConsensusMap_documented :
  makeConsensusMap [(1, "hello"); (2, "world")]
  = [(1, "hello"); (2, "world")]
  ∧ makeConsensusMap [(1, "hello"); (2, "world"); (1, "hello")]
    = [(1, "hello"); (2, "world")]
  ∧ makeConsensusMap [(1, "hello"); (2, "world"); (1, "bye")]
    = [(2, "world")]
  ∧ makeConsensusMap [(1, "hello"); (2, "world"); (1, "bye"); (1, "hello")]
    = [(2, "world")].
Proof. by split_and!. Qed.

(** ** The orchestrator *)

Lemma getSymbols_onlyNotFound symbolicationInfo answers w :
  onlyNotFound answers →
  getSymbols answers (onSuccess symbolicationInfo) onFailure w
  = ({| World.steps :=
          World.steps w ++ deliveredSteps symbolicationInfo answers;
        World.warnings := World.warnings w ++ reportedFailures answers |},
     Returns ()).
Proof.
  revert w. induction answers as [|[request answer] answers IH];
    intros w Hnf.
  - unfold deliveredSteps, reportedFailures. simpl.
    rewrite !app_nil_r. by destruct w.
  - assert (onlyNotFound answers) as Hnf'.
    { intros request' error' Hin. apply (Hnf request'). by right. }
    destruct answer as [results|error]; simpl.
    + rewrite IH by done. unfold deliveredSteps, reportedFailures. simpl.
      by rewrite <-app_assoc.
    + destruct (Hnf request error) as [message ->]; [left|]. simpl.
      rewrite IH by done. unfold deliveredSteps, reportedFailures. simpl.
      by rewrite <-app_assoc.
Qed.

Lemma getSymbols_other_error symbolicationInfo before request message after w :
  onlyNotFound before →
  getSymbols (before ++ (request, Failed (Error message)) :: after)
    (onSuccess symbolicationInfo) onFailure w
  = ({| World.steps :=
          World.steps w ++ deliveredSteps symbolicationInfo before;
        World.warnings := World.warnings w ++ reportedFailures before |},
     Throws (Error message)).
Proof.
  revert w. induction before as [|[request' answer] before IH];
    intros w Hnf.
  - unfold deliveredSteps, reportedFailures. simpl.
    rewrite !app_nil_r. by destruct w.
  - assert (onlyNotFound before) as Hnf'.
    { intros request'' error' Hin. apply (Hnf request''). by right. }
    destruct answer as [results|error]; simpl.
    + rewrite IH by done. unfold deliveredSteps, reportedFailures. simpl.
      by rewrite <-app_assoc.
    + destruct (Hnf request' error) as [message' ->]; [left|]. simpl.
      rewrite IH by done. unfold deliveredSteps, reportedFailures. simpl.
      by rewrite <-app_assoc.
Qed.

(** C7.  The failure callback logs a not-found error and returns, and
    rethrows any other error.  Hence a run in which the provider reports
    only not-found failures completes normally: each failure is logged,
    and the step callback fires for the resolved libraries only.  A run in
    which the provider reports another error ends by throwing that very
    error to the caller; nothing that the provider would have delivered
    afterwards is processed, and the provider is not asked again. *)
Theorem symbolicateProfile_failures :
  (∀ request message w,
     onFailure request (SymbolsNotFoundError message) w
     = ({| World.steps := World.steps w;
           World.warnings :=
             World.warnings w ++ [SymbolsNotFoundError message] |},
        Returns ()))
  ∧ (∀ request message w,
       onFailure request (Error message) w = (w, Throws (Error message)))
  ∧ ∀ profile symbolStore w symbolicationInfo,
      let answers :=
        symbolStore
          (buildLibSymbolicationRequestsForAllThreads symbolicationInfo) in
      mapM getThreadSymbolicationInfo profile = Returns symbolicationInfo →
      (onlyNotFound answers →
       symbolicateProfile profile symbolStore w
       = ({| World.steps :=
               World.steps w ++ deliveredSteps symbolicationInfo answers;
             World.warnings := World.warnings w ++ reportedFailures answers |},
          Returns ()))
      ∧ (∀ before request message after,
           answers = before ++ (request, Failed (Error message)) :: after →
           onlyNotFound before →
           symbolicateProfile profile symbolStore w
           = ({| World.steps :=
                   World.steps w ++ deliveredSteps symbolicationInfo before;
                 World.warnings :=
                   World.warnings w ++ reportedFailures before |},
              Throws (Error message))).
Proof.
  split_and!; [done..|].
  intros profile symbolStore w symbolicationInfo answers Hinfo.
  unfold symbolicateProfile. rewrite Hinfo. fold answers. split.
  - apply getSymbols_onlyNotFound.
  - intros before request message after -> Hnf.
    by apply getSymbols_other_error.
Qed.

Lemma symbolicateProfile_failures_witness :
  symbolicateProfile [Example.thread] notFoundStore quietWorld
  = ({| World.steps := [];
        World.warnings :=
          [SymbolsNotFoundError "Should only have libs called firefox.pdb"] |},
     Returns ())
  ∧ symbolicateProfile [Example.thread] brokenStore quietWorld
    = (quietWorld, Throws (Error "boom")).
Proof.
  destruct symbolicateProfile_failures as (_ & _ & Hrun).
  assert (mapM getThreadSymbolicationInfo [Example.thread]
          = Returns [[("firefox.pdb/000000000000000000000000000000000",
                       Example.infoOf Example.thread)]]) as Hinfo
    by reflexivity.
  split.
  - apply (proj1 (Hrun [Example.thread] notFoundStore quietWorld _ Hinfo)).
    intros request error (request' & [= _ ->] & _)%list_elem_of_fmap.
    by eexists.
  - eapply (proj2 (Hrun [Example.thread] brokenStore quietWorld _ Hinfo)
              [] _ "boom" []); [reflexivity|].
    by intros request error ?%elem_of_nil.
Defined.

Example symbolicateProfile_resolved :
  (symbolicateProfile [Example.thread] completeStore quietWorld).1
  = {| World.steps :=
         [(0, Example.stepOf Example.thread Example.completeSymbolTable)];
       World.warnings := [] |}.
Proof. reflexivity. Qed.

(** ** The string table only grows *)

Lemma indexForString_extends s stringTable index stringTable' :
  indexForString s stringTable = (index, stringTable') →
  stringTable `prefix_of` stringTable'.
Proof.
  unfold indexForString. destruct (list_find _ _) as [[i x]|].
  - by intros [= _ <-].
  - intros [= _ <-]. by apply prefix_app_r.
Qed.

Lemma indexForOptionalString_extends file stringTable index stringTable' :
  indexForOptionalString file stringTable = (index, stringTable') →
  stringTable `prefix_of` stringTable'.
Proof.
  unfold indexForOptionalString. destruct file as [file|].
  - destruct (indexForString file stringTable) as [i st] eqn:Hidx.
    intros [= _ <-]. by eapply indexForString_extends.
  - by intros [= _ <-].
Qed.

Lemma stepB_stringTable_extends thread libIndex a b :
  stepB thread libIndex a = Returns b →
  Thread.stringTable thread `prefix_of` StepB.stringTable b.
Proof.
  unfold stepB.
  apply (foldlM_invariant _
           (λ _ b, Thread.stringTable thread `prefix_of` StepB.stringTable b));
    [done|].
  intros pre [sa name] post b0 b1 _ IH
    (idx & s & ns & ac & nc & Hidx%indexForString_extends & _)
      %canonicalizeSymbol_Returns.
  by etrans.
Qed.

Lemma stepC_stringTable_extends thread info results stringTable nativeSymbols
  column c :
  stepC thread info results stringTable nativeSymbols column = Returns c →
  stringTable `prefix_of` StepC.stringTable c.
Proof.
  unfold stepC.
  apply (foldlM_invariant _
           (λ _ c, stringTable `prefix_of` StepC.stringTable c)); [done|].
  intros pre f post c0 c1 _ IH
    (oldFunc & r & ni & st & fi & n & ft & _ & _
     & Hname%indexForString_extends & Hfile%indexForOptionalString_extends
     & _)%canonicalizeFunc_Returns.
  etrans; [done|]. by etrans.
Qed.

Lemma runSymbolicationStep_stringTable_extends thread symbolicationStepInfo
  map run :
  runSymbolicationStep thread symbolicationStepInfo map = Returns run →
  Thread.stringTable thread `prefix_of` Thread.stringTable (Run.thread run).
Proof.
  intros (_ & Hb%stepB_stringTable_extends & _
          & Hc%stepC_stringTable_extends & _ & _ & _ & _ & _ & _ & _ & -> & _)
    %runSymbolicationStep_Returns.
  by etrans.
Qed.

(** ** What a step shares with its input *)

Global Instance index_laws : ElementLaws nat.
Proof. split; [done|by intros [] l [= ->]|done]. Qed.
Global Instance nullable_laws : ElementLaws (option nat).
Proof. split; [done|by intros [] l [= ->]|done]. Qed.
Global Instance integer_laws : ElementLaws Z.
Proof. split; [done|by intros [] l [= ->]|done]. Qed.
Global Instance boolean_laws : ElementLaws bool.
Proof. split; [done|by intros [] l [= ->]|done]. Qed.

Lemma bindM_Returns {A B : Type} (m : ByReference.M A) (f : A → ByReference.M B) σ b σ' :
  (m ≫= f) σ = Returns (b, σ') →
  ∃ a σ1, m σ = Returns (a, σ1) ∧ f a σ1 = Returns (b, σ').
Proof.
  unfold mbind, ByReference.M_bind. destruct (m σ) as [[a σ1]| |]; [|done..].
  intros Hf. by exists a, σ1.
Qed.

Lemma retM_Returns {A : Type} (a b : A) σ σ' :
  mret (M:=ByReference.M) a σ = Returns (b, σ') → b = a ∧ σ' = σ.
Proof. by intros [= -> ->]. Qed.

Section arrays.
Context {A : Type} `{ElementLaws A}.

Lemma array_Returns σ r (column : list A) :
  ByReference.array σ r = Returns column ↔ σ !! r = Some (ByReference.inject column).
Proof.
  unfold ByReference.array. split.
  - destruct (σ !! r) as [o|]; simpl; [|done].
    destruct (ByReference.project o) as [l|] eqn:Hproject; [|done].
    intros [= ->]. by apply project_Some in Hproject as ->.
  - intros ->. simpl. by rewrite project_inject.
Qed.

Lemma array_insert_eq σ r (column : list A) :
  r < length σ → ByReference.array (<[r := ByReference.inject column]> σ) r = Returns column.
Proof. intros Hr. apply array_Returns. by rewrite list_lookup_insert_eq. Qed.

Lemma array_insert_same σ r o (column : list A) :
  r < length σ → ByReference.project o = Some column →
  ByReference.array (<[r := o]> σ) r = Returns column.
Proof.
  intros Hr Ho. unfold ByReference.array. rewrite list_lookup_insert_eq by done.
  simpl. by rewrite Ho.
Qed.

Lemma array_insert_ne σ r r' o :
  r ≠ r' → ByReference.array (A:=A) (<[r' := o]> σ) r = ByReference.array σ r.
Proof. intros Hne. unfold ByReference.array. by rewrite list_lookup_insert_ne. Qed.

Lemma array_app_l σ news r :
  r < length σ → ByReference.array (A:=A) (σ ++ news) r = ByReference.array σ r.
Proof. intros Hr. unfold ByReference.array. by rewrite lookup_app_l. Qed.

Lemma array_app_r σ (column : list A) :
  ByReference.array (σ ++ [ByReference.inject column]) (length σ) = Returns column.
Proof.
  apply array_Returns. rewrite lookup_app_r by lia. by rewrite Nat.sub_diag.
Qed.

Lemma array_lt σ r (column : list A) :
  ByReference.array σ r = Returns column → r < length σ.
Proof. intros Hr%array_Returns. by eapply lookup_lt_Some. Qed.

Lemma array_not_strings σ r s (column : list A) table :
  ByReference.array σ r = Returns column → ByReference.strings σ s = Returns table → r ≠ s.
Proof.
  intros Hr%array_Returns Hs ->. unfold ByReference.strings in Hs. rewrite Hr in Hs.
  destruct (ByReference.inject column) eqn:Hobject; try done.
  pose proof (project_inject column) as Hp. rewrite Hobject in Hp.
  by rewrite project_Strings in Hp.
Qed.

Lemma readAt_Returns σ r i (a : A) σ' :
  ByReference.readAt r i σ = Returns (a, σ') →
  σ' = σ ∧ ∃ column, ByReference.array σ r = Returns column ∧ column !! i = Some a.
Proof.
  unfold ByReference.readAt. intros (column & Hcolumn & Hread)%bind_Returns.
  apply bind_Returns in Hread as (a' & Ha%read_Returns & [= <- <-]).
  split; [done|]. by exists column.
Qed.

Lemma writeAt_Returns σ r i (a : A) u σ' :
  ByReference.writeAt r i a σ = Returns (u, σ') →
  ∃ column column',
    ByReference.array σ r = Returns column
    ∧ write column i a = Returns column'
    ∧ σ' = <[r := ByReference.inject column']> σ.
Proof.
  unfold ByReference.writeAt. intros (column & Hcolumn & Hwrite)%bind_Returns.
  apply bind_Returns in Hwrite as (column' & Hwrite & [= <- <-]).
  by exists column, column'.
Qed.
End arrays.

Lemma strings_Returns σ s table :
  ByReference.strings σ s = Returns table ↔ σ !! s = Some (ByReference.Strings table).
Proof.
  unfold ByReference.strings. split; [|by intros ->].
  destruct (σ !! s) as [[]|]; try done. by intros [= ->].
Qed.

Lemma strings_insert_eq σ s table :
  s < length σ → ByReference.strings (<[s := ByReference.Strings table]> σ) s = Returns table.
Proof. intros Hs. apply strings_Returns. by rewrite list_lookup_insert_eq. Qed.

Lemma strings_insert_ne σ s r o :
  s ≠ r → ByReference.strings (<[r := o]> σ) s = ByReference.strings σ s.
Proof. intros Hne. unfold ByReference.strings. by rewrite list_lookup_insert_ne. Qed.

Lemma strings_app_l σ news s :
  s < length σ → ByReference.strings (σ ++ news) s = ByReference.strings σ s.
Proof. intros Hs. unfold ByReference.strings. by rewrite lookup_app_l. Qed.

Lemma strings_lt σ s table : ByReference.strings σ s = Returns table → s < length σ.
Proof. intros Hs%strings_Returns. by eapply lookup_lt_Some. Qed.

Lemma stringTable_getString_Returns σ s index name σ' :
  ByReference.stringTable_getString s index σ = Returns (name, σ') →
  σ' = σ ∧ ∃ table, ByReference.strings σ s = Returns table
                    ∧ getString table index = Returns name.
Proof.
  unfold ByReference.stringTable_getString.
  intros (table & Htable & Hget)%bind_Returns.
  apply bind_Returns in Hget as (name' & Hname & [= <- <-]).
  split; [done|]. by exists table.
Qed.

Lemma stringTable_indexForString_Returns σ s name index σ' :
  ByReference.stringTable_indexForString s name σ = Returns (index, σ') →
  ∃ table table',
    ByReference.strings σ s = Returns table
    ∧ indexForString name table = (index, table')
    ∧ σ' = <[s := ByReference.Strings table']> σ.
Proof.
  unfold ByReference.stringTable_indexForString.
  intros (table & Htable & Hindex)%bind_Returns.
  destruct (indexForString name table) as [index' table'] eqn:Hfor.
  injection Hindex as <- <-. by exists table, table'.
Qed.

Lemma slice_Returns σ r r' σ' :
  ByReference.slice r σ = Returns (r', σ') →
  r' = length σ ∧ r < length σ
  ∧ ∃ o, σ !! r = Some o ∧ σ' = σ ++ [o].
Proof.
  unfold ByReference.slice. destruct (σ !! r) as [o|] eqn:Hr; [|done].
  assert (r < length σ) by by eapply lookup_lt_Some.
  destruct o; intros [= <- <-]; (split; [done|]); (split; [done|]);
    by eexists.
Qed.

Lemma foldlM_by_reference_invariant {A B : Type} (f : A → B → ByReference.M A)
  (P : list B → A → list ByReference.object → Prop) (l : list B) a σ a' σ' :
  P [] a σ →
  (∀ pre b post a0 σ0 a1 σ1,
     l = pre ++ b :: post → P pre a0 σ0 →
     f a0 b σ0 = Returns (a1, σ1) → P (pre ++ [b]) a1 σ1) →
  ByReference.foldlM f a l σ = Returns (a', σ') → P l a' σ'.
Proof.
  intros Hinit Hstep.
  cut (∀ pre post a0 σ0,
         l = pre ++ post → P pre a0 σ0 →
         ByReference.foldlM f a0 post σ0 = Returns (a', σ') → P l a' σ').
  { intros Hcut. by apply (Hcut [] l). }
  intros pre post. revert pre.
  induction post as [|b post IH]; intros pre a0 σ1 Heq HP; simpl.
  - intros [-> ->]%retM_Returns. by rewrite Heq, app_nil_r.
  - intros (a1 & σ2 & Hf & Hrest)%bindM_Returns.
    apply (IH (pre ++ [b]) a1 σ2); [by rewrite <-app_assoc| |done].
    by eapply Hstep.
Qed.

Lemma readAt_known {A : Type} `{ElementLaws A} σ r i (column : list A) a σ' :
  ByReference.array σ r = Returns column →
  ByReference.readAt r i σ = Returns (a, σ') → σ' = σ ∧ column !! i = Some a.
Proof.
  intros Hcolumn (-> & column' & Hcolumn' & Ha)%readAt_Returns.
  split; [done|]. congruence.
Qed.

Lemma writeAt_known {A : Type} `{ElementLaws A} σ r i (column : list A) a u
  σ' :
  ByReference.array σ r = Returns column →
  ByReference.writeAt r i a σ = Returns (u, σ') →
  ∃ column', write column i a = Returns column'
             ∧ σ' = <[r := ByReference.inject column']> σ.
Proof.
  intros Hcolumn (column0 & column' & Hcolumn0 & Hwrite & ->)%writeAt_Returns.
  exists column'. split; [congruence|done].
Qed.

Lemma stringTable_getString_known σ s index table name σ' :
  ByReference.strings σ s = Returns table →
  ByReference.stringTable_getString s index σ = Returns (name, σ') →
  σ' = σ ∧ getString table index = Returns name.
Proof.
  intros Htable (-> & table' & Htable' & Hget)%stringTable_getString_Returns.
  split; [done|]. congruence.
Qed.

Lemma stringTable_indexForString_known σ s name table index σ' :
  ByReference.strings σ s = Returns table →
  ByReference.stringTable_indexForString s name σ = Returns (index, σ') →
  ∃ table', indexForString name table = (index, table')
            ∧ σ' = <[s := ByReference.Strings table']> σ.
Proof.
  intros Htable (table0 & table' & Htable0 & Hindex & ->)
    %stringTable_indexForString_Returns.
  exists table'. split; [congruence|done].
Qed.

Lemma load_by_reference_Returns σ o t :
  ByReference.load σ o = Returns t →
  let frameTable := ByReference.ThreadObject.frameTable o in
  let funcTable := ByReference.ThreadObject.funcTable o in
  let nativeSymbols := ByReference.ThreadObject.nativeSymbols o in
  (ByReference.array σ (ByReference.FrameTableObject.address frameTable)
   = Returns (FrameTable.address (Thread.frameTable t))
   ∧ ByReference.array σ (ByReference.FrameTableObject.func frameTable)
     = Returns (FrameTable.func (Thread.frameTable t))
   ∧ ByReference.array σ (ByReference.FrameTableObject.nativeSymbol frameTable)
     = Returns (FrameTable.nativeSymbol (Thread.frameTable t))
   ∧ ByReference.array σ (ByReference.FrameTableObject.line frameTable)
     = Returns (FrameTable.line (Thread.frameTable t))
   ∧ ByReference.array σ (ByReference.FrameTableObject.innerWindowID frameTable)
     = Returns (FrameTable.innerWindowID (Thread.frameTable t))
   ∧ FrameTable.length (Thread.frameTable t)
     = ByReference.FrameTableObject.length frameTable)
  ∧ ByReference.loadFuncTable σ funcTable = Returns (Thread.funcTable t)
  ∧ ByReference.loadNativeSymbols σ nativeSymbols = Returns (Thread.nativeSymbols t)
  ∧ ByReference.strings σ (ByReference.ThreadObject.stringTable o) = Returns (Thread.stringTable t)
  ∧ Thread.libs t = ByReference.ThreadObject.libs o
  ∧ Thread.resourceTable t = ByReference.ThreadObject.resourceTable o.
Proof.
  unfold ByReference.load, ByReference.loadFrameTable.
  intros (ft & Hft & Hrest)%bind_Returns.
  apply bind_Returns in Hrest as (fn & Hfn & Hrest).
  apply bind_Returns in Hrest as (ns & Hns & Hrest).
  apply bind_Returns in Hrest as (st & Hst & [= <-]).
  apply bind_Returns in Hft as (address & Haddress & Hft).
  apply bind_Returns in Hft as (func & Hfunc & Hft).
  apply bind_Returns in Hft as (nativeSymbol & Hsymbol & Hft).
  apply bind_Returns in Hft as (line & Hline & Hft).
  apply bind_Returns in Hft as (innerWindowID & Hinner & [= <-]).
  simpl. by split_and!.
Qed.

Lemma loadNativeSymbols_Returns σ o t :
  ByReference.loadNativeSymbols σ o = Returns t ↔
  ByReference.array σ (ByReference.NativeSymbolsObject.libIndex o)
  = Returns (NativeSymbolTable.libIndex t)
  ∧ ByReference.array σ (ByReference.NativeSymbolsObject.address o)
    = Returns (NativeSymbolTable.address t)
  ∧ ByReference.array σ (ByReference.NativeSymbolsObject.name o) = Returns (NativeSymbolTable.name t)
  ∧ NativeSymbolTable.length t = ByReference.NativeSymbolsObject.length o.
Proof.
  unfold ByReference.loadNativeSymbols. split.
  - intros (libIndex & Hlib & Hrest)%bind_Returns.
    apply bind_Returns in Hrest as (address & Haddress & Hrest).
    apply bind_Returns in Hrest as (name & Hname & [= <-]). done.
  - intros (-> & -> & -> & <-). by destruct t.
Qed.

Lemma loadFuncTable_Returns σ o t :
  ByReference.loadFuncTable σ o = Returns t ↔
  ByReference.array σ (ByReference.FuncTableObject.name o) = Returns (FuncTable.name t)
  ∧ ByReference.array σ (ByReference.FuncTableObject.fileName o) = Returns (FuncTable.fileName t)
  ∧ ByReference.array σ (ByReference.FuncTableObject.resource o) = Returns (FuncTable.resource t)
  ∧ ByReference.array σ (ByReference.FuncTableObject.isJS o) = Returns (FuncTable.isJS t)
  ∧ ByReference.array σ (ByReference.FuncTableObject.relevantForJS o)
    = Returns (FuncTable.relevantForJS t)
  ∧ ByReference.array σ (ByReference.FuncTableObject.lineNumber o) = Returns (FuncTable.lineNumber t)
  ∧ ByReference.array σ (ByReference.FuncTableObject.columnNumber o)
    = Returns (FuncTable.columnNumber t)
  ∧ FuncTable.length t = ByReference.FuncTableObject.length o.
Proof.
  unfold ByReference.loadFuncTable. split.
  - intros (name & Hname & Hrest)%bind_Returns.
    apply bind_Returns in Hrest as (fileName & HfileName & Hrest).
    apply bind_Returns in Hrest as (resource & Hresource & Hrest).
    apply bind_Returns in Hrest as (isJS & HisJS & Hrest).
    apply bind_Returns in Hrest as (relevantForJS & Hrelevant & Hrest).
    apply bind_Returns in Hrest as (lineNumber & HlineNumber & Hrest).
    apply bind_Returns in Hrest as (columnNumber & Hcolumn & [= <-]). done.
  - intros (-> & -> & -> & -> & -> & -> & -> & <-). by destruct t.
Qed.

Lemma keeps_refl σ0 s : keeps σ0 s σ0.
Proof. by split. Qed.

Lemma keeps_insert σ0 s σ r o :
  keeps σ0 s σ → ((length σ0 ≤ r)%nat ∨ r = s) → keeps σ0 s (<[r := o]> σ).
Proof.
  intros [Hlen Hkept] Hr. split; [by rewrite length_insert|].
  intros r' Hr' Hne. rewrite list_lookup_insert_ne by lia. by apply Hkept.
Qed.

Lemma keeps_app σ0 s σ news : keeps σ0 s σ → keeps σ0 s (σ ++ news).
Proof.
  intros [Hlen Hkept]. split; [rewrite length_app; lia|].
  intros r Hr Hne. rewrite lookup_app_l by lia. by apply Hkept.
Qed.

Lemma keeps_array {A : Type} `{ElementLaws A} σ0 s σ r (column : list A)
  table :
  keeps σ0 s σ → ByReference.strings σ0 s = Returns table →
  ByReference.array σ0 r = Returns column → ByReference.array σ r = Returns column.
Proof.
  intros [_ Hkept] Hs Hr.
  pose proof (array_not_strings _ _ _ _ _ Hr Hs) as Hne.
  pose proof (array_lt _ _ _ Hr) as Hlt.
  apply array_Returns. rewrite Hkept by done. by apply array_Returns.
Qed.

Section by_reference.
Variables (σ0 : list ByReference.object) (thread : ByReference.ThreadObject.t) (old : Thread.t).
Hypothesis Hload : ByReference.load σ0 thread = Returns old.

Local Notation s := (ByReference.ThreadObject.stringTable thread).

Lemma old_array {A : Type} `{ElementLaws A} σ r (column : list A) :
  keeps σ0 s σ → ByReference.array σ0 r = Returns column → ByReference.array σ r = Returns column.
Proof.
  intros Hkept. eapply keeps_array; [done|].
  by apply load_by_reference_Returns in Hload as (_ & _ & _ & Hs & _).
Qed.

Lemma resolveFrame_by_reference σ results f x σ' :
  keeps σ0 s σ → ByReference.strings σ s = Returns (Thread.stringTable old) →
  ByReference.resolveFrame thread results f σ = Returns (x, σ') →
  σ' = σ ∧ resolveFrame old results f = Returns x.
Proof.
  intros Hkept Hstrings.
  pose proof (load_by_reference_Returns _ _ _ Hload)
    as ((Haddress & _ & Hsymbol & _) & _
        & (_ & Hsa & Hsn & _)%loadNativeSymbols_Returns & _).
  unfold ByReference.resolveFrame, resolveFrame, read.
  intros (oldFrameSymbol & σ1 & Hread & Hrest)%bindM_Returns.
  apply (readAt_known _ _ _ _ _ _ (old_array _ _ _ Hkept Hsymbol)) in Hread
      as [-> ->].
  apply bindM_Returns in Hrest as (address & σ1 & Hread & Hrest).
  apply (readAt_known _ _ _ _ _ _ (old_array _ _ _ Hkept Haddress)) in Hread
      as [-> ->].
  apply bindM_Returns in Hrest as (r & σ1 & Hr & [-> ->]%retM_Returns).
  simpl. destruct (results !! address) as [addressResult|].
  { by apply retM_Returns in Hr as [-> ->]. }
  destruct oldFrameSymbol as [oldFrameSymbol|].
  - apply bindM_Returns in Hr as (nameIndex & σ2 & Hread & Hr).
    apply (readAt_known _ _ _ _ _ _ (old_array _ _ _ Hkept Hsn)) in Hread
        as [-> ->].
    apply bindM_Returns in Hr as (name & σ2 & Hname & Hr).
    apply (stringTable_getString_known _ _ _ _ _ _ Hstrings) in Hname
        as [-> Hname].
    apply bindM_Returns in Hr as (sa & σ2 & Hread & [-> ->]%retM_Returns).
    apply (readAt_known _ _ _ _ _ _ (old_array _ _ _ Hkept Hsa)) in Hread
        as [-> Hsa'].
    split; [done|]. unfold mbind at 3. simpl. rewrite Hname. simpl.
    by rewrite Hsa'.
  - by apply retM_Returns in Hr as [-> ->].
Qed.

Lemma resolveSymbolAddress_by_reference σ results a f a' σ' :
  keeps σ0 s σ → ByReference.strings σ s = Returns (Thread.stringTable old) →
  ByReference.resolveSymbolAddress thread results a f σ = Returns (a', σ') →
  σ' = σ ∧ resolveSymbolAddress old results a f = Returns a'.
Proof.
  intros Hkept Hstrings. unfold ByReference.resolveSymbolAddress.
  intros ([oldFrameSymbol r] & σ1 & Hr & Hf)%bindM_Returns.
  apply resolveFrame_by_reference in Hr as [-> Hr]; [|done..].
  unfold resolveSymbolAddress. rewrite Hr. simpl.
  destruct oldFrameSymbol as [oldFrameSymbol|];
    [destruct (negb _); [destruct (JsSet.has _ _)|]|];
    by apply retM_Returns in Hf as [-> ->].
Qed.

Lemma stepA_by_reference σ info results a σ' :
  keeps σ0 s σ → ByReference.strings σ s = Returns (Thread.stringTable old) →
  ByReference.stepA thread info results σ = Returns (a, σ') →
  σ' = σ ∧ stepA old info results = Returns a.
Proof.
  intros Hkept Hstrings. unfold ByReference.stepA, stepA.
  generalize (ThreadLibSymbolicationInfo.allFramesForThisLib info).
  generalize
    {| StepA.availableNativeSymbols :=
         JsSet.of_list
           (ThreadLibSymbolicationInfo.allNativeSymbolsForThisLib info);
       StepA.frameToSymbolAddressMap := [];
       StepA.symbolAddressToNameMap := [];
       StepA.symbolAddressToCanonicalSymbolIndexMap := [] |}.
  intros a0 frames. revert a0.
  induction frames as [|f frames IH]; intros a0; simpl.
  - by intros [-> ->]%retM_Returns.
  - intros (a1 & σ1 & Hf & Hrest)%bindM_Returns.
    apply resolveSymbolAddress_by_reference in Hf as [-> ->]; [|done..].
    simpl. by apply IH.
Qed.

End by_reference.

Ltac heap_length := rewrite ?length_insert, ?length_app; simpl; lia.

Ltac heap :=
  repeat match goal with
    | |- context [@ByReference.array ?A ?E (<[?r' := ?o]> ?σ) ?r] =>
        first [ rewrite (array_insert_ne (A:=A) σ r r' o) by lia
              | erewrite (array_insert_same (A:=A) σ r o)
                  by first [reflexivity | heap_length] ]
    | |- context [ByReference.strings (<[?r' := ?o]> ?σ) ?r] =>
        first [ rewrite (strings_insert_ne σ r r' o) by lia
              | rewrite (strings_insert_eq σ r) by heap_length ]
    | |- context [@ByReference.array ?A ?E (?σ ++ ?news) ?r] =>
        rewrite (array_app_l (A:=A) σ news r) by heap_length
    | |- context [ByReference.strings (?σ ++ ?news) ?r] =>
        rewrite (strings_app_l σ news r) by heap_length
    end.

Lemma addNativeSymbol_by_reference σ nativeSymbols libIndex t n
  nativeSymbols' σ' :
  ByReference.loadNativeSymbols σ nativeSymbols = Returns t →
  ByReference.addNativeSymbol nativeSymbols libIndex σ
  = Returns (n, nativeSymbols', σ') →
  ∃ t' column,
    addNativeSymbol t libIndex = Returns (n, t')
    ∧ NativeSymbolTable.libIndex t' = column
    ∧ NativeSymbolTable.address t' = NativeSymbolTable.address t
    ∧ NativeSymbolTable.name t' = NativeSymbolTable.name t
    ∧ NativeSymbolTable.length t' = ByReference.NativeSymbolsObject.length nativeSymbols'
    ∧ σ' = <[ByReference.NativeSymbolsObject.libIndex nativeSymbols
             := ByReference.inject column]> σ
    ∧ ByReference.NativeSymbolsObject.libIndex nativeSymbols'
      = ByReference.NativeSymbolsObject.libIndex nativeSymbols
    ∧ ByReference.NativeSymbolsObject.address nativeSymbols'
      = ByReference.NativeSymbolsObject.address nativeSymbols
    ∧ ByReference.NativeSymbolsObject.name nativeSymbols'
      = ByReference.NativeSymbolsObject.name nativeSymbols.
Proof.
  intros (Hlib & _ & _ & Hlen)%loadNativeSymbols_Returns.
  unfold ByReference.addNativeSymbol.
  intros (u & σ1 & Hwrite & [[= -> ->] ->]%retM_Returns)%bindM_Returns.
  apply (writeAt_known _ _ _ _ _ _ _ Hlib) in Hwrite
      as (column & Hwrite & ->).
  unfold addNativeSymbol. rewrite Hlen, Hwrite. simpl.
  eexists _, column. by split_and!.
Qed.

Section by_reference_loops.
Variables (σ0 : list ByReference.object) (thread : ByReference.ThreadObject.t)
  (old : Thread.t).
Hypothesis Hload : ByReference.load σ0 thread = Returns old.

Local Notation s := (ByReference.ThreadObject.stringTable thread).

Lemma stringTable_lt : s < length σ0.
Proof.
  apply load_by_reference_Returns in Hload as (_ & _ & _ & Hs & _).
  by eapply strings_lt.
Qed.

Lemma canonicalizeSymbol_by_reference σ libIndex st b entry st' σ' :
  denotesB σ0 s σ st b →
  ByReference.canonicalizeSymbol s libIndex st entry σ = Returns (st', σ') →
  ∃ b', canonicalizeSymbol libIndex b entry = Returns b'
        ∧ denotesB σ0 s σ' st' b'
        ∧ length σ' = length σ.
Proof.
  intros (Hkept & Hstrings & (Hfresh & Hlt1 & Hlt2) & Hns & Hiter
          & Hcanonical).
  pose proof stringTable_lt as Hs.
  pose proof Hkept as [Hlen _].
  pose proof Hns as (Hlib & Haddress & Hname & Hlength)
    %loadNativeSymbols_Returns.
  pose proof (array_lt _ _ _ Hname) as Hname_lt.
  destruct entry as [symbolAddress symbolName].
  unfold ByReference.canonicalizeSymbol, canonicalizeSymbol.
  intros (symbolStringIndex & σ1 & Hindex & Hrest)%bindM_Returns.
  apply (stringTable_indexForString_known _ _ _ _ _ _ Hstrings) in Hindex
      as (table' & -> & ->).
  rewrite <-Hcanonical, <-Hiter.
  apply bindM_Returns in Hrest
      as ([[[symbolIndex iterator] nativeSymbols] canonical] & σ2 & Hpick
          & Hrest).
  apply bindM_Returns in Hrest as (u1 & σ3 & Hwrite1 & Hrest).
  apply bindM_Returns in Hrest
      as (u2 & σ4 & Hwrite2 & [-> ->]%retM_Returns).
  assert (∃ t,
            match
              JsMap.get
                (ByReference.StepBObject.symbolAddressToCanonicalSymbolIndexMap st)
                symbolAddress
            with
            | Some symbolIndex =>
                Returns
                  (symbolIndex,
                   ByReference.StepBObject.availableNativeSymbolIterator st,
                   StepB.nativeSymbols b,
                   ByReference.StepBObject.symbolAddressToCanonicalSymbolIndexMap st)
            | None =>
                '(symbolIndex, iterator, nativeSymbols) ←
                  match ByReference.StepBObject.availableNativeSymbolIterator st with
                  | symbolIndex :: iterator =>
                      Returns (symbolIndex, iterator, StepB.nativeSymbols b)
                  | [] =>
                      '(symbolIndex, nativeSymbols) ←
                         addNativeSymbol (StepB.nativeSymbols b) libIndex;
                      Returns (symbolIndex, [], nativeSymbols)
                  end;
                Returns
                  (symbolIndex, iterator, nativeSymbols,
                   JsMap.set
                     (ByReference.StepBObject.symbolAddressToCanonicalSymbolIndexMap
                        st) symbolAddress symbolIndex)
            end = Returns (symbolIndex, iterator, t, canonical)
            ∧ ByReference.loadNativeSymbols σ2 nativeSymbols = Returns t
            ∧ ByReference.strings σ2 s = Returns table'
            ∧ keeps σ0 s σ2 ∧ length σ2 = length σ
            ∧ ByReference.NativeSymbolsObject.libIndex nativeSymbols
              = ByReference.NativeSymbolsObject.libIndex
                  (ByReference.StepBObject.nativeSymbols st)
            ∧ ByReference.NativeSymbolsObject.address nativeSymbols
              = ByReference.NativeSymbolsObject.address
                  (ByReference.StepBObject.nativeSymbols st)
            ∧ ByReference.NativeSymbolsObject.name nativeSymbols
              = ByReference.NativeSymbolsObject.name
                  (ByReference.StepBObject.nativeSymbols st))
    as (t & -> & Ht & Hstrings2 & Hkept2 & Hlen2 & Hr1 & Hr2 & Hr3).
  { assert (ByReference.loadNativeSymbols
              (<[s := ByReference.Strings table']> σ)
              (ByReference.StepBObject.nativeSymbols st)
            = Returns (StepB.nativeSymbols b)) as Hns1.
    { apply loadNativeSymbols_Returns. heap. by split_and!. }
    assert (keeps σ0 s (<[s := ByReference.Strings table']> σ)) as Hkept1
      by (apply keeps_insert; auto).
    destruct (JsMap.get _ symbolAddress) as [n|].
    { apply retM_Returns in Hpick as [[= -> -> -> ->] ->].
      exists (StepB.nativeSymbols b). split_and!; try done.
      - heap. done.
      - by rewrite ?length_insert. }
    apply bindM_Returns in Hpick
        as ([[n it] ns] & σ5 & Hnext & [[= -> -> -> ->] ->]%retM_Returns).
    destruct (ByReference.StepBObject.availableNativeSymbolIterator st)
      as [|n0 it0]; cycle 1.
    { apply retM_Returns in Hnext as [[= -> -> ->] ->].
      exists (StepB.nativeSymbols b). simpl. split_and!; try done.
      - heap. done.
      - by rewrite ?length_insert. }
    apply bindM_Returns in Hnext
        as ([n' ns'] & σ6 & Hadd & [[= -> -> ->] ->]%retM_Returns).
    apply (addNativeSymbol_by_reference _ _ _ _ _ _ _ Hns1) in Hadd
        as (t' & column & -> & Hc1 & Hc2 & Hc3 & Hc4 & -> & Hq1 & Hq2 & Hq3).
    exists t'. simpl. split_and!; try done.
    - apply loadNativeSymbols_Returns. rewrite Hq1, Hq2, Hq3, Hc1, Hc2, Hc3.
      heap. by split_and!.
    - heap. done.
    - apply keeps_insert; [done|]. left. lia.
    - by rewrite ?length_insert. }
  simpl.
  pose proof Ht as (Hlib2 & Haddress2 & Hname2 & Hlength2)
    %loadNativeSymbols_Returns.
  rewrite Hr1 in Hlib2. rewrite Hr2 in Haddress2, Hwrite1.
  rewrite Hr3 in Hname2, Hwrite2.
  apply (writeAt_known _ _ _ _ _ _ _ Haddress2) in Hwrite1
      as (addressColumn & -> & ->).
  simpl.
  assert (ByReference.array
            (<[ByReference.NativeSymbolsObject.address
                 (ByReference.StepBObject.nativeSymbols st)
               := ByReference.inject addressColumn]> σ2)
            (ByReference.NativeSymbolsObject.name
               (ByReference.StepBObject.nativeSymbols st))
          = Returns (NativeSymbolTable.name t)) as Hname3.
  { rewrite array_insert_ne by lia. done. }
  apply (writeAt_known _ _ _ _ _ _ _ Hname3) in Hwrite2
      as (nameColumn & -> & ->).
  simpl. eexists. split; [done|].
  split; [|by rewrite ?length_insert].
  unfold denotesB. simpl. rewrite Hr1, Hr2, Hr3. split_and!; try done.
  - do 2 (apply keeps_insert; [|left; lia]). done.
  - heap. done.
  - apply loadNativeSymbols_Returns. simpl. rewrite Hr1, Hr2, Hr3. heap.
    by split_and!.
Qed.

End by_reference_loops.

(** *** Writes to some objects leave the others alone *)

Lemma only_refl refs σ : only refs σ σ.
Proof. by split. Qed.

Lemma only_insert refs σ r o : r ∈ refs → only refs σ (<[r := o]> σ).
Proof.
  intros Hr. split; [by rewrite length_insert|].
  intros r' Hr'. rewrite list_lookup_insert_ne; [done|]. by intros ->.
Qed.

Lemma only_trans refs σ1 σ2 σ3 :
  only refs σ1 σ2 → only refs σ2 σ3 → only refs σ1 σ3.
Proof.
  intros [Hlen1 H1] [Hlen2 H2]. split; [congruence|].
  intros r Hr. by rewrite H2, H1.
Qed.

Lemma only_subseteq refs refs' σ σ' :
  refs ⊆ refs' → only refs σ σ' → only refs' σ σ'.
Proof.
  intros Hsub [Hlen Honly]. split; [done|]. intros r Hr. apply Honly.
  intros Hin. by apply Hr, Hsub.
Qed.

Lemma only_array {A : Type} `{ByReference.Element A} refs σ σ' r :
  only refs σ σ' → r ∉ refs → ByReference.array (A:=A) σ' r = ByReference.array σ r.
Proof. intros [_ Honly] Hr. unfold ByReference.array. by rewrite Honly. Qed.

Lemma only_strings refs σ σ' r :
  only refs σ σ' → r ∉ refs → ByReference.strings σ' r = ByReference.strings σ r.
Proof. intros [_ Honly] Hr. unfold ByReference.strings. by rewrite Honly. Qed.

Lemma only_keeps refs σ0 s σ σ' :
  only refs σ σ' → (∀ r, r ∈ refs → (length σ0 ≤ r)%nat ∨ r = s) →
  keeps σ0 s σ → keeps σ0 s σ'.
Proof.
  intros [Hlen Honly] Hrefs [Hle Hkept]. split; [lia|].
  intros r Hr Hne. rewrite Honly; [by apply Hkept|].
  intros [?|?]%Hrefs; [lia|done].
Qed.

Lemma writeAt_only {A : Type} `{ElementLaws A} σ r i (column : list A) a u
  σ' :
  ByReference.array σ r = Returns column →
  ByReference.writeAt r i a σ = Returns (u, σ') →
  ∃ column', write column i a = Returns column'
             ∧ ByReference.array σ' r = Returns column'
             ∧ only [r] σ σ'.
Proof.
  intros Hcolumn Hwrite.
  pose proof (array_lt _ _ _ Hcolumn) as Hlt.
  apply (writeAt_known _ _ _ _ _ _ _ Hcolumn) in Hwrite
      as (column' & Hwrite & ->).
  exists column'. split; [done|]. split; [by apply array_insert_eq|].
  apply only_insert. left.
Qed.

Lemma stringTable_indexForString_only σ s name table index σ' :
  ByReference.strings σ s = Returns table →
  ByReference.stringTable_indexForString s name σ = Returns (index, σ') →
  ∃ table', indexForString name table = (index, table')
            ∧ ByReference.strings σ' s = Returns table'
            ∧ only [s] σ σ'.
Proof.
  intros Htable Hindex.
  pose proof (strings_lt _ _ _ Htable) as Hlt.
  apply (stringTable_indexForString_known _ _ _ _ _ _ Htable) in Hindex
      as (table' & Hindex & ->).
  exists table'. split; [done|]. split; [by apply strings_insert_eq|].
  apply only_insert. left.
Qed.

Ltac not_in := rewrite ?not_elem_of_cons, ?elem_of_nil; lia.

(** *** The func table *)

Lemma addFunc_by_reference σ funcTable resourceIndex t n funcTable' σ' :
  ByReference.FuncTableObject.isJS funcTable
  < ByReference.FuncTableObject.relevantForJS funcTable
  < ByReference.FuncTableObject.name funcTable →
  ByReference.FuncTableObject.name funcTable
  < ByReference.FuncTableObject.resource funcTable
  < ByReference.FuncTableObject.fileName funcTable →
  ByReference.FuncTableObject.fileName funcTable
  < ByReference.FuncTableObject.lineNumber funcTable
  < ByReference.FuncTableObject.columnNumber funcTable →
  ByReference.loadFuncTable σ funcTable = Returns t →
  ByReference.addFunc funcTable resourceIndex σ = Returns (n, funcTable', σ') →
  ∃ t',
    addFunc t resourceIndex = Returns (n, t')
    ∧ ByReference.loadFuncTable σ' funcTable' = Returns t'
    ∧ only [ByReference.FuncTableObject.isJS funcTable;
            ByReference.FuncTableObject.relevantForJS funcTable;
            ByReference.FuncTableObject.resource funcTable;
            ByReference.FuncTableObject.lineNumber funcTable;
            ByReference.FuncTableObject.columnNumber funcTable] σ σ'
    ∧ (ByReference.FuncTableObject.name funcTable',
       ByReference.FuncTableObject.fileName funcTable',
       ByReference.FuncTableObject.resource funcTable',
       ByReference.FuncTableObject.isJS funcTable',
       ByReference.FuncTableObject.relevantForJS funcTable',
       ByReference.FuncTableObject.lineNumber funcTable',
       ByReference.FuncTableObject.columnNumber funcTable')
      = (ByReference.FuncTableObject.name funcTable,
         ByReference.FuncTableObject.fileName funcTable,
         ByReference.FuncTableObject.resource funcTable,
         ByReference.FuncTableObject.isJS funcTable,
         ByReference.FuncTableObject.relevantForJS funcTable,
         ByReference.FuncTableObject.lineNumber funcTable,
         ByReference.FuncTableObject.columnNumber funcTable).
Proof.
  intros Ho1 Ho2 Ho3
    (Hname & Hfile & Hresource & HisJS & Hrelevant & Hline & Hcolumn & Hlen)
    %loadFuncTable_Returns.
  unfold ByReference.addFunc, addFunc. rewrite Hlen.
  intros (u1 & σ1 & Hw1 & Hrest)%bindM_Returns.
  apply (writeAt_only _ _ _ _ _ _ _ HisJS) in Hw1 as (c1 & -> & Hc1 & H1).
  apply bindM_Returns in Hrest as (u2 & σ2 & Hw2 & Hrest).
  rewrite <-(only_array _ _ _ _ H1) in Hrelevant by not_in.
  apply (writeAt_only _ _ _ _ _ _ _ Hrelevant) in Hw2
      as (c2 & -> & Hc2 & H2).
  apply bindM_Returns in Hrest as (u3 & σ3 & Hw3 & Hrest).
  rewrite <-(only_array _ _ _ _ H1), <-(only_array _ _ _ _ H2) in Hresource
    by not_in.
  apply (writeAt_only _ _ _ _ _ _ _ Hresource) in Hw3
      as (c3 & -> & Hc3 & H3).
  apply bindM_Returns in Hrest as (u4 & σ4 & Hw4 & Hrest).
  rewrite <-(only_array _ _ _ _ H1), <-(only_array _ _ _ _ H2),
    <-(only_array _ _ _ _ H3) in Hline by not_in.
  apply (writeAt_only _ _ _ _ _ _ _ Hline) in Hw4 as (c4 & -> & Hc4 & H4).
  apply bindM_Returns in Hrest
      as (u5 & σ5 & Hw5 & [[= -> ->] ->]%retM_Returns).
  rewrite <-(only_array _ _ _ _ H1), <-(only_array _ _ _ _ H2),
    <-(only_array _ _ _ _ H3), <-(only_array _ _ _ _ H4) in Hcolumn
    by not_in.
  apply (writeAt_only _ _ _ _ _ _ _ Hcolumn) in Hw5 as (c5 & -> & Hc5 & H5).
  simpl. eexists. split; [done|]. split; [|split; [|done]].
  - apply loadFuncTable_Returns. simpl.
    rewrite (only_array _ _ _ _ H5), (only_array _ _ _ _ H4),
      (only_array _ _ _ _ H3), (only_array _ _ _ _ H2),
      (only_array _ _ _ _ H1), Hname by not_in.
    rewrite (only_array _ _ _ _ H5), (only_array _ _ _ _ H4),
      (only_array _ _ _ _ H3), (only_array _ _ _ _ H2),
      (only_array _ _ _ _ H1), Hfile by not_in.
    rewrite (only_array _ _ _ _ H5), (only_array _ _ _ _ H4), Hc3 by not_in.
    rewrite (only_array _ _ _ _ H5), (only_array _ _ _ _ H4),
      (only_array _ _ _ _ H3), (only_array _ _ _ _ H2), Hc1 by not_in.
    rewrite (only_array _ _ _ _ H5), (only_array _ _ _ _ H4),
      (only_array _ _ _ _ H3), Hc2 by not_in.
    rewrite (only_array _ _ _ _ H5), Hc4 by not_in.
    by rewrite Hc5.
  - eapply only_trans; [|eapply only_subseteq; [|exact H5]; set_solver].
    eapply only_trans; [|eapply only_subseteq; [|exact H4]; set_solver].
    eapply only_trans; [|eapply only_subseteq; [|exact H3]; set_solver].
    eapply only_trans; [|eapply only_subseteq; [|exact H2]; set_solver].
    eapply only_subseteq; [|exact H1]. set_solver.
Qed.

Lemma nameFunc_by_reference σ funcTable t n nameIndex fileIndex u σ' :
  ByReference.FuncTableObject.name funcTable
  ≠ ByReference.FuncTableObject.fileName funcTable →
  ByReference.loadFuncTable σ funcTable = Returns t →
  ByReference.nameFunc funcTable n nameIndex fileIndex σ = Returns (u, σ') →
  ∃ t',
    nameFunc t n nameIndex fileIndex = Returns t'
    ∧ ByReference.array σ' (ByReference.FuncTableObject.name funcTable)
      = Returns (FuncTable.name t')
    ∧ ByReference.array σ' (ByReference.FuncTableObject.fileName funcTable)
      = Returns (FuncTable.fileName t')
    ∧ (FuncTable.length t', FuncTable.resource t', FuncTable.isJS t',
       FuncTable.relevantForJS t', FuncTable.lineNumber t',
       FuncTable.columnNumber t')
      = (FuncTable.length t, FuncTable.resource t, FuncTable.isJS t,
         FuncTable.relevantForJS t, FuncTable.lineNumber t,
         FuncTable.columnNumber t)
    ∧ only [ByReference.FuncTableObject.name funcTable;
            ByReference.FuncTableObject.fileName funcTable] σ σ'.
Proof.
  intros Hne
    (Hname & Hfile & _)%loadFuncTable_Returns.
  unfold ByReference.nameFunc, nameFunc.
  intros (u1 & σ1 & Hw1 & Hw2)%bindM_Returns.
  apply (writeAt_only _ _ _ _ _ _ _ Hname) in Hw1 as (c1 & -> & Hc1 & H1).
  rewrite <-(only_array _ _ _ _ H1) in Hfile
    by (rewrite ?not_elem_of_cons, ?elem_of_nil; auto).
  apply (writeAt_only _ _ _ _ _ _ _ Hfile) in Hw2 as (c2 & -> & Hc2 & H2).
  simpl. eexists. split; [done|]. simpl. split_and!; [|done..|].
  - rewrite (only_array _ _ _ _ H2); [done|].
    rewrite ?not_elem_of_cons, ?elem_of_nil. auto.
  - eapply only_trans; eapply only_subseteq; [|exact H1| |exact H2];
      set_solver.
Qed.

Lemma indexForOptionalString_by_reference σ s file table index σ' :
  ByReference.strings σ s = Returns table →
  match file with
  | Some file =>
      index ← ByReference.stringTable_indexForString s file; mret (Some index)
  | None => mret None
  end σ = Returns (index, σ') →
  ∃ table', indexForOptionalString file table = (index, table')
            ∧ ByReference.strings σ' s = Returns table'
            ∧ only [s] σ σ'.
Proof.
  intros Htable. unfold indexForOptionalString.
  destruct file as [file|].
  - intros (i & σ1 & Hi & [-> ->]%retM_Returns)%bindM_Returns.
    apply (stringTable_indexForString_only _ _ _ _ _ _ Htable) in Hi
        as (table' & -> & Hs & Honly).
    by exists table'.
  - intros [-> ->]%retM_Returns. exists table. split_and!; [done..|].
    apply only_refl.
Qed.

Section by_reference_funcs.
Variables (σ0 : list ByReference.object) (thread : ByReference.ThreadObject.t)
  (old : Thread.t).
Hypothesis Hload : ByReference.load σ0 thread = Returns old.

Local Notation s := (ByReference.ThreadObject.stringTable thread).

Lemma funcAddressResult_by_reference σ results nativeSymbols newNativeSymbols
  column newColumn funcTable fileName table f oldFunc r σ' :
  keeps σ0 s σ →
  ByReference.strings σ s = Returns table →
  ByReference.loadNativeSymbols σ nativeSymbols = Returns newNativeSymbols →
  ByReference.array σ column = Returns newColumn →
  ByReference.array σ (ByReference.FuncTableObject.fileName funcTable)
  = Returns (FuncTable.fileName fileName) →
  ByReference.funcAddressResult thread results nativeSymbols column funcTable f
    oldFunc σ = Returns (r, σ') →
  σ' = σ
  ∧ funcAddressResult (Thread.frameTable old) results newNativeSymbols
      newColumn table fileName f oldFunc = Returns r.
Proof.
  intros Hkept Hstrings (_ & Hsa & Hsn & _)%loadNativeSymbols_Returns
    Hcolumn Hfile.
  pose proof (load_by_reference_Returns _ _ _ Hload)
    as ((Haddress & _ & _ & Hline & _) & _).
  unfold ByReference.funcAddressResult, funcAddressResult, read.
  intros (nativeSymbolIndex & σ1 & Hread & Hrest)%bindM_Returns.
  apply (readAt_known _ _ _ _ _ _ Hcolumn) in Hread as [-> ->].
  simpl. destruct nativeSymbolIndex as [nativeSymbolIndex|]; [|done].
  apply bindM_Returns in Hrest as (address & σ1 & Hread & Hrest).
  apply (readAt_known _ _ _ _ _ _ (old_array _ _ _ Hload _ _ _ Hkept Haddress))
    in Hread as [-> ->].
  simpl. destruct (results !! address) as [addressResult|].
  { by apply retM_Returns in Hrest as [-> ->]. }
  apply bindM_Returns in Hrest as (symbolName & σ1 & Hread & Hrest).
  apply (readAt_known _ _ _ _ _ _ Hsn) in Hread as [-> ->]. simpl.
  apply bindM_Returns in Hrest as (fileNameIndex & σ1 & Hread & Hrest).
  apply (readAt_known _ _ _ _ _ _ Hfile) in Hread as [-> ->]. simpl.
  apply bindM_Returns in Hrest as (symbolAddress & σ1 & Hread & Hrest).
  apply (readAt_known _ _ _ _ _ _ Hsa) in Hread as [-> ->]. simpl.
  apply bindM_Returns in Hrest as (name & σ1 & Hname & Hrest).
  apply (stringTable_getString_known _ _ _ _ _ _ Hstrings) in Hname
      as [-> Hname].
  rewrite Hname. simpl.
  apply bindM_Returns in Hrest as (file & σ1 & Hfile' & Hrest).
  assert (σ1 = σ
          ∧ match fileNameIndex with
            | Some fileNameIndex =>
                s ← getString table fileNameIndex; Returns (Some s)
            | None => Returns None
            end = Returns file) as [-> ->].
  { destruct fileNameIndex as [fileNameIndex|].
    - apply bindM_Returns in Hfile'
          as (s' & σ2 & Hs' & [-> ->]%retM_Returns).
      apply (stringTable_getString_known _ _ _ _ _ _ Hstrings) in Hs'
          as [-> ->].
      done.
    - by apply retM_Returns in Hfile' as [-> ->]. }
  simpl.
  apply bindM_Returns in Hrest as (line & σ1 & Hread & [-> ->]%retM_Returns).
  apply (readAt_known _ _ _ _ _ _ (old_array _ _ _ Hload _ _ _ Hkept Hline))
    in Hread as [-> ->].
  done.
Qed.


Lemma canonicalizeFunc_by_reference σ results nativeSymbols newNativeSymbols
  column newColumn resourceIndex st c f st' σ' :
  denotesC σ0 s nativeSymbols newNativeSymbols column newColumn σ st c →
  ByReference.canonicalizeFunc thread results nativeSymbols column resourceIndex st
    f σ = Returns (st', σ') →
  ∃ c',
    canonicalizeFunc (Thread.frameTable old) results newNativeSymbols
      newColumn resourceIndex c f = Returns c'
    ∧ denotesC σ0 s nativeSymbols newNativeSymbols column newColumn σ' st' c'.
Proof.
  intros (Hkept & Hstrings
          & (Ho0 & Ho1 & Ho2 & Ho3 & Ho4 & Ho5 & Ho6 & Ho7 & Ho8 & Ho9 & Ho10
             & Ho11 & Ho12)
          & Hns & Hcol & Hft & Hfc & Hlc & Hiter & Hmap & Hentries).
  pose proof (stringTable_lt _ _ _ Hload) as Hs.
  pose proof (load_by_reference_Returns _ _ _ Hload)
    as ((_ & Hfunc & _) & _).
  pose proof Hft as (_ & Hfile & _)%loadFuncTable_Returns.
  unfold ByReference.canonicalizeFunc.
  intros (oldFunc & σ1 & Hread & Hrest)%bindM_Returns.
  apply (readAt_known _ _ _ _ _ _ (old_array _ _ _ Hload _ _ _ Hkept Hfunc))
    in Hread as [-> Hold].
  apply bindM_Returns in Hrest as (r & σ1 & Hr & Hrest).
  apply (funcAddressResult_by_reference _ _ _ _ _ _ _ _ _ _ _ _ _ Hkept
           Hstrings Hns Hcol Hfile) in Hr as [-> Hr].
  apply bindM_Returns in Hrest as (nameIndex & σ1 & Hname & Hrest).
  apply (stringTable_indexForString_only _ _ _ _ _ _ Hstrings) in Hname
      as (table1 & Hname & Hs1 & H1).
  apply bindM_Returns in Hrest as (fileIndex & σ2 & Hfile' & Hrest).
  apply (indexForOptionalString_by_reference _ _ _ _ _ _ Hs1) in Hfile'
      as (table2 & Hfile' & Hs2 & H2).
  apply bindM_Returns in Hrest
      as ([[[n iterator] funcTable] keys] & σ3 & Hpick & Hrest).
  apply bindM_Returns in Hrest as (u1 & σ4 & Hw1 & Hrest).
  apply bindM_Returns in Hrest as (u2 & σ5 & Hw2 & [-> ->]%retM_Returns).
  set (ft := ByReference.StepCObject.funcTable st) in *.
  set (written :=
         [ByReference.FuncTableObject.isJS ft; ByReference.FuncTableObject.relevantForJS ft;
          ByReference.FuncTableObject.name ft; ByReference.FuncTableObject.resource ft;
          ByReference.FuncTableObject.fileName ft;
          ByReference.FuncTableObject.lineNumber ft;
          ByReference.FuncTableObject.columnNumber ft]).
  assert (only [s] σ σ2) as H12 by by eapply only_trans.
  assert (ByReference.loadFuncTable σ2 ft = Returns (StepC.funcTable c)) as Hft2.
  { apply loadFuncTable_Returns in Hft. apply loadFuncTable_Returns.
    rewrite !(only_array _ _ _ _ H12) by not_in. done. }
  rewrite Hiter, Hmap in Hpick.
  assert (∃ t,
            match JsMap.get (StepC.funcKeyToFuncMap c)
                    (funcKey nameIndex fileIndex) with
            | Some funcIndex =>
                Returns (funcIndex, StepC.availableFuncIter c,
                         StepC.funcTable c, StepC.funcKeyToFuncMap c)
            | None =>
                '(funcIndex, iterator, funcTable) ←
                  match StepC.availableFuncIter c with
                  | funcIndex :: iterator =>
                      Returns (funcIndex, iterator, StepC.funcTable c)
                  | [] =>
                      '(funcIndex, funcTable) ←
                         addFunc (StepC.funcTable c) resourceIndex;
                      Returns (funcIndex, [], funcTable)
                  end;
                funcTable ← nameFunc funcTable funcIndex nameIndex fileIndex;
                Returns (funcIndex, iterator, funcTable,
                         JsMap.set (StepC.funcKeyToFuncMap c)
                           (funcKey nameIndex fileIndex) funcIndex)
            end = Returns (n, iterator, t, keys)
            ∧ ByReference.loadFuncTable σ3 funcTable = Returns t
            ∧ only written σ2 σ3
            ∧ (ByReference.FuncTableObject.name funcTable,
               ByReference.FuncTableObject.fileName funcTable,
               ByReference.FuncTableObject.resource funcTable,
               ByReference.FuncTableObject.isJS funcTable,
               ByReference.FuncTableObject.relevantForJS funcTable,
               ByReference.FuncTableObject.lineNumber funcTable,
               ByReference.FuncTableObject.columnNumber funcTable)
              = (ByReference.FuncTableObject.name ft,
                 ByReference.FuncTableObject.fileName ft,
                 ByReference.FuncTableObject.resource ft,
                 ByReference.FuncTableObject.isJS ft,
                 ByReference.FuncTableObject.relevantForJS ft,
                 ByReference.FuncTableObject.lineNumber ft,
                 ByReference.FuncTableObject.columnNumber ft))
    as (t & Hpure & Ht & H3 & Hsame).
  { destruct (JsMap.get _ (funcKey nameIndex fileIndex)) as [m|].
    { apply retM_Returns in Hpick as [[= -> -> -> ->] ->].
      exists (StepC.funcTable c). split_and!; [done..| |done].
      apply only_refl. }
    apply bindM_Returns in Hpick as ([[m it] ft1] & σ6 & Hnext & Hpick).
    apply bindM_Returns in Hpick
        as (u & σ7 & Hnamed & [[= -> -> -> ->] ->]%retM_Returns).
    assert (∃ t1,
              match StepC.availableFuncIter c with
              | funcIndex :: iterator =>
                  Returns (funcIndex, iterator, StepC.funcTable c)
              | [] =>
                  '(funcIndex, funcTable) ←
                     addFunc (StepC.funcTable c) resourceIndex;
                  Returns (funcIndex, [], funcTable)
              end = Returns (m, it, t1)
              ∧ ByReference.loadFuncTable σ6 ft1 = Returns t1
              ∧ only written σ2 σ6
              ∧ (ByReference.FuncTableObject.name ft1,
                 ByReference.FuncTableObject.fileName ft1,
                 ByReference.FuncTableObject.resource ft1,
                 ByReference.FuncTableObject.isJS ft1,
                 ByReference.FuncTableObject.relevantForJS ft1,
                 ByReference.FuncTableObject.lineNumber ft1,
                 ByReference.FuncTableObject.columnNumber ft1)
                = (ByReference.FuncTableObject.name ft,
                   ByReference.FuncTableObject.fileName ft,
                   ByReference.FuncTableObject.resource ft,
                   ByReference.FuncTableObject.isJS ft,
                   ByReference.FuncTableObject.relevantForJS ft,
                   ByReference.FuncTableObject.lineNumber ft,
                   ByReference.FuncTableObject.columnNumber ft))
      as (t1 & -> & Ht1 & H6 & Hsame1).
    { destruct (StepC.availableFuncIter c) as [|m0 it0].
      - apply bindM_Returns in Hnext
            as ([m' ft'] & σ8 & Hadd & [[= -> -> ->] ->]%retM_Returns).
        apply (addFunc_by_reference σ2 ft _ _ _ _ _ ltac:(lia) ltac:(lia)
                 ltac:(lia) Hft2) in Hadd
            as (t1 & -> & Ht1 & Honly & Hsame1).
        exists t1. split_and!; [done..| |done].
        eapply only_subseteq; [|exact Honly]. set_solver.
      - apply retM_Returns in Hnext as [[= -> -> ->] ->].
        exists (StepC.funcTable c). split_and!; [done..| |done].
        apply only_refl. }
    injection Hsame1 as E1 E2 E3 E4 E5 E6 E7.
    assert (ByReference.FuncTableObject.name ft1
            ≠ ByReference.FuncTableObject.fileName ft1) as Hne by lia.
    apply (nameFunc_by_reference _ _ _ _ _ _ _ _ Hne Ht1) in Hnamed
        as (t & Hnf & Hn & Hf & [= L1 L2 L3 L4 L5 L6] & Honly).
    simpl. rewrite Hnf. simpl. exists t. split; [done|].
    rewrite E1, E2 in Honly. rewrite E1 in Hn. rewrite E2 in Hf.
    assert (only written σ6 σ7) as H67
      by (eapply only_subseteq; [|exact Honly]; set_solver).
    split; [|split; [by eapply only_trans|by rewrite E1, E2, E3, E4, E5, E6, E7]].
    apply loadFuncTable_Returns in Ht1
        as (_ & _ & Hresource & HisJS & Hrelevant & Hline & Hcolumn & Hlen).
    apply loadFuncTable_Returns. rewrite E1, E2, Hn, Hf.
    rewrite !(only_array _ _ _ _ Honly) by not_in.
    rewrite L1, L2, L3, L4, L5, L6. by split_and!. }
  injection Hsame as E1 E2 E3 E4 E5 E6 E7.
  assert (only (s :: written) σ σ3) as H03.
  { eapply only_trans; eapply only_subseteq; [|exact H12| |exact H3];
      set_solver. }
  rewrite <-(only_array _ _ _ _ H03) in Hfc by (subst written; not_in).
  apply (writeAt_only _ _ _ _ _ _ _ Hfc) in Hw1 as (funcColumn & Hw1 & Hfc4 & H4).
  rewrite <-(only_array _ _ _ _ H03), <-(only_array _ _ _ _ H4) in Hlc
    by (subst written; not_in).
  apply (writeAt_only _ _ _ _ _ _ _ Hlc) in Hw2 as (lineColumn & Hw2 & Hlc5 & H5).
  assert (only [ByReference.StepCObject.newFrameTableFuncColumn st;
                ByReference.StepCObject.newFrameTableLineColumn st] σ3 σ5) as H35.
  { eapply only_trans; eapply only_subseteq; [|exact H4| |exact H5];
      set_solver. }
  unfold canonicalizeFunc, read. rewrite Hold. simpl. rewrite Hr. simpl.
  rewrite Hname, Hfile', Hpure. simpl. rewrite Hw1. simpl. rewrite Hw2. simpl.
  eexists. split; [done|].
  unfold denotesC. simpl. fold ft. rewrite E1, E2, E3, E4, E5, E6, E7.
  apply loadNativeSymbols_Returns in Hns as (Hn1 & Hn2 & Hn3 & Hn4).
  split_and!; try done.
  - eapply (only_keeps _ _ _ _ _ H35);
      [intros ref; rewrite !elem_of_cons, elem_of_nil; lia|].
    eapply (only_keeps _ _ _ _ _ H03); [|done].
    subst written. intros ref. rewrite !elem_of_cons, elem_of_nil. lia.
  - rewrite (only_strings _ _ _ _ H35), (only_strings _ _ _ _ H3)
      by (subst written; not_in).
    done.
  - apply loadNativeSymbols_Returns.
    rewrite !(only_array _ _ _ _ H35), !(only_array _ _ _ _ H03)
      by (subst written; not_in).
    done.
  - rewrite !(only_array _ _ _ _ H35), !(only_array _ _ _ _ H03)
      by (subst written; not_in).
    done.
  - apply loadFuncTable_Returns in Ht. apply loadFuncTable_Returns.
    rewrite E1, E2, E3, E4, E5, E6, E7 in Ht |- *.
    rewrite !(only_array _ _ _ _ H35) by not_in. done.
  - by rewrite (only_array _ _ _ _ H5) by not_in.
  - by rewrite Hentries.
Qed.

End by_reference_funcs.

(** *** New arrays *)

Lemma slice_known {A : Type} `{ElementLaws A} σ r (column : list A) r' σ' :
  ByReference.array σ r = Returns column →
  ByReference.slice r σ = Returns (r', σ') →
  r' = length σ ∧ σ' = σ ++ [ByReference.inject column].
Proof.
  intros Hcolumn%array_Returns (-> & _ & o & Ho & ->)%slice_Returns.
  split; [done|]. congruence.
Qed.

Lemma array_allocated {A : Type} `{ElementLaws A} σ news k (column : list A) :
  news !! k = Some (ByReference.inject column) →
  ByReference.array (σ ++ news) (length σ + k) = Returns column.
Proof.
  intros Hk. apply array_Returns. rewrite lookup_app_r by lia.
  by replace (length σ + k - length σ) with k by lia.
Qed.

Lemma array_allocated_0 {A : Type} `{ElementLaws A} σ news
  (column : list A) :
  news !! 0 = Some (ByReference.inject column) →
  ByReference.array (σ ++ news) (length σ) = Returns column.
Proof.
  intros Hk. pose proof (array_allocated σ news 0 column Hk) as Ha.
  by rewrite Nat.add_0_r in Ha.
Qed.

Lemma keeps_lookup σ0 s σ r :
  keeps σ0 s σ → r < length σ0 → r ≠ s → σ !! r = σ0 !! r.
Proof. intros [_ Hkept]. apply Hkept. Qed.

Ltac sliced H fact :=
  match type of H with
  | ByReference.slice ?r ?σ = _ =>
      match type of fact with
      | _ = Returns ?column =>
          let Ha := fresh in
          assert (ByReference.array σ r = Returns column) as Ha
            by (pose proof (array_lt _ _ _ fact);
                rewrite ?array_app_l by (rewrite ?length_app; simpl; lia);
                exact fact);
          apply (slice_known _ _ _ _ _ Ha) in H as [-> ->]; clear Ha
      end
  end.

Lemma shallowCloneNativeSymbolTable_by_reference σ nativeSymbols t
  nativeSymbols' σ' :
  ByReference.loadNativeSymbols σ nativeSymbols = Returns t →
  ByReference.shallowCloneNativeSymbolTable nativeSymbols σ
  = Returns (nativeSymbols', σ') →
  σ' = σ ++ [ByReference.inject (NativeSymbolTable.libIndex t);
             ByReference.inject (NativeSymbolTable.address t);
             ByReference.inject (NativeSymbolTable.name t)]
  ∧ nativeSymbols'
    = {| ByReference.NativeSymbolsObject.length := NativeSymbolTable.length t;
         ByReference.NativeSymbolsObject.libIndex := length σ;
         ByReference.NativeSymbolsObject.address := length σ + 1;
         ByReference.NativeSymbolsObject.name := length σ + 2 |}.
Proof.
  intros (Hlib & Haddress & Hname & Hlen)%loadNativeSymbols_Returns.
  pose proof (array_lt _ _ _ Hlib) as Hlt1.
  pose proof (array_lt _ _ _ Haddress) as Hlt2.
  pose proof (array_lt _ _ _ Hname) as Hlt3.
  unfold ByReference.shallowCloneNativeSymbolTable.
  intros (r1 & σ1 & H1 & Hrest)%bindM_Returns.
  sliced H1 Hlib.
  apply bindM_Returns in Hrest as (r2 & σ2 & H2 & Hrest).
  sliced H2 Haddress.
  apply bindM_Returns in Hrest as (r3 & σ3 & H3 & [-> ->]%retM_Returns).
  sliced H3 Hname.
  rewrite <-!app_assoc, !length_app, Hlen. simpl. split; [done|].
  f_equal; lia.
Qed.

Lemma shallowCloneFuncTable_by_reference σ funcTable t funcTable' σ' :
  ByReference.loadFuncTable σ funcTable = Returns t →
  ByReference.shallowCloneFuncTable funcTable σ = Returns (funcTable', σ') →
  σ' = σ ++ [ByReference.inject (FuncTable.isJS t);
             ByReference.inject (FuncTable.relevantForJS t);
             ByReference.inject (FuncTable.name t);
             ByReference.inject (FuncTable.resource t);
             ByReference.inject (FuncTable.fileName t);
             ByReference.inject (FuncTable.lineNumber t);
             ByReference.inject (FuncTable.columnNumber t)]
  ∧ funcTable'
    = {| ByReference.FuncTableObject.length := FuncTable.length t;
         ByReference.FuncTableObject.name := length σ + 2;
         ByReference.FuncTableObject.fileName := length σ + 4;
         ByReference.FuncTableObject.resource := length σ + 3;
         ByReference.FuncTableObject.isJS := length σ;
         ByReference.FuncTableObject.relevantForJS := length σ + 1;
         ByReference.FuncTableObject.lineNumber := length σ + 5;
         ByReference.FuncTableObject.columnNumber := length σ + 6 |}.
Proof.
  intros (Hname & Hfile & Hresource & HisJS & Hrelevant & Hline & Hcolumn
          & Hlen)%loadFuncTable_Returns.
  pose proof (array_lt _ _ _ Hname) as Hlt1.
  pose proof (array_lt _ _ _ Hfile) as Hlt2.
  pose proof (array_lt _ _ _ Hresource) as Hlt3.
  pose proof (array_lt _ _ _ HisJS) as Hlt4.
  pose proof (array_lt _ _ _ Hrelevant) as Hlt5.
  pose proof (array_lt _ _ _ Hline) as Hlt6.
  pose proof (array_lt _ _ _ Hcolumn) as Hlt7.
  unfold ByReference.shallowCloneFuncTable.
  intros (r1 & σ1 & H1 & Hrest)%bindM_Returns.
  sliced H1 HisJS.
  apply bindM_Returns in Hrest as (r2 & σ2 & H2 & Hrest).
  sliced H2 Hrelevant.
  apply bindM_Returns in Hrest as (r3 & σ3 & H3 & Hrest).
  sliced H3 Hname.
  apply bindM_Returns in Hrest as (r4 & σ4 & H4 & Hrest).
  sliced H4 Hresource.
  apply bindM_Returns in Hrest as (r5 & σ5 & H5 & Hrest).
  sliced H5 Hfile.
  apply bindM_Returns in Hrest as (r6 & σ6 & H6 & Hrest).
  sliced H6 Hline.
  apply bindM_Returns in Hrest as (r7 & σ7 & H7 & [-> ->]%retM_Returns).
  sliced H7 Hcolumn.
  rewrite <-!app_assoc, !length_app, Hlen. simpl. split; [done|].
  f_equal; lia.
Qed.

Lemma load_by_reference_intro σ o t :
  let frameTable := ByReference.ThreadObject.frameTable o in
  ByReference.array σ (ByReference.FrameTableObject.address frameTable)
  = Returns (FrameTable.address (Thread.frameTable t)) →
  ByReference.array σ (ByReference.FrameTableObject.func frameTable)
  = Returns (FrameTable.func (Thread.frameTable t)) →
  ByReference.array σ (ByReference.FrameTableObject.nativeSymbol frameTable)
  = Returns (FrameTable.nativeSymbol (Thread.frameTable t)) →
  ByReference.array σ (ByReference.FrameTableObject.line frameTable)
  = Returns (FrameTable.line (Thread.frameTable t)) →
  ByReference.array σ (ByReference.FrameTableObject.innerWindowID frameTable)
  = Returns (FrameTable.innerWindowID (Thread.frameTable t)) →
  FrameTable.length (Thread.frameTable t)
  = ByReference.FrameTableObject.length frameTable →
  ByReference.loadFuncTable σ (ByReference.ThreadObject.funcTable o)
  = Returns (Thread.funcTable t) →
  ByReference.loadNativeSymbols σ (ByReference.ThreadObject.nativeSymbols o)
  = Returns (Thread.nativeSymbols t) →
  ByReference.strings σ (ByReference.ThreadObject.stringTable o)
  = Returns (Thread.stringTable t) →
  Thread.libs t = ByReference.ThreadObject.libs o →
  Thread.resourceTable t = ByReference.ThreadObject.resourceTable o →
  ByReference.load σ o = Returns t.
Proof.
  cbv zeta. intros H1 H2 H3 H4 H5 H6 H7 H8 H9 H10 H11.
  unfold ByReference.load, ByReference.loadFrameTable.
  rewrite H1, H2, H3, H4, H5, H7, H8, H9. simpl.
  rewrite <-H6, <-H10, <-H11. by destruct t as [? [] ? ? ? ?].
Qed.

Section by_reference_step.
Variables (σ0 : list ByReference.object) (thread : ByReference.ThreadObject.t)
  (old : Thread.t).
Hypothesis Hload : ByReference.load σ0 thread = Returns old.

Local Notation s := (ByReference.ThreadObject.stringTable thread).

Lemma old_nativeSymbols σ :
  keeps σ0 s σ →
  ByReference.loadNativeSymbols σ (ByReference.ThreadObject.nativeSymbols thread)
  = Returns (Thread.nativeSymbols old).
Proof.
  intros Hkept.
  pose proof (load_by_reference_Returns _ _ _ Hload)
    as (_ & _ & (H1 & H2 & H3 & H4)%loadNativeSymbols_Returns & _).
  apply loadNativeSymbols_Returns.
  split_and!; [by apply (old_array _ _ _ Hload)..|done].
Qed.

Lemma old_funcTable σ :
  keeps σ0 s σ →
  ByReference.loadFuncTable σ (ByReference.ThreadObject.funcTable thread)
  = Returns (Thread.funcTable old).
Proof.
  intros Hkept.
  pose proof (load_by_reference_Returns _ _ _ Hload)
    as (_ & (H1 & H2 & H3 & H4 & H5 & H6 & H7 & H8)%loadFuncTable_Returns
        & _).
  apply loadFuncTable_Returns.
  split_and!; [by apply (old_array _ _ _ Hload)..|done].
Qed.

Lemma stepB_by_reference σ libIndex a st σ' :
  keeps σ0 s σ → ByReference.strings σ s = Returns (Thread.stringTable old) →
  ByReference.stepB thread libIndex a σ = Returns (st, σ') →
  ∃ b, stepB old libIndex a = Returns b ∧ denotesB σ0 s σ' st b.
Proof.
  intros Hkept Hstrings. unfold ByReference.stepB, stepB.
  pose proof (stringTable_lt _ _ _ Hload) as Hs.
  pose proof Hkept as [Hlen _].
  pose proof (old_nativeSymbols _ Hkept) as Hns.
  intros (nativeSymbols & σ1 & Hclone & Hfold)%bindM_Returns.
  apply (shallowCloneNativeSymbolTable_by_reference _ _ _ _ _ Hns) in Hclone
      as [-> ->].
  revert Hfold.
  apply (foldlM_by_reference_invariant _
           (λ pre st σ2,
              ∃ b, foldlM (canonicalizeSymbol libIndex)
                     {| StepB.stringTable := Thread.stringTable old;
                        StepB.availableNativeSymbolIterator :=
                          StepA.availableNativeSymbols a;
                        StepB.nativeSymbols :=
                          shallowCloneNativeSymbolTable
                            (Thread.nativeSymbols old);
                        StepB.symbolAddressToCanonicalSymbolIndexMap :=
                          StepA.symbolAddressToCanonicalSymbolIndexMap a |}
                     pre = Returns b
                   ∧ denotesB σ0 s σ2 st b)).
  - eexists. split; [done|]. unfold denotesB. simpl.
    split_and!; try done; try lia.
    + by apply keeps_app.
    + rewrite strings_app_l by lia. done.
    + apply loadNativeSymbols_Returns. simpl.
      unfold shallowCloneNativeSymbolTable.
      split_and!; [by apply array_allocated_0|by apply array_allocated..|done].
  - intros pre entry post st0 σ2 st1 σ3 _ (b & Hpre & Hden) Hstep.
    destruct (canonicalizeSymbol_by_reference _ _ _ Hload _ _ _ _ _ _ _
                Hden Hstep) as (b' & Hb' & Hden' & _).
    exists b'. split; [|done]. rewrite foldlM_app, Hpre. simpl.
    by rewrite Hb'.
Qed.

Lemma assignNativeSymbols_by_reference σ canonical entries column σ' :
  keeps σ0 s σ →
  ByReference.assignNativeSymbols canonical
    (ByReference.FrameTableObject.nativeSymbol (ByReference.ThreadObject.frameTable thread))
    entries σ = Returns (column, σ') →
  ∃ newColumn,
    assignNativeSymbols canonical
      (FrameTable.nativeSymbol (Thread.frameTable old)) entries
    = Returns newColumn
    ∧ column = length σ
    ∧ ByReference.array σ' column = Returns newColumn
    ∧ length σ' = S (length σ)
    ∧ ∀ r, r < length σ → σ' !! r = σ !! r.
Proof.
  intros Hkept.
  pose proof (load_by_reference_Returns _ _ _ Hload)
    as ((_ & _ & Hsymbol & _) & _).
  apply (old_array _ _ _ Hload _ _ _ Hkept) in Hsymbol.
  unfold ByReference.assignNativeSymbols, assignNativeSymbols.
  intros (c & σ1 & Hslice & Hrest)%bindM_Returns.
  sliced Hslice Hsymbol.
  apply bindM_Returns in Hrest as (u & σ2 & Hfold & [-> ->]%retM_Returns).
  cut (∃ newColumn,
         foldlM (assignNativeSymbol canonical)
           (FrameTable.nativeSymbol (Thread.frameTable old)) entries
         = Returns newColumn
         ∧ ByReference.array σ2 (length σ) = Returns newColumn
         ∧ only [length σ]
             (σ ++ [ByReference.inject
                      (FrameTable.nativeSymbol (Thread.frameTable old))]) σ2).
  { intros (newColumn & Hpure & Harray & Hlen & Honly).
    exists newColumn. split_and!; [done..| |].
    - rewrite Hlen, length_app. simpl. lia.
    - intros r Hr. rewrite Honly by (rewrite not_elem_of_cons, elem_of_nil; lia).
      by rewrite lookup_app_l. }
  revert Hfold.
  apply (foldlM_by_reference_invariant _
           (λ pre (_ : unit) σ2,
              ∃ newColumn,
                foldlM (assignNativeSymbol canonical)
                  (FrameTable.nativeSymbol (Thread.frameTable old)) pre
                = Returns newColumn
                ∧ ByReference.array σ2 (length σ) = Returns newColumn
                ∧ only [length σ]
                    (σ ++ [ByReference.inject
                             (FrameTable.nativeSymbol
                                (Thread.frameTable old))]) σ2)).
  - eexists. split; [done|]. split; [|apply only_refl].
    apply array_app_r.
  - intros pre [f symbolAddress] post u0 σ3 u1 σ4 _
      (newColumn & Hpre & Harray & Honly).
    unfold ByReference.assignNativeSymbol.
    destruct (JsMap.get canonical symbolAddress) as [symbolIndex|] eqn:Hget;
      [|done].
    intros Hwrite.
    apply (writeAt_only _ _ _ _ _ _ _ Harray) in Hwrite
        as (newColumn' & Hwrite & Harray' & Honly').
    exists newColumn'. rewrite foldlM_app, Hpre. simpl. rewrite Hget.
    rewrite Hwrite. simpl. split_and!; [done..|]. by eapply only_trans.
Qed.

Lemma stepC_by_reference σ info results nativeSymbols newNativeSymbols column
  newColumn table st σ' :
  keeps σ0 s σ → ByReference.strings σ s = Returns table →
  (length σ0 ≤ ByReference.NativeSymbolsObject.libIndex nativeSymbols)%nat →
  ByReference.NativeSymbolsObject.libIndex nativeSymbols
  < ByReference.NativeSymbolsObject.address nativeSymbols →
  ByReference.NativeSymbolsObject.address nativeSymbols
  < ByReference.NativeSymbolsObject.name nativeSymbols →
  ByReference.NativeSymbolsObject.name nativeSymbols < column →
  ByReference.loadNativeSymbols σ nativeSymbols = Returns newNativeSymbols →
  ByReference.array σ column = Returns newColumn →
  ByReference.stepC thread info results nativeSymbols column σ = Returns (st, σ') →
  ∃ c,
    stepC old info results table newNativeSymbols newColumn = Returns c
    ∧ denotesC σ0 s nativeSymbols newNativeSymbols column newColumn σ' st c.
Proof.
  intros Hkept Hstrings Ho0 Ho1 Ho2 Ho3 Hns Hcolumn.
  pose proof (stringTable_lt _ _ _ Hload) as Hs.
  pose proof Hkept as [Hlen _].
  pose proof (array_lt _ _ _ Hcolumn) as Hcolumn_lt.
  pose proof (old_funcTable _ Hkept) as Hft.
  pose proof (load_by_reference_Returns _ _ _ Hload)
    as ((_ & Hfunc & _ & Hline & _) & _).
  apply (old_array _ _ _ Hload _ _ _ Hkept) in Hfunc, Hline.
  unfold ByReference.stepC, stepC.
  intros (funcTable & σ1 & Hclone & Hrest)%bindM_Returns.
  apply (shallowCloneFuncTable_by_reference _ _ _ _ _ Hft) in Hclone
      as [-> ->].
  apply bindM_Returns in Hrest as (funcColumn & σ2 & Hslice1 & Hrest).
  sliced Hslice1 Hfunc.
  apply bindM_Returns in Hrest as (lineColumn & σ3 & Hslice2 & Hfold).
  sliced Hslice2 Hline.
  revert Hfold. rewrite <-!app_assoc. simpl.
  set (news :=
         [ByReference.inject (FuncTable.isJS (Thread.funcTable old));
          ByReference.inject (FuncTable.relevantForJS (Thread.funcTable old));
          ByReference.inject (FuncTable.name (Thread.funcTable old));
          ByReference.inject (FuncTable.resource (Thread.funcTable old));
          ByReference.inject (FuncTable.fileName (Thread.funcTable old));
          ByReference.inject (FuncTable.lineNumber (Thread.funcTable old));
          ByReference.inject (FuncTable.columnNumber (Thread.funcTable old));
          ByReference.inject (FrameTable.func (Thread.frameTable old));
          ByReference.inject (FrameTable.line (Thread.frameTable old))]).
  rewrite !length_app. simpl.
  replace (length σ + 7 + 1) with (length σ + 8) by lia.
  apply (foldlM_by_reference_invariant _
           (λ pre st σ2,
              ∃ c, foldlM (canonicalizeFunc (Thread.frameTable old) results
                             newNativeSymbols newColumn
                             (ThreadLibSymbolicationInfo.resourceIndex info))
                     {| StepC.stringTable := table;
                        StepC.availableFuncIter :=
                          JsSet.of_list
                            (ThreadLibSymbolicationInfo.allFuncsForThisLib
                               info);
                        StepC.funcTable :=
                          shallowCloneFuncTable (Thread.funcTable old);
                        StepC.funcKeyToFuncMap := [];
                        StepC.oldFuncToNewFuncEntries := [];
                        StepC.newFrameTableFuncColumn :=
                          FrameTable.func (Thread.frameTable old);
                        StepC.newFrameTableLineColumn :=
                          FrameTable.line (Thread.frameTable old);
                        StepC.resolved := [] |}
                     pre = Returns c
                   ∧ denotesC σ0 s nativeSymbols newNativeSymbols column
                       newColumn σ2 st c)).
  - eexists. split; [done|]. unfold denotesC. simpl.
    apply loadNativeSymbols_Returns in Hns as (Hn1 & Hn2 & Hn3 & Hn4).
    split_and!; try done; try lia.
    + by apply keeps_app.
    + rewrite strings_app_l by lia. done.
    + apply loadNativeSymbols_Returns.
      rewrite !array_app_l by lia. done.
    + rewrite array_app_l by lia. done.
    + apply loadFuncTable_Returns. simpl. unfold shallowCloneFuncTable.
      split_and!;
        first [by apply array_allocated_0|by apply array_allocated|done].
    + by apply array_allocated.
    + by apply array_allocated.
  - intros pre f post st0 σ4 st1 σ5 _ (c & Hpre & Hden) Hstep.
    destruct (canonicalizeFunc_by_reference _ _ _ Hload _ _ _ _ _ _ _ _ _ _
                _ _ Hden Hstep) as (c' & Hc' & Hden').
    exists c'. split; [|done]. rewrite foldlM_app, Hpre. simpl.
    by rewrite Hc'.
Qed.

End by_reference_step.

Lemma below_keeps σ0 s σ σ' :
  (length σ ≤ length σ')%nat → (∀ r, r < length σ → σ' !! r = σ !! r) →
  keeps σ0 s σ → keeps σ0 s σ'.
Proof.
  intros Hlen Hbelow [Hle Hkept]. split; [lia|].
  intros r Hr Hne. rewrite Hbelow by lia. by apply Hkept.
Qed.

Lemma below_array {A : Type} `{ByReference.Element A} σ σ' r :
  (∀ r, r < length σ → σ' !! r = σ !! r) → r < length σ →
  ByReference.array (A:=A) σ' r = ByReference.array σ r.
Proof. intros Hbelow Hr. unfold ByReference.array. by rewrite Hbelow. Qed.

Lemma below_strings σ σ' r :
  (∀ r, r < length σ → σ' !! r = σ !! r) → r < length σ →
  ByReference.strings σ' r = ByReference.strings σ r.
Proof. intros Hbelow Hr. unfold ByReference.strings. by rewrite Hbelow. Qed.

(** C6.  A step changes no array of the store it is given: all it does
    to that store is append to the string table.  The returned thread
    holds newly allocated arrays for the frame table's [func],
    [nativeSymbol] and [line] columns and for every column of the func
    table and of the native-symbol table; its other frame-table columns,
    its libs and its resource table are those of the input thread; its
    string table is the input thread's string table object, whose old
    indices keep their strings.  The objects returned stand for the thread
    that the step computes on table values. *)
Theorem applySymbolicationStep_shares
  (σ : list ByReference.object) (thread : ByReference.ThreadObject.t) (old : Thread.t)
  (symbolicationStepInfo : SymbolicationStepInfo.t)
  (oldFuncToNewFuncMap : list (nat * nat))
  (thread' : ByReference.ThreadObject.t)
  (oldFuncToNewFuncMap' : list (nat * nat)) (σ' : list ByReference.object) :
  let stringTable := ByReference.ThreadObject.stringTable thread in
  let frameTable := ByReference.ThreadObject.frameTable thread in
  let frameTable' := ByReference.ThreadObject.frameTable thread' in
  ByReference.load σ thread = Returns old →
  ByReference.applySymbolicationStep thread symbolicationStepInfo
    oldFuncToNewFuncMap σ
  = Returns (thread', oldFuncToNewFuncMap', σ') →
  (∀ r o, σ !! r = Some o → r ≠ stringTable → σ' !! r = Some o)
  ∧ ByReference.ThreadObject.stringTable thread' = stringTable
  ∧ (∃ appended,
       σ' !! stringTable
       = Some (ByReference.Strings (Thread.stringTable old ++ appended)))
  ∧ NoDup (touchedColumns thread')
  ∧ (∀ r, r ∈ touchedColumns thread' → length σ ≤ r < length σ')
  ∧ ByReference.FrameTableObject.address frameTable'
    = ByReference.FrameTableObject.address frameTable
  ∧ ByReference.FrameTableObject.innerWindowID frameTable'
    = ByReference.FrameTableObject.innerWindowID frameTable
  ∧ ByReference.FrameTableObject.length frameTable'
    = ByReference.FrameTableObject.length frameTable
  ∧ ByReference.ThreadObject.libs thread' = ByReference.ThreadObject.libs thread
  ∧ ByReference.ThreadObject.resourceTable thread'
    = ByReference.ThreadObject.resourceTable thread
  ∧ ∃ new,
      applySymbolicationStep old symbolicationStepInfo oldFuncToNewFuncMap
      = Returns (new, oldFuncToNewFuncMap')
      ∧ ByReference.load σ' thread' = Returns new.
Proof.
  cbv zeta. intros Hload.
  pose proof (load_by_reference_Returns _ _ _ Hload)
    as ((Haddress & _ & _ & _ & Hinner & Hlength) & _ & _ & Hstrings & Hlibs
        & Hresources).
  pose proof (keeps_refl σ (ByReference.ThreadObject.stringTable thread)) as Hkept.
  pose proof (stringTable_lt _ _ _ Hload) as Hs.
  unfold ByReference.applySymbolicationStep.
  intros (a & σ1 & Ha & Hrest)%bindM_Returns.
  apply (stepA_by_reference _ _ _ Hload _ _ _ _ _ Hkept Hstrings) in Ha
      as [-> Ha].
  apply bindM_Returns in Hrest as (st & σ2 & Hb & Hrest).
  apply (stepB_by_reference _ _ _ Hload _ _ _ _ _ Hkept Hstrings) in Hb
      as (b & Hb & Hkept2 & Hstrings2 & (Ho0 & Ho1 & Ho2) & Hns & _
          & Hcanonical).
  apply bindM_Returns in Hrest as (column & σ3 & Hassign & Hrest).
  apply (assignNativeSymbols_by_reference _ _ _ Hload _ _ _ _ _ Hkept2)
    in Hassign as (newColumn & Hassign & -> & Hcolumn & Hlen3 & Hbelow).
  pose proof Hns as (Hn1 & Hn2 & Hn3 & Hn4)%loadNativeSymbols_Returns.
  pose proof (array_lt _ _ _ Hn1) as Hlt1.
  pose proof (array_lt _ _ _ Hn2) as Hlt2.
  pose proof (array_lt _ _ _ Hn3) as Hlt3.
  pose proof Hkept2 as [Hlen2 _].
  apply bindM_Returns in Hrest as (stc & σ4 & Hc & [[= -> ->] ->]%retM_Returns).
  assert (keeps σ (ByReference.ThreadObject.stringTable thread) σ3) as Hkept3
    by (apply (below_keeps _ _ σ2); [lia|done|done]).
  assert (ByReference.strings σ3 (ByReference.ThreadObject.stringTable thread)
          = Returns (StepB.stringTable b)) as Hstrings3
    by (rewrite (below_strings σ2) by (done || lia); done).
  assert (ByReference.loadNativeSymbols σ3 (ByReference.StepBObject.nativeSymbols st)
          = Returns (StepB.nativeSymbols b)) as Hns3.
  { apply loadNativeSymbols_Returns.
    rewrite !(below_array σ2 σ3) by (exact Hbelow || lia). done. }
  apply (stepC_by_reference _ _ _ Hload _ _ _ _ _ _ _ _ _ _ Hkept3 Hstrings3
           Ho0 Ho1 Ho2 Hlt3 Hns3 Hcolumn) in Hc
      as (c & Hc
          & (Hkept4 & Hstrings4
             & (_ & _ & _ & Ho3 & Ho4 & Ho5 & Ho6 & Ho7 & Ho8 & Ho9 & Ho10
                & Ho11 & Ho12)
             & Hns4 & Hcolumn4 & Hft4 & Hfc4 & Hlc4 & _ & _ & Hentries)).
  pose proof (array_lt _ _ _ Hlc4) as Hlast.
  pose proof Hkept4 as [Hlen4 Hold4].
  simpl.
  assert (runSymbolicationStep old symbolicationStepInfo oldFuncToNewFuncMap
          = Returns
              {| Run.thread :=
                   {| Thread.libs := Thread.libs old;
                      Thread.frameTable :=
                        {| FrameTable.length :=
                             FrameTable.length (Thread.frameTable old);
                           FrameTable.address :=
                             FrameTable.address (Thread.frameTable old);
                           FrameTable.func := StepC.newFrameTableFuncColumn c;
                           FrameTable.nativeSymbol := newColumn;
                           FrameTable.line := StepC.newFrameTableLineColumn c;
                           FrameTable.innerWindowID :=
                             FrameTable.innerWindowID
                               (Thread.frameTable old) |};
                      Thread.funcTable := StepC.funcTable c;
                      Thread.nativeSymbols := StepB.nativeSymbols b;
                      Thread.resourceTable := Thread.resourceTable old;
                      Thread.stringTable := StepC.stringTable c |};
                 Run.oldFuncToNewFuncMap :=
                   foldl (λ map '(oldFunc, newFunc),
                            JsMap.set map oldFunc newFunc)
                     oldFuncToNewFuncMap
                     (makeConsensusMap (StepC.oldFuncToNewFuncEntries c));
                 Run.stepA := a;
                 Run.stepB := b;
                 Run.stepC := c;
                 Run.oldFuncToNewFuncMapForThisLib :=
                   makeConsensusMap (StepC.oldFuncToNewFuncEntries c) |})
    as Hrun.
  { unfold runSymbolicationStep. rewrite Ha. simpl. rewrite Hb. simpl.
    rewrite <-Hcanonical, Hassign. simpl. by rewrite Hc. }
  split_and!.
  - intros r o Hr Hne. rewrite Hold4; [done| |done].
    by eapply lookup_lt_Some.
  - done.
  - destruct (runSymbolicationStep_stringTable_extends _ _ _ _ Hrun)
      as [appended Happended].
    simpl in Happended. exists appended. rewrite <-Happended.
    by apply strings_Returns.
  - unfold touchedColumns. simpl.
    repeat (apply NoDup_cons; split;
            [rewrite ?elem_of_cons, elem_of_nil; lia|]).
    apply NoDup_nil_2.
  - unfold touchedColumns. simpl. intros r.
    rewrite ?elem_of_cons, elem_of_nil. lia.
  - done.
  - done.
  - done.
  - done.
  - done.
  - eexists. split.
    { unfold applySymbolicationStep. rewrite Hrun. simpl.
      by rewrite Hentries. }
    apply load_by_reference_intro; simpl; try done.
    + by apply (old_array _ _ _ Hload).
    + by apply (old_array _ _ _ Hload).
Qed.

Lemma applySymbolicationStep_shares_witness :
  exampleAfter.2 !! 1 = Some (ByReference.Indices [0; 1; 2; 3; 4])
  ∧ ByReference.ThreadObject.stringTable exampleAfter.1.1 = 15
  ∧ NoDup (touchedColumns exampleAfter.1.1)
  ∧ ∃ new,
      applySymbolicationStep Example.thread
        (Example.stepOf Example.thread Example.completeSymbolTable) []
      = Returns (new, exampleAfter.1.2)
      ∧ ByReference.load exampleAfter.2 exampleAfter.1.1 = Returns new.
Proof.
  assert (ByReference.load exampleStore exampleThreadObject = Returns Example.thread)
    as Hload by (vm_compute; reflexivity).
  assert (ByReference.applySymbolicationStep exampleThreadObject
            (Example.stepOf Example.thread Example.completeSymbolTable) []
            exampleStore
          = Returns (exampleAfter.1.1, exampleAfter.1.2, exampleAfter.2))
    as Hrun by (vm_compute; reflexivity).
  destruct (applySymbolicationStep_shares _ _ _ _ _ _ _ _ Hload Hrun)
    as (Hkept & Hst & _ & Hnew & _ & _ & _ & _ & _ & _ & Hvalue).
  split; [apply Hkept; [reflexivity|discriminate]|].
  split; [exact Hst|]. split; [exact Hnew|exact Hvalue].
Defined.

(** ** Func keys *)

Lemma pretty_N_go_no_colon x s :
  contains ":" s = false → contains ":" (pretty_N_go x s) = false.
Proof.
  revert s. induction (N.lt_wf_0 x) as [x _ IH]; intros s Hs.
  assert (x = 0 ∨ 0 < x)%N as [->|Hx] by lia.
  - by rewrite pretty_N_go_0.
  - rewrite pretty_N_go_step by done. apply IH.
    + by apply N.div_lt.
    + simpl. rewrite decide_False; [done|].
      unfold pretty_N_char. by repeat case_match.
Qed.

Lemma pretty_N_go_length x s :
  (String.length s ≤ String.length (pretty_N_go x s))%nat.
Proof.
  revert s. induction (N.lt_wf_0 x) as [x _ IH]; intros s.
  assert (x = 0 ∨ 0 < x)%N as [->|Hx] by lia.
  - by rewrite pretty_N_go_0.
  - rewrite pretty_N_go_step by done.
    etrans; [|apply IH; by apply N.div_lt]. simpl. lia.
Qed.

Lemma pretty_nat_no_colon (n : nat) : contains ":" (pretty n) = false.
Proof.
  unfold pretty, pretty_nat, pretty, pretty_N.
  destruct (decide _); [done|]. by apply pretty_N_go_no_colon.
Qed.

Lemma pretty_nat_nonempty (n : nat) : pretty n ≠ "".
Proof.
  unfold pretty, pretty_nat, pretty, pretty_N.
  destruct (decide _) as [|Hn]; [done|].
  rewrite pretty_N_go_step by lia. intros Hempty.
  pose proof (pretty_N_go_length (N.of_nat n `div` 10)
                (String (pretty_N_char (N.of_nat n `mod` 10)) "")) as Hlen.
  rewrite Hempty in Hlen. simpl in Hlen. lia.
Qed.

Lemma append_separator_inj c s1 s2 t1 t2 :
  contains c s1 = false → contains c s2 = false →
  s1 +:+ String c t1 = s2 +:+ String c t2 → s1 = s2 ∧ t1 = t2.
Proof.
  revert s2. induction s1 as [|a s1 IH]; intros [|b s2]; simpl.
  - by intros _ _ [= ->].
  - destruct (decide (b = c)); [done|]. intros _ _ [= <-]. done.
  - destruct (decide (a = c)); [done|]. intros _ _ [= ->]. done.
  - destruct (decide (a = c)); [done|]. destruct (decide (b = c)); [done|].
    intros H1 H2 [= -> Heq]. destruct (IH s2 H1 H2 Heq) as [-> ->]. done.
Qed.

Lemma funcKey_unfold nameIndex fileIndex :
  funcKey nameIndex fileIndex
  = pretty nameIndex
    +:+ String ":" (match fileIndex with
                    | Some index => pretty index
                    | None => ""
                    end).
Proof. reflexivity. Qed.

Lemma funcKey_inj n1 f1 n2 f2 :
  funcKey n1 f1 = funcKey n2 f2 → n1 = n2 ∧ f1 = f2.
Proof.
  rewrite !funcKey_unfold.
  intros [Hn Hf]%append_separator_inj; try apply pretty_nat_no_colon.
  split; [by apply (inj pretty)|].
  destruct f1 as [i1|], f2 as [i2|]; try done.
  - f_equal. by apply (inj pretty).
  - by apply pretty_nat_nonempty in Hf.
  - symmetry in Hf. by apply pretty_nat_nonempty in Hf.
Qed.

(** ** Interning *)

Lemma lookupIndex_Some stringTable s index :
  lookupIndex stringTable s = Some index → stringTable !! index = Some s.
Proof.
  unfold lookupIndex. destruct (list_find _ _) as [[i x]|] eqn:Hfind; [|done].
  intros [= <-]. apply list_find_Some in Hfind as (Hi & -> & _). done.
Qed.

Lemma lookupIndex_inj stringTable s1 s2 index :
  lookupIndex stringTable s1 = Some index →
  lookupIndex stringTable s2 = Some index → s1 = s2.
Proof. intros H1%lookupIndex_Some H2%lookupIndex_Some. congruence. Qed.

Lemma lookupIndex_extends stringTable stringTable' s index :
  stringTable `prefix_of` stringTable' →
  lookupIndex stringTable s = Some index →
  lookupIndex stringTable' s = Some index.
Proof.
  intros [ext ->]. unfold lookupIndex.
  destruct (list_find _ stringTable) as [[i x]|] eqn:Hfind; [|done].
  intros [= <-]. by erewrite list_find_app_l.
Qed.

Lemma indexForString_lookupIndex s stringTable index stringTable' :
  indexForString s stringTable = (index, stringTable') →
  lookupIndex stringTable' s = Some index.
Proof.
  unfold indexForString, lookupIndex.
  destruct (list_find _ stringTable) as [[i x]|] eqn:Hfind.
  - intros [= <- <-]. by rewrite Hfind.
  - intros [= <- <-]. rewrite list_find_app_r by done. simpl.
    rewrite decide_True by done. done.
Qed.

Lemma indexForString_known s stringTable index :
  lookupIndex stringTable s = Some index →
  indexForString s stringTable = (index, stringTable).
Proof.
  unfold indexForString, lookupIndex.
  destruct (list_find _ stringTable) as [[i x]|]; [|done]. by intros [= <-].
Qed.

Lemma keyIn_extends stringTable stringTable' r key :
  stringTable `prefix_of` stringTable' →
  keyIn stringTable r = Some key → keyIn stringTable' r = Some key.
Proof.
  intros Hext. unfold keyIn.
  destruct (lookupIndex stringTable (AddressResult.name r)) as [ni|] eqn:Hn;
    [|done]. simpl.
  rewrite (lookupIndex_extends _ _ _ _ Hext Hn). simpl.
  destruct (AddressResult.file r) as [file|]; [|done].
  destruct (lookupIndex stringTable file) as [fi|] eqn:Hf; [|done]. simpl.
  by rewrite (lookupIndex_extends _ _ _ _ Hext Hf).
Qed.

Lemma keyIn_inj stringTable r1 r2 key :
  keyIn stringTable r1 = Some key → keyIn stringTable r2 = Some key →
  AddressResult.name r1 = AddressResult.name r2
  ∧ AddressResult.file r1 = AddressResult.file r2.
Proof.
  unfold keyIn.
  destruct (lookupIndex stringTable (AddressResult.name r1)) as [n1|] eqn:Hn1;
    [|done].
  destruct (lookupIndex stringTable (AddressResult.name r2)) as [n2|] eqn:Hn2;
    [|done]. simpl.
  destruct (AddressResult.file r1) as [file1|],
    (AddressResult.file r2) as [file2|]; simpl.
  - destruct (lookupIndex stringTable file1) as [i1|] eqn:Hf1; [|done].
    destruct (lookupIndex stringTable file2) as [i2|] eqn:Hf2; [|done].
    simpl. intros [= <-] [= [-> [= ->]]%funcKey_inj].
    split; [by eapply lookupIndex_inj|]. f_equal. by eapply lookupIndex_inj.
  - destruct (lookupIndex stringTable file1) as [i1|]; [|done]. simpl.
    by intros [= <-] [= [_ ?]%funcKey_inj].
  - destruct (lookupIndex stringTable file2) as [i2|]; [|done]. simpl.
    by intros [= <-] [= [_ ?]%funcKey_inj].
  - intros [= <-] [= [-> _]%funcKey_inj].
    split; [by eapply lookupIndex_inj|done].
Qed.

Lemma indexForOptionalString_lookupIndex file stringTable index stringTable' :
  indexForOptionalString file stringTable = (index, stringTable') →
  match file with
  | Some file => Some <$> lookupIndex stringTable' file
  | None => Some None
  end = Some index.
Proof.
  unfold indexForOptionalString. destruct file as [file|].
  - destruct (indexForString file stringTable) as [i st] eqn:Hidx.
    intros [= <- <-]. by rewrite (indexForString_lookupIndex _ _ _ _ Hidx).
  - by intros [= <- _].
Qed.

(** ** Third loop: invariants of the func assignment *)

Lemma addFunc_Returns funcTable resourceIndex n funcTable' :
  addFunc funcTable resourceIndex = Returns (n, funcTable') →
  n = FuncTable.length funcTable
  ∧ FuncTable.length funcTable' = S n
  ∧ FuncTable.name funcTable' = FuncTable.name funcTable
  ∧ FuncTable.fileName funcTable' = FuncTable.fileName funcTable
  ∧ FuncTable.resource funcTable' !! n = Some (Z.of_nat resourceIndex)
  ∧ ∀ j, j ≠ n →
         FuncTable.resource funcTable' !! j = FuncTable.resource funcTable !! j.
Proof.
  unfold addFunc.
  intros (isJS & _ & Hrest)%bind_Returns.
  apply bind_Returns in Hrest as (relevantForJS & _ & Hrest).
  apply bind_Returns in Hrest
      as (resource & (Hn & Hother & _)%write_Returns & Hrest).
  apply bind_Returns in Hrest as (lineNumber & _ & Hrest).
  apply bind_Returns in Hrest as (columnNumber & _ & [= <- <-]).
  simpl. by split_and!.
Qed.

Lemma nameFunc_Returns funcTable n nameIndex fileIndex funcTable' :
  nameFunc funcTable n nameIndex fileIndex = Returns funcTable' →
  FuncTable.length funcTable' = FuncTable.length funcTable
  ∧ FuncTable.resource funcTable' = FuncTable.resource funcTable
  ∧ FuncTable.name funcTable' !! n = Some nameIndex
  ∧ FuncTable.fileName funcTable' !! n = Some fileIndex
  ∧ ∀ j, j ≠ n →
         FuncTable.name funcTable' !! j = FuncTable.name funcTable !! j
         ∧ FuncTable.fileName funcTable' !! j
           = FuncTable.fileName funcTable !! j.
Proof.
  unfold nameFunc.
  intros (name & (Hn & Hn_other & _)%write_Returns & Hrest)%bind_Returns.
  apply bind_Returns in Hrest
      as (fileName & (Hf & Hf_other & _)%write_Returns & [= <-]).
  simpl. split_and!; try done. intros j Hj. split; auto.
Qed.

Lemma nameFunc_same funcTable n nameIndex fileIndex :
  FuncTable.name funcTable !! n = Some nameIndex →
  FuncTable.fileName funcTable !! n = Some fileIndex →
  nameFunc funcTable n nameIndex fileIndex = Returns funcTable.
Proof.
  intros Hn Hf. unfold nameFunc.
  rewrite (write_same _ _ _ Hn). simpl. rewrite (write_same _ _ _ Hf). simpl.
  by destruct funcTable.
Qed.

Lemma canonicalizeFunc_keyIn oldFrameTable results nativeSymbols column
  resourceIndex c f c' r nameIndex stringTable fileIndex :
  indexForString (AddressResult.name r) (StepC.stringTable c)
  = (nameIndex, stringTable) →
  indexForOptionalString (AddressResult.file r) stringTable
  = (fileIndex, StepC.stringTable c') →
  canonicalizeFunc oldFrameTable results nativeSymbols column resourceIndex
    c f = Returns c' →
  StepC.stringTable c `prefix_of` StepC.stringTable c'
  ∧ keyIn (StepC.stringTable c') r = Some (funcKey nameIndex fileIndex).
Proof.
  intros Hname Hfile _.
  pose proof (indexForString_extends _ _ _ _ Hname) as Hext1.
  pose proof (indexForOptionalString_extends _ _ _ _ Hfile) as Hext2.
  split; [by etrans|]. unfold keyIn.
  rewrite (lookupIndex_extends _ _ _ _ Hext2
             (indexForString_lookupIndex _ _ _ _ Hname)). simpl.
  by rewrite (indexForOptionalString_lookupIndex _ _ _ _ Hfile).
Qed.

Lemma stepC_invariant_step oldFrameTable results nativeSymbols column
  resourceIndex available length0 visited c f c' :
  NoDup available → (∀ n, n ∈ available → n < length0) → f ∉ visited →
  stepC_invariant available length0 visited c →
  canonicalizeFunc oldFrameTable results nativeSymbols column resourceIndex
    c f = Returns c' →
  stepC_invariant available length0 (visited ++ [f]) c'.
Proof.
  intros Hav_nd Hav_lt Hf_new
    (Hres & Hk_nd & Hv_nd & (used & Hused & Hvals) & Hlen & Hiter & Hframes
     & Hrows) Hstep.
  pose proof Hstep as (oldFunc & r & ni & st1 & fi & n & ft1 & _ & _ & Hname
    & Hfile & Hget' & Hcases & Hwf & _ & _ & Hresolved)
      %canonicalizeFunc_Returns.
  destruct (canonicalizeFunc_keyIn _ _ _ _ _ _ _ _ _ _ _ _ Hname Hfile Hstep)
    as [Hext Hkey].
  apply write_Returns in Hwf as (Hcol_f & Hcol_other & _).
  assert (∀ f' r', (f', r') ∈ StepC.resolved c → f' ≠ f) as Hvisited.
  { intros f' r' Hin ->. apply Hf_new. rewrite <-Hres.
    apply list_elem_of_fmap. by exists (f, r'). }
  assert (∀ f' r',
            (f', r') ∈ StepC.resolved c' →
            (∀ key n', JsMap.get (StepC.funcKeyToFuncMap c) key = Some n' →
                       JsMap.get (StepC.funcKeyToFuncMap c') key = Some n') →
            ∃ key n',
              keyIn (StepC.stringTable c') r' = Some key
              ∧ JsMap.get (StepC.funcKeyToFuncMap c') key = Some n'
              ∧ StepC.newFrameTableFuncColumn c' !! f' = Some n') as Hframes'.
  { intros f' r'. rewrite Hresolved.
    intros [Hin|[= -> ->]%list_elem_of_singleton]%elem_of_app Hmono.
    - destruct (Hframes f' r' Hin) as (key & n' & Hk & Hg & Hc).
      exists key, n'. split_and!.
      + by eapply keyIn_extends.
      + by apply Hmono.
      + rewrite Hcol_other; [done|]. by eapply Hvisited.
    - by exists (funcKey ni fi), n. }
  unfold stepC_invariant.
  destruct Hcases as [(Hget & Hit & Hft & Hmap)|(Hget & Hmap & Hnext & Hnamed)].
  { rewrite Hit, Hft, Hmap. split_and!; try done.
    - by rewrite Hresolved, fmap_app, Hres.
    - by exists used.
    - intros f' r' Hin. rewrite <-Hmap. apply Hframes'; [done|].
      by rewrite Hmap. }
  apply nameFunc_Returns in Hnamed
      as (Hlen' & _ & Hrow_name & Hrow_file & Hrow_other).
  assert ((n ∉ (StepC.funcKeyToFuncMap c).*2)
          ∧ (length0 ≤ FuncTable.length ft1)%nat
          ∧ FuncTable.name ft1 = FuncTable.name (StepC.funcTable c)
          ∧ FuncTable.fileName ft1 = FuncTable.fileName (StepC.funcTable c)
          ∧ ∃ used',
              available = used' ++ StepC.availableFuncIter c'
              ∧ (∀ n', n' = n ∨ n' ∈ (StepC.funcKeyToFuncMap c).*2
                       ↔ n' ∈ used'
                         ∨ (length0 ≤ n' < FuncTable.length ft1)%nat)
              ∧ (StepC.availableFuncIter c' ≠ [] →
                 FuncTable.length ft1 = length0))
    as (Hn_new & Hlen1 & Hname1 & Hfile1 & used' & Hused' & Hvals' & Hiter').
  { destruct Hnext as [[Hit ->]|(Hit & Hit' & Hadd)].
    - assert (FuncTable.length (StepC.funcTable c) = length0) as Hlen0.
      { apply Hiter. by rewrite Hit. }
      rewrite Hit in Hused.
      assert (n ∉ used) as Hn_used.
      { rewrite Hused in Hav_nd. apply NoDup_app in Hav_nd as (_ & Hd & _).
        intros Hn. apply (Hd n Hn). left. }
      assert (n < length0) as Hn_lt.
      { apply Hav_lt. rewrite Hused, elem_of_app. right. left. }
      split_and!; try done.
      + rewrite Hvals. intros [?|?]; [done|lia].
      + exists (used ++ [n]). split_and!.
        * by rewrite <-app_assoc.
        * intros n'. rewrite Hvals, elem_of_app, list_elem_of_singleton.
          tauto.
        * done.
    - apply addFunc_Returns in Hadd as (-> & Hlen1 & Hn1 & Hf1 & _).
      rewrite Hit, app_nil_r in Hused. subst used.
      split_and!; try done.
      + rewrite Hvals. intros [Hn%Hav_lt|?]; lia.
      + lia.
      + exists available. rewrite Hit', app_nil_r. split_and!; [done| |done].
        intros n'. rewrite Hvals, Hlen1. split.
        -- intros [->|[?|?]]; [right|by left|right]; lia.
        -- intros [?|?]; [right; by left|].
           destruct (decide (n' = FuncTable.length (StepC.funcTable c)));
             [by left|right; right; lia]. }
  assert (JsMap.has (StepC.funcKeyToFuncMap c) (funcKey ni fi) = false)
    as Hhas by by apply jsmap_has_false.
  assert (∀ key n', JsMap.get (StepC.funcKeyToFuncMap c) key = Some n' →
                    JsMap.get (StepC.funcKeyToFuncMap c') key = Some n'
                    ∧ n' ≠ n) as Hmono.
  { intros key n' Hg. rewrite Hmap.
    rewrite jsmap_get_set_ne by congruence. split; [done|].
    intros ->. by apply Hn_new, (jsmap_get_elem_of_values _ key). }
  rewrite Hmap. split_and!.
  - by rewrite Hresolved, fmap_app, Hres.
  - by apply jsmap_NoDup_set.
  - rewrite jsmap_set_new, fmap_app by done. simpl.
    apply NoDup_app. split_and!; [done| |apply NoDup_singleton].
    by intros n' Hn' ->%list_elem_of_singleton.
  - exists used'. split; [done|]. intros n'.
    rewrite jsmap_set_new, fmap_app, elem_of_app by done. simpl.
    rewrite list_elem_of_singleton, Hlen', <-Hvals'. tauto.
  - lia.
  - intros Hne. rewrite Hlen'. by apply Hiter'.
  - rewrite <-Hmap. intros f' r' Hin. apply Hframes'; [done|].
    intros key n' Hg. by apply Hmono.
  - intros key n'. rewrite jsmap_get_set.
    destruct (decide (funcKey ni fi = key)) as [<-|Hne].
    + intros [= <-]. by exists ni, fi.
    + intros Hg. destruct (Hmono key n' Hg) as [_ Hn'].
      destruct (Hrows key n' Hg) as (ni' & fi' & -> & Hni & Hfi).
      exists ni', fi'. destruct (Hrow_other n' Hn') as [-> ->].
      by rewrite Hname1, Hfile1.
Qed.

Lemma jsmap_values_inj {K V : Type} `{EqDecision K} (m : list (K * V))
  k1 k2 v :
  NoDup m.*2 → JsMap.get m k1 = Some v → JsMap.get m k2 = Some v → k1 = k2.
Proof.
  induction m as [|[k0 v0] m IH]; csimpl; [done|].
  rewrite NoDup_cons. intros [Hv0 Hnd].
  destruct (decide (k0 = k1)) as [E1|Hne1], (decide (k0 = k2)) as [E2|Hne2].
  - congruence.
  - intros [= ->] Hget%jsmap_get_elem_of_values. done.
  - intros Hget%jsmap_get_elem_of_values [= ->]. done.
  - by apply IH.
Qed.

Lemma stepC_spec thread info results stringTable nativeSymbols column c :
  NoDup (ThreadLibSymbolicationInfo.allFramesForThisLib info) →
  (∀ n, n ∈ ThreadLibSymbolicationInfo.allFuncsForThisLib info →
        n < FuncTable.length (Thread.funcTable thread)) →
  stepC thread info results stringTable nativeSymbols column = Returns c →
  stepC_invariant
    (JsSet.of_list (ThreadLibSymbolicationInfo.allFuncsForThisLib info))
    (FuncTable.length (Thread.funcTable thread))
    (ThreadLibSymbolicationInfo.allFramesForThisLib info) c.
Proof.
  intros Hnd Hlt. unfold stepC.
  destruct (jsset_of_list_spec
              (ThreadLibSymbolicationInfo.allFuncsForThisLib info))
    as [Hav_nd Hav_in].
  apply (foldlM_invariant _ (stepC_invariant _ _)).
  - unfold stepC_invariant, shallowCloneFuncTable. simpl.
    split_and!; try done; try apply NoDup_nil_2.
    + exists []. split; [done|]. intros n. rewrite elem_of_nil. lia.
    + by intros f r ?%elem_of_nil.
  - intros pre f post c0 c1 Heq. apply stepC_invariant_step; [done|..].
    + intros n Hn%Hav_in. by apply Hlt.
    + rewrite Heq in Hnd. apply NoDup_app in Hnd as (_ & Hd & _).
      intros Hf. apply (Hd f Hf). left.
Qed.

(** ** The address collector: what a library's record holds *)

Lemma increasing_cons n l :
  increasing (n :: l) ↔ (∀ m, m ∈ l → n < m) ∧ increasing l.
Proof.
  unfold increasing. split.
  - intros Hinc. split.
    + intros m [j Hj]%list_elem_of_lookup.
      apply (Hinc 0 (S j)); [done|done|lia].
    + intros i j m k Hi Hj Hij. apply (Hinc (S i) (S j)); [done|done|lia].
  - intros [Hhead Htail] [|i] [|j] m k Hi Hj Hij; simpl in *; try lia.
    + injection Hi as <-. apply Hhead. by eapply list_elem_of_lookup_2.
    + apply (Htail i j); [done|done|lia].
Qed.

Lemma increasing_NoDup l : increasing l → NoDup l.
Proof.
  induction l as [|n l IH]; [constructor|].
  intros [Hhead Htail]%increasing_cons. constructor; [|by apply IH].
  intros Hn%Hhead. lia.
Qed.

Lemma increasing_filter_seq (P : nat → Prop) `{∀ n, Decision (P n)}
  start len :
  increasing (filter P (seq start len)).
Proof.
  revert start. induction len as [|len IH]; intros start; simpl.
  - by intros i j m n ?.
  - rewrite filter_cons. destruct (decide (P start)); [|apply IH].
    apply increasing_cons. split; [|apply IH].
    intros n [_ [Hn _]%elem_of_seq]%list_elem_of_filter. lia.
Qed.

Lemma collectFrames_spec frameTable funcTable resourceIndex frames addresses :
  collectFrames frameTable funcTable resourceIndex
  = Returns (frames, addresses) →
  frames = filter (frameIsInResource frameTable funcTable resourceIndex)
             (seq 0 (FrameTable.length frameTable))
  ∧ Forall2 (λ f a, FrameTable.address frameTable !! f = Some a)
      frames addresses.
Proof.
  unfold collectFrames. intros Hfold.
  apply (foldlM_invariant _
           (λ pre st,
              st.1 = filter (frameIsInResource frameTable funcTable
                               resourceIndex) pre
              ∧ Forall2 (λ f a, FrameTable.address frameTable !! f = Some a)
                  st.1 st.2)) in Hfold; [done|by split|].
  intros pre f post [fs as_] st' _ [Hfs Hall]. simpl in *.
  rewrite filter_app, filter_cons, filter_nil.
  destruct (decide _) as [Hin|Hout].
  - intros (a & Ha%read_Returns & [= <-])%bind_Returns. simpl.
    split; [by rewrite Hfs|]. apply Forall2_app; [done|]. by constructor.
  - intros [= <-]. simpl. by rewrite app_nil_r.
Qed.

(** X1.  The record the collector builds for a library resource lists the
    frames of the table whose func belongs to the resource, each once and
    in increasing order, with their addresses alongside; its funcs are the
    rows of the func table that belong to the resource and its native
    symbols the rows of the native-symbol table that belong to the lib,
    both in increasing order. *)
Theorem collectLib_spec (thread : Thread.t) (resourceIndex : nat)
  (libIndex : Z) (info : ThreadLibSymbolicationInfo.t) :
  let frameTable := Thread.frameTable thread in
  let funcTable := Thread.funcTable thread in
  let nativeSymbols := Thread.nativeSymbols thread in
  let frames := ThreadLibSymbolicationInfo.allFramesForThisLib info in
  let funcs := ThreadLibSymbolicationInfo.allFuncsForThisLib info in
  let symbols := ThreadLibSymbolicationInfo.allNativeSymbolsForThisLib info in
  collectLib thread resourceIndex libIndex = Returns info →
  ThreadLibSymbolicationInfo.resourceIndex info = resourceIndex
  ∧ ThreadLibSymbolicationInfo.libIndex info = libIndex
  ∧ increasing frames ∧ NoDup frames
  ∧ (∀ f, f ∈ frames
          ↔ f < FrameTable.length frameTable
            ∧ frameIsInResource frameTable funcTable resourceIndex f)
  ∧ Forall2 (λ f a, FrameTable.address frameTable !! f = Some a)
      frames (ThreadLibSymbolicationInfo.frameAddresses info)
  ∧ increasing funcs ∧ NoDup funcs
  ∧ (∀ n, n ∈ funcs
          ↔ n < FuncTable.length funcTable
            ∧ FuncTable.resource funcTable !! n
              = Some (Z.of_nat resourceIndex))
  ∧ increasing symbols ∧ NoDup symbols
  ∧ ∀ s, s ∈ symbols
         ↔ s < NativeSymbolTable.length nativeSymbols
           ∧ NativeSymbolTable.libIndex nativeSymbols !! s = Some libIndex.
Proof.
  intros frameTable funcTable nativeSymbols frames funcs symbols.
  unfold collectLib.
  intros ([fs as_] & [Hfs Hall]%collectFrames_spec & [= <-])%bind_Returns.
  subst frames funcs symbols. simpl.
  assert (∀ (P : nat → Prop) `{∀ n, Decision (P n)} len n,
            n ∈ filter P (seq 0 len) ↔ n < len ∧ P n) as Hfilter.
  { intros P ? len n. rewrite list_elem_of_filter, elem_of_seq. naive_solver lia. }
  split_and!; try done.
  - rewrite Hfs. apply increasing_filter_seq.
  - rewrite Hfs. apply increasing_NoDup, increasing_filter_seq.
  - intros f. rewrite Hfs. apply Hfilter.
  - apply increasing_filter_seq.
  - apply increasing_NoDup, increasing_filter_seq.
  - intros n. apply Hfilter.
  - apply increasing_filter_seq.
  - apply increasing_NoDup, increasing_filter_seq.
  - intros n. apply Hfilter.
Qed.

Lemma collectLib_spec_witness :
  ∃ info,
    collectLib Example.thread 0 0 = Returns info
    ∧ ThreadLibSymbolicationInfo.allFramesForThisLib info = [0; 1; 2; 3; 4]
    ∧ NoDup (ThreadLibSymbolicationInfo.allFramesForThisLib info)
    ∧ Forall2 (λ f a,
                 FrameTable.address (Thread.frameTable Example.thread) !! f
                 = Some a)
        (ThreadLibSymbolicationInfo.allFramesForThisLib info)
        (ThreadLibSymbolicationInfo.frameAddresses info).
Proof.
  exists (Example.infoOf Example.thread).
  assert (collectLib Example.thread 0 0
          = Returns (Example.infoOf Example.thread)) as Hinfo
    by (vm_compute; reflexivity).
  destruct (collectLib_spec Example.thread 0 0
              (Example.infoOf Example.thread) Hinfo)
    as (_ & _ & _ & Hnd & _ & Hall & _).
  split; [exact Hinfo|]. split; [vm_compute; reflexivity|].
  split; [exact Hnd|exact Hall].
Defined.

Lemma collectResource_Returns thread map resourceIndex map' :
  collectResource thread map resourceIndex = Returns map' →
  (map' = map ∧ ∀ key info, ¬ libraryRow thread resourceIndex key info)
  ∨ ∃ key info, libraryRow thread resourceIndex key info
                ∧ map' = JsMap.set map key info.
Proof.
  unfold collectResource, libraryRow.
  destruct (decide _) as [Htype|Htype];
    [|intros [= <-]; left; split; [done|naive_solver]].
  destruct (ResourceTable.lib _ !! resourceIndex) as [[libIndex|]|] eqn:Hlib;
    [|intros [= <-]; left; split; [done|naive_solver]..].
  destruct (decide (libIndex = (-1)%Z)) as [->|Hne];
    [intros [= <-]; left; split; [done|naive_solver]|].
  destruct (lookupZ (Thread.libs thread) libIndex) as [lib|] eqn:Hlookup;
    [|done].
  intros (info & Hinfo & [= <-])%bind_Returns.
  right. exists (libKey lib), info. split; [|done].
  by exists libIndex, lib.
Qed.

Lemma libraryRow_functional thread resourceIndex key info key' info' :
  libraryRow thread resourceIndex key info →
  libraryRow thread resourceIndex key' info' →
  key' = key ∧ info' = info.
Proof.
  intros (l1 & lib1 & _ & Hl1 & _ & Hlib1 & -> & Hinfo1)
    (l2 & lib2 & _ & Hl2 & _ & Hlib2 & -> & Hinfo2).
  assert (l2 = l1) as -> by congruence.
  assert (lib2 = lib1) as -> by congruence.
  split; [done|congruence].
Qed.

(** X2.  When the collector returns, its map has each key once, and the
    record under a key is the one built for the last resource row that is
    a library with that key: a later row of the same library key replaces
    the record of an earlier one. *)
Theorem getThreadSymbolicationInfo_last_row (thread : Thread.t)
  (map : list (string * ThreadLibSymbolicationInfo.t)) :
  getThreadSymbolicationInfo thread = Returns map →
  NoDup map.*1
  ∧ ∀ key info,
      JsMap.get map key = Some info
      ↔ ∃ resourceIndex,
          resourceIndex < ResourceTable.length (Thread.resourceTable thread)
          ∧ libraryRow thread resourceIndex key info
          ∧ ∀ later info',
              resourceIndex < later
              < ResourceTable.length (Thread.resourceTable thread) →
              ¬ libraryRow thread later key info'.
Proof.
  unfold getThreadSymbolicationInfo. intros Hfold.
  apply (foldlM_invariant _
           (λ pre m,
              NoDup m.*1
              ∧ ∀ key info,
                  JsMap.get m key = Some info
                  ↔ ∃ r, r < length pre
                         ∧ libraryRow thread r key info
                         ∧ ∀ later info',
                             r < later < length pre →
                             ¬ libraryRow thread later key info'))
    in Hfold.
  - destruct Hfold as [Hnd Hget]. split; [done|].
    intros key info. rewrite Hget, length_seq. done.
  - split; [constructor|]. intros key info. simpl. split; [done|].
    intros (r & Hr & _). lia.
  - intros pre r post m m' Hseq [Hnd Hget] Hstep.
    assert (r = length pre) as ->.
    { assert (seq 0 (ResourceTable.length (Thread.resourceTable thread))
              !! length pre = Some r) as Hr.
      { rewrite Hseq. by rewrite list_lookup_middle. }
      apply lookup_seq in Hr as [-> _]. done. }
    rewrite length_app. simpl.
    apply collectResource_Returns in Hstep
        as [[-> Hnone]|(k & i & Hrow & ->)].
    + split; [done|]. intros key info. rewrite Hget. split.
      * intros (r & Hr & Hrow & Hlast). exists r.
        split; [lia|]. split; [done|].
        intros later info' Hlater.
        destruct (decide (later = length pre)) as [->|]; [apply Hnone|].
        apply Hlast. lia.
      * intros (r & Hr & Hrow & Hlast).
        destruct (decide (r = length pre)) as [->|]; [by apply Hnone in Hrow|].
        exists r. split; [lia|]. split; [done|].
        intros later info' Hlater. apply Hlast. lia.
    + split; [by apply jsmap_NoDup_set|]. intros key info.
      destruct (decide (key = k)) as [->|Hne].
      * rewrite jsmap_get_set_eq. split.
        -- intros [= <-]. exists (length pre). split; [lia|].
           split; [done|]. intros later info' Hlater. lia.
        -- intros (r & Hr & Hrow' & Hlast).
           destruct (decide (r = length pre)) as [->|].
           ++ by destruct (libraryRow_functional _ _ _ _ _ _ Hrow Hrow')
                as [_ ->].
           ++ exfalso. apply (Hlast (length pre) i); [lia|done].
      * rewrite jsmap_get_set_ne by done. rewrite Hget. split.
        -- intros (r & Hr & Hrow' & Hlast). exists r.
           split; [lia|]. split; [done|].
           intros later info' Hlater Hrow''.
           destruct (decide (later = length pre)) as [->|].
           ++ by destruct (libraryRow_functional _ _ _ _ _ _ Hrow Hrow'').
           ++ apply (Hlast later info'); [lia|done].
        -- intros (r & Hr & Hrow' & Hlast).
           destruct (decide (r = length pre)) as [->|].
           ++ by destruct (libraryRow_functional _ _ _ _ _ _ Hrow Hrow').
           ++ exists r. split; [lia|]. split; [done|].
              intros later info' Hlater. apply Hlast. lia.
Qed.

Lemma getThreadSymbolicationInfo_last_row_witness :
  ∃ map info,
    getThreadSymbolicationInfo twoRowThread = Returns map
    ∧ map.*1 = [libKey Example.lib]
    ∧ JsMap.get map (libKey Example.lib) = Some info
    ∧ ThreadLibSymbolicationInfo.resourceIndex info = 1
    ∧ ThreadLibSymbolicationInfo.allFramesForThisLib info = [3; 4]
    ∧ NoDup map.*1.
Proof.
  destruct (getThreadSymbolicationInfo twoRowThread) as [map| |] eqn:Hmap;
    [|exfalso; vm_compute in Hmap; discriminate..].
  assert (∃ info,
            JsMap.get map (libKey Example.lib) = Some info
            ∧ map.*1 = [libKey Example.lib]
            ∧ ThreadLibSymbolicationInfo.resourceIndex info = 1
            ∧ ThreadLibSymbolicationInfo.allFramesForThisLib info = [3; 4])
    as (info & Hget & Hkeys & Hr & Hframes).
  { vm_compute in Hmap. injection Hmap as <-. eexists.
    split; [vm_compute; reflexivity|]. split; [vm_compute; reflexivity|].
    split; reflexivity. }
  exists map, info.
  destruct (getThreadSymbolicationInfo_last_row twoRowThread map Hmap)
    as [Hnd _].
  split; [reflexivity|]. split; [exact Hkeys|]. split; [exact Hget|].
  split; [exact Hr|]. split; [exact Hframes|exact Hnd].
Defined.

(** ** What a step can throw *)

Lemma foldlM_Throws {A B : Type} (f : A → B → completion A) a l error :
  foldlM f a l = Throws error →
  ∃ pre b post a0,
    l = pre ++ b :: post
    ∧ foldlM f a pre = Returns a0
    ∧ f a0 b = Throws error.
Proof.
  revert a. induction l as [|b l IH]; intros a; simpl; [done|].
  destruct (f a b) as [a'| |] eqn:Hf; simpl; [|intros [= <-]|done].
  - intros (pre & b' & post & a0 & -> & Hpre & Hb')%IH.
    exists (b :: pre), b', post, a0. split; [done|]. simpl.
    rewrite Hf. done.
  - by exists [], b, l, a.
Qed.

Lemma bind_Throws {A B : Type} (m : completion A) (f : A → completion B)
  error :
  m ≫= f = Throws error
  ↔ m = Throws error ∨ ∃ a, m = Returns a ∧ f a = Throws error.
Proof.
  destruct m as [a| |]; simpl.
  - split; [intros Hf; right; by exists a|].
    by intros [[=]|(? & [= ->] & ?)].
  - split; [intros [= ->]; by left|]. by intros [[= ->]|(? & [=] & _)].
  - split; [done|]. by intros [[=]|(? & [=] & _)].
Qed.

Lemma read_not_Throws {A : Type} (column : list A) i error :
  read column i ≠ Throws error.
Proof. unfold read. by destruct (column !! i). Qed.

Lemma write_not_Throws {A : Type} (column : list A) i a error :
  write column i a ≠ Throws error.
Proof. unfold write. by repeat destruct (decide _). Qed.

Lemma getString_Throws stringTable index error :
  getString stringTable index = Throws error →
  error = notInStringTable index ∧ (length stringTable ≤ index)%nat.
Proof.
  unfold getString. destruct (stringTable !! index) eqn:Hi; [done|].
  intros [= <-]. split; [done|]. by apply lookup_ge_None.
Qed.

Lemma resolveFrame_Throws thread results f error :
  resolveFrame thread results f = Throws error →
  ∃ s index,
    FrameTable.nativeSymbol (Thread.frameTable thread) !! f = Some (Some s)
    ∧ NativeSymbolTable.name (Thread.nativeSymbols thread) !! s = Some index
    ∧ (length (Thread.stringTable thread) ≤ index)%nat
    ∧ error = notInStringTable index.
Proof.
  unfold resolveFrame, read.
  destruct (FrameTable.nativeSymbol _ !! f) as [old|] eqn:Hold; [|done].
  simpl. destruct (FrameTable.address _ !! f) as [address|]; [|done].
  simpl. destruct (results !! address); [done|].
  destruct old as [s|]; [|done].
  destruct (NativeSymbolTable.name _ !! s) as [index|] eqn:Hname; [|done].
  simpl. destruct (getString _ index) as [name| |] eqn:Hget; simpl;
    [by destruct (NativeSymbolTable.address _ !! s)| |done].
  intros [= <-]. apply getString_Throws in Hget as [-> Hlen].
  by exists s, index.
Qed.

Lemma resolveSymbolAddress_Throws thread results a f error :
  resolveSymbolAddress thread results a f = Throws error →
  resolveFrame thread results f = Throws error.
Proof.
  unfold resolveSymbolAddress.
  destruct (resolveFrame thread results f) as [[old r]| |]; simpl;
    [|by intros [= ->]|done].
  destruct old as [s|]; [|done].
  destruct (negb _); [|done]. by destruct (JsSet.has _ _).
Qed.

Lemma addNativeSymbol_not_Throws nativeSymbols libIndex error :
  addNativeSymbol nativeSymbols libIndex ≠ Throws error.
Proof.
  unfold addNativeSymbol. intros [Hw|(? & _ & [=])]%bind_Throws.
  by apply write_not_Throws in Hw.
Qed.

Lemma canonicalizeSymbol_not_Throws libIndex b entry error :
  canonicalizeSymbol libIndex b entry ≠ Throws error.
Proof.
  unfold canonicalizeSymbol. destruct entry as [symbolAddress symbolName].
  destruct (indexForString _ _) as [symbolStringIndex stringTable].
  intros [Hchoice|([[[s it] ns] can] & _ & Hrest)]%bind_Throws.
  - destruct (JsMap.get _ _); [done|].
    apply bind_Throws in Hchoice as [Hit|([[s it] ns] & _ & [=])].
    destruct (StepB.availableNativeSymbolIterator b); [|done].
    apply bind_Throws in Hit as [Hadd|([s ns] & _ & [=])].
    by apply addNativeSymbol_not_Throws in Hadd.
  - apply bind_Throws in Hrest as [Hw|(? & _ & Hrest)];
      [by apply write_not_Throws in Hw|].
    apply bind_Throws in Hrest as [Hw|(? & _ & [=])].
    by apply write_not_Throws in Hw.
Qed.

Lemma stepB_not_Throws thread libIndex a error :
  stepB thread libIndex a ≠ Throws error.
Proof.
  unfold stepB. intros (_ & entry & _ & b & _ & _ & Hf)%foldlM_Throws.
  by apply canonicalizeSymbol_not_Throws in Hf.
Qed.

Lemma assignNativeSymbols_not_Throws canonical column
  frameToSymbolAddressMap error :
  frameToSymbolAddressMap.*2 ⊆ canonical.*1 →
  assignNativeSymbols canonical column frameToSymbolAddressMap
  ≠ Throws error.
Proof.
  intros Hsub (pre & [f symbolAddress] & post & col & -> & _ & Hf)%foldlM_Throws.
  unfold assignNativeSymbol in Hf.
  destruct (JsMap.get canonical symbolAddress) eqn:Hget;
    [by apply write_not_Throws in Hf|].
  apply jsmap_get_None in Hget. apply Hget, Hsub.
  rewrite fmap_app, fmap_cons. simpl. apply elem_of_app. right. left.
Qed.

Lemma funcAddressResult_Throws oldFrameTable results nativeSymbols column
  stringTable funcTable f oldFunc error :
  funcAddressResult oldFrameTable results nativeSymbols column stringTable
    funcTable f oldFunc = Throws error →
  (column !! f = Some None
   ∧ error = Error "Impossible, all frames now have native symbols.")
  ∨ ∃ index, (length stringTable ≤ index)%nat
             ∧ error = notInStringTable index.
Proof.
  unfold funcAddressResult, read.
  destruct (column !! f) as [[s|]|]; simpl; [|intros [= <-]; by left|done].
  destruct (FrameTable.address _ !! f) as [address|]; [|done].
  simpl. destruct (results !! address); [done|].
  destruct (NativeSymbolTable.name _ !! s) as [nameIndex|]; [|done].
  simpl. destruct (FuncTable.fileName _ !! oldFunc) as [fileIndex|]; [|done].
  simpl. destruct (NativeSymbolTable.address _ !! s); [|done].
  simpl. destruct (getString _ nameIndex) as [name| |] eqn:Hname; simpl;
    [|intros [= <-]; apply getString_Throws in Hname as [-> ?];
      right; by eexists|done].
  destruct fileIndex as [fileIndex|]; simpl.
  - destruct (getString _ fileIndex) as [file| |] eqn:Hfile; simpl;
      [by destruct (FrameTable.line _ !! f)
      |intros [= <-]; apply getString_Throws in Hfile as [-> ?];
       right; by eexists|done].
  - by destruct (FrameTable.line _ !! f).
Qed.

Lemma addFunc_not_Throws funcTable resourceIndex error :
  addFunc funcTable resourceIndex ≠ Throws error.
Proof.
  unfold addFunc. intros H.
  repeat (apply bind_Throws in H as [H|(? & _ & H)];
          [by apply write_not_Throws in H|]).
  done.
Qed.

Lemma nameFunc_not_Throws funcTable n nameIndex fileIndex error :
  nameFunc funcTable n nameIndex fileIndex ≠ Throws error.
Proof.
  unfold nameFunc. intros H.
  repeat (apply bind_Throws in H as [H|(? & _ & H)];
          [by apply write_not_Throws in H|]).
  done.
Qed.

Lemma canonicalizeFunc_Throws oldFrameTable results nativeSymbols column
  resourceIndex c f error :
  canonicalizeFunc oldFrameTable results nativeSymbols column resourceIndex
    c f = Throws error →
  (column !! f = Some None
   ∧ error = Error "Impossible, all frames now have native symbols.")
  ∨ ∃ index, (length (StepC.stringTable c) ≤ index)%nat
             ∧ error = notInStringTable index.
Proof.
  unfold canonicalizeFunc.
  intros [Hr|(oldFunc & _ & H)]%bind_Throws;
    [by apply read_not_Throws in Hr|].
  apply bind_Throws in H as [H|(r & _ & H)];
    [by eapply funcAddressResult_Throws|].
  destruct (indexForString _ _) as [nameIndex stringTable].
  destruct (indexForOptionalString _ _) as [fileIndex stringTable'].
  exfalso.
  apply bind_Throws in H as [H|([[[n it] ft] keys] & _ & H)].
  - destruct (JsMap.get _ _); [done|].
    apply bind_Throws in H as [H|([[n it] ft] & _ & H)].
    + destruct (StepC.availableFuncIter c); [|done].
      apply bind_Throws in H as [H|([n ft] & _ & [=])].
      by apply addFunc_not_Throws in H.
    + apply bind_Throws in H as [H|(? & _ & [=])].
      by apply nameFunc_not_Throws in H.
  - apply bind_Throws in H as [H|(? & _ & H)];
      [by apply write_not_Throws in H|].
    apply bind_Throws in H as [H|(? & _ & [=])].
    by apply write_not_Throws in H.
Qed.

Lemma stepA_values_covered thread info results a libIndex b :
  stepA thread info results = Returns a →
  stepB thread libIndex a = Returns b →
  (StepA.frameToSymbolAddressMap a).*2
  ⊆ (StepB.symbolAddressToCanonicalSymbolIndexMap b).*1.
Proof.
  intros (Hf_nd & _ & _ & _ & Hn_keys & _)%stepA_spec Hb symbolAddress.
  intros ([f sa] & -> & Hin)%list_elem_of_fmap. simpl.
  apply (stepB_covers _ _ _ _ Hb), Hn_keys. exists f.
  by apply jsmap_elem_get.
Qed.

Lemma lib_frames_have_symbols thread info results a canonical column :
  stepA thread info results = Returns a →
  assignNativeSymbols canonical
    (FrameTable.nativeSymbol (Thread.frameTable thread))
    (StepA.frameToSymbolAddressMap a) = Returns column →
  ∀ f, f ∈ ThreadLibSymbolicationInfo.allFramesForThisLib info →
       ∃ s : nat, column !! f = Some (Some s).
Proof.
  intros (Hf_nd & Hf_keys & Hf_res & _)%stepA_spec Hcol.
  apply assignNativeSymbols_spec in Hcol as (_ & Hcol & _); [|done|].
  - intros f (sa & Hsa)%Hf_keys%jsmap_get_is_Some.
    destruct (Hcol f _ Hsa) as (s & _ & Hs). by exists s.
  - intros f (sa & Hsa)%jsmap_get_is_Some.
    destruct (Hf_res f sa Hsa) as (old & r & Hres & _).
    apply resolveFrame_in_range in Hres as [Hres _].
    by eapply lookup_lt_Some.
Qed.

Lemma canonicalizeFunc_fold_stringTable oldFrameTable results nativeSymbols
  column resourceIndex c frames c' :
  foldlM (canonicalizeFunc oldFrameTable results nativeSymbols column
            resourceIndex) c frames = Returns c' →
  StepC.stringTable c `prefix_of` StepC.stringTable c'.
Proof.
  apply (foldlM_invariant _
           (λ _ c0, StepC.stringTable c `prefix_of` StepC.stringTable c0));
    [done|].
  intros pre f post c0 c1 _ IH
    (oldFunc & r & ni & st & fi & n & ft & _ & _
     & Hname%indexForString_extends & Hfile%indexForOptionalString_extends
     & _)%canonicalizeFunc_Returns.
  etrans; [done|]. by etrans.
Qed.

(** X3.  As long as every array read of a run finds an element (the
    runs this embedding follows; any other run is [OutOfType] here, and
    in the source goes on with [undefined]), a step throws nothing but
    what the string table throws for an index it does not hold: neither
    of the two errors the source calls impossible is thrown. *)
Theorem applySymbolicationStep_throws (thread : Thread.t)
  (symbolicationStepInfo : SymbolicationStepInfo.t)
  (oldFuncToNewFuncMap : list (nat * nat)) (error : JsError) :
  applySymbolicationStep thread symbolicationStepInfo oldFuncToNewFuncMap
  = Throws error →
  (∃ index, error = notInStringTable index
            ∧ (length (Thread.stringTable thread) ≤ index)%nat)
  ∧ error ≠ Error "Impossible, all symbolAddresses have a canonical symbol at this point."
  ∧ error ≠ Error "Impossible, all frames now have native symbols.".
Proof.
  intros Hthrows.
  cut (∃ index, error = notInStringTable index
                ∧ (length (Thread.stringTable thread) ≤ index)%nat).
  { intros (index & -> & Hlen). split; [by exists index|]. by split. }
  unfold applySymbolicationStep in Hthrows.
  apply bind_Throws in Hthrows as [Hrun|(? & _ & [=])].
  unfold runSymbolicationStep in Hrun.
  apply bind_Throws in Hrun as [Ha|(a & Ha & Hrun)].
  { apply foldlM_Throws in Ha as (_ & f & _ & a0 & _ & _ & Hf).
    apply resolveSymbolAddress_Throws, resolveFrame_Throws in Hf
        as (s & index & _ & _ & Hlen & ->).
    by exists index. }
  apply bind_Throws in Hrun as [Hb|(b & Hb & Hrun)];
    [by apply stepB_not_Throws in Hb|].
  apply bind_Throws in Hrun as [Hcol|(column & Hcol & Hrun)].
  { apply assignNativeSymbols_not_Throws in Hcol; [done|].
    by eapply stepA_values_covered. }
  apply bind_Throws in Hrun as [Hc|(? & _ & [=])].
  pose proof (lib_frames_have_symbols _ _ _ _ _ _ Ha Hcol) as Hsymbols.
  unfold stepC in Hc.
  pose proof Hc as (pre & f & post & c0 & Hframes & Hpre & Hf)%foldlM_Throws.
  apply canonicalizeFunc_Throws in Hf as [[Hnull _]|(index & Hlen & ->)].
  - destruct (Hsymbols f) as [s Hs]; [|congruence].
    rewrite Hframes. apply elem_of_app. right. left.
  - exists index. split; [done|].
    assert (Thread.stringTable thread `prefix_of` StepC.stringTable c0)
      as Hprefix; [|apply prefix_length in Hprefix; lia].
    trans (StepB.stringTable b); [by eapply stepB_stringTable_extends|].
    apply canonicalizeFunc_fold_stringTable in Hpre. exact Hpre.
Qed.

Lemma applySymbolicationStep_throws_witness :
  applySymbolicationStep brokenNameThread
    (Example.stepOf brokenNameThread Example.noSymbols) []
  = Throws (notInStringTable 99)
  ∧ (length (Thread.stringTable brokenNameThread) ≤ 99)%nat
  ∧ notInStringTable 99
    ≠ Error "Impossible, all frames now have native symbols.".
Proof.
  assert (applySymbolicationStep brokenNameThread
            (Example.stepOf brokenNameThread Example.noSymbols) []
          = Throws (notInStringTable 99)) as Hthrows
    by (vm_compute; reflexivity).
  destruct (applySymbolicationStep_throws _ _ _ _ Hthrows)
    as ((index & Hindex & Hlen) & _ & Himpossible).
  split; [exact Hthrows|]. split; [|exact Himpossible].
  vm_compute. lia.
Defined.

(** ** What a step leaves alone *)

Lemma stepC_columns thread info results stringTable nativeSymbols column c :
  stepC thread info results stringTable nativeSymbols column = Returns c →
  let frames := ThreadLibSymbolicationInfo.allFramesForThisLib info in
  let oldFrameTable := Thread.frameTable thread in
  length (StepC.newFrameTableFuncColumn c)
  = length (FrameTable.func oldFrameTable)
  ∧ ∀ f, f ∉ frames →
         StepC.newFrameTableFuncColumn c !! f
         = FrameTable.func oldFrameTable !! f
         ∧ StepC.newFrameTableLineColumn c !! f
           = FrameTable.line oldFrameTable !! f.
Proof.
  unfold stepC. intros Hfold. simpl.
  apply (foldlM_invariant _
           (λ visited c,
              length (StepC.newFrameTableFuncColumn c)
              = length (FrameTable.func (Thread.frameTable thread))
              ∧ ∀ f, f ∉ visited →
                     StepC.newFrameTableFuncColumn c !! f
                     = FrameTable.func (Thread.frameTable thread) !! f
                     ∧ StepC.newFrameTableLineColumn c !! f
                       = FrameTable.line (Thread.frameTable thread) !! f))
    in Hfold; [done|done|].
  intros pre f post c0 c1 _ [Hlen Hrest]
    (oldFunc & r & ni & st & fi & n & ft & Hold & _ & _ & _ & _ & _
     & Hfunc%write_Returns & Hline%write_Returns & _)%canonicalizeFunc_Returns.
  destruct Hfunc as (_ & Hfunc & _ & Hfunc_len).
  destruct Hline as (_ & Hline & _).
  split.
  - rewrite Hfunc_len; [done|]. rewrite Hlen. by eapply lookup_lt_Some.
  - intros g [Hg Hgf%not_elem_of_cons]%not_elem_of_app.
    destruct Hgf as [Hgf _]. rewrite Hfunc, Hline by done. by apply Hrest.
Qed.

(** X4.  A step changes the frame table only at the frames of the
    library: the table's length, its address and innerWindowID columns
    and the lengths of its func and nativeSymbol columns are those of the
    input, and every other frame keeps its func, its native symbol and its
    line.  The thread's libs and resource table are those of the input. *)
Theorem applySymbolicationStep_other_frames (thread : Thread.t)
  (symbolicationStepInfo : SymbolicationStepInfo.t)
  (oldFuncToNewFuncMap : list (nat * nat))
  (thread' : Thread.t) (oldFuncToNewFuncMap' : list (nat * nat)) :
  let frames :=
    ThreadLibSymbolicationInfo.allFramesForThisLib
      (SymbolicationStepInfo.threadLibSymbolicationInfo
         symbolicationStepInfo) in
  let frameTable := Thread.frameTable thread in
  let frameTable' := Thread.frameTable thread' in
  applySymbolicationStep thread symbolicationStepInfo oldFuncToNewFuncMap
  = Returns (thread', oldFuncToNewFuncMap') →
  FrameTable.length frameTable' = FrameTable.length frameTable
  ∧ FrameTable.address frameTable' = FrameTable.address frameTable
  ∧ FrameTable.innerWindowID frameTable'
    = FrameTable.innerWindowID frameTable
  ∧ length (FrameTable.func frameTable') = length (FrameTable.func frameTable)
  ∧ length (FrameTable.nativeSymbol frameTable')
    = length (FrameTable.nativeSymbol frameTable)
  ∧ (∀ f, f ∉ frames →
          FrameTable.func frameTable' !! f = FrameTable.func frameTable !! f
          ∧ FrameTable.nativeSymbol frameTable' !! f
            = FrameTable.nativeSymbol frameTable !! f
          ∧ FrameTable.line frameTable' !! f
            = FrameTable.line frameTable !! f)
  ∧ Thread.libs thread' = Thread.libs thread
  ∧ Thread.resourceTable thread' = Thread.resourceTable thread.
Proof.
  intros frames frameTable frameTable'. unfold applySymbolicationStep.
  intros (run & Hrun%runSymbolicationStep_Returns & [= <- <-])%bind_Returns.
  destruct Hrun as (Ha & _ & Hcol & Hc & Hfunc & Hline & Haddress & Hlength
                    & Hwindow & _ & _ & _ & Hresources & Hlibs & _).
  apply stepA_spec in Ha as (Hf_nd & Hf_keys & Hf_res & _).
  apply assignNativeSymbols_spec in Hcol as (Hcol_len & _ & Hcol); [|done|].
  2:{ intros f (sa & Hsa)%jsmap_get_is_Some.
      destruct (Hf_res f sa Hsa) as (old & r & Hres & _).
      apply resolveFrame_in_range in Hres as [Hres _].
      by eapply lookup_lt_Some. }
  apply stepC_columns in Hc as [Hc_len Hc].
  subst frameTable frameTable'. rewrite Hfunc, Hline.
  split_and!; try done.
  intros f Hf. destruct (Hc f Hf) as [-> ->]. split; [done|].
  split; [|done]. apply Hcol. by rewrite Hf_keys.
Qed.

Lemma applySymbolicationStep_other_frames_witness :
  ThreadLibSymbolicationInfo.allFramesForThisLib
    (Example.infoOf twoRowThread) = [0; 1; 2]
  ∧ FrameTable.length (Thread.frameTable twoRowAfter.1) = 5
  ∧ FrameTable.func (Thread.frameTable twoRowAfter.1) !! 3 = Some 3
  ∧ FrameTable.nativeSymbol (Thread.frameTable twoRowAfter.1) !! 3
    = Some None
  ∧ FrameTable.func (Thread.frameTable twoRowAfter.1) !! 4 = Some 4.
Proof.
  assert (applySymbolicationStep twoRowThread
            (Example.stepOf twoRowThread Example.completeSymbolTable) []
          = Returns (twoRowAfter.1, twoRowAfter.2)) as Hstep
    by (vm_compute; reflexivity).
  destruct (applySymbolicationStep_other_frames _ _ _ _ _ Hstep)
    as (Hlength & _ & _ & _ & _ & Hrest & _).
  split; [vm_compute; reflexivity|]. split; [exact Hlength|].
  destruct (Hrest 3) as (Hfunc3 & Hsymbol3 & _).
  { refine (bool_decide_unpack _ _). vm_compute. exact I. }
  destruct (Hrest 4) as (Hfunc4 & _).
  { refine (bool_decide_unpack _ _). vm_compute. exact I. }
  split; [exact Hfunc3|]. split; [exact Hsymbol3|exact Hfunc4].
Defined.

Lemma addFunc_rows funcTable resourceIndex n funcTable' :
  addFunc funcTable resourceIndex = Returns (n, funcTable') →
  n = FuncTable.length funcTable
  ∧ FuncTable.length funcTable' = S n
  ∧ (∀ j, funcRowName funcTable' j = funcRowName funcTable j)
  ∧ funcRowKind funcTable' n
    = (Some (Z.of_nat resourceIndex), Some false, Some false,
       Some None, Some None)
  ∧ ∀ j, j ≠ n → funcRowKind funcTable' j = funcRowKind funcTable j.
Proof.
  unfold addFunc.
  intros (c1 & (H1 & H1' & _)%write_Returns & H)%bind_Returns.
  apply bind_Returns in H as (c2 & (H2 & H2' & _)%write_Returns & H).
  apply bind_Returns in H as (c3 & (H3 & H3' & _)%write_Returns & H).
  apply bind_Returns in H as (c4 & (H4 & H4' & _)%write_Returns & H).
  apply bind_Returns in H as (c5 & (H5 & H5' & _)%write_Returns & [= <- <-]).
  unfold funcRowKind, funcRowName. simpl. split_and!; try done.
  - by rewrite H1, H2, H3, H4, H5.
  - intros j Hj. by rewrite H1', H2', H3', H4', H5'.
Qed.

Lemma nameFunc_rows funcTable n nameIndex fileIndex funcTable' :
  nameFunc funcTable n nameIndex fileIndex = Returns funcTable' →
  FuncTable.length funcTable' = FuncTable.length funcTable
  ∧ (∀ j, funcRowKind funcTable' j = funcRowKind funcTable j)
  ∧ funcRowName funcTable' n = (Some nameIndex, Some fileIndex)
  ∧ ∀ j, j ≠ n → funcRowName funcTable' j = funcRowName funcTable j.
Proof.
  unfold nameFunc.
  intros (c1 & (H1 & H1' & _)%write_Returns & H)%bind_Returns.
  apply bind_Returns in H as (c2 & (H2 & H2' & _)%write_Returns & [= <-]).
  unfold funcRowKind, funcRowName. simpl. split_and!; try done.
  - by rewrite H1, H2.
  - intros j Hj. by rewrite H1', H2'.
Qed.

Lemma stepC_rows thread info results stringTable nativeSymbols column c :
  stepC thread info results stringTable nativeSymbols column = Returns c →
  let funcTable := Thread.funcTable thread in
  let funcs := ThreadLibSymbolicationInfo.allFuncsForThisLib info in
  let resourceIndex := ThreadLibSymbolicationInfo.resourceIndex info in
  (FuncTable.length funcTable ≤ FuncTable.length (StepC.funcTable c))%nat
  ∧ (∀ n, n < FuncTable.length funcTable →
          funcRowKind (StepC.funcTable c) n = funcRowKind funcTable n)
  ∧ (∀ n, n < FuncTable.length funcTable → n ∉ funcs →
          funcRowName (StepC.funcTable c) n = funcRowName funcTable n)
  ∧ ∀ n, (FuncTable.length funcTable ≤ n
          < FuncTable.length (StepC.funcTable c))%nat →
         funcRowKind (StepC.funcTable c) n
         = (Some (Z.of_nat resourceIndex), Some false, Some false,
            Some None, Some None).
Proof.
  unfold stepC. intros Hfold. simpl.
  set (funcTable := Thread.funcTable thread) in *.
  set (funcs := ThreadLibSymbolicationInfo.allFuncsForThisLib info) in *.
  set (resourceIndex := ThreadLibSymbolicationInfo.resourceIndex info) in *.
  apply (foldlM_invariant _
           (λ (_ : list nat) c,
              (∀ n, n ∈ StepC.availableFuncIter c → n ∈ funcs)
              ∧ (FuncTable.length funcTable
                 ≤ FuncTable.length (StepC.funcTable c))%nat
              ∧ (∀ n, n < FuncTable.length funcTable →
                      funcRowKind (StepC.funcTable c) n
                      = funcRowKind funcTable n)
              ∧ (∀ n, n < FuncTable.length funcTable → n ∉ funcs →
                      funcRowName (StepC.funcTable c) n
                      = funcRowName funcTable n)
              ∧ ∀ n, (FuncTable.length funcTable ≤ n
                      < FuncTable.length (StepC.funcTable c))%nat →
                     funcRowKind (StepC.funcTable c) n
                     = (Some (Z.of_nat resourceIndex), Some false,
                        Some false, Some None, Some None)))
    in Hfold; [by destruct Hfold as (_ & ? & ? & ? & ?)| |].
  { unfold shallowCloneFuncTable. simpl. split_and!; try done.
    - intros n. apply (jsset_of_list_spec funcs).
    - intros n ?. lia. }
  intros pre f post c0 c1 _ (Hiter & Hlen & Hkind & Hname & Hnew)
    (oldFunc & r & ni & st & fi & n & ft & _ & _ & _ & _ & _ & Hcases & _)
    %canonicalizeFunc_Returns.
  destruct Hcases as [(_ & -> & -> & _)|(_ & _ & Hiter' & Hnamed)];
    [done|].
  apply nameFunc_rows in Hnamed as (Hlen1 & Hkind1 & _ & Hname1).
  destruct Hiter' as [[Hit ->]|(Hit & -> & Hadd)].
  - assert (n ∈ funcs) as Hn by (apply Hiter; rewrite Hit; left).
    split_and!.
    + intros m Hm. apply Hiter. rewrite Hit. by right.
    + lia.
    + intros m Hm. rewrite Hkind1. by apply Hkind.
    + intros m Hm Hout. rewrite Hname1 by congruence. by apply Hname.
    + intros m Hm. rewrite Hkind1. apply Hnew. lia.
  - apply addFunc_rows in Hadd as (-> & Hlen2 & Hname2 & Hkind2 & Hkind2').
    split_and!.
    + by intros m ?%elem_of_nil.
    + lia.
    + intros m Hm. rewrite Hkind1, Hkind2' by lia. by apply Hkind.
    + intros m Hm Hout. rewrite Hname1, Hname2 by lia. by apply Hname.
    + intros m Hm. rewrite Hkind1.
      destruct (decide (m = FuncTable.length (StepC.funcTable c0))) as [->|];
        [done|].
      rewrite Hkind2' by done. apply Hnew. lia.
Qed.

(** X5.  A step only adds to the func table.  Every row the table had
    keeps its resource, its JS flags and its line and column numbers; a
    row outside the library's funcs also keeps its name and file; and
    every row the step appends is a non-JS func of the library's resource
    without line or column number. *)
Theorem applySymbolicationStep_func_rows (thread : Thread.t)
  (symbolicationStepInfo : SymbolicationStepInfo.t)
  (oldFuncToNewFuncMap : list (nat * nat))
  (thread' : Thread.t) (oldFuncToNewFuncMap' : list (nat * nat)) :
  let info :=
    SymbolicationStepInfo.threadLibSymbolicationInfo symbolicationStepInfo in
  let funcs := ThreadLibSymbolicationInfo.allFuncsForThisLib info in
  let funcTable := Thread.funcTable thread in
  let funcTable' := Thread.funcTable thread' in
  applySymbolicationStep thread symbolicationStepInfo oldFuncToNewFuncMap
  = Returns (thread', oldFuncToNewFuncMap') →
  (FuncTable.length funcTable ≤ FuncTable.length funcTable')%nat
  ∧ (∀ n, n < FuncTable.length funcTable →
          funcRowKind funcTable' n = funcRowKind funcTable n)
  ∧ (∀ n, n < FuncTable.length funcTable → n ∉ funcs →
          funcRowName funcTable' n = funcRowName funcTable n)
  ∧ ∀ n, (FuncTable.length funcTable ≤ n < FuncTable.length funcTable')%nat →
         funcRowKind funcTable' n
         = (Some (Z.of_nat (ThreadLibSymbolicationInfo.resourceIndex info)),
            Some false, Some false, Some None, Some None).
Proof.
  intros info funcs funcTable funcTable'. unfold applySymbolicationStep.
  intros (run & Hrun%runSymbolicationStep_Returns & [= <- <-])%bind_Returns.
  destruct Hrun as (_ & _ & _ & Hc & _ & _ & _ & _ & _ & Htable & _).
  subst funcTable'. rewrite Htable. by apply stepC_rows in Hc.
Qed.

Lemma applySymbolicationStep_func_rows_witness :
  FuncTable.length (Thread.funcTable mergedThread) = 1
  ∧ FuncTable.length (Thread.funcTable mergedAfter.1) = 4
  ∧ funcRowKind (Thread.funcTable mergedAfter.1) 3
    = (Some 0%Z, Some false, Some false, Some None, Some None)
  ∧ funcRowKind (Thread.funcTable mergedAfter.1) 0
    = funcRowKind (Thread.funcTable mergedThread) 0
  ∧ funcRowName (Thread.funcTable twoRowAfter.1) 4
    = funcRowName (Thread.funcTable twoRowThread) 4.
Proof.
  assert (applySymbolicationStep mergedThread
            (Example.stepOf mergedThread Example.completeSymbolTable) []
          = Returns (mergedAfter.1, mergedAfter.2)) as Hmerged
    by (vm_compute; reflexivity).
  assert (applySymbolicationStep twoRowThread
            (Example.stepOf twoRowThread Example.completeSymbolTable) []
          = Returns (twoRowAfter.1, twoRowAfter.2)) as HtwoRow
    by (vm_compute; reflexivity).
  destruct (applySymbolicationStep_func_rows _ _ _ _ _ Hmerged)
    as (_ & Hkind & _ & Hnew).
  destruct (applySymbolicationStep_func_rows _ _ _ _ _ HtwoRow)
    as (_ & _ & Hname & _).
  split; [reflexivity|]. split; [reflexivity|].
  split; [apply (Hnew 3); vm_compute; lia|].
  split; [apply (Hkind 0); vm_compute; lia|].
  apply (Hname 4); [vm_compute; lia|].
  refine (bool_decide_unpack _ _). vm_compute. exact I.
Defined.

Lemma addNativeSymbol_rows nativeSymbols libIndex s nativeSymbols' :
  addNativeSymbol nativeSymbols libIndex = Returns (s, nativeSymbols') →
  s = NativeSymbolTable.length nativeSymbols
  ∧ NativeSymbolTable.length nativeSymbols' = S s
  ∧ NativeSymbolTable.address nativeSymbols'
    = NativeSymbolTable.address nativeSymbols
  ∧ NativeSymbolTable.name nativeSymbols'
    = NativeSymbolTable.name nativeSymbols
  ∧ symbolRowLib nativeSymbols' s = Some libIndex
  ∧ ∀ j, j ≠ s → symbolRowLib nativeSymbols' j = symbolRowLib nativeSymbols j.
Proof.
  unfold addNativeSymbol, symbolRowLib.
  intros (c & (H & H' & _)%write_Returns & [= <- <-])%bind_Returns.
  by simpl.
Qed.

Lemma canonicalizeSymbol_rows libIndex b symbolAddress symbolName b' :
  canonicalizeSymbol libIndex b (symbolAddress, symbolName) = Returns b' →
  ∃ s nativeSymbols symbolStringIndex,
    JsMap.get (StepB.symbolAddressToCanonicalSymbolIndexMap b')
      symbolAddress = Some s
    ∧ indexForString symbolName (StepB.stringTable b)
      = (symbolStringIndex, StepB.stringTable b')
    ∧ ((JsMap.get (StepB.symbolAddressToCanonicalSymbolIndexMap b)
          symbolAddress = Some s
        ∧ StepB.availableNativeSymbolIterator b'
          = StepB.availableNativeSymbolIterator b
        ∧ nativeSymbols = StepB.nativeSymbols b
        ∧ StepB.symbolAddressToCanonicalSymbolIndexMap b'
          = StepB.symbolAddressToCanonicalSymbolIndexMap b)
       ∨ (JsMap.get (StepB.symbolAddressToCanonicalSymbolIndexMap b)
            symbolAddress = None
          ∧ StepB.symbolAddressToCanonicalSymbolIndexMap b'
            = JsMap.set (StepB.symbolAddressToCanonicalSymbolIndexMap b)
                symbolAddress s
          ∧ ((StepB.availableNativeSymbolIterator b
              = s :: StepB.availableNativeSymbolIterator b'
              ∧ nativeSymbols = StepB.nativeSymbols b)
             ∨ (StepB.availableNativeSymbolIterator b = []
                ∧ StepB.availableNativeSymbolIterator b' = []
                ∧ addNativeSymbol (StepB.nativeSymbols b) libIndex
                  = Returns (s, nativeSymbols)))))
    ∧ NativeSymbolTable.length (StepB.nativeSymbols b')
      = NativeSymbolTable.length nativeSymbols
    ∧ (∀ j, symbolRowLib (StepB.nativeSymbols b') j
            = symbolRowLib nativeSymbols j)
    ∧ symbolRowName (StepB.nativeSymbols b') s
      = (Some symbolAddress, Some symbolStringIndex)
    ∧ ∀ j, j ≠ s → symbolRowName (StepB.nativeSymbols b') j
                   = symbolRowName nativeSymbols j.
Proof.
  intros (idx & s & ns & ac & nc & Hidx & Hget & Hcases
          & (Ha & Ha' & _)%write_Returns & (Hn & Hn' & _)%write_Returns
          & Hns)%canonicalizeSymbol_Returns.
  exists s, ns, idx. rewrite Hns. unfold symbolRowLib, symbolRowName. simpl.
  split_and!; try done.
  - by rewrite Ha, Hn.
  - intros j Hj. by rewrite Ha', Hn'.
Qed.

Lemma stepB_rows thread libIndex (symbols : list nat) a b :
  (∀ s, s ∈ StepA.availableNativeSymbols a → s ∈ symbols) →
  (∀ s, s ∈ (StepA.symbolAddressToCanonicalSymbolIndexMap a).*2 →
        s ∈ symbols) →
  stepB thread libIndex a = Returns b →
  let nativeSymbols := Thread.nativeSymbols thread in
  (NativeSymbolTable.length nativeSymbols
   ≤ NativeSymbolTable.length (StepB.nativeSymbols b))%nat
  ∧ (∀ s, s < NativeSymbolTable.length nativeSymbols →
          symbolRowLib (StepB.nativeSymbols b) s
          = symbolRowLib nativeSymbols s)
  ∧ (∀ s, s < NativeSymbolTable.length nativeSymbols → s ∉ symbols →
          symbolRowName (StepB.nativeSymbols b) s
          = symbolRowName nativeSymbols s)
  ∧ ∀ s, (NativeSymbolTable.length nativeSymbols ≤ s
          < NativeSymbolTable.length (StepB.nativeSymbols b))%nat →
         symbolRowLib (StepB.nativeSymbols b) s = Some libIndex.
Proof.
  intros Havailable Hcanonical. unfold stepB. intros Hfold. simpl.
  set (nativeSymbols := Thread.nativeSymbols thread) in *.
  set (length0 := NativeSymbolTable.length nativeSymbols) in *.
  apply (foldlM_invariant _
           (λ (_ : list (Z * string)) b,
              (∀ s, s ∈ StepB.availableNativeSymbolIterator b → s ∈ symbols)
              ∧ (∀ s, s ∈ (StepB.symbolAddressToCanonicalSymbolIndexMap b).*2 →
                      s ∈ symbols
                      ∨ (length0 ≤ s
                         < NativeSymbolTable.length (StepB.nativeSymbols b))%nat)
              ∧ (length0
                 ≤ NativeSymbolTable.length (StepB.nativeSymbols b))%nat
              ∧ (∀ s, s < length0 →
                      symbolRowLib (StepB.nativeSymbols b) s
                      = symbolRowLib nativeSymbols s)
              ∧ (∀ s, s < length0 → s ∉ symbols →
                      symbolRowName (StepB.nativeSymbols b) s
                      = symbolRowName nativeSymbols s)
              ∧ ∀ s, (length0 ≤ s
                      < NativeSymbolTable.length (StepB.nativeSymbols b))%nat →
                     symbolRowLib (StepB.nativeSymbols b) s = Some libIndex))
    in Hfold; [by destruct Hfold as (_ & _ & ? & ? & ? & ?)| |].
  { unfold shallowCloneNativeSymbolTable. simpl. split_and!; try done.
    - intros s Hs. left. by apply Hcanonical.
    - intros s ?. lia. }
  intros pre [sa name] post b0 b1 _
    (Hiter & Hvalues & Hlen & Hlib & Hname & Hnew)
    (s & ns & idx & Hget & _ & Hcases & Hlen1 & Hlib1 & _ & Hname1)
    %canonicalizeSymbol_rows.
  destruct Hcases as [(Hold & -> & -> & ->)|(Hnone & -> & Hcases)].
  - assert (s ∈ symbols
            ∨ (length0 ≤ s
               < NativeSymbolTable.length (StepB.nativeSymbols b0))%nat)
      as Hs by by eapply Hvalues, jsmap_get_elem_of_values.
    split_and!; try done.
    + by rewrite Hlen1.
    + lia.
    + intros j Hj. rewrite Hlib1. by apply Hlib.
    + intros j Hj Hout. rewrite Hname1; [by apply Hname|].
      intros ->. destruct Hs; [done|lia].
    + intros j Hj. rewrite Hlib1. apply Hnew. lia.
  - rewrite jsmap_set_new by by apply jsmap_has_false.
    rewrite fmap_app. simpl. setoid_rewrite elem_of_app.
    setoid_rewrite list_elem_of_singleton.
    destruct Hcases as [[Hit ->]|(Hit & -> & Hadd)].
    + assert (s ∈ symbols) as Hs by (apply Hiter; rewrite Hit; left).
      split_and!.
      * intros j Hj. apply Hiter. rewrite Hit. by right.
      * intros j [Hj| ->]; [|by left].
        destruct (Hvalues j Hj); [by left|right; lia].
      * lia.
      * intros j Hj. rewrite Hlib1. by apply Hlib.
      * intros j Hj Hout. rewrite Hname1 by congruence. by apply Hname.
      * intros j Hj. rewrite Hlib1. apply Hnew. lia.
    + apply addNativeSymbol_rows in Hadd
          as (-> & Hlen2 & Haddress2 & Hname2 & Hlib2 & Hlib2').
      split_and!.
      * by intros j ?%elem_of_nil.
      * intros j [Hj| ->]; [|right; lia].
        destruct (Hvalues j Hj); [by left|right; lia].
      * lia.
      * intros j Hj. rewrite Hlib1, Hlib2' by lia. by apply Hlib.
      * intros j Hj Hout. rewrite Hname1 by lia.
        unfold symbolRowName. rewrite Haddress2, Hname2. by apply Hname.
      * intros j Hj. rewrite Hlib1.
        destruct (decide (j = NativeSymbolTable.length
                                 (StepB.nativeSymbols b0))) as [->|]; [done|].
        rewrite Hlib2' by done. apply Hnew. lia.
Qed.

(** X6.  A step only adds to the native-symbol table.  Every row the
    table had keeps its lib; a row outside the library's native symbols
    also keeps its address and name; and every row the step appends
    belongs to the library's lib. *)
Theorem applySymbolicationStep_symbol_rows (thread : Thread.t)
  (symbolicationStepInfo : SymbolicationStepInfo.t)
  (oldFuncToNewFuncMap : list (nat * nat))
  (thread' : Thread.t) (oldFuncToNewFuncMap' : list (nat * nat)) :
  let info :=
    SymbolicationStepInfo.threadLibSymbolicationInfo symbolicationStepInfo in
  let symbols := ThreadLibSymbolicationInfo.allNativeSymbolsForThisLib info in
  let nativeSymbols := Thread.nativeSymbols thread in
  let nativeSymbols' := Thread.nativeSymbols thread' in
  applySymbolicationStep thread symbolicationStepInfo oldFuncToNewFuncMap
  = Returns (thread', oldFuncToNewFuncMap') →
  (NativeSymbolTable.length nativeSymbols
   ≤ NativeSymbolTable.length nativeSymbols')%nat
  ∧ (∀ s, s < NativeSymbolTable.length nativeSymbols →
          symbolRowLib nativeSymbols' s = symbolRowLib nativeSymbols s)
  ∧ (∀ s, s < NativeSymbolTable.length nativeSymbols → s ∉ symbols →
          symbolRowName nativeSymbols' s = symbolRowName nativeSymbols s)
  ∧ ∀ s, (NativeSymbolTable.length nativeSymbols ≤ s
          < NativeSymbolTable.length nativeSymbols')%nat →
         symbolRowLib nativeSymbols' s
         = Some (ThreadLibSymbolicationInfo.libIndex info).
Proof.
  intros info symbols nativeSymbols nativeSymbols'.
  unfold applySymbolicationStep.
  intros (run & Hrun%runSymbolicationStep_Returns & [= <- <-])%bind_Returns.
  destruct Hrun as (Ha & Hb & _ & _ & _ & _ & _ & _ & _ & _ & Htable & _).
  subst nativeSymbols'. rewrite Htable.
  apply stepA_spec in Ha
      as (_ & _ & _ & _ & _ & _ & _ & _ & _ & Hvalues & Havailable).
  apply (stepB_rows _ _ symbols) in Hb; [done|..].
  - intros s [Hs _]%Havailable. by apply (jsset_of_list_spec symbols).
  - intros s Hs%Hvalues. by apply (jsset_of_list_spec symbols).
Qed.

Lemma applySymbolicationStep_symbol_rows_witness :
  NativeSymbolTable.length (Thread.nativeSymbols Example.coarse.1) = 2
  ∧ NativeSymbolTable.length (Thread.nativeSymbols Example.refined.1) = 4
  ∧ symbolRowLib (Thread.nativeSymbols Example.refined.1) 3 = Some 0%Z
  ∧ symbolRowLib (Thread.nativeSymbols Example.refined.1) 1
    = symbolRowLib (Thread.nativeSymbols Example.coarse.1) 1.
Proof.
  assert (applySymbolicationStep Example.coarse.1
            (Example.stepOf Example.coarse.1 Example.completeSymbolTable) []
          = Returns (Example.refined.1, Example.refined.2)) as Hstep
    by (vm_compute; reflexivity).
  destruct (applySymbolicationStep_symbol_rows _ _ _ _ _ Hstep)
    as (_ & Hlib & _ & Hnew).
  split; [reflexivity|]. split; [reflexivity|].
  split; [apply (Hnew 3); vm_compute; lia|].
  apply (Hlib 1). vm_compute. lia.
Defined.

(** ** The consensus map as a list *)

Section consensus_order.
Context {K V : Type} `{EqDecision K, EqDecision V}.
Implicit Types (k : K) (v : V) (l m : list (K * V)).

Lemma jsmap_delete_sublist m k : JsMap.delete m k `sublist_of` m.
Proof.
  induction m as [|[k' v'] m IH]; simpl; [done|].
  destruct (decide (k' = k)); [by apply sublist_cons|by apply sublist_skip].
Qed.

Lemma consensusStep_sublist l (st : list (K * V) * list K) k v :
  st.1 `sublist_of` l →
  (consensusStep st (k, v)).1 `sublist_of` l ++ [(k, v)].
Proof.
  destruct st as [m d]. simpl. intros Hsub.
  destruct (JsSet.has d k); [by apply sublist_inserts_r|].
  destruct (JsMap.get m k) as [previousValue|] eqn:Hget.
  - destruct (decide (previousValue = v)); simpl;
      [by apply sublist_inserts_r|].
    apply sublist_inserts_r. etrans; [apply jsmap_delete_sublist|done].
  - simpl. rewrite jsmap_set_new by by apply jsmap_has_false.
    by apply sublist_app.
Qed.

Lemma makeConsensusMap_distinct l : NoDup l.*1 → makeConsensusMap l = l.
Proof.
  unfold makeConsensusMap.
  cut (∀ (rest seen : list (K * V)), NoDup (seen ++ rest).*1 →
         foldl consensusStep (seen, []) rest = (seen ++ rest, [])).
  { intros Hcut Hnd. by rewrite (Hcut l []). }
  induction rest as [|[k v] rest IH]; intros seen Hnd; simpl.
  - by rewrite app_nil_r.
  - assert (JsMap.get seen k = None) as ->.
    { apply jsmap_get_None. rewrite fmap_app, fmap_cons in Hnd.
      apply NoDup_app in Hnd as (_ & Hnd & _). intros Hk.
      apply (Hnd k Hk). left. }
    rewrite jsmap_set_new
      by (apply jsmap_has_false, jsmap_get_None; rewrite fmap_app, fmap_cons in Hnd;
          apply NoDup_app in Hnd as (_ & Hnd & _); intros Hk;
          apply (Hnd k Hk); left).
    rewrite IH; [by rewrite <-app_assoc|]. by rewrite <-app_assoc.
Qed.

(** X7.  The consensus map is the list of recorded pairs with some of
    them left out: what it keeps, it keeps in the order of recording.  A
    list of pairs with distinct keys is its own consensus map, so reducing
    a consensus map again gives it back. *)
Theorem makeConsensusMap_sublist :
  (∀ l, makeConsensusMap l `sublist_of` l)
  ∧ (∀ l, NoDup l.*1 → makeConsensusMap l = l)
  ∧ ∀ l, makeConsensusMap (makeConsensusMap l) = makeConsensusMap l.
Proof.
  split_and!.
  - intros l. unfold makeConsensusMap.
    induction l as [|[k v] l IH] using rev_ind; [done|].
    rewrite foldl_app. simpl. by apply consensusStep_sublist.
  - apply makeConsensusMap_distinct.
  - intros l. apply makeConsensusMap_distinct, makeConsensusMap_NoDup.
Qed.
End consensus_order.

Lemma makeConsensusMap_sublist_witness :
  makeConsensusMap [(1, 7); (2, 8); (3, 9)] = [(1, 7); (2, 8); (3, 9)]
  ∧ makeConsensusMap [(1, 7); (2, 8); (1, 9); (3, 9); (1, 7)]
    `sublist_of` [(1, 7); (2, 8); (1, 9); (3, 9); (1, 7)]
  ∧ makeConsensusMap [(1, 7); (2, 8); (1, 9); (3, 9); (1, 7)]
    = [(2, 8); (3, 9)].
Proof.
  destruct (@makeConsensusMap_sublist nat nat _ _) as (Hsub & Hid & _).
  split; [apply Hid; refine (bool_decide_unpack _ _); vm_compute; exact I|].
  split; [apply Hsub|vm_compute; reflexivity].
Defined.

(** ** The orchestrator: who is called back, and when *)

Lemma finishSymbolicationForLib_from
  (symbolicationInfo : list (list (string * ThreadLibSymbolicationInfo.t)))
  (results : gmap Z AddressResult.t) (libKey : string) (start : nat) :
  let calls :=
    omap (λ '(threadIndex, threadSymbolicationInfo),
            match JsMap.get threadSymbolicationInfo libKey with
            | None => None
            | Some threadLibSymbolicationInfo =>
                Some (threadIndex,
                      {| SymbolicationStepInfo.threadLibSymbolicationInfo :=
                           threadLibSymbolicationInfo;
                         SymbolicationStepInfo.resultsForLib := results |})
            end)
         (imap (λ i, pair (start + i)) symbolicationInfo) in
  increasing calls.*1
  ∧ ∀ threadIndex step,
      (threadIndex, step) ∈ calls
      ↔ ∃ i threadSymbolicationInfo info,
          threadIndex = start + i
          ∧ symbolicationInfo !! i = Some threadSymbolicationInfo
          ∧ JsMap.get threadSymbolicationInfo libKey = Some info
          ∧ step = {| SymbolicationStepInfo.threadLibSymbolicationInfo := info;
                      SymbolicationStepInfo.resultsForLib := results |}.
Proof.
  revert start.
  induction symbolicationInfo as [|tsi l IH]; intros start; simpl.
  - split; [by intros i j m n ?|]. intros threadIndex step.
    split; [by intros ?%elem_of_nil|]. by intros (i & ? & ? & _ & ? & _).
  - destruct (IH (S start)) as [IHinc IHin].
    assert (imap ((λ i, pair (start + i)) ∘ S) l
            = imap (λ i, pair (S start + i)) l) as ->.
    { apply imap_ext. intros i x _. simpl. f_equal. lia. }
    assert (∀ threadIndex step,
              (∃ i threadSymbolicationInfo info,
                 threadIndex = start + i
                 ∧ (tsi :: l) !! i = Some threadSymbolicationInfo
                 ∧ JsMap.get threadSymbolicationInfo libKey = Some info
                 ∧ step
                   = {| SymbolicationStepInfo.threadLibSymbolicationInfo :=
                          info;
                        SymbolicationStepInfo.resultsForLib := results |})
              ↔ (threadIndex = start
                 ∧ ∃ info, JsMap.get tsi libKey = Some info
                   ∧ step
                     = {| SymbolicationStepInfo.threadLibSymbolicationInfo :=
                            info;
                          SymbolicationStepInfo.resultsForLib := results |})
                ∨ ∃ i threadSymbolicationInfo info,
                    threadIndex = S start + i
                    ∧ l !! i = Some threadSymbolicationInfo
                    ∧ JsMap.get threadSymbolicationInfo libKey = Some info
                    ∧ step
                      = {| SymbolicationStepInfo.threadLibSymbolicationInfo :=
                             info;
                           SymbolicationStepInfo.resultsForLib := results |})
      as Hcases.
    { intros threadIndex step. split.
      - intros ([|i] & t & info & -> & Ht & Hinfo & ->); simpl in Ht.
        + injection Ht as <-. left. split; [lia|]. by exists info.
        + right. exists i, t, info. split; [lia|done].
      - intros [[-> (info & Hinfo & ->)]|(i & t & info & -> & Ht & Hinfo & ->)].
        + exists 0, tsi, info. split; [lia|done].
        + exists (S i), t, info. split; [lia|done]. }
    rewrite Nat.add_0_r.
    destruct (JsMap.get tsi libKey) as [info|] eqn:Hget; csimpl.
    + split.
      * apply increasing_cons. split; [|done].
        intros m ([m' step] & -> & Hin)%list_elem_of_fmap. simpl.
        apply IHin in Hin as (i & _ & _ & -> & _). lia.
      * intros threadIndex step. rewrite elem_of_cons, Hcases, IHin.
        split; (intros [H|H]; [left|by right]).
        -- injection H as -> ->. split; [done|]. by exists info.
        -- destruct H as [-> (info' & [= <-] & ->)]. done.
    + split; [done|]. intros threadIndex step. rewrite Hcases, IHin.
      split; [by right|]. by intros [[_ (info & [=] & _)]|H].
Qed.

(** X8.  For the results of one library, the step callback is called for
    exactly the threads whose collector map has the library's key, one
    call per thread in the order of the threads, each with that thread's
    own record for the library and the results as given. *)
Theorem finishSymbolicationForLib_calls
  (symbolicationInfo : list (list (string * ThreadLibSymbolicationInfo.t)))
  (resultsForLib : gmap Z AddressResult.t) (libKey : string) :
  let calls :=
    finishSymbolicationForLib symbolicationInfo resultsForLib libKey in
  increasing calls.*1
  ∧ ∀ threadIndex step,
      (threadIndex, step) ∈ calls
      ↔ ∃ threadSymbolicationInfo info,
          symbolicationInfo !! threadIndex = Some threadSymbolicationInfo
          ∧ JsMap.get threadSymbolicationInfo libKey = Some info
          ∧ step = {| SymbolicationStepInfo.threadLibSymbolicationInfo := info;
                      SymbolicationStepInfo.resultsForLib := resultsForLib |}.
Proof.
  destruct (finishSymbolicationForLib_from symbolicationInfo resultsForLib
              libKey 0) as [Hinc Hin].
  split; [exact Hinc|]. intros threadIndex step.
  unfold finishSymbolicationForLib. etrans; [apply Hin|]. split.
  - intros (i & t & info & -> & H). by exists t, info.
  - intros (t & info & H). by exists threadIndex, t, info.
Qed.

Lemma mapM_throws {A B : Type} (f : A → completion B) before a after error :
  (∀ a', a' ∈ before → ∃ b, f a' = Returns b) →
  f a = Throws error →
  mapM f (before ++ a :: after) = Throws error.
Proof.
  intros Hbefore Ha. unfold mapM. rewrite foldlM_app.
  destruct (foldlM_returns (λ bs a, b ← f a; Returns (bs ++ [b])) []
              before) as [bs ->].
  { intros bs a' Ha'. destruct (Hbefore a' Ha') as [b ->]. by eexists. }
  simpl. by rewrite Ha.
Qed.

(** X9.  When the collector throws for a thread of the profile and has
    returned for the threads before it, the orchestrator throws that very
    error: the symbol store is not asked for anything, no step callback
    fires and nothing is logged. *)
Theorem symbolicateProfile_collector_throws
  (profile before after : list Thread.t) (thread : Thread.t)
  (symbolStore : list LibSymbolicationRequest.t →
                 list (LibSymbolicationRequest.t * ProviderAnswer))
  (w : World.t) (error : JsError) :
  profile = before ++ thread :: after →
  (∀ t, t ∈ before → ∃ map, getThreadSymbolicationInfo t = Returns map) →
  getThreadSymbolicationInfo thread = Throws error →
  symbolicateProfile profile symbolStore w = (w, Throws error)
  ∧ ∀ otherStore,
      symbolicateProfile profile otherStore w
      = symbolicateProfile profile symbolStore w.
Proof.
  intros -> Hbefore Hthread.
  assert (∀ store, symbolicateProfile (before ++ thread :: after) store w
                   = (w, Throws error)) as Hany.
  { intros store. unfold symbolicateProfile.
    by rewrite (mapM_throws _ _ _ _ _ Hbefore Hthread). }
  split; [apply Hany|]. intros otherStore. by rewrite !Hany.
Qed.

Lemma symbolicateProfile_collector_throws_witness :
  symbolicateProfile [Example.thread; danglingThread; Example.thread]
    completeStore quietWorld
  = (quietWorld, Throws (Error "Did not find a lib.")).
Proof.
  apply (symbolicateProfile_collector_throws
           [Example.thread; danglingThread; Example.thread]
           [Example.thread] [Example.thread] danglingThread completeStore
           quietWorld (Error "Did not find a lib.")).
  - reflexivity.
  - intros t ->%list_elem_of_singleton. eexists. vm_compute. reflexivity.
  - vm_compute. reflexivity.
Defined.

Lemma split_parts_clean sep s :
  Forall (λ part, contains sep part = false) (split sep s).
Proof.
  induction s as [|c s IH]; simpl; [by repeat constructor|].
  destruct (decide (c = sep)) as [->|Hne]; [by constructor|].
  destruct (split sep s) as [|part parts].
  - constructor; [|constructor]. simpl. by rewrite decide_False.
  - apply Forall_cons in IH as [Hpart Hparts]. constructor; [|done].
    simpl. by rewrite decide_False.
Qed.

Lemma split_length_separator sep s1 s2 :
  length (split sep (s1 +:+ String sep s2))
  = length (split sep s1) + length (split sep s2).
Proof.
  induction s1 as [|c s1 IH]; simpl.
  - by rewrite decide_True.
  - destruct (decide (c = sep)); simpl; [by rewrite IH|].
    destruct (split_head_clean sep (s1 +:+ String sep s2)) as (h & t & E & _).
    destruct (split_head_clean sep s1) as (h' & t' & E' & _).
    rewrite E, E' in *. simpl in *. done.
Qed.

Lemma split_length_contains sep s :
  contains sep s = true → (2 ≤ length (split sep s))%nat.
Proof.
  induction s as [|c s IH]; simpl; [done|].
  destruct (decide (c = sep)).
  - intros _. destruct (split_head_clean sep s) as (h & t & -> & _).
    simpl. lia.
  - intros Hs%IH. destruct (split sep s); simpl in *; lia.
Qed.

Lemma requestKey_splitLibKey (key : string) :
  length (split "/"
            (requestKey {| LibSymbolicationRequest.lib := splitLibKey key;
                           LibSymbolicationRequest.addresses := [] |})) = 2.
Proof.
  unfold requestKey, splitLibKey. simpl.
  pose proof (split_parts_clean "/" key) as Hclean.
  assert (∀ part : option string,
            (∀ p, part = Some p → contains "/" p = false) →
            contains "/" (spliced part) = false) as Hspliced.
  { intros [p|] Hp; simpl; [by apply Hp|done]. }
  assert (∀ i p, split "/" key !! i = Some p → contains "/" p = false)
    as Hparts.
  { intros i p Hp. rewrite Forall_forall in Hclean.
    by eapply Hclean, list_elem_of_lookup_2. }
  change (spliced (split "/" key !! 0) +:+ "/"
          +:+ spliced (split "/" key !! 1))
    with (spliced (split "/" key !! 0)
          +:+ String "/" (spliced (split "/" key !! 1))).
  rewrite split_length_separator.
  rewrite (split_no_separator "/" (spliced (split "/" key !! 0)))
    by apply Hspliced, Hparts.
  rewrite (split_no_separator "/" (spliced (split "/" key !! 1)))
    by apply Hspliced, Hparts.
  done.
Qed.

(** X10.  The key under which the orchestrator looks up the threads of a
    resolved library is put together again from the two parts of the
    request.  For a lib without a slash in its debug name and breakpad id
    that key is the lib's own, so when the store resolves the lib's
    request (and reports no failure but not-found ones) the step callback
    fires for every thread whose map has the lib, with the thread's record
    and the store's results.  For a lib with a slash in either part the
    key differs from the lib's own. *)
Theorem symbolicateProfile_reaches_threads (lib : Lib.t) :
  let request addresses :=
    {| LibSymbolicationRequest.lib := splitLibKey (libKey lib);
       LibSymbolicationRequest.addresses := addresses |} in
  (contains "/" (Lib.debugName lib) = false →
   contains "/" (Lib.breakpadId lib) = false →
   (∀ addresses, requestKey (request addresses) = libKey lib)
   ∧ ∀ profile symbolStore w symbolicationInfo addresses results
       threadIndex threadSymbolicationInfo info,
       let answers :=
         symbolStore
           (buildLibSymbolicationRequestsForAllThreads symbolicationInfo) in
       mapM getThreadSymbolicationInfo profile = Returns symbolicationInfo →
       onlyNotFound answers →
       (request addresses, Resolved results) ∈ answers →
       symbolicationInfo !! threadIndex = Some threadSymbolicationInfo →
       JsMap.get threadSymbolicationInfo (libKey lib) = Some info →
       (threadIndex,
        {| SymbolicationStepInfo.threadLibSymbolicationInfo := info;
           SymbolicationStepInfo.resultsForLib := results |})
       ∈ World.steps (symbolicateProfile profile symbolStore w).1)
  ∧ (contains "/" (Lib.debugName lib) = true
     ∨ contains "/" (Lib.breakpadId lib) = true →
     ∀ addresses, requestKey (request addresses) ≠ libKey lib).
Proof.
  intros request. split.
  - intros Hd Hb.
    assert (∀ addresses, requestKey (request addresses) = libKey lib)
      as Hkey.
    { intros addresses. unfold requestKey, request.
      by rewrite (splitLibKey_clean lib Hd Hb). }
    split; [done|].
    intros profile symbolStore w symbolicationInfo addresses results
      threadIndex tsi info answers Hinfo Hquiet Hanswer Htsi Hget.
    unfold symbolicateProfile. rewrite Hinfo.
    fold answers. rewrite getSymbols_onlyNotFound by done. simpl.
    apply elem_of_app. right. unfold deliveredSteps.
    apply elem_of_concat.
    exists (finishSymbolicationForLib symbolicationInfo results
              (libKey lib)).
    split.
    + apply list_elem_of_omap. exists (request addresses, Resolved results).
      split; [done|]. simpl. f_equal. f_equal. apply (Hkey addresses).
    + apply (finishSymbolicationForLib_from symbolicationInfo results
               (libKey lib) 0).
      by exists threadIndex, tsi, info.
  - intros Hslash addresses Heq.
    pose proof (requestKey_splitLibKey (libKey lib)) as Hlen.
    assert (requestKey (request addresses)
            = requestKey
                {| LibSymbolicationRequest.lib := splitLibKey (libKey lib);
                   LibSymbolicationRequest.addresses := [] |}) as Hsame
      by reflexivity.
    rewrite <-Hsame, Heq, libKey_unfold, split_length_separator in Hlen.
    destruct (split_head_clean "/" (Lib.debugName lib)) as (h & t & Ed & _).
    destruct (split_head_clean "/" (Lib.breakpadId lib))
      as (h' & t' & Eb & _).
    destruct Hslash as [Hs%split_length_contains|Hs%split_length_contains];
      rewrite Ed, Eb in *; simpl in *; lia.
Qed.

Lemma symbolicateProfile_reaches_threads_witness :
  (0, Example.stepOf Example.thread Example.completeSymbolTable)
  ∈ World.steps
      (symbolicateProfile [Example.thread; Example.thread] completeStore
         quietWorld).1
  ∧ (1, Example.stepOf Example.thread Example.completeSymbolTable)
    ∈ World.steps
        (symbolicateProfile [Example.thread; Example.thread] completeStore
           quietWorld).1.
Proof.
  destruct (symbolicateProfile_reaches_threads Example.lib) as [Hclean _].
  destruct Hclean as [_ Hreach]; [reflexivity|reflexivity|].
  assert (mapM getThreadSymbolicationInfo [Example.thread; Example.thread]
          = Returns [[(libKey Example.lib, Example.infoOf Example.thread)];
                     [(libKey Example.lib, Example.infoOf Example.thread)]])
    as Hinfo by (vm_compute; reflexivity).
  assert (onlyNotFound
            (completeStore
               (buildLibSymbolicationRequestsForAllThreads
                  [[(libKey Example.lib, Example.infoOf Example.thread)];
                   [(libKey Example.lib, Example.infoOf Example.thread)]])))
    as Hquiet.
  { intros request error (request' & [= _ ?] & _)%list_elem_of_fmap. }
  split.
  - apply (Hreach [Example.thread; Example.thread] completeStore quietWorld
             _ [10; 8192; 0; 6671; 3855]%Z Example.completeSymbolTable 0
             [(libKey Example.lib, Example.infoOf Example.thread)]
             (Example.infoOf Example.thread) Hinfo Hquiet);
      [left|reflexivity|reflexivity].
  - apply (Hreach [Example.thread; Example.thread] completeStore quietWorld
             _ [10; 8192; 0; 6671; 3855]%Z Example.completeSymbolTable 1
             [(libKey Example.lib, Example.infoOf Example.thread)]
             (Example.infoOf Example.thread) Hinfo Hquiet);
      [left|reflexivity|reflexivity].
Defined.

(** ** Placeholder names *)

Lemma of_pos_head (p : positive) (rest : string) :
  ∃ c s, HexString.Raw.of_pos p rest = String c s ∧ c ≠ "-"%char.
Proof.
  assert (∃ n, (Pos.size_nat p ≤ n)%nat) as [n Hn] by by eexists.
  revert p rest Hn. induction n as [|n IH]; intros p rest Hn.
  - destruct p; simpl in Hn; lia.
  - do 4 try destruct p as [p|p|]; simpl in Hn; simpl;
      try (by eexists _, _); apply IH; lia.
Qed.

Lemma of_pos_inj p q :
  HexString.Raw.of_pos p "" = HexString.Raw.of_pos q "" → p = q.
Proof.
  intros Heq.
  pose proof (HexString.Raw.to_N_of_pos p "" 0) as Hp.
  pose proof (HexString.Raw.to_N_of_pos q "" 0) as Hq.
  rewrite Heq, Hq in Hp. simpl in Hp. by injection Hp.
Qed.

Lemma toString16_inj a b : toString16 a = toString16 b → a = b.
Proof.
  assert (∀ p, HexString.Raw.of_pos p "" ≠ "0") as Hzero.
  { intros p Heq.
    pose proof (HexString.Raw.to_N_of_pos p "" 0) as Hp.
    rewrite Heq in Hp. simpl in Hp. discriminate. }
  assert (∀ p s, HexString.Raw.of_pos p "" ≠ String "-" s) as Hminus.
  { intros p s Heq. destruct (of_pos_head p "") as (c & s' & Hc & Hne).
    congruence. }
  destruct a as [|p|p], b as [|q|q]; simpl; try done.
  - intros Heq. symmetry in Heq. by apply Hzero in Heq.
  - intros Heq. by apply Hzero in Heq.
  - by intros ->%of_pos_inj.
  - intros Heq. by apply Hminus in Heq.
  - intros Heq. symmetry in Heq. by apply Hminus in Heq.
  - by intros [= ->%of_pos_inj].
Qed.

(** X11.  The placeholder name of an address tells the address: two
    integer addresses have the same placeholder name only if they are the
    same address. *)
Theorem placeholderName_inj (address address' : Z) :
  placeholderName address = placeholderName address' ↔ address = address'.
Proof.
  split; [|by intros ->]. unfold placeholderName.
  intros [= Heq]. by apply toString16_inj.
Qed.

(** ** The string table *)

Lemma indexForString_NoDup s stringTable index stringTable' :
  indexForString s stringTable = (index, stringTable') →
  NoDup stringTable → NoDup stringTable'.
Proof.
  unfold indexForString.
  destruct (list_find _ _) as [[i x]|] eqn:Hfind; intros [= _ <-]; [done|].
  intros Hnd. apply NoDup_app. split; [done|].
  split; [|apply NoDup_singleton].
  intros x Hx ->%list_elem_of_singleton.
  rewrite list_find_None, Forall_forall in Hfind. by apply (Hfind s).
Qed.

Lemma indexForOptionalString_NoDup file stringTable index stringTable' :
  indexForOptionalString file stringTable = (index, stringTable') →
  NoDup stringTable → NoDup stringTable'.
Proof.
  unfold indexForOptionalString. destruct file as [file|].
  - destruct (indexForString file stringTable) as [i st] eqn:Hidx.
    intros [= _ <-]. by eapply indexForString_NoDup.
  - by intros [= _ <-].
Qed.

Lemma stepB_stringTable_NoDup thread libIndex a b :
  stepB thread libIndex a = Returns b →
  NoDup (Thread.stringTable thread) → NoDup (StepB.stringTable b).
Proof.
  unfold stepB.
  apply (foldlM_invariant _
           (λ _ b, NoDup (Thread.stringTable thread)
                   → NoDup (StepB.stringTable b))); [done|].
  intros pre [sa name] post b0 b1 _ IH
    (idx & s & ns & ac & nc & Hidx & _)%canonicalizeSymbol_Returns Hnd.
  eapply indexForString_NoDup; [done|]. by apply IH.
Qed.

Lemma stepC_stringTable_NoDup thread info results stringTable nativeSymbols
  column c :
  stepC thread info results stringTable nativeSymbols column = Returns c →
  NoDup stringTable → NoDup (StepC.stringTable c).
Proof.
  unfold stepC.
  apply (foldlM_invariant _
           (λ _ c, NoDup stringTable → NoDup (StepC.stringTable c)));
    [done|].
  intros pre f post c0 c1 _ IH
    (oldFunc & r & ni & st & fi & n & ft & _ & _ & Hname & Hfile & _)
    %canonicalizeFunc_Returns Hnd.
  eapply indexForOptionalString_NoDup; [done|].
  eapply indexForString_NoDup; [done|]. by apply IH.
Qed.

(** X12.  A step only appends to the string table: the strings of the
    input are where they were, so every index that could be read before
    reads the same afterwards; and a table that held each string once
    still does. *)
Theorem applySymbolicationStep_string_table (thread : Thread.t)
  (symbolicationStepInfo : SymbolicationStepInfo.t)
  (oldFuncToNewFuncMap : list (nat * nat))
  (thread' : Thread.t) (oldFuncToNewFuncMap' : list (nat * nat)) :
  applySymbolicationStep thread symbolicationStepInfo oldFuncToNewFuncMap
  = Returns (thread', oldFuncToNewFuncMap') →
  Thread.stringTable thread `prefix_of` Thread.stringTable thread'
  ∧ (∀ index s,
       getString (Thread.stringTable thread) index = Returns s →
       getString (Thread.stringTable thread') index = Returns s)
  ∧ (NoDup (Thread.stringTable thread) → NoDup (Thread.stringTable thread')).
Proof.
  unfold applySymbolicationStep.
  intros (run & Hrun & [= <- <-])%bind_Returns.
  pose proof (runSymbolicationStep_stringTable_extends _ _ _ _ Hrun)
    as Hprefix.
  split; [done|]. split.
  - intros index s. unfold getString.
    destruct (Thread.stringTable thread !! index) as [s'|] eqn:Hs; [|done].
    intros [= <-]. by rewrite (prefix_lookup_Some _ _ _ _ Hs Hprefix).
  - apply runSymbolicationStep_Returns in Hrun
        as (_ & Hb & _ & Hc & _ & _ & _ & _ & _ & _ & _ & -> & _).
    intros Hnd. eapply stepC_stringTable_NoDup; [done|].
    by eapply stepB_stringTable_NoDup.
Qed.

Lemma applySymbolicationStep_string_table_witness :
  Thread.stringTable Example.thread
  `prefix_of` Thread.stringTable Example.fine.1
  ∧ length (Thread.stringTable Example.fine.1) = 11
  ∧ getString (Thread.stringTable Example.fine.1) 5 = Returns "example lib"
  ∧ NoDup (Thread.stringTable Example.fine.1).
Proof.
  assert (applySymbolicationStep Example.thread
            (Example.stepOf Example.thread Example.completeSymbolTable) []
          = Returns (Example.fine.1, Example.fine.2)) as Hstep
    by (vm_compute; reflexivity).
  destruct (applySymbolicationStep_string_table _ _ _ _ _ Hstep)
    as (Hprefix & Hget & Hnd).
  split; [exact Hprefix|]. split; [reflexivity|].
  split; [apply Hget; reflexivity|].
  apply Hnd. refine (bool_decide_unpack _ _). vm_compute. exact I.
Defined.

(** ** The caller's map *)

Lemma jsmap_foldl_set_keys {K V : Type} `{EqDecision K}
  (m l : list (K * V)) :
  m.*1 `prefix_of`
    (foldl (λ map '(key, value), JsMap.set map key value) m l).*1
  ∧ ∀ k, k ∈ (foldl (λ map '(key, value), JsMap.set map key value) m l).*1
         ↔ k ∈ m.*1 ∨ k ∈ l.*1.
Proof.
  revert m. induction l as [|[k v] l IH]; intros m; simpl.
  - split; [done|]. intros k. rewrite elem_of_nil. naive_solver.
  - destruct (IH (JsMap.set m k v)) as [Hprefix Hin]. split.
    + etrans; [|exact Hprefix]. rewrite jsmap_keys_set.
      destruct (JsMap.has m k); [done|by apply prefix_app_r].
    + intros k'. rewrite Hin, jsmap_elem_of_keys_set, elem_of_cons.
      naive_solver.
Qed.

Lemma stepC_entries_from_frames thread info results stringTable nativeSymbols
  column c :
  stepC thread info results stringTable nativeSymbols column = Returns c →
  ∀ oldFunc newFunc,
    (oldFunc, newFunc) ∈ StepC.oldFuncToNewFuncEntries c →
    ∃ f, f ∈ ThreadLibSymbolicationInfo.allFramesForThisLib info
         ∧ FrameTable.func (Thread.frameTable thread) !! f = Some oldFunc.
Proof.
  unfold stepC.
  apply (foldlM_invariant _
           (λ visited c,
              ∀ oldFunc newFunc,
                (oldFunc, newFunc) ∈ StepC.oldFuncToNewFuncEntries c →
                ∃ f, f ∈ visited
                     ∧ FrameTable.func (Thread.frameTable thread) !! f
                       = Some oldFunc)).
  - by intros oldFunc newFunc ?%elem_of_nil.
  - intros pre f post c0 c1 _ IH
      (oldFunc & r & ni & st & fi & n & ft & Hold & _ & _ & _ & _ & _ & _ & _
       & -> & _)%canonicalizeFunc_Returns old new.
    rewrite elem_of_app, list_elem_of_singleton.
    intros [(g & Hg & Hfunc)%IH|[= -> ->]].
    + exists g. split; [|done]. apply elem_of_app. by left.
    + exists f. split; [|done]. apply elem_of_app. right. left.
Qed.

(** X13.  A step never takes an entry out of the caller's map: the keys
    the map had keep their places, the keys it gains are old funcs of the
    library's frames, and the value under any other key is what it was. *)
Theorem applySymbolicationStep_map_entries (thread : Thread.t)
  (symbolicationStepInfo : SymbolicationStepInfo.t)
  (oldFuncToNewFuncMap : list (nat * nat))
  (thread' : Thread.t) (oldFuncToNewFuncMap' : list (nat * nat)) :
  let frames :=
    ThreadLibSymbolicationInfo.allFramesForThisLib
      (SymbolicationStepInfo.threadLibSymbolicationInfo
         symbolicationStepInfo) in
  let func := FrameTable.func (Thread.frameTable thread) in
  applySymbolicationStep thread symbolicationStepInfo oldFuncToNewFuncMap
  = Returns (thread', oldFuncToNewFuncMap') →
  oldFuncToNewFuncMap.*1 `prefix_of` oldFuncToNewFuncMap'.*1
  ∧ (∀ oldFunc,
       oldFunc ∈ oldFuncToNewFuncMap'.*1 →
       oldFunc ∈ oldFuncToNewFuncMap.*1
       ∨ ∃ f, f ∈ frames ∧ func !! f = Some oldFunc)
  ∧ ∀ oldFunc,
      (∀ f, f ∈ frames → func !! f ≠ Some oldFunc) →
      JsMap.get oldFuncToNewFuncMap' oldFunc
      = JsMap.get oldFuncToNewFuncMap oldFunc.
Proof.
  intros frames func. unfold applySymbolicationStep.
  intros (run & Hrun%runSymbolicationStep_Returns & [= <- <-])%bind_Returns.
  destruct Hrun as (_ & _ & _ & Hc & _ & _ & _ & _ & _ & _ & _ & _ & _ & _
                    & Hlib & ->).
  pose proof (stepC_entries_from_frames _ _ _ _ _ _ _ Hc) as Hentries.
  assert (∀ oldFunc,
            oldFunc ∈ (Run.oldFuncToNewFuncMapForThisLib run).*1 →
            ∃ f, f ∈ frames ∧ func !! f = Some oldFunc) as Hkeys.
  { intros oldFunc (newFunc & Hget)%jsmap_get_is_Some.
    rewrite Hlib in Hget. apply makeConsensusMap_spec in Hget as [Hin _].
    by eapply Hentries. }
  destruct (jsmap_foldl_set_keys oldFuncToNewFuncMap
              (Run.oldFuncToNewFuncMapForThisLib run)) as [Hprefix Hin].
  split; [done|]. split.
  - intros oldFunc [?|?%Hkeys]%Hin; [by left|by right].
  - intros oldFunc Hother. rewrite jsmap_get_foldl_set.
    + destruct (JsMap.get (Run.oldFuncToNewFuncMapForThisLib run) oldFunc)
        as [newFunc|] eqn:Hget; [|done].
      apply jsmap_get_elem_of_keys, Hkeys in Hget as (f & Hf & Hfunc).
      by destruct (Hother f Hf).
    + rewrite Hlib. apply makeConsensusMap_NoDup.
Qed.

Lemma applySymbolicationStep_map_entries_witness :
  ∃ thread' map',
    applySymbolicationStep twoRowThread
      (Example.stepOf twoRowThread Example.completeSymbolTable)
      [(3, 3); (0, 2)]
    = Returns (thread', map')
    ∧ [3; 0] `prefix_of` map'.*1
    ∧ JsMap.get map' 3 = Some 3.
Proof.
  destruct (applySymbolicationStep twoRowThread
              (Example.stepOf twoRowThread Example.completeSymbolTable)
              [(3, 3); (0, 2)]) as [[thread' map']| |] eqn:Hstep;
    [|exfalso; vm_compute in Hstep; discriminate..].
  exists thread', map'.
  destruct (applySymbolicationStep_map_entries _ _ _ _ _ Hstep)
    as (Hprefix & _ & Hother).
  split; [reflexivity|]. split; [exact Hprefix|].
  rewrite (Hother 3); [reflexivity|].
  intros f Hf Hfunc.
  assert (f ∈ [0; 1; 2]) as Hf' by exact Hf.
  repeat (apply elem_of_cons in Hf' as [->|Hf']; [discriminate Hfunc|]).
  by apply elem_of_nil in Hf'.
Defined.

(** ** Active-tab tracks *)

Lemma returnsTrueAt_true test index count otherwise :
  returnsTrueAt test index count otherwise = true
  ↔ (∃ i, (index ≤ i < index + count)%nat ∧ test i = true)
    ∨ otherwise = true.
Proof.
  revert index. induction count as [|count IH]; intros index; simpl.
  - split; [by right|]. intros [(i & Hi & _)|?]; [lia|done].
  - destruct (test index) eqn:Htest.
    + split; [intros _|done]. left. exists index. split; [lia|done].
    + rewrite IH. split.
      * intros [(i & Hi & Hi')|?]; [left|by right].
        exists i. split; [lia|done].
      * intros [(i & Hi & Hi')|?]; [left|by right].
        exists i. split; [|done].
        destruct (decide (i = index)) as [->|]; [congruence|lia].
Qed.

Lemma topmost_pages_foldl (pages : list Page.t) (acc : list nat) id :
  id ∈ foldl (λ topmostInnerWindowIDs page,
                if decide (Page.embedderInnerWindowID page = 0)
                then topmostInnerWindowIDs ++ [Page.innerWindowID page]
                else topmostInnerWindowIDs) acc pages
  ↔ id ∈ acc
    ∨ ∃ page, page ∈ pages ∧ Page.embedderInnerWindowID page = 0
              ∧ Page.innerWindowID page = id.
Proof.
  revert acc. induction pages as [|page pages IH]; intros acc; simpl.
  - split; [by left|]. intros [?|(page & ?%elem_of_nil & _)]; done.
  - rewrite IH. destruct (decide _) as [Htop|Hsub].
    + rewrite elem_of_app, list_elem_of_singleton. split.
      * intros [[?| ->]|(p & Hp & Hp')]; [by left|right..].
        -- exists page. split; [left|done].
        -- exists p. split; [by right|done].
      * intros [?|(p & [->|Hp]%elem_of_cons & Hp0 & Hpid)].
        -- left. by left.
        -- left. by right.
        -- right. by exists p.
    + split.
      * intros [?|(p & Hp & Hp')]; [by left|right].
        exists p. split; [by right|done].
      * intros [?|(p & [->|Hp]%elem_of_cons & Hp0 & Hpid)];
          [by left|done|right]. by exists p.
Qed.

(** X14.  The topmost window ids are the ids of the pages that have no
    embedder, each once.  A thread is topmost exactly when one of its
    frames carries such an id, or one of its markers has a payload with a
    non-zero such id that is not a network payload: a network marker never
    makes a thread topmost, and neither does a marker whose window id is
    0, though a frame whose window id is 0 may. *)
Theorem isTopmostThread_spec (relevantPages : list Page.t)
  (frameTable : FrameTable.t) (markers : RawMarkerTable.t) :
  let topmost := getTopmostInnerWindowIDs relevantPages in
  let isTopmostPage id :=
    ∃ page, page ∈ relevantPages ∧ Page.embedderInnerWindowID page = 0
            ∧ Page.innerWindowID page = id in
  NoDup topmost
  ∧ (∀ id, id ∈ topmost ↔ isTopmostPage id)
  ∧ (isTopmostThread frameTable markers topmost = true
     ↔ (∃ frameIndex id,
          frameIndex < FrameTable.length frameTable
          ∧ FrameTable.innerWindowID frameTable !! frameIndex
            = Some (Some id)
          ∧ isTopmostPage id)
       ∨ ∃ markerIndex data id,
           markerIndex < RawMarkerTable.length markers
           ∧ RawMarkerTable.data markers !! markerIndex = Some (Some data)
           ∧ MarkerPayload.innerWindowID data = Some id
           ∧ id ≠ 0
           ∧ MarkerPayload.type data ≠ "Network"
           ∧ isTopmostPage id).
Proof.
  intros topmost isTopmostPage.
  assert (∀ id, id ∈ topmost ↔ isTopmostPage id) as Htopmost.
  { intros id. unfold topmost, getTopmostInnerWindowIDs.
    rewrite (proj2 (jsset_of_list_spec _)), topmost_pages_foldl, elem_of_nil.
    naive_solver. }
  split; [apply jsset_of_list_spec|]. split; [done|].
  unfold isTopmostThread. rewrite !returnsTrueAt_true. split.
  - intros [(f & Hf & Htest)|[(m & Hm & Htest)|?]]; [left|right|done].
    + unfold frameIsTopmost in Htest.
      destruct (FrameTable.innerWindowID frameTable !! f) as [[id|]|] eqn:Hid;
        [|done..].
      apply jsset_has_true, Htopmost in Htest.
      exists f, id. split; [lia|done].
    + unfold markerIsTopmost in Htest.
      destruct (RawMarkerTable.data markers !! m) as [[data|]|] eqn:Hdata;
        [|done..].
      destruct (MarkerPayload.innerWindowID data) as [id|] eqn:Hid; [|done].
      apply andb_true_iff in Htest as [Htest Hhas].
      apply andb_true_iff in Htest as [Hzero Hnetwork].
      apply negb_true_iff, bool_decide_eq_false in Hzero, Hnetwork.
      apply jsset_has_true, Htopmost in Hhas.
      exists m, data, id. split; [lia|done].
  - intros [(f & id & Hf & Hid & Hpage)
           |(m & data & id & Hm & Hdata & Hid & Hzero & Hnetwork & Hpage)].
    + left. exists f. split; [lia|]. unfold frameIsTopmost. rewrite Hid.
      by apply jsset_has_true, Htopmost.
    + right. left. exists m. split; [lia|]. unfold markerIsTopmost.
      rewrite Hdata, Hid.
      rewrite !bool_decide_eq_false_2 by done. simpl.
      by apply jsset_has_true, Htopmost.
Qed.

(** X15.  The page map has each window id of the pages once, and holds
    under an id the last page that has it: a later page with the id of an
    earlier one takes its place. *)
Theorem _getInnerWindowIDToPageMap_last (pages : list Page.t) :
  let map := _getInnerWindowIDToPageMap pages in
  NoDup map.*1
  ∧ (∀ id, id ∈ map.*1 ↔ id ∈ Page.innerWindowID <$> pages)
  ∧ ∀ before page after,
      pages = before ++ page :: after →
      Page.innerWindowID page ∉ Page.innerWindowID <$> after →
      JsMap.get map (Page.innerWindowID page) = Some page.
Proof.
  unfold _getInnerWindowIDToPageMap. simpl.
  cut (∀ (m : list (nat * Page.t)),
         NoDup m.*1 →
         let map :=
           foldl (λ innerWindowIDToPageMap page,
                    JsMap.set innerWindowIDToPageMap
                      (Page.innerWindowID page) page) m pages in
         NoDup map.*1
         ∧ (∀ id, id ∈ map.*1
                  ↔ id ∈ m.*1 ∨ id ∈ Page.innerWindowID <$> pages)
         ∧ (∀ id, id ∉ Page.innerWindowID <$> pages →
                  JsMap.get map id = JsMap.get m id)
         ∧ ∀ before page after,
             pages = before ++ page :: after →
             Page.innerWindowID page ∉ Page.innerWindowID <$> after →
             JsMap.get map (Page.innerWindowID page) = Some page).
  { intros Hcut. destruct (Hcut [] (NoDup_nil_2)) as (Hnd & Hin & _ & Hlast).
    split; [done|]. split; [|done]. intros id. rewrite Hin.
    simpl. rewrite elem_of_nil. naive_solver. }
  induction pages as [|p pages IH]; intros m Hnd; simpl.
  - split; [done|]. split; [intros id; rewrite elem_of_nil; naive_solver|].
    split; [done|]. by intros [|??] ? ? ?.
  - destruct (IH (JsMap.set m (Page.innerWindowID p) p))
      as (Hnd' & Hin & Hrest & Hlast); [by apply jsmap_NoDup_set|].
    split; [done|]. split; [|split].
    + intros id. rewrite Hin, jsmap_elem_of_keys_set, elem_of_cons.
      naive_solver.
    + intros id [Hne Hout]%not_elem_of_cons.
      rewrite Hrest by done. by rewrite jsmap_get_set_ne.
    + intros [|p' before] page after; simpl.
      * intros [= <- <-] Hout. rewrite Hrest by done.
        by rewrite jsmap_get_set_eq.
      * intros [= <- ->] Hout. by apply (Hlast before page after).
Qed.

Lemma _getInnerWindowIDToPageMap_last_witness :
  (_getInnerWindowIDToPageMap examplePages).*1 = [11; 12]
  ∧ JsMap.get (_getInnerWindowIDToPageMap examplePages) 11
    = Some {| Page.innerWindowID := 11; Page.embedderInnerWindowID := 0;
              Page.url := "https://example.org/next" |}.
Proof.
  destruct (_getInnerWindowIDToPageMap_last examplePages) as (_ & _ & Hlast).
  split; [reflexivity|].
  apply (Hlast
           [ {| Page.innerWindowID := 11; Page.embedderInnerWindowID := 0;
                Page.url := "https://example.org/" |};
             {| Page.innerWindowID := 12; Page.embedderInnerWindowID := 11;
                Page.url := "https://example.org/frame" |} ]
           {| Page.innerWindowID := 11; Page.embedderInnerWindowID := 0;
              Page.url := "https://example.org/next" |} []);
    [reflexivity|apply not_elem_of_nil].
Defined.

(** ** Second loop: invariants of the symbol assignment *)

Lemma stepB_invariant_step libIndex canonical0 available0 length0
  visited b symbolAddress name b' :
  NoDup available0 →
  (∀ s, s ∈ available0 → s < length0 ∧ s ∉ canonical0.*2) →
  (∀ s, s ∈ canonical0.*2 → s < length0) →
  symbolAddress ∉ visited.*1 →
  stepB_invariant canonical0 available0 length0 visited b →
  canonicalizeSymbol libIndex b (symbolAddress, name) = Returns b' →
  stepB_invariant canonical0 available0 length0
    (visited ++ [(symbolAddress, name)]) b'.
Proof.
  intros Hav_nd Hav Hcan0 Hnew
    (Hk_nd & Hv_nd & (used & Hused & Hvals) & Hlen & Hiter & Hkeep & Hrows)
    (s & ns & index & Hget' & Hindex & Hcases & Hlen' & _ & Hrow & Hother)
    %canonicalizeSymbol_rows.
  pose proof (indexForString_extends _ _ _ _ Hindex) as Hext.
  apply indexForString_lookupIndex, lookupIndex_Some in Hindex.
  injection Hrow as Hrow_address Hrow_name.
  assert (∀ sa nm,
            (sa, nm) ∈ visited ++ [(symbolAddress, name)] →
            NativeSymbolTable.address ns = NativeSymbolTable.address
                                             (StepB.nativeSymbols b) →
            NativeSymbolTable.name ns = NativeSymbolTable.name
                                          (StepB.nativeSymbols b) →
            (∀ sa' s', sa' ≠ symbolAddress →
               JsMap.get (StepB.symbolAddressToCanonicalSymbolIndexMap b) sa'
               = Some s' →
               JsMap.get (StepB.symbolAddressToCanonicalSymbolIndexMap b') sa'
               = Some s' ∧ s' ≠ s) →
            ∃ s' index',
              JsMap.get (StepB.symbolAddressToCanonicalSymbolIndexMap b') sa
              = Some s'
              ∧ NativeSymbolTable.address (StepB.nativeSymbols b') !! s'
                = Some sa
              ∧ NativeSymbolTable.name (StepB.nativeSymbols b') !! s'
                = Some index'
              ∧ StepB.stringTable b' !! index' = Some nm) as Hrows'.
  { intros sa nm [Hin|[= -> ->]%list_elem_of_singleton]%elem_of_app
      Haddress Hname Hmono.
    - destruct (Hrows sa nm Hin) as (s' & index' & Hg & Ha & Hn & Hs).
      assert (sa ≠ symbolAddress) as Hne.
      { intros ->. apply Hnew. apply list_elem_of_fmap.
        by exists (symbolAddress, nm). }
      destruct (Hmono sa s' Hne Hg) as [Hg' Hs'].
      specialize (Hother s' Hs'). injection Hother as Ha' Hn'.
      exists s', index'. rewrite Ha', Hn', Haddress, Hname.
      split_and!; try done. by eapply prefix_lookup_Some.
    - by exists s, index. }
  unfold stepB_invariant.
  destruct Hcases as [(Hget & Hit & -> & Hmap)|(Hget & Hmap & Hnext)].
  { rewrite Hit, Hmap, Hlen'. split_and!; try done.
    - by exists used.
    - intros sa nm Hin. rewrite <-Hmap. apply Hrows'; [done..|].
      intros sa' s' Hne Hg. rewrite Hmap. split; [done|].
      intros ->. apply Hne. by eapply jsmap_values_inj. }
  assert ((s ∉ (StepB.symbolAddressToCanonicalSymbolIndexMap b).*2)
          ∧ (length0 ≤ NativeSymbolTable.length ns)%nat
          ∧ NativeSymbolTable.address ns
            = NativeSymbolTable.address (StepB.nativeSymbols b)
          ∧ NativeSymbolTable.name ns
            = NativeSymbolTable.name (StepB.nativeSymbols b)
          ∧ ∃ used',
              available0 = used' ++ StepB.availableNativeSymbolIterator b'
              ∧ (∀ s', s' = s
                       ∨ s' ∈ (StepB.symbolAddressToCanonicalSymbolIndexMap
                                 b).*2
                       ↔ s' ∈ canonical0.*2 ∨ s' ∈ used'
                         ∨ (length0 ≤ s' < NativeSymbolTable.length ns)%nat)
              ∧ (StepB.availableNativeSymbolIterator b' ≠ [] →
                 NativeSymbolTable.length ns = length0))
    as (Hs_new & Hlen1 & Haddress1 & Hname1 & used' & Hused' & Hvals'
        & Hiter').
  { destruct Hnext as [[Hit ->]|(Hit & Hit' & Hadd)].
    - assert (NativeSymbolTable.length (StepB.nativeSymbols b) = length0)
        as Hlen0.
      { apply Hiter. by rewrite Hit. }
      rewrite Hit in Hused.
      assert (s ∉ used) as Hs_used.
      { rewrite Hused in Hav_nd. apply NoDup_app in Hav_nd as (_ & Hd & _).
        intros Hs. apply (Hd s Hs). left. }
      assert (s < length0 ∧ s ∉ canonical0.*2) as [Hs_lt Hs_can].
      { apply Hav. rewrite Hused, elem_of_app. right. left. }
      split_and!; try done.
      + rewrite Hvals. intros [?|[?|?]]; [done|done|lia].
      + exists (used ++ [s]). split_and!.
        * by rewrite <-app_assoc.
        * intros s'. rewrite Hvals, elem_of_app, list_elem_of_singleton.
          tauto.
        * done.
    - apply addNativeSymbol_rows in Hadd
          as (-> & Hlen1 & Haddress1 & Hname1 & _).
      rewrite Hit, app_nil_r in Hused. subst used.
      split_and!; try done.
      + rewrite Hvals. intros [Hs%Hcan0|[Hs%Hav|?]]; lia.
      + lia.
      + exists available0. rewrite Hit', app_nil_r.
        split_and!; [done| |done].
        intros s'. rewrite Hvals, Hlen1. split.
        -- intros [->|[?|[?|?]]]; [right; right|by left|right; by left|
                                    right; right]; lia.
        -- intros [?|[?|?]]; [right; by left|right; right; by left|].
           destruct (decide (s' = NativeSymbolTable.length
                                    (StepB.nativeSymbols b)));
             [by left|right; right; right; lia]. }
  assert (JsMap.has (StepB.symbolAddressToCanonicalSymbolIndexMap b)
            symbolAddress = false) as Hhas by by apply jsmap_has_false.
  assert (∀ sa' s',
            JsMap.get (StepB.symbolAddressToCanonicalSymbolIndexMap b) sa'
            = Some s' →
            JsMap.get (StepB.symbolAddressToCanonicalSymbolIndexMap b') sa'
            = Some s' ∧ s' ≠ s) as Hmono.
  { intros sa' s' Hg. rewrite Hmap.
    rewrite jsmap_get_set_ne by congruence. split; [done|].
    intros ->. by apply Hs_new, (jsmap_get_elem_of_values _ sa'). }
  rewrite Hmap, Hlen'. split_and!.
  - by apply jsmap_NoDup_set.
  - rewrite jsmap_set_new, fmap_app by done. simpl.
    apply NoDup_app. split_and!; [done| |apply NoDup_singleton].
    by intros s' Hs' ->%list_elem_of_singleton.
  - exists used'. split; [done|]. intros s'.
    rewrite jsmap_set_new, fmap_app, elem_of_app by done. simpl.
    rewrite list_elem_of_singleton, <-Hvals'. tauto.
  - lia.
  - done.
  - intros sa' s' Hg%Hkeep. rewrite <-Hmap. by apply Hmono.
  - rewrite <-Hmap. intros sa nm Hin. apply Hrows'; [done..|].
    intros sa' s' _ Hg. by apply Hmono.
Qed.

Lemma stepB_spec thread info results a b :
  (∀ s, s ∈ ThreadLibSymbolicationInfo.allNativeSymbolsForThisLib info →
        s < NativeSymbolTable.length (Thread.nativeSymbols thread)) →
  stepA thread info results = Returns a →
  stepB thread (ThreadLibSymbolicationInfo.libIndex info) a = Returns b →
  stepB_invariant (StepA.symbolAddressToCanonicalSymbolIndexMap a)
    (StepA.availableNativeSymbols a)
    (NativeSymbolTable.length (Thread.nativeSymbols thread))
    (StepA.symbolAddressToNameMap a) b.
Proof.
  intros Hlt (_ & _ & _ & Hn_nd & _ & Hc_nd & _ & Hv_nd & Hav_nd & Hvalues
              & Havailable)%stepA_spec.
  assert (∀ s, s ∈ JsSet.of_list
                     (ThreadLibSymbolicationInfo.allNativeSymbolsForThisLib
                        info) →
               s < NativeSymbolTable.length (Thread.nativeSymbols thread))
    as Hlt'.
  { intros s Hs. by apply Hlt, jsset_of_list_spec. }
  unfold stepB.
  apply (foldlM_invariant _
           (stepB_invariant (StepA.symbolAddressToCanonicalSymbolIndexMap a)
              (StepA.availableNativeSymbols a)
              (NativeSymbolTable.length (Thread.nativeSymbols thread)))).
  - unfold stepB_invariant, shallowCloneNativeSymbolTable. simpl.
    split_and!; try done.
    + exists []. split; [done|]. intros s. rewrite elem_of_nil.
      split; [by left|]. intros [?|[?|?]]; [done|done|lia].
    + by intros sa nm ?%elem_of_nil.
  - intros pre [sa nm] post b0 b1 Heq. apply stepB_invariant_step; [done|..].
    + intros s [Hs Hout]%Havailable. split; [by apply Hlt'|done].
    + intros s Hs%Hvalues. by apply Hlt'.
    + rewrite Heq, fmap_app, fmap_cons in Hn_nd.
      apply NoDup_app in Hn_nd as (_ & Hd & _).
      intros Hsa. apply (Hd sa Hsa). left.
Qed.

Lemma stepA_names thread info results a :
  stepA thread info results = Returns a →
  ∀ symbolAddress name,
    JsMap.get (StepA.symbolAddressToNameMap a) symbolAddress = Some name →
    ∃ f old r,
      f ∈ ThreadLibSymbolicationInfo.allFramesForThisLib info
      ∧ resolveFrame thread results f = Returns (old, r)
      ∧ AddressResult.symbolAddress r = symbolAddress
      ∧ AddressResult.name r = name.
Proof.
  unfold stepA.
  apply (foldlM_invariant _
           (λ visited a,
              ∀ symbolAddress name,
                JsMap.get (StepA.symbolAddressToNameMap a) symbolAddress
                = Some name →
                ∃ f old r,
                  f ∈ visited
                  ∧ resolveFrame thread results f = Returns (old, r)
                  ∧ AddressResult.symbolAddress r = symbolAddress
                  ∧ AddressResult.name r = name)); [done|].
  intros pre f post a0 a1 _ IH
    (old & r & Hres & _ & Hnames & _)%resolveSymbolAddress_Returns sa name.
  rewrite Hnames, jsmap_get_set.
  destruct (decide (AddressResult.symbolAddress r = sa)) as [<-|Hne].
  - intros [= <-]. exists f, old, r. split; [|done].
    apply elem_of_app. right. left.
  - intros (g & oldg & rg & Hg & Hrest)%IH. exists g, oldg, rg.
    split; [|done]. apply elem_of_app. by left.
Qed.

(** X16.  When a step returns on a library slice whose native symbols are
    rows of the native-symbol table, the row of the native symbol a frame
    of the library ends up with holds the frame's symbol address, and for
    its name a string-table index of the name some frame of the library
    with that symbol address resolved to.  Two frames of the library with
    the same native symbol in the new frame table have the same symbol
    address: symbols are not shared between symbol addresses. *)
Theorem applySymbolicationStep_symbol_of_frame (thread : Thread.t)
  (symbolicationStepInfo : SymbolicationStepInfo.t)
  (oldFuncToNewFuncMap : list (nat * nat))
  (thread' : Thread.t) (oldFuncToNewFuncMap' : list (nat * nat)) :
  let info :=
    SymbolicationStepInfo.threadLibSymbolicationInfo symbolicationStepInfo in
  let frames := ThreadLibSymbolicationInfo.allFramesForThisLib info in
  let resolved f :=
    resolveFrame thread
      (SymbolicationStepInfo.resultsForLib symbolicationStepInfo) f in
  let nativeSymbol' := FrameTable.nativeSymbol (Thread.frameTable thread') in
  let nativeSymbols' := Thread.nativeSymbols thread' in
  (∀ s, s ∈ ThreadLibSymbolicationInfo.allNativeSymbolsForThisLib info →
        s < NativeSymbolTable.length (Thread.nativeSymbols thread)) →
  applySymbolicationStep thread symbolicationStepInfo oldFuncToNewFuncMap
  = Returns (thread', oldFuncToNewFuncMap') →
  (∀ f old r,
     f ∈ frames → resolved f = Returns (old, r) →
     ∃ s index,
       nativeSymbol' !! f = Some (Some s)
       ∧ NativeSymbolTable.address nativeSymbols' !! s
         = Some (AddressResult.symbolAddress r)
       ∧ NativeSymbolTable.name nativeSymbols' !! s = Some index
       ∧ ∃ g oldg rg,
           g ∈ frames ∧ resolved g = Returns (oldg, rg)
           ∧ AddressResult.symbolAddress rg = AddressResult.symbolAddress r
           ∧ Thread.stringTable thread' !! index
             = Some (AddressResult.name rg))
  ∧ ∀ f g oldf rf oldg rg,
      f ∈ frames → g ∈ frames →
      resolved f = Returns (oldf, rf) → resolved g = Returns (oldg, rg) →
      nativeSymbol' !! f = nativeSymbol' !! g →
      AddressResult.symbolAddress rf = AddressResult.symbolAddress rg.
Proof.
  intros info frames resolved nativeSymbol' nativeSymbols' Hlt.
  unfold applySymbolicationStep.
  intros (run & Hrun%runSymbolicationStep_Returns & [= <- <-])%bind_Returns.
  destruct Hrun as (Ha & Hb & Hcol & Hc & _ & _ & _ & _ & _ & _ & Hsymbols
                    & Hstrings & _).
  pose proof (stepA_names _ _ _ _ Ha) as Hnames.
  pose proof (stepB_spec _ _ _ _ _ Hlt Ha Hb)
    as (_ & Hv_nd & _ & _ & _ & _ & Hrows).
  apply stepC_stringTable_extends in Hc as Hext.
  apply stepA_spec in Ha as (Hf_nd & Hf_keys & Hf_res & _ & Hn_keys & _).
  apply assignNativeSymbols_spec in Hcol as (_ & Hcol & _); [|done|].
  2:{ intros f (sa & Hsa)%jsmap_get_is_Some.
      destruct (Hf_res f sa Hsa) as (old & r & Hres & _).
      apply resolveFrame_in_range in Hres as [Hres _].
      by eapply lookup_lt_Some. }
  assert (∀ f old r,
            f ∈ frames → resolved f = Returns (old, r) →
            ∃ s, JsMap.get (StepB.symbolAddressToCanonicalSymbolIndexMap
                              (Run.stepB run))
                   (AddressResult.symbolAddress r) = Some s
                 ∧ JsMap.get (StepA.frameToSymbolAddressMap (Run.stepA run)) f
                   = Some (AddressResult.symbolAddress r)
                 ∧ nativeSymbol' !! f = Some (Some s)) as Hframe.
  { intros f old r (sa & Hsa)%Hf_keys%jsmap_get_is_Some Hres.
    destruct (Hf_res f sa Hsa) as (old' & r' & Hres' & <-).
    assert (r' = r) as -> by (unfold resolved in Hres; congruence).
    destruct (Hcol f _ Hsa) as (s & Hs & Hf). by exists s. }
  split.
  - intros f old r Hf Hres.
    destruct (Hframe f old r Hf Hres) as (s & Hs & Hsa & Hcolumn).
    assert (∃ name,
              JsMap.get (StepA.symbolAddressToNameMap (Run.stepA run))
                (AddressResult.symbolAddress r) = Some name) as [name Hname].
    { apply jsmap_get_is_Some, Hn_keys. by exists f. }
    destruct (Hrows _ _ (jsmap_get_Some_elem _ _ _ Hname))
      as (s' & index & Hs' & Haddress & Hindex & Hstring).
    assert (s' = s) as -> by congruence.
    destruct (Hnames _ _ Hname) as (g & oldg & rg & Hg & Hresg & Hsag & <-).
    exists s, index. subst nativeSymbols'. rewrite Hsymbols, Hstrings.
    split_and!; try done. exists g, oldg, rg. split_and!; try done.
    by eapply prefix_lookup_Some.
  - intros f g oldf rf oldg rg Hf Hg Hresf Hresg Heq.
    destruct (Hframe f oldf rf Hf Hresf) as (sf & Hsf & _ & Hcf).
    destruct (Hframe g oldg rg Hg Hresg) as (sg & Hsg & _ & Hcg).
    rewrite Hcf, Hcg in Heq. injection Heq as <-.
    by eapply jsmap_values_inj.
Qed.

Lemma applySymbolicationStep_symbol_of_frame_witness :
  ∃ s index,
    FrameTable.nativeSymbol (Thread.frameTable Example.refined.1) !! 3
    = Some (Some s)
    ∧ NativeSymbolTable.address (Thread.nativeSymbols Example.refined.1) !! s
      = Some 6656%Z
    ∧ NativeSymbolTable.name (Thread.nativeSymbols Example.refined.1) !! s
      = Some index
    ∧ Thread.stringTable Example.refined.1 !! index = Some "third symbol".
Proof.
  assert (applySymbolicationStep Example.coarse.1
            (Example.stepOf Example.coarse.1 Example.completeSymbolTable) []
          = Returns (Example.refined.1, Example.refined.2)) as Hstep
    by (vm_compute; reflexivity).
  assert (∀ s,
            s ∈ ThreadLibSymbolicationInfo.allNativeSymbolsForThisLib
                  (Example.infoOf Example.coarse.1) →
            s < NativeSymbolTable.length
                  (Thread.nativeSymbols Example.coarse.1)) as Hlt.
  { apply Forall_forall. refine (bool_decide_unpack _ _). vm_compute.
    exact I. }
  destruct (applySymbolicationStep_symbol_of_frame Example.coarse.1
              (Example.stepOf Example.coarse.1 Example.completeSymbolTable)
              [] Example.refined.1 Example.refined.2 Hlt Hstep)
    as [Hrows _].
  destruct (Hrows 3 (Some 0) (Example.symbol 6656 "third symbol"))
    as (s & index & Hs & Haddress & Hindex & Hname).
  { refine (bool_decide_unpack _ _). vm_compute. exact I. }
  { vm_compute. reflexivity. }
  exists s, index. split; [exact Hs|]. split; [exact Haddress|].
  split; [exact Hindex|].
  destruct Hname as (g & oldg & rg & Hg & Hresg & Hsa & Hstring).
  assert (g ∈ [0; 1; 2; 3; 4]) as Hg'.
  { match type of Hg with
    | _ ∈ ?l =>
        assert (l = [0; 1; 2; 3; 4]) as <- by (vm_compute; reflexivity)
    end.
    exact Hg. }
  rewrite Hstring. f_equal.
  repeat (apply elem_of_cons in Hg' as [->|Hg'];
          [vm_compute in Hresg; injection Hresg as <- <-;
           first [reflexivity|discriminate Hsa]|]).
  apply elem_of_nil in Hg'. destruct Hg'.
Defined.

(** ** Third loop: what a frame's func and line end up as *)

Lemma funcAddressResult_results oldFrameTable results nativeSymbols column
  stringTable funcTable f oldFunc r address addressResult :
  funcAddressResult oldFrameTable results nativeSymbols column stringTable
    funcTable f oldFunc = Returns r →
  FrameTable.address oldFrameTable !! f = Some address →
  results !! address = Some addressResult →
  r = addressResult.
Proof.
  unfold funcAddressResult, read. intros Hr Haddress Hresult.
  destruct (column !! f) as [[s|]|]; [|done..]. simpl in Hr.
  rewrite Haddress in Hr. simpl in Hr. rewrite Hresult in Hr. congruence.
Qed.

Lemma stepC_lines thread info results stringTable nativeSymbols column c :
  NoDup (ThreadLibSymbolicationInfo.allFramesForThisLib info) →
  stepC thread info results stringTable nativeSymbols column = Returns c →
  ∀ f r,
    (f, r) ∈ StepC.resolved c →
    StepC.newFrameTableLineColumn c !! f = Some (AddressResult.line r)
    ∧ ∀ address addressResult,
        FrameTable.address (Thread.frameTable thread) !! f = Some address →
        results !! address = Some addressResult →
        r = addressResult.
Proof.
  intros Hnd. unfold stepC. intros Hfold.
  apply (foldlM_invariant _
           (λ visited c,
              (StepC.resolved c).*1 = visited
              ∧ ∀ f r,
                  (f, r) ∈ StepC.resolved c →
                  StepC.newFrameTableLineColumn c !! f
                  = Some (AddressResult.line r)
                  ∧ ∀ address addressResult,
                      FrameTable.address (Thread.frameTable thread) !! f
                      = Some address →
                      results !! address = Some addressResult →
                      r = addressResult)) in Hfold;
    [by destruct Hfold| |].
  { split; [done|]. by intros f r ?%elem_of_nil. }
  intros pre f post c0 c1 Heq [Hvisited IH]
    (oldFunc & r & ni & st & fi & n & ft & _ & Hr & _ & _ & _ & _ & _
     & (Hline & Hother & _)%write_Returns & _ & Hresolved)
    %canonicalizeFunc_Returns.
  rewrite Hresolved. split; [by rewrite fmap_app, Hvisited|].
  intros g rg [Hin|[= -> ->]%list_elem_of_singleton]%elem_of_app.
  - destruct (IH g rg Hin) as [Hg Hresults]. split; [|done].
    rewrite Hother; [done|]. intros ->.
    rewrite Heq in Hnd. apply NoDup_app in Hnd as (_ & Hd & _).
    apply (Hd f); [|left]. rewrite <-Hvisited.
    apply list_elem_of_fmap. by exists (f, rg).
  - split; [done|]. intros address addressResult.
    by eapply funcAddressResult_results.
Qed.

(** X17.  When a step returns on a library slice whose frames are listed
    once and whose funcs are rows of the func table: for every frame of
    the library, the address result the third loop settled on is the one
    the results hold for the frame's address, if they hold one; the row of
    the frame's func in the new func table has for its name a string-table
    index of the result's name, and for its file a string-table index of
    the result's file, or null if the result has no file; and the frame's
    line is the result's line, or null if it has none. *)
Theorem applySymbolicationStep_func_of_frame
  (thread : Thread.t) (symbolicationStepInfo : SymbolicationStepInfo.t)
  (oldFuncToNewFuncMap : list (nat * nat)) (run : Run.t) :
  let info :=
    SymbolicationStepInfo.threadLibSymbolicationInfo symbolicationStepInfo in
  let results := SymbolicationStepInfo.resultsForLib symbolicationStepInfo in
  let frames := ThreadLibSymbolicationInfo.allFramesForThisLib info in
  let resolved := StepC.resolved (Run.stepC run) in
  let frameTable' := Thread.frameTable (Run.thread run) in
  let funcTable' := Thread.funcTable (Run.thread run) in
  let stringTable' := Thread.stringTable (Run.thread run) in
  NoDup frames →
  (∀ n, n ∈ ThreadLibSymbolicationInfo.allFuncsForThisLib info →
        n < FuncTable.length (Thread.funcTable thread)) →
  runSymbolicationStep thread symbolicationStepInfo oldFuncToNewFuncMap
  = Returns run →
  resolved.*1 = frames
  ∧ ∀ f r,
      (f, r) ∈ resolved →
      (∀ address addressResult,
         FrameTable.address (Thread.frameTable thread) !! f = Some address →
         results !! address = Some addressResult →
         r = addressResult)
      ∧ (∃ n nameIndex,
           FrameTable.func frameTable' !! f = Some n
           ∧ FuncTable.name funcTable' !! n = Some nameIndex
           ∧ stringTable' !! nameIndex = Some (AddressResult.name r)
           ∧ match AddressResult.file r with
             | Some file =>
                 ∃ fileIndex,
                   FuncTable.fileName funcTable' !! n = Some (Some fileIndex)
                   ∧ stringTable' !! fileIndex = Some file
             | None => FuncTable.fileName funcTable' !! n = Some None
             end)
      ∧ FrameTable.line frameTable' !! f = Some (AddressResult.line r).
Proof.
  intros info results frames resolved frameTable' funcTable' stringTable'
    Hnd Hlt Hrun.
  pose proof (runSymbolicationStep_Returns _ _ _ _ Hrun)
    as (_ & _ & _ & Hc & Hfunc & Hline & _ & _ & _ & Hfuncs & _ & Hstrings
        & _).
  pose proof (stepC_lines _ _ _ _ _ _ _ Hnd Hc) as Hlines.
  apply stepC_spec in Hc
      as (Hres & _ & _ & _ & _ & _ & Hframes & Hrows); [|done..].
  split; [done|]. intros f r Hin.
  destruct (Hlines f r Hin) as [Hl Hresults].
  split; [done|]. split; [|subst frameTable'; by rewrite Hline].
  destruct (Hframes f r Hin) as (key & n & Hkey & Hget & Hcolumn).
  destruct (Hrows key n Hget) as (nameIndex & fileIndex & -> & Hname & Hfile).
  subst frameTable' funcTable' stringTable'.
  rewrite Hfunc, Hfuncs, Hstrings.
  exists n, nameIndex. split; [done|]. split; [done|].
  unfold keyIn in Hkey.
  destruct (lookupIndex (StepC.stringTable (Run.stepC run))
              (AddressResult.name r)) as [ni|] eqn:Hni; [|done].
  simpl in Hkey.
  destruct (AddressResult.file r) as [file|]; simpl in Hkey.
  - destruct (lookupIndex (StepC.stringTable (Run.stepC run)) file)
      as [fi|] eqn:Hfi; [|done].
    simpl in Hkey. injection Hkey as [-> <-]%funcKey_inj.
    split; [by apply lookupIndex_Some|].
    exists fi. split; [done|]. by apply lookupIndex_Some.
  - injection Hkey as [-> <-]%funcKey_inj.
    split; [by apply lookupIndex_Some|done].
Qed.

Lemma applySymbolicationStep_func_of_frame_witness :
  ∃ run n nameIndex,
    refinedRun = Some run
    ∧ FrameTable.func (Thread.frameTable (Run.thread run)) !! 3 = Some n
    ∧ FuncTable.name (Thread.funcTable (Run.thread run)) !! n
      = Some nameIndex
    ∧ Thread.stringTable (Run.thread run) !! nameIndex = Some "third symbol"
    ∧ FrameTable.line (Thread.frameTable (Run.thread run)) !! 3 = Some None.
Proof.
  destruct refinedRun as [run|] eqn:Hrefined; [|discriminate].
  exists run.
  assert (runSymbolicationStep Example.coarse.1
            (Example.stepOf Example.coarse.1 Example.completeSymbolTable) []
          = Returns run) as Hrun.
  { injection Hrefined as <-. vm_compute. reflexivity. }
  assert ((3, Example.symbol 6656 "third symbol")
          ∈ StepC.resolved (Run.stepC run)) as Hin.
  { injection Hrefined as <-. do 3 right. left. }
  destruct (applySymbolicationStep_func_of_frame Example.coarse.1
              (Example.stepOf Example.coarse.1 Example.completeSymbolTable) []
              run) as [_ Hframes]; [..|exact Hrun|].
  { refine (bool_decide_unpack _ _). vm_compute. exact I. }
  { apply Forall_forall. refine (bool_decide_unpack _ _). vm_compute.
    exact I. }
  destruct (Hframes 3 _ Hin)
    as (_ & (n & nameIndex & Hfunc & Hname & Hstring & _) & Hline).
  exists n, nameIndex. split; [reflexivity|]. split; [exact Hfunc|].
  split; [exact Hname|]. split; [exact Hstring|exact Hline].
Defined.

(** ** How much the tables grow *)

Lemma NoDup_same_length {A : Type} (l1 l2 : list A) :
  NoDup l1 → NoDup l2 → (∀ x, x ∈ l1 ↔ x ∈ l2) → length l1 = length l2.
Proof.
  intros H1 H2 Hin. apply Permutation_length. by apply NoDup_Permutation.
Qed.

Lemma NoDup_reused_and_new (values used : list nat) from to :
  NoDup values → NoDup used → (from ≤ to)%nat →
  (∀ n, n ∈ used → n < from) →
  (∀ n, n ∈ values ↔ n ∈ used ∨ (from ≤ n < to)%nat) →
  length values = length used + (to - from).
Proof.
  intros Hvalues Hused Hle Hlt Hin.
  rewrite (NoDup_same_length values (used ++ seq from (to - from)));
    [by rewrite length_app, length_seq|done| |].
  - apply NoDup_app. split; [done|]. split; [|apply NoDup_seq].
    intros n Hn [Hn' _]%elem_of_seq. apply Hlt in Hn. lia.
  - intros n. rewrite Hin, elem_of_app, elem_of_seq.
    split; (intros [?|?]; [by left|right; lia]).
Qed.

Lemma stepC_growth thread info results stringTable nativeSymbols column c :
  NoDup (ThreadLibSymbolicationInfo.allFramesForThisLib info) →
  (∀ n, n ∈ ThreadLibSymbolicationInfo.allFuncsForThisLib info →
        n < FuncTable.length (Thread.funcTable thread)) →
  stepC thread info results stringTable nativeSymbols column = Returns c →
  FuncTable.length (StepC.funcTable c)
  = FuncTable.length (Thread.funcTable thread)
    + (length (StepC.funcKeyToFuncMap c)
       - length (JsSet.of_list
                   (ThreadLibSymbolicationInfo.allFuncsForThisLib info))).
Proof.
  intros Hnd Hlt
    (_ & _ & Hv_nd & (used & Hused & Hvals) & Hlen & Hiter & _)%stepC_spec;
    [|done..].
  destruct (jsset_of_list_spec
              (ThreadLibSymbolicationInfo.allFuncsForThisLib info))
    as [Hav_nd Hav_in].
  rewrite Hused in Hav_nd. apply NoDup_app in Hav_nd as (Hused_nd & _ & _).
  assert (∀ n, n ∈ used → n < FuncTable.length (Thread.funcTable thread))
    as Hused_lt.
  { intros n Hn. apply Hlt, Hav_in. rewrite Hused. apply elem_of_app.
    by left. }
  pose proof (NoDup_reused_and_new _ _ _ _ Hv_nd Hused_nd Hlen Hused_lt Hvals)
    as Hcount.
  rewrite length_fmap in Hcount. rewrite Hused, length_app.
  destruct (StepC.availableFuncIter c) as [|n iter].
  - simpl. lia.
  - rewrite Hiter in * by done. simpl. lia.
Qed.

Lemma stepB_growth thread info results a b :
  (∀ s, s ∈ ThreadLibSymbolicationInfo.allNativeSymbolsForThisLib info →
        s < NativeSymbolTable.length (Thread.nativeSymbols thread)) →
  stepA thread info results = Returns a →
  stepB thread (ThreadLibSymbolicationInfo.libIndex info) a = Returns b →
  NativeSymbolTable.length (StepB.nativeSymbols b)
  = NativeSymbolTable.length (Thread.nativeSymbols thread)
    + (length (StepA.symbolAddressToNameMap a)
       - length (JsSet.of_list
                   (ThreadLibSymbolicationInfo.allNativeSymbolsForThisLib
                      info)))
  ∧ (StepB.symbolAddressToCanonicalSymbolIndexMap b).*1
    ≡ₚ (StepA.symbolAddressToNameMap a).*1.
Proof.
  intros Hlt Ha Hb.
  pose proof (stepB_spec _ _ _ _ _ Hlt Ha Hb)
    as (Hk_nd & Hv_nd & (used & Hused & Hvals) & Hlen & Hiter & Hkeep & _).
  pose proof (stepB_covers _ _ _ _ Hb) as Hcovers.
  assert (∀ sa, sa ∈ (StepB.symbolAddressToCanonicalSymbolIndexMap b).*1 →
                sa ∈ (StepA.symbolAddressToNameMap a).*1) as Hsub.
  { assert (∀ sa,
              sa ∈ (StepB.symbolAddressToCanonicalSymbolIndexMap b).*1 →
              sa ∈ (StepA.symbolAddressToCanonicalSymbolIndexMap a).*1
              ∨ sa ∈ (StepA.symbolAddressToNameMap a).*1) as Hpost.
    { revert Hb. unfold stepB.
      apply (foldlM_invariant _
               (λ pre b,
                  ∀ sa,
                    sa ∈ (StepB.symbolAddressToCanonicalSymbolIndexMap b).*1 →
                    sa ∈ (StepA.symbolAddressToCanonicalSymbolIndexMap a).*1
                    ∨ sa ∈ pre.*1)).
      - intros sa Hsa. by left.
      - intros pre [sa nm] post b0 b1 _ IH
          (s & ns & idx & _ & _ & Hcases & _)%canonicalizeSymbol_rows sa'.
        rewrite fmap_app, elem_of_app. simpl. rewrite list_elem_of_singleton.
        destruct Hcases as [(_ & _ & _ & ->)|(_ & -> & _)].
        + intros [?|?]%IH; [by left|right; by left].
        + intros [->|[?|?]%IH]%jsmap_elem_of_keys_set;
            [right; by right|by left|right; by left]. }
    intros sa [?|?]%Hpost; [|done].
    apply stepA_spec in Ha as (_ & _ & _ & _ & _ & _ & Hsub & _).
    by apply Hsub. }
  apply stepA_spec in Ha
      as (_ & _ & _ & Hn_nd & _ & Hc_nd & _ & Hv0_nd & Hav_nd & Hvalues
          & Havailable).
  assert ((StepB.symbolAddressToCanonicalSymbolIndexMap b).*1
          ≡ₚ (StepA.symbolAddressToNameMap a).*1) as Hperm.
  { apply NoDup_Permutation; [done..|]. intros sa. split; auto. }
  split; [|done].
  destruct (jsset_of_list_spec
              (ThreadLibSymbolicationInfo.allNativeSymbolsForThisLib info))
    as [Hsym_nd Hsym_in].
  set (symbols := JsSet.of_list
                    (ThreadLibSymbolicationInfo.allNativeSymbolsForThisLib
                       info)) in *.
  assert (length symbols
          = length (StepA.symbolAddressToCanonicalSymbolIndexMap a)
            + length (StepA.availableNativeSymbols a)) as Hsymbols.
  { rewrite <-(length_fmap snd), <-length_app.
    apply NoDup_same_length; [done| |].
    - apply NoDup_app. split; [done|]. split; [|done].
      intros s Hs [_ Hs']%Havailable. done.
    - intros s. rewrite elem_of_app, Havailable. split.
      + intros Hs.
        destruct (decide (s ∈ (StepA.symbolAddressToCanonicalSymbolIndexMap
                                 a).*2)); [by left|by right].
      + intros [?%Hvalues|[? _]]; done. }
  assert (length (StepB.symbolAddressToCanonicalSymbolIndexMap b)
          = length (StepA.symbolAddressToCanonicalSymbolIndexMap a)
            + length used
            + (NativeSymbolTable.length (StepB.nativeSymbols b)
               - NativeSymbolTable.length (Thread.nativeSymbols thread)))
    as Hcount.
  { rewrite <-(length_fmap snd), <-(length_fmap snd _), <-length_app.
    rewrite Hused in Hav_nd.
    apply NoDup_app in Hav_nd as Hav_nd'. destruct Hav_nd' as (Hused_nd & _ & _).
    apply NoDup_reused_and_new; [done| |done| |].
    - apply NoDup_app. split; [done|]. split; [|done].
      intros s Hs Hs'.
      assert (s ∈ StepA.availableNativeSymbols a) as [_ Hout]%Havailable.
      { rewrite Hused. apply elem_of_app. by left. }
      done.
    - intros s [Hs%Hvalues|Hs]%elem_of_app.
      + by apply Hlt, Hsym_in.
      + apply Hlt, Hsym_in.
        assert (s ∈ StepA.availableNativeSymbols a) as [? _]%Havailable;
          [|done].
        rewrite Hused. apply elem_of_app. by left.
    - intros s. rewrite Hvals, elem_of_app. tauto. }
  rewrite <-(length_fmap fst (StepA.symbolAddressToNameMap a)), <-Hperm,
    length_fmap, Hcount, Hsymbols, Hused, length_app.
  destruct (StepB.availableNativeSymbolIterator b) as [|s iter].
  - simpl. lia.
  - rewrite Hiter in * by done. simpl. lia.
Qed.

(** X18.  A step appends rows only once it has run out of rows of the
    library to reuse.  On a library slice whose frames are listed once and
    whose funcs and native symbols are rows of their tables, the
    native-symbol table grows by the number of distinct symbol addresses
    of the library's frames in excess of the library's native symbols, and
    the func table grows by the number of distinct func keys of the
    library's frames in excess of the library's funcs. *)
Theorem applySymbolicationStep_growth
  (thread : Thread.t) (symbolicationStepInfo : SymbolicationStepInfo.t)
  (oldFuncToNewFuncMap : list (nat * nat)) (run : Run.t) :
  let info :=
    SymbolicationStepInfo.threadLibSymbolicationInfo symbolicationStepInfo in
  let availableFuncs :=
    JsSet.of_list (ThreadLibSymbolicationInfo.allFuncsForThisLib info) in
  let availableNativeSymbols :=
    JsSet.of_list
      (ThreadLibSymbolicationInfo.allNativeSymbolsForThisLib info) in
  NoDup (ThreadLibSymbolicationInfo.allFramesForThisLib info) →
  (∀ n, n ∈ ThreadLibSymbolicationInfo.allFuncsForThisLib info →
        n < FuncTable.length (Thread.funcTable thread)) →
  (∀ s, s ∈ ThreadLibSymbolicationInfo.allNativeSymbolsForThisLib info →
        s < NativeSymbolTable.length (Thread.nativeSymbols thread)) →
  runSymbolicationStep thread symbolicationStepInfo oldFuncToNewFuncMap
  = Returns run →
  NativeSymbolTable.length (Thread.nativeSymbols (Run.thread run))
  = NativeSymbolTable.length (Thread.nativeSymbols thread)
    + (length (StepA.symbolAddressToNameMap (Run.stepA run))
       - length availableNativeSymbols)
  ∧ FuncTable.length (Thread.funcTable (Run.thread run))
    = FuncTable.length (Thread.funcTable thread)
      + (length (StepC.funcKeyToFuncMap (Run.stepC run))
         - length availableFuncs).
Proof.
  intros info availableFuncs availableNativeSymbols Hnd Hfuncs Hsymbols
    (Ha & Hb & _ & Hc & _ & _ & _ & _ & _ & -> & -> & _)
    %runSymbolicationStep_Returns.
  split.
  - by destruct (stepB_growth _ _ _ _ _ Hsymbols Ha Hb).
  - by apply stepC_growth in Hc.
Qed.

Lemma applySymbolicationStep_growth_witness :
  ∃ run,
    mergedRun = Some run
    ∧ length (StepA.symbolAddressToNameMap (Run.stepA run)) = 4
    ∧ length (StepC.funcKeyToFuncMap (Run.stepC run)) = 4
    ∧ NativeSymbolTable.length (Thread.nativeSymbols (Run.thread run))
      = 0 + (4 - 0)
    ∧ FuncTable.length (Thread.funcTable (Run.thread run)) = 1 + (4 - 1).
Proof.
  destruct mergedRun as [run|] eqn:Hmerged; [|discriminate].
  exists run.
  assert (runSymbolicationStep mergedThread
            (Example.stepOf mergedThread Example.completeSymbolTable) []
          = Returns run) as Hrun.
  { injection Hmerged as <-. vm_compute. reflexivity. }
  assert (length (StepA.symbolAddressToNameMap (Run.stepA run)) = 4)
    as Hnames by (injection Hmerged as <-; reflexivity).
  assert (length (StepC.funcKeyToFuncMap (Run.stepC run)) = 4)
    as Hkeys by (injection Hmerged as <-; reflexivity).
  destruct (applySymbolicationStep_growth mergedThread
              (Example.stepOf mergedThread Example.completeSymbolTable) []
              run) as [Hsymbols Hfuncs]; [..|exact Hrun|].
  { refine (bool_decide_unpack _ _). vm_compute. exact I. }
  { apply Forall_forall. refine (bool_decide_unpack _ _). vm_compute.
    exact I. }
  { apply Forall_forall. refine (bool_decide_unpack _ _). vm_compute.
    exact I. }
  split; [reflexivity|]. split; [exact Hnames|]. split; [exact Hkeys|].
  rewrite Hnames in Hsymbols. rewrite Hkeys in Hfuncs.
  split; [exact Hsymbols|exact Hfuncs].
Defined.

(** ** Well-formed threads: a step returns, and returns a well-formed thread *)

Lemma foldlM_progress {A B : Type} (f : A → B → completion A)
  (P : A → Prop) a l :
  P a →
  (∀ a b, b ∈ l → P a → ∃ a', f a b = Returns a' ∧ P a') →
  ∃ a', foldlM f a l = Returns a' ∧ P a'.
Proof.
  revert a. induction l as [|b l IH]; intros a Ha Hstep; simpl.
  - by exists a.
  - destruct (Hstep a b) as (a' & -> & Ha'); [left|done|]. simpl.
    apply IH; [done|]. intros a0 b0 Hb0. apply Hstep. by right.
Qed.

Lemma take_Forall_lookup {A : Type} (P : A → Prop) (l : list A) n i x :
  Forall P (take n l) → i < n → l !! i = Some x → P x.
Proof.
  rewrite Forall_forall. intros Hall Hi Hx. apply Hall.
  apply list_elem_of_lookup. exists i. by rewrite lookup_take_lt.
Qed.

Lemma lookup_in_column {A : Type} (column : list A) n i :
  (n ≤ length column)%nat → i < n → ∃ x, column !! i = Some x.
Proof. intros Hn Hi. apply lookup_lt_is_Some_2. lia. Qed.

Lemma Forall_take_lookup {A : Type} (P : A → Prop) (l : list A) n :
  Forall P (take n l) ↔ ∀ i x, i < n → l !! i = Some x → P x.
Proof.
  split; [intros Hall i x; by apply take_Forall_lookup|].
  intros Hall. apply Forall_forall.
  intros x [i Hi]%list_elem_of_lookup.
  apply lookup_take_Some in Hi as [Hx Hi]. by apply (Hall i).
Qed.

Lemma wellFormed_spec thread :
  wellFormed thread ↔
  let frameTable := Thread.frameTable thread in
  let funcTable := Thread.funcTable thread in
  let nativeSymbols := Thread.nativeSymbols thread in
  ((FrameTable.length frameTable ≤ length (FrameTable.address frameTable))%nat
   ∧ (FrameTable.length frameTable ≤ length (FrameTable.func frameTable))%nat
   ∧ (FrameTable.length frameTable
      ≤ length (FrameTable.nativeSymbol frameTable))%nat
   ∧ (FrameTable.length frameTable ≤ length (FrameTable.line frameTable))%nat)
  ∧ ((FuncTable.length funcTable ≤ length (FuncTable.name funcTable))%nat
     ∧ (FuncTable.length funcTable
        ≤ length (FuncTable.fileName funcTable))%nat
     ∧ (FuncTable.length funcTable
        ≤ length (FuncTable.resource funcTable))%nat
     ∧ (FuncTable.length funcTable ≤ length (FuncTable.isJS funcTable))%nat
     ∧ (FuncTable.length funcTable
        ≤ length (FuncTable.relevantForJS funcTable))%nat
     ∧ (FuncTable.length funcTable
        ≤ length (FuncTable.lineNumber funcTable))%nat
     ∧ (FuncTable.length funcTable
        ≤ length (FuncTable.columnNumber funcTable))%nat)
  ∧ ((NativeSymbolTable.length nativeSymbols
      ≤ length (NativeSymbolTable.libIndex nativeSymbols))%nat
     ∧ (NativeSymbolTable.length nativeSymbols
        ≤ length (NativeSymbolTable.address nativeSymbols))%nat
     ∧ (NativeSymbolTable.length nativeSymbols
        ≤ length (NativeSymbolTable.name nativeSymbols))%nat)
  ∧ (∀ f n, f < FrameTable.length frameTable →
            FrameTable.func frameTable !! f = Some n →
            n < FuncTable.length funcTable)
  ∧ (∀ f s, f < FrameTable.length frameTable →
            FrameTable.nativeSymbol frameTable !! f = Some (Some s) →
            s < NativeSymbolTable.length nativeSymbols)
  ∧ (∀ s index, s < NativeSymbolTable.length nativeSymbols →
                NativeSymbolTable.name nativeSymbols !! s = Some index →
                index < length (Thread.stringTable thread))
  ∧ ∀ n index, n < FuncTable.length funcTable →
               FuncTable.fileName funcTable !! n = Some (Some index) →
               index < length (Thread.stringTable thread).
Proof.
  unfold wellFormed. cbv zeta.
  rewrite !Forall_cons, !Forall_nil, !Forall_take_lookup.
  assert (∀ (column : list (option nat)) n bound,
            (∀ i x, i < n → column !! i = Some x → nullOrBelow bound x)
            ↔ ∀ i index, i < n → column !! i = Some (Some index) →
                         index < bound) as Hnull.
  { intros column n bound. split.
    - intros Hall i index Hi Hx. by apply (Hall i (Some index)).
    - intros Hall i [index|] Hi Hx; [|done]. by apply (Hall i). }
  rewrite !Hnull. tauto.
Qed.

Lemma resolveFrame_progress thread results f :
  wellFormed thread →
  f < FrameTable.length (Thread.frameTable thread) →
  ∃ old r, resolveFrame thread results f = Returns (old, r).
Proof.
  intros ((Haddress & _ & Hsymbol & _) & _ & (_ & Haddresses & Hnames) & _
          & Hsymbols & Hstrings & _)%wellFormed_spec Hf.
  destruct (lookup_in_column _ _ _ Hsymbol Hf) as [old Hold].
  destruct (lookup_in_column _ _ _ Haddress Hf) as [address Ha].
  unfold resolveFrame, read. rewrite Hold, Ha. simpl.
  destruct (results !! address) as [r|]; [by eexists _, _|].
  destruct old as [s|]; [|by eexists _, _].
  specialize (Hsymbols f s Hf Hold).
  destruct (lookup_in_column _ _ _ Hnames Hsymbols) as [index Hindex].
  destruct (lookup_in_column _ _ _ Haddresses Hsymbols) as [sa Hsa].
  rewrite Hindex, Hsa. simpl. unfold getString.
  destruct (lookup_lt_is_Some_2 (Thread.stringTable thread) index)
    as [name ->]; [by eapply Hstrings|].
  simpl. by eexists _, _.
Qed.

Lemma stepA_progress thread info results :
  wellFormed thread → sliceOf thread info →
  ∃ a, stepA thread info results = Returns a.
Proof.
  intros Hwf (Hframes & _). unfold stepA. apply foldlM_returns.
  intros a f Hf. rewrite Forall_forall in Hframes.
  destruct (resolveFrame_progress thread results f Hwf (Hframes f Hf))
    as (old & r & Hres).
  unfold resolveSymbolAddress. rewrite Hres. simpl.
  destruct old as [s|]; [|by eexists].
  destruct (negb _); [|by eexists]. destruct (JsSet.has _ _); by eexists.
Qed.

Lemma canonicalizeSymbol_progress libIndex b symbolAddress name :
  stepB_fits b →
  ∃ b', canonicalizeSymbol libIndex b (symbolAddress, name) = Returns b'
        ∧ stepB_fits b'.
Proof.
  intros ((Hlib & Haddress & Hname) & Hiter & Hvalues & Hstrings).
  assert (∃ b',
            canonicalizeSymbol libIndex b (symbolAddress, name) = Returns b')
    as [b' Hb'].
  { unfold canonicalizeSymbol.
    destruct (indexForString name (StepB.stringTable b)) as [index strings].
    destruct (JsMap.get _ symbolAddress) as [s|] eqn:Hget; simpl.
    - apply jsmap_get_elem_of_values, Hvalues in Hget.
      destruct (write_is_Returns (NativeSymbolTable.address
                                    (StepB.nativeSymbols b)) s symbolAddress)
        as [c1 ->]; [lia|].
      destruct (write_is_Returns (NativeSymbolTable.name
                                    (StepB.nativeSymbols b)) s index)
        as [c2 ->]; [lia|].
      by eexists.
    - destruct (StepB.availableNativeSymbolIterator b) as [|s iter] eqn:Hit;
        simpl.
      + unfold addNativeSymbol.
        destruct (write_is_Returns (NativeSymbolTable.libIndex
                                      (StepB.nativeSymbols b))
                    (NativeSymbolTable.length (StepB.nativeSymbols b))
                    libIndex) as [c0 ->]; [lia|].
        simpl.
        destruct (write_is_Returns (NativeSymbolTable.address
                                      (StepB.nativeSymbols b))
                    (NativeSymbolTable.length (StepB.nativeSymbols b))
                    symbolAddress) as [c1 ->]; [lia|].
        destruct (write_is_Returns (NativeSymbolTable.name
                                      (StepB.nativeSymbols b))
                    (NativeSymbolTable.length (StepB.nativeSymbols b))
                    index) as [c2 ->]; [lia|].
        by eexists.
      + assert (s < NativeSymbolTable.length (StepB.nativeSymbols b)) as Hs
          by (apply Hiter; left).
        destruct (write_is_Returns (NativeSymbolTable.address
                                      (StepB.nativeSymbols b)) s symbolAddress)
          as [c1 ->]; [lia|].
        destruct (write_is_Returns (NativeSymbolTable.name
                                      (StepB.nativeSymbols b)) s index)
          as [c2 ->]; [lia|].
        by eexists. }
  exists b'. split; [done|].
  pose proof Hb' as (index & s & ns & ac & nc & Hindex & Hget' & Hcases
    & (Ha & Ha' & Ha_len & _)%write_Returns
    & (Hn & Hn' & Hn_len & _)%write_Returns & Hns)%canonicalizeSymbol_Returns.
  pose proof (indexForString_extends _ _ _ _ Hindex) as Hext%prefix_length.
  apply indexForString_lookupIndex, lookupIndex_Some, lookup_lt_Some
    in Hindex.
  apply lookup_lt_Some in Ha as Ha_lt. apply lookup_lt_Some in Hn as Hn_lt.
  assert (∀ s' index',
            s' < NativeSymbolTable.length ns → s' ≠ s →
            NativeSymbolTable.name ns = NativeSymbolTable.name
                                          (StepB.nativeSymbols b) →
            s' < NativeSymbolTable.length (StepB.nativeSymbols b) →
            nc !! s' = Some index' → index' < length (StepB.stringTable b'))
    as Hkept.
  { intros s' index' _ Hne Hsame Hs'. rewrite Hn', Hsame by done.
    intros Hi%Hstrings; [lia|done]. }
  unfold stepB_fits. rewrite Hns. simpl.
  destruct Hcases as [(Hget & -> & -> & ->)|(Hget & -> & Hnext)].
  - split_and!; try done; try lia.
    intros s' index' Hs'. destruct (decide (s' = s)) as [->|Hne].
    + rewrite Hn. by intros [= <-].
    + by apply Hkept.
  - assert (∀ s', s' ∈ (JsMap.set
                          (StepB.symbolAddressToCanonicalSymbolIndexMap b)
                          symbolAddress s).*2 →
                  s' = s
                  ∨ s' ∈ (StepB.symbolAddressToCanonicalSymbolIndexMap b).*2)
      as Hset.
    { intros s'. rewrite jsmap_set_new by by apply jsmap_has_false.
      rewrite fmap_app, elem_of_app. simpl. rewrite list_elem_of_singleton.
      tauto. }
    destruct Hnext as [[Hit ->]|(Hit & -> & Hadd)].
    + assert (s < NativeSymbolTable.length (StepB.nativeSymbols b)) as Hs
        by (apply Hiter; rewrite Hit; left).
      split_and!; try lia.
      * intros s' Hs'. apply Hiter. rewrite Hit. by right.
      * intros s' [->|Hs']%Hset; [done|by apply Hvalues].
      * intros s' index' Hs'. destruct (decide (s' = s)) as [->|Hne].
        -- rewrite Hn. by intros [= <-].
        -- by apply Hkept.
    + apply addNativeSymbol_rows in Hadd
          as (-> & Hlen & Haddress' & Hname' & Hlib' & _).
      apply lookup_lt_Some in Hlib'. rewrite Haddress' in *.
      rewrite Hname' in *. rewrite Hlen.
      split_and!; try lia.
      * by intros s' ?%elem_of_nil.
      * intros s' [->|Hs'%Hvalues]%Hset; lia.
      * intros s' index' Hs'.
        destruct (decide (s' = NativeSymbolTable.length
                                 (StepB.nativeSymbols b))) as [->|Hne].
        -- rewrite Hn. by intros [= <-].
        -- apply Hkept; [lia|done|done|lia].
Qed.

Lemma stepB_progress thread info results a :
  wellFormed thread → sliceOf thread info →
  stepA thread info results = Returns a →
  ∃ b, stepB thread (ThreadLibSymbolicationInfo.libIndex info) a = Returns b
       ∧ stepB_fits b.
Proof.
  intros (_ & _ & (Hlib & Haddress & Hname) & _ & _ & Hstrings & _)
    %wellFormed_spec (_ & _ & Hsymbols)
    (_ & _ & _ & _ & _ & _ & _ & _ & _ & Hvalues & Havailable)%stepA_spec.
  rewrite Forall_forall in Hsymbols.
  unfold stepB. apply foldlM_progress.
  - unfold stepB_fits, shallowCloneNativeSymbolTable. simpl.
    split_and!; try done.
    + intros s [Hs _]%Havailable. by apply Hsymbols, jsset_of_list_spec.
    + intros s Hs%Hvalues. by apply Hsymbols, jsset_of_list_spec.
  - intros b [sa name] _. apply canonicalizeSymbol_progress.
Qed.

Lemma assignNativeSymbols_progress canonical column frameToSymbolAddressMap :
  frameToSymbolAddressMap.*2 ⊆ canonical.*1 →
  (∀ f, f ∈ frameToSymbolAddressMap.*1 → f < length column) →
  ∃ column',
    assignNativeSymbols canonical column frameToSymbolAddressMap
    = Returns column'.
Proof.
  intros Hcovered Hframes.
  destruct (foldlM_progress (assignNativeSymbol canonical)
              (λ column', length column' = length column) column
              frameToSymbolAddressMap) as (column' & Hcolumn' & _);
    [done| |by exists column'].
  intros col [f sa] Hin Hlen. unfold assignNativeSymbol.
  destruct (jsmap_get_is_Some canonical sa) as [s ->].
  { apply Hcovered, list_elem_of_fmap. by exists (f, sa). }
  assert (f < length col) as Hf.
  { rewrite Hlen. apply Hframes, list_elem_of_fmap. by exists (f, sa). }
  destruct (write_is_Returns col f (Some s)) as [col' Hcol']; [lia|].
  exists col'. split; [done|].
  apply write_Returns in Hcol' as (_ & _ & _ & Hsame). by rewrite Hsame.
Qed.

Lemma addFunc_progress funcTable resourceIndex :
  (FuncTable.length funcTable ≤ length (FuncTable.resource funcTable))%nat →
  (FuncTable.length funcTable ≤ length (FuncTable.isJS funcTable))%nat →
  (FuncTable.length funcTable
   ≤ length (FuncTable.relevantForJS funcTable))%nat →
  (FuncTable.length funcTable ≤ length (FuncTable.lineNumber funcTable))%nat →
  (FuncTable.length funcTable
   ≤ length (FuncTable.columnNumber funcTable))%nat →
  ∃ funcTable',
    addFunc funcTable resourceIndex
    = Returns (FuncTable.length funcTable, funcTable')
    ∧ FuncTable.length funcTable' = S (FuncTable.length funcTable)
    ∧ FuncTable.name funcTable' = FuncTable.name funcTable
    ∧ FuncTable.fileName funcTable' = FuncTable.fileName funcTable
    ∧ (FuncTable.length funcTable'
       ≤ length (FuncTable.resource funcTable'))%nat
    ∧ (FuncTable.length funcTable' ≤ length (FuncTable.isJS funcTable'))%nat
    ∧ (FuncTable.length funcTable'
       ≤ length (FuncTable.relevantForJS funcTable'))%nat
    ∧ (FuncTable.length funcTable'
       ≤ length (FuncTable.lineNumber funcTable'))%nat
    ∧ (FuncTable.length funcTable'
       ≤ length (FuncTable.columnNumber funcTable'))%nat.
Proof.
  intros H1 H2 H3 H4 H5. unfold addFunc.
  destruct (write_is_Returns (FuncTable.isJS funcTable)
              (FuncTable.length funcTable) false) as [c1 Hc1]; [done|].
  destruct (write_is_Returns (FuncTable.relevantForJS funcTable)
              (FuncTable.length funcTable) false) as [c2 Hc2]; [done|].
  destruct (write_is_Returns (FuncTable.resource funcTable)
              (FuncTable.length funcTable) (Z.of_nat resourceIndex))
    as [c3 Hc3]; [done|].
  destruct (write_is_Returns (FuncTable.lineNumber funcTable)
              (FuncTable.length funcTable) None) as [c4 Hc4]; [done|].
  destruct (write_is_Returns (FuncTable.columnNumber funcTable)
              (FuncTable.length funcTable) None) as [c5 Hc5]; [done|].
  rewrite Hc1, Hc2, Hc3, Hc4, Hc5. simpl. eexists. split; [done|]. simpl.
  apply write_Returns in Hc1 as (Hc1%lookup_lt_Some & _).
  apply write_Returns in Hc2 as (Hc2%lookup_lt_Some & _).
  apply write_Returns in Hc3 as (Hc3%lookup_lt_Some & _).
  apply write_Returns in Hc4 as (Hc4%lookup_lt_Some & _).
  apply write_Returns in Hc5 as (Hc5%lookup_lt_Some & _).
  split_and!; try done; lia.
Qed.

Lemma nameFunc_progress funcTable n nameIndex fileIndex :
  (n ≤ length (FuncTable.name funcTable))%nat →
  (n ≤ length (FuncTable.fileName funcTable))%nat →
  ∃ funcTable',
    nameFunc funcTable n nameIndex fileIndex = Returns funcTable'
    ∧ FuncTable.length funcTable' = FuncTable.length funcTable
    ∧ FuncTable.resource funcTable' = FuncTable.resource funcTable
    ∧ FuncTable.isJS funcTable' = FuncTable.isJS funcTable
    ∧ FuncTable.relevantForJS funcTable' = FuncTable.relevantForJS funcTable
    ∧ FuncTable.lineNumber funcTable' = FuncTable.lineNumber funcTable
    ∧ FuncTable.columnNumber funcTable' = FuncTable.columnNumber funcTable
    ∧ (length (FuncTable.name funcTable)
       ≤ length (FuncTable.name funcTable'))%nat
    ∧ (length (FuncTable.fileName funcTable)
       ≤ length (FuncTable.fileName funcTable'))%nat
    ∧ n < length (FuncTable.name funcTable')
    ∧ n < length (FuncTable.fileName funcTable')
    ∧ FuncTable.fileName funcTable' !! n = Some fileIndex
    ∧ ∀ j, j ≠ n → FuncTable.fileName funcTable' !! j
                   = FuncTable.fileName funcTable !! j.
Proof.
  intros H1 H2. unfold nameFunc.
  destruct (write_is_Returns (FuncTable.name funcTable) n nameIndex)
    as [c1 Hc1]; [done|].
  destruct (write_is_Returns (FuncTable.fileName funcTable) n fileIndex)
    as [c2 Hc2]; [done|].
  rewrite Hc1, Hc2. simpl. eexists. split; [done|]. simpl.
  apply write_Returns in Hc1 as (Hc1%lookup_lt_Some & _ & Hlen1 & _).
  apply write_Returns in Hc2 as (Hc2 & Hother & Hlen2 & _).
  apply lookup_lt_Some in Hc2 as Hlt. by split_and!.
Qed.

Lemma funcAddressResult_progress oldFrameTable results nativeSymbols column
  stringTable funcTable f oldFunc s :
  column !! f = Some (Some s) →
  is_Some (FrameTable.address oldFrameTable !! f) →
  is_Some (FrameTable.line oldFrameTable !! f) →
  is_Some (NativeSymbolTable.address nativeSymbols !! s) →
  (∃ index, NativeSymbolTable.name nativeSymbols !! s = Some index
            ∧ index < length stringTable) →
  (∃ file, FuncTable.fileName funcTable !! oldFunc = Some file
           ∧ nullOrBelow (length stringTable) file) →
  ∃ r, funcAddressResult oldFrameTable results nativeSymbols column
         stringTable funcTable f oldFunc = Returns r.
Proof.
  intros Hs [address Haddress] [line Hline] [sa Hsa] (index & Hindex & Hlt)
    (file & Hfile & Hfile_lt).
  unfold funcAddressResult, read. rewrite Hs. simpl. rewrite Haddress. simpl.
  destruct (results !! address) as [r|]; [by eexists|].
  rewrite Hindex. simpl. rewrite Hfile. simpl. rewrite Hsa. simpl.
  unfold getString.
  destruct (lookup_lt_is_Some_2 stringTable index Hlt) as [name ->]. simpl.
  destruct file as [fileIndex|]; simpl.
  - destruct (lookup_lt_is_Some_2 stringTable fileIndex Hfile_lt)
      as [fileName ->]. simpl. rewrite Hline. by eexists.
  - rewrite Hline. by eexists.
Qed.

Lemma indexForString_valid s stringTable index stringTable' :
  indexForString s stringTable = (index, stringTable') →
  index < length stringTable'
  ∧ (length stringTable ≤ length stringTable')%nat.
Proof.
  intros Hindex. split.
  - by eapply lookup_lt_Some, lookupIndex_Some, indexForString_lookupIndex.
  - by eapply prefix_length, indexForString_extends.
Qed.

Lemma indexForOptionalString_valid file stringTable index stringTable' :
  indexForOptionalString file stringTable = (index, stringTable') →
  nullOrBelow (length stringTable') index
  ∧ (length stringTable ≤ length stringTable')%nat.
Proof.
  unfold indexForOptionalString. destruct file as [file|].
  - destruct (indexForString file stringTable) as [i st] eqn:Hi.
    intros [= <- <-]. by apply indexForString_valid in Hi.
  - by intros [= <- <-].
Qed.

Lemma canonicalizeFunc_progress thread results nativeSymbols column
  resourceIndex strings c f s :
  wellFormed thread →
  f < FrameTable.length (Thread.frameTable thread) →
  column !! f = Some (Some s) →
  is_Some (NativeSymbolTable.address nativeSymbols !! s) →
  (∃ index, NativeSymbolTable.name nativeSymbols !! s = Some index
            ∧ index < strings) →
  stepC_fits thread strings c →
  ∃ c',
    canonicalizeFunc (Thread.frameTable thread) results nativeSymbols column
      resourceIndex c f = Returns c'
    ∧ stepC_fits thread strings c'.
Proof.
  intros ((Haddress & Hfunc & _ & Hline) & _ & _ & Hfuncs & _)%wellFormed_spec
    Hf Hs Hsa (index & Hindex & Hindex_lt)
    ((Hc_name & Hc_file & Hc_resource & Hc_isJS & Hc_relevant & Hc_line
      & Hc_column) & Hgrown & Hstrings & Hiter & Hvalues & Hfiles
     & Hfunc_len & Hline_len & Hframes).
  destruct (lookup_in_column _ _ _ Hfunc Hf) as [oldFunc Hold].
  specialize (Hfuncs f oldFunc Hf Hold).
  destruct (lookup_in_column (FuncTable.fileName (StepC.funcTable c))
              (FuncTable.length (StepC.funcTable c)) oldFunc)
    as [file Hfile]; [done|lia|].
  destruct (funcAddressResult_progress (Thread.frameTable thread) results
              nativeSymbols column (StepC.stringTable c) (StepC.funcTable c)
              f oldFunc s) as [r Hr]; [done|..].
  { by apply lookup_lt_is_Some_2; lia. }
  { by apply lookup_lt_is_Some_2; lia. }
  { done. }
  { exists index. split; [done|lia]. }
  { exists file. split; [done|]. destruct file as [i|]; [|done].
    apply (Hfiles oldFunc); [lia|done]. }
  unfold canonicalizeFunc, read. rewrite Hold. simpl. rewrite Hr. simpl.
  destruct (indexForString (AddressResult.name r) (StepC.stringTable c))
    as [ni st1] eqn:Hni.
  destruct (indexForOptionalString (AddressResult.file r) st1)
    as [fi st2] eqn:Hfi.
  apply indexForString_valid in Hni as [_ Hst1].
  apply indexForOptionalString_valid in Hfi as [Hfi Hst2].
  assert (f < length (StepC.newFrameTableFuncColumn c)) as Hf1 by lia.
  assert (f < length (StepC.newFrameTableLineColumn c)) as Hf2 by lia.
  assert (∀ n funcTable keys iter,
            n < FuncTable.length funcTable →
            ∃ c',
              (funcColumn ←
                 write (StepC.newFrameTableFuncColumn c) f n;
               lineColumn ←
                 write (StepC.newFrameTableLineColumn c) f
                   (AddressResult.line r);
               Returns
                 {| StepC.stringTable := st2;
                    StepC.availableFuncIter := iter;
                    StepC.funcTable := funcTable;
                    StepC.funcKeyToFuncMap := keys;
                    StepC.oldFuncToNewFuncEntries :=
                      StepC.oldFuncToNewFuncEntries c ++ [(oldFunc, n)];
                    StepC.newFrameTableFuncColumn := funcColumn;
                    StepC.newFrameTableLineColumn := lineColumn;
                    StepC.resolved := StepC.resolved c ++ [(f, r)] |})
              = Returns c'
              ∧ StepC.stringTable c' = st2
              ∧ StepC.availableFuncIter c' = iter
              ∧ StepC.funcTable c' = funcTable
              ∧ StepC.funcKeyToFuncMap c' = keys
              ∧ length (StepC.newFrameTableFuncColumn c')
                = length (FrameTable.func (Thread.frameTable thread))
              ∧ length (StepC.newFrameTableLineColumn c')
                = length (FrameTable.line (Thread.frameTable thread))
              ∧ ∀ g m, (FuncTable.length (StepC.funcTable c)
                        ≤ FuncTable.length funcTable)%nat →
                       g < FrameTable.length (Thread.frameTable thread) →
                       StepC.newFrameTableFuncColumn c' !! g = Some m →
                       m < FuncTable.length funcTable) as Hwrite.
  { intros n funcTable keys iter Hn.
    destruct (write_is_Returns (StepC.newFrameTableFuncColumn c) f n)
      as [c1 Hc1]; [lia|].
    destruct (write_is_Returns (StepC.newFrameTableLineColumn c) f
                (AddressResult.line r)) as [c2 Hc2]; [lia|].
    rewrite Hc1, Hc2. simpl. eexists. split; [done|]. simpl.
    apply write_Returns in Hc1 as (Hc1 & Hc1' & _ & Hc1_len).
    apply write_Returns in Hc2 as (_ & _ & _ & Hc2_len).
    split_and!; try done.
    - by rewrite Hc1_len.
    - by rewrite Hc2_len.
    - intros g m Hle Hg. destruct (decide (g = f)) as [->|Hne].
      + rewrite Hc1. by intros [= <-].
      + rewrite Hc1' by done. intros Hm%Hframes; [lia|done]. }
  destruct (JsMap.get (StepC.funcKeyToFuncMap c) (funcKey ni fi))
    as [n|] eqn:Hget; simpl.
  - assert (n < FuncTable.length (StepC.funcTable c)) as Hn
      by by eapply Hvalues, jsmap_get_elem_of_values.
    destruct (Hwrite n (StepC.funcTable c) (StepC.funcKeyToFuncMap c)
                (StepC.availableFuncIter c) Hn)
      as (c' & -> & Hs' & Hi' & Ht' & Hk' & Hfl & Hll & Hfr).
    exists c'. split; [done|]. unfold stepC_fits.
    rewrite Hs', Hi', Ht', Hk', Hfl, Hll. split_and!; try done; try lia.
    + intros m i Hm Hi%Hfiles; [lia|done].
    + intros g m. by apply Hfr.
  - assert (∀ n m, m ∈ (JsMap.set (StepC.funcKeyToFuncMap c)
                          (funcKey ni fi) n).*2 →
                   m = n ∨ m ∈ (StepC.funcKeyToFuncMap c).*2) as Hset.
    { intros n m. rewrite jsmap_set_new by by apply jsmap_has_false.
      rewrite fmap_app, elem_of_app. simpl. rewrite list_elem_of_singleton.
      tauto. }
    destruct (StepC.availableFuncIter c) as [|n iter] eqn:Hit; simpl.
    + destruct (addFunc_progress (StepC.funcTable c) resourceIndex)
        as (ft1 & -> & Hlen1 & Hname1 & Hfile1 & H1 & H2 & H3 & H4 & H5);
        [done..|].
      simpl.
      destruct (nameFunc_progress ft1 (FuncTable.length (StepC.funcTable c))
                  ni fi)
        as (ft2 & -> & Hlen2 & E1 & E2 & E3 & E4 & E5 & Hn_len & Hf_len
            & Hn_lt & Hf_lt & Hrow & Hother);
        [by rewrite Hname1|by rewrite Hfile1|].
      simpl.
      destruct (Hwrite (FuncTable.length (StepC.funcTable c)) ft2
                  (JsMap.set (StepC.funcKeyToFuncMap c) (funcKey ni fi)
                     (FuncTable.length (StepC.funcTable c))) [])
        as (c' & -> & Hs' & Hi' & Ht' & Hk' & Hfl & Hll & Hfr); [lia|].
      exists c'. split; [done|]. unfold stepC_fits.
      rewrite Hs', Hi', Ht', Hk', Hfl, Hll, Hlen2, E1, E2, E3, E4, E5.
      split_and!; try done; try lia.
      * by intros m ?%elem_of_nil.
      * intros m [->|Hm%Hvalues]%Hset; lia.
      * intros m i Hm.
        destruct (decide (m = FuncTable.length (StepC.funcTable c)))
          as [->|Hne].
        -- rewrite Hrow. intros [= ->]. exact Hfi.
        -- rewrite Hother, Hfile1 by done. intros Hi%Hfiles; lia.
      * intros g m Hg Hm. rewrite <-Hlen2. eapply Hfr; [lia|done..].
    + assert (n < FuncTable.length (StepC.funcTable c)) as Hn
        by (apply Hiter; left).
      destruct (nameFunc_progress (StepC.funcTable c) n ni fi)
        as (ft2 & -> & Hlen2 & E1 & E2 & E3 & E4 & E5 & Hn_len & Hf_len
            & Hn_lt & Hf_lt & Hrow & Hother); [lia..|].
      simpl.
      destruct (Hwrite n ft2
                  (JsMap.set (StepC.funcKeyToFuncMap c) (funcKey ni fi) n)
                  iter)
        as (c' & -> & Hs' & Hi' & Ht' & Hk' & Hfl & Hll & Hfr); [lia|].
      exists c'. split; [done|]. unfold stepC_fits.
      rewrite Hs', Hi', Ht', Hk', Hfl, Hll, Hlen2, E1, E2, E3, E4, E5.
      split_and!; try done; try lia.
      * intros m Hm. apply Hiter. by right.
      * intros m [->|Hm%Hvalues]%Hset; lia.
      * intros m i Hm. destruct (decide (m = n)) as [->|Hne].
        -- rewrite Hrow. intros [= ->]. exact Hfi.
        -- rewrite Hother by done. intros Hi%Hfiles; lia.
      * intros g m Hg Hm. rewrite <-Hlen2. eapply Hfr; [lia|done..].
Qed.

Lemma runSymbolicationStep_progress (thread : Thread.t)
  (symbolicationStepInfo : SymbolicationStepInfo.t)
  (oldFuncToNewFuncMap : list (nat * nat)) :
  let info :=
    SymbolicationStepInfo.threadLibSymbolicationInfo symbolicationStepInfo in
  wellFormed thread → sliceOf thread info →
  ∃ run,
    runSymbolicationStep thread symbolicationStepInfo oldFuncToNewFuncMap
    = Returns run
    ∧ wellFormed (Run.thread run)
    ∧ sliceOf (Run.thread run) info.
Proof.
  intros info Hwf Hslice.
  set (results := SymbolicationStepInfo.resultsForLib symbolicationStepInfo).
  destruct (stepA_progress thread info results Hwf Hslice) as [a Ha].
  destruct (stepB_progress thread info results a Hwf Hslice Ha)
    as (b & Hb & Hb_fits).
  pose proof Hwf as ((Haddress & Hfunc & Hsymbol & Hline)
                     & (Hf_name & Hf_file & Hf_resource & Hf_isJS
                        & Hf_relevant & Hf_line & Hf_column)
                     & _ & Hfuncs & Hsymbols & Hnames & Hfiles)
                      %wellFormed_spec.
  pose proof Hslice as (Hframes & Hslice_funcs & Hslice_symbols).
  rewrite Forall_forall in Hframes, Hslice_funcs, Hslice_symbols.
  pose proof (stepA_spec _ _ _ _ Ha)
    as (Hf_nd & Hf_keys & Hf_res & _ & _ & _ & _ & _ & _ & Hvalues
        & Havailable).
  destruct (assignNativeSymbols_progress
              (StepB.symbolAddressToCanonicalSymbolIndexMap b)
              (FrameTable.nativeSymbol (Thread.frameTable thread))
              (StepA.frameToSymbolAddressMap a)) as [column Hcolumn].
  { by eapply stepA_values_covered. }
  { intros f Hf%Hf_keys%Hframes. lia. }
  pose proof (stepB_stringTable_extends _ _ _ _ Hb) as Hext_b%prefix_length.
  destruct Hb_fits as ((Hb_lib & Hb_address & Hb_name) & _ & Hb_values
                       & Hb_strings).
  destruct (stepB_rows thread (ThreadLibSymbolicationInfo.libIndex info)
              (ThreadLibSymbolicationInfo.allNativeSymbolsForThisLib info)
              a b) as (Hb_grown & _); [..|exact Hb|].
  { intros s [Hs _]%Havailable. by apply jsset_of_list_spec. }
  { intros s Hs%Hvalues. by apply jsset_of_list_spec. }
  pose proof Hcolumn as (Hcolumn_len & Hcolumn_in & Hcolumn_out)
                          %assignNativeSymbols_spec;
    [|done|intros f Hf%Hf_keys%Hframes; lia].
  assert (∀ f s, f < FrameTable.length (Thread.frameTable thread) →
                 column !! f = Some (Some s) →
                 s < NativeSymbolTable.length (StepB.nativeSymbols b))
    as Hcolumn_lt.
  { intros f s Hf Hs.
    destruct (decide (f ∈ (StepA.frameToSymbolAddressMap a).*1))
      as [(sa & Hsa)%jsmap_get_is_Some|Hout].
    - destruct (Hcolumn_in f sa Hsa) as (s' & Hs'%jsmap_get_elem_of_values
                                         & Hf').
      assert (s' = s) as -> by congruence. by apply Hb_values.
    - rewrite Hcolumn_out in Hs by done.
      specialize (Hsymbols f s Hf Hs). lia. }
  destruct (foldlM_progress
              (canonicalizeFunc (Thread.frameTable thread) results
                 (StepB.nativeSymbols b) column
                 (ThreadLibSymbolicationInfo.resourceIndex info))
              (stepC_fits thread (length (StepB.stringTable b)))
              {| StepC.stringTable := StepB.stringTable b;
                 StepC.availableFuncIter :=
                   JsSet.of_list
                     (ThreadLibSymbolicationInfo.allFuncsForThisLib info);
                 StepC.funcTable := shallowCloneFuncTable
                                      (Thread.funcTable thread);
                 StepC.funcKeyToFuncMap := [];
                 StepC.oldFuncToNewFuncEntries := [];
                 StepC.newFrameTableFuncColumn :=
                   FrameTable.func (Thread.frameTable thread);
                 StepC.newFrameTableLineColumn :=
                   FrameTable.line (Thread.frameTable thread);
                 StepC.resolved := [] |}
              (ThreadLibSymbolicationInfo.allFramesForThisLib info))
    as (c & Hc & Hc_fits).
  { unfold stepC_fits, shallowCloneFuncTable. simpl. split_and!; try done.
    - intros n Hn. by apply Hslice_funcs, jsset_of_list_spec.
    - by intros n ?%elem_of_nil.
    - intros n index Hn Hindex%Hfiles; [lia|done]. }
  { intros c f Hf Hfits.
    destruct (lib_frames_have_symbols _ _ _ _ _ _ Ha Hcolumn f Hf)
      as [s Hs].
    assert (s < NativeSymbolTable.length (StepB.nativeSymbols b)) as Hs_lt
      by (eapply Hcolumn_lt; [by apply Hframes|done]).
    apply (canonicalizeFunc_progress thread results (StepB.nativeSymbols b)
             column _ _ c f s); [done|by apply Hframes|done| | |done].
    - apply lookup_lt_is_Some_2. lia.
    - destruct (lookup_in_column _ _ _ Hb_name Hs_lt) as [index Hindex].
      exists index. split; [done|]. by eapply Hb_strings. }
  fold (stepC thread info results (StepB.stringTable b)
          (StepB.nativeSymbols b) column) in Hc.
  eexists. split.
  { unfold runSymbolicationStep.
    fold info. fold results. rewrite Ha. simpl. rewrite Hb. simpl.
    rewrite Hcolumn. simpl. rewrite Hc. simpl. reflexivity. }
  destruct Hc_fits as (Hc_columns & Hc_grown & Hc_strings & _ & _ & Hc_files
                       & Hc_func & Hc_line & Hc_frames).
  split.
  - apply wellFormed_spec. simpl. split_and!; try done; try lia.
    intros s index Hs Hindex%Hb_strings; [lia|done].
  - unfold sliceOf. simpl. rewrite !Forall_forall. split_and!.
    + done.
    + intros n Hn%Hslice_funcs. lia.
    + intros s Hs%Hslice_symbols. lia.
Qed.

(** X19.  On a well-formed thread and a slice of its tables, a step
    returns, whatever the results hold and whatever the caller's map; the
    thread it returns is well-formed again, and the slice is still a slice
    of its tables. *)
Theorem applySymbolicationStep_total (thread : Thread.t)
  (symbolicationStepInfo : SymbolicationStepInfo.t)
  (oldFuncToNewFuncMap : list (nat * nat)) :
  let info :=
    SymbolicationStepInfo.threadLibSymbolicationInfo symbolicationStepInfo in
  wellFormed thread → sliceOf thread info →
  ∃ thread' oldFuncToNewFuncMap',
    applySymbolicationStep thread symbolicationStepInfo oldFuncToNewFuncMap
    = Returns (thread', oldFuncToNewFuncMap')
    ∧ wellFormed thread'
    ∧ sliceOf thread' info.
Proof.
  intros info Hwf Hslice.
  destruct (runSymbolicationStep_progress thread symbolicationStepInfo
              oldFuncToNewFuncMap Hwf Hslice) as (run & Hrun & Hwf' & Hslice').
  exists (Run.thread run), (Run.oldFuncToNewFuncMap run).
  unfold applySymbolicationStep. rewrite Hrun. by split.
Qed.

Lemma applySymbolicationStep_total_witness :
  wellFormed Example.coarse.1
  ∧ sliceOf Example.coarse.1 (Example.infoOf Example.coarse.1)
  ∧ ∃ thread' oldFuncToNewFuncMap',
      applySymbolicationStep Example.coarse.1
        (Example.stepOf Example.coarse.1 Example.noSymbols) [(7, 8)]
      = Returns (thread', oldFuncToNewFuncMap')
      ∧ wellFormed thread'.
Proof.
  assert (wellFormed Example.coarse.1) as Hwf.
  { refine (bool_decide_unpack _ _). vm_compute. exact I. }
  assert (sliceOf Example.coarse.1 (Example.infoOf Example.coarse.1))
    as Hslice.
  { refine (bool_decide_unpack _ _). vm_compute. exact I. }
  split; [exact Hwf|]. split; [exact Hslice|].
  destruct (applySymbolicationStep_total Example.coarse.1
              (Example.stepOf Example.coarse.1 Example.noSymbols) [(7, 8)]
              Hwf Hslice) as (thread' & map' & Hstep & Hwf' & _).
  exists thread', map'. split; [exact Hstep|exact Hwf'].
Defined.

Lemma jsmap_elem_of_set {K V : Type} `{EqDecision K} (m : list (K * V))
  k v x :
  x ∈ JsMap.set m k v → x = (k, v) ∨ x ∈ m.
Proof.
  induction m as [|[k' v'] m IH]; simpl.
  - intros ->%list_elem_of_singleton. by left.
  - destruct (decide (k' = k)) as [->|Hne].
    + intros [->|Hx]%elem_of_cons; [by left|right; by right].
    + intros [->|Hx]%elem_of_cons; [right; left|].
      destruct (IH Hx) as [->|?]; [by left|right; by right].
Qed.

Lemma collectLib_sliceOf thread resourceIndex libIndex info :
  collectLib thread resourceIndex libIndex = Returns info →
  sliceOf thread info.
Proof.
  unfold collectLib.
  intros ([frames addresses] & [-> _]%collectFrames_spec & [= <-])
    %bind_Returns.
  unfold sliceOf, collectFuncs, collectNativeSymbols. simpl.
  rewrite !Forall_forall.
  split_and!; intros n [_ [_ Hn]%elem_of_seq]%list_elem_of_filter; lia.
Qed.

Lemma getThreadSymbolicationInfo_entries thread map key info :
  getThreadSymbolicationInfo thread = Returns map →
  (key, info) ∈ map →
  ∃ resourceIndex libIndex,
    collectLib thread resourceIndex libIndex = Returns info.
Proof.
  unfold getThreadSymbolicationInfo. intros Hfold. revert key info.
  revert Hfold.
  apply (foldlM_invariant _
           (λ _ map,
              ∀ key info, (key, info) ∈ map →
                ∃ resourceIndex libIndex,
                  collectLib thread resourceIndex libIndex = Returns info)).
  - by intros key info ?%elem_of_nil.
  - intros pre r post m m' _ IH
      [[-> _]|(k & i & Hrow & ->)]%collectResource_Returns key info;
      [apply IH|].
    intros [[= -> ->]|Hin]%jsmap_elem_of_set; [|by eapply IH].
    destruct Hrow as (l & lib & _ & _ & _ & _ & _ & Hinfo). by exists r, l.
Qed.

(** X20.  The collector and the engine fit together: on a well-formed
    thread, every record of the map the collector returns is a slice of
    the thread's tables, so a step for it returns — whatever the results —
    and returns a well-formed thread. *)
Theorem getThreadSymbolicationInfo_then_step (thread : Thread.t)
  (map : list (string * ThreadLibSymbolicationInfo.t)) (key : string)
  (info : ThreadLibSymbolicationInfo.t) :
  wellFormed thread →
  getThreadSymbolicationInfo thread = Returns map →
  (key, info) ∈ map →
  sliceOf thread info
  ∧ ∀ resultsForLib oldFuncToNewFuncMap,
      ∃ thread' oldFuncToNewFuncMap',
        applySymbolicationStep thread
          {| SymbolicationStepInfo.threadLibSymbolicationInfo := info;
             SymbolicationStepInfo.resultsForLib := resultsForLib |}
          oldFuncToNewFuncMap
        = Returns (thread', oldFuncToNewFuncMap')
        ∧ wellFormed thread'.
Proof.
  intros Hwf Hmap Hin.
  destruct (getThreadSymbolicationInfo_entries _ _ _ _ Hmap Hin)
    as (r & l & Hslice%collectLib_sliceOf).
  split; [done|]. intros results map0.
  destruct (runSymbolicationStep_progress thread
              {| SymbolicationStepInfo.threadLibSymbolicationInfo := info;
                 SymbolicationStepInfo.resultsForLib := results |} map0
              Hwf Hslice) as (run & Hrun & Hwf' & _).
  exists (Run.thread run), (Run.oldFuncToNewFuncMap run).
  unfold applySymbolicationStep. rewrite Hrun. by split.
Qed.

Lemma getThreadSymbolicationInfo_then_step_witness :
  ∃ thread' oldFuncToNewFuncMap',
    applySymbolicationStep Example.thread
      (Example.stepOf Example.thread Example.partialSymbolTable) []
    = Returns (thread', oldFuncToNewFuncMap')
    ∧ wellFormed thread'.
Proof.
  assert (wellFormed Example.thread) as Hwf.
  { refine (bool_decide_unpack _ _). vm_compute. exact I. }
  assert (getThreadSymbolicationInfo Example.thread
          = Returns [(libKey Example.lib, Example.infoOf Example.thread)])
    as Hmap by (vm_compute; reflexivity).
  destruct (getThreadSymbolicationInfo_then_step Example.thread
              [(libKey Example.lib, Example.infoOf Example.thread)]
              (libKey Example.lib) (Example.infoOf Example.thread) Hwf Hmap)
    as [_ Hstep]; [left|].
  exact (Hstep Example.partialSymbolTable []).
Defined.

(** ** A step applied to its own result *)

Lemma foldlM_simulation {A1 A2 B : Type} (f1 : A1 → B → completion A1)
  (f2 : A2 → B → completion A2) (R : list B → A1 → A2 → Prop)
  l a1 a1' a2 :
  foldlM f1 a1 l = Returns a1' →
  R [] a1 a2 →
  (∀ pre b post x1 x1' x2,
     l = pre ++ b :: post →
     f1 x1 b = Returns x1' → foldlM f1 x1' post = Returns a1' →
     R pre x1 x2 →
     ∃ x2', f2 x2 b = Returns x2' ∧ R (pre ++ [b]) x1' x2') →
  ∃ a2', foldlM f2 a2 l = Returns a2' ∧ R l a1' a2'.
Proof.
  intros Hfold H0 Hstep.
  cut (∀ post pre x1 x2,
         l = pre ++ post → foldlM f1 x1 post = Returns a1' → R pre x1 x2 →
         ∃ a2', foldlM f2 x2 post = Returns a2' ∧ R l a1' a2').
  { intros Hcut. by apply (Hcut l [] a1 a2). }
  induction post as [|b post IH]; intros pre x1 x2 Hl; simpl.
  - intros [= <-] HR. exists x2. split; [done|]. by rewrite Hl, app_nil_r.
  - intros (x1' & Hb & Hrest)%bind_Returns HR.
    destruct (Hstep pre b post x1 x1' x2 Hl Hb Hrest HR) as (x2' & -> & HR').
    simpl. apply (IH (pre ++ [b]) x1' x2'); [by rewrite <-app_assoc|done..].
Qed.

Lemma foldlM_unchanged {A B : Type} (f : A → B → completion A) a l :
  (∀ b, b ∈ l → f a b = Returns a) → foldlM f a l = Returns a.
Proof.
  induction l as [|b l IH]; intros Hf; simpl; [done|].
  rewrite Hf by left. simpl. apply IH. intros b' Hb'. apply Hf. by right.
Qed.

Lemma jsmap_eq {K V : Type} `{EqDecision K} (m1 m2 : list (K * V)) :
  m1.*1 = m2.*1 → NoDup m1.*1 →
  (∀ k, JsMap.get m1 k = JsMap.get m2 k) → m1 = m2.
Proof.
  revert m2. induction m1 as [|[k v] m1 IH]; intros [|[k' v'] m2]; csimpl;
    try done.
  intros [= <- Hkeys] [Hk Hnd]%NoDup_cons Hget. f_equal.
  - specialize (Hget k). simpl in Hget. rewrite !decide_True in Hget by done.
    congruence.
  - apply IH; [done..|]. intros k0. specialize (Hget k0). simpl in Hget.
    destruct (decide (k = k0)) as [<-|Hne]; [|done].
    rewrite (proj2 (jsmap_get_None m1 k)) by done.
    rewrite (proj2 (jsmap_get_None m2 k)); [done|]. by rewrite <-Hkeys.
Qed.

Lemma filter_ext_in {A : Type} (P Q : A → Prop) `{∀ x, Decision (P x)}
  `{∀ x, Decision (Q x)} (l : list A) :
  (∀ x, x ∈ l → P x ↔ Q x) → filter P l = filter Q l.
Proof.
  induction l as [|x l IH]; intros Hext; [done|].
  rewrite !filter_cons.
  rewrite IH by (intros y Hy; apply Hext; by right).
  destruct (decide (P x)) as [HP|HP], (decide (Q x)) as [HQ|HQ]; try done.
  - apply Hext in HP; [done|left].
  - apply Hext in HQ; [done|left].
Qed.

Lemma filter_seq_all (P : nat → Prop) `{∀ x, Decision (P x)} start len :
  (∀ n, (start ≤ n < start + len)%nat → P n) →
  filter P (seq start len) = seq start len.
Proof.
  revert start. induction len as [|len IH]; intros start Hall; [done|].
  simpl. rewrite filter_cons, decide_True by (apply Hall; lia).
  f_equal. apply IH. intros n Hn. apply Hall. lia.
Qed.

Lemma jsmap_prefix_get {K V : Type} `{EqDecision K} (m m' : list (K * V))
  k v :
  m `prefix_of` m' → JsMap.get m k = Some v → JsMap.get m' k = Some v.
Proof.
  intros [ext ->]. induction m as [|[k' v'] m IH]; simpl; [done|].
  destruct (decide (k' = k)); [done|]. apply IH.
Qed.

Lemma jsmap_set_prefix {K V : Type} `{EqDecision K} (m : list (K * V)) k v :
  JsMap.get m k = None → m `prefix_of` JsMap.set m k v.
Proof.
  intros Hget. rewrite jsmap_set_new by by apply jsmap_has_false.
  by apply prefix_app_r.
Qed.

Lemma canonicalizeFunc_monotone oldFrameTable results nativeSymbols column
  resourceIndex c f c' :
  canonicalizeFunc oldFrameTable results nativeSymbols column resourceIndex
    c f = Returns c' →
  StepC.stringTable c `prefix_of` StepC.stringTable c'
  ∧ StepC.funcKeyToFuncMap c `prefix_of` StepC.funcKeyToFuncMap c'
  ∧ StepC.resolved c `prefix_of` StepC.resolved c'.
Proof.
  intros (oldFunc & r & ni & st & fi & n & ft & _ & _
          & Hname%indexForString_extends
          & Hfile%indexForOptionalString_extends & _ & Hcases & _ & _ & _
          & Hresolved)%canonicalizeFunc_Returns.
  split; [by etrans|]. split; [|rewrite Hresolved; by apply prefix_app_r].
  destruct Hcases as [(_ & _ & _ & ->)|(Hget & -> & _)]; [done|].
  by apply jsmap_set_prefix.
Qed.

Lemma canonicalizeFunc_fold_monotone oldFrameTable results nativeSymbols
  column resourceIndex c frames c' :
  foldlM (canonicalizeFunc oldFrameTable results nativeSymbols column
            resourceIndex) c frames = Returns c' →
  StepC.stringTable c `prefix_of` StepC.stringTable c'
  ∧ StepC.funcKeyToFuncMap c `prefix_of` StepC.funcKeyToFuncMap c'
  ∧ StepC.resolved c `prefix_of` StepC.resolved c'.
Proof.
  apply (foldlM_invariant _
           (λ _ c0,
              StepC.stringTable c `prefix_of` StepC.stringTable c0
              ∧ StepC.funcKeyToFuncMap c `prefix_of` StepC.funcKeyToFuncMap c0
              ∧ StepC.resolved c `prefix_of` StepC.resolved c0)); [done|].
  intros pre f post c0 c1 _ (H1 & H2 & H3)
    (H1' & H2' & H3')%canonicalizeFunc_monotone.
  split_and!; by etrans.
Qed.

Lemma stepC_order thread info results stringTable nativeSymbols column c :
  stepC thread info results stringTable nativeSymbols column = Returns c →
  let length0 := FuncTable.length (Thread.funcTable thread) in
  ∃ used,
    JsSet.of_list (ThreadLibSymbolicationInfo.allFuncsForThisLib info)
    = used ++ StepC.availableFuncIter c
    ∧ (StepC.funcKeyToFuncMap c).*2
      = used ++ seq length0 (FuncTable.length (StepC.funcTable c) - length0)
    ∧ (StepC.availableFuncIter c ≠ [] →
       FuncTable.length (StepC.funcTable c) = length0)
    ∧ (length0 ≤ FuncTable.length (StepC.funcTable c))%nat.
Proof.
  intros Hc length0. revert Hc. unfold stepC.
  apply (foldlM_invariant _
           (λ _ c,
              ∃ used,
                JsSet.of_list
                  (ThreadLibSymbolicationInfo.allFuncsForThisLib info)
                = used ++ StepC.availableFuncIter c
                ∧ (StepC.funcKeyToFuncMap c).*2
                  = used ++ seq length0
                              (FuncTable.length (StepC.funcTable c) - length0)
                ∧ (StepC.availableFuncIter c ≠ [] →
                   FuncTable.length (StepC.funcTable c) = length0)
                ∧ (length0 ≤ FuncTable.length (StepC.funcTable c))%nat)).
  - exists []. unfold shallowCloneFuncTable. simpl. fold length0.
    by rewrite Nat.sub_diag.
  - intros pre f post c0 c1 _ (used & Hused & Hvalues & Hiter & Hlen)
      (oldFunc & r & ni & st & fi & n & ft & _ & _ & _ & _ & _ & Hcases & _)
      %canonicalizeFunc_Returns.
    destruct Hcases as [(_ & -> & -> & ->)|(Hget & -> & Hnext & Hnamed)];
      [by exists used|].
    apply nameFunc_Returns in Hnamed as (-> & _).
    rewrite jsmap_set_new, fmap_app by by apply jsmap_has_false. simpl.
    destruct Hnext as [[Hit ->]|(Hit & -> & Hadd)].
    + exists (used ++ [n]). rewrite Hiter in * by by rewrite Hit.
      rewrite Nat.sub_diag in *. simpl in *. rewrite app_nil_r in *.
      split_and!; [by rewrite Hused, Hit, <-app_assoc|by rewrite Hvalues|
                    done|done].
    + apply addFunc_Returns in Hadd as (-> & -> & _).
      exists used. rewrite Hit in Hused. split_and!; [done| |done|lia].
      rewrite Hvalues, <-app_assoc. f_equal.
      replace (S (FuncTable.length (StepC.funcTable c0)) - length0)
        with (FuncTable.length (StepC.funcTable c0) - length0 + 1) by lia.
      rewrite seq_app. simpl. do 2 f_equal. lia.
Qed.

Lemma funcAddressResult_Returns oldFrameTable results nativeSymbols column
  stringTable funcTable f oldFunc r :
  funcAddressResult oldFrameTable results nativeSymbols column stringTable
    funcTable f oldFunc = Returns r →
  ∃ s address,
    column !! f = Some (Some s)
    ∧ FrameTable.address oldFrameTable !! f = Some address
    ∧ match results !! address with
      | Some addressResult => r = addressResult
      | None =>
          ∃ nameIndex,
            NativeSymbolTable.name nativeSymbols !! s = Some nameIndex
            ∧ stringTable !! nameIndex = Some (AddressResult.name r)
            ∧ NativeSymbolTable.address nativeSymbols !! s
              = Some (AddressResult.symbolAddress r)
      end.
Proof.
  unfold funcAddressResult, read, getString. intros Hr.
  destruct (column !! f) as [[s|]|]; [|done..]. simpl in Hr.
  destruct (FrameTable.address oldFrameTable !! f) as [address|]; [|done].
  simpl in Hr. exists s, address. split_and!; [done..|].
  destruct (results !! address) as [addressResult|]; [congruence|].
  destruct (NativeSymbolTable.name nativeSymbols !! s) as [nameIndex|];
    [|done].
  simpl in Hr.
  destruct (FuncTable.fileName funcTable !! oldFunc) as [fileIndex|]; [|done].
  simpl in Hr.
  destruct (NativeSymbolTable.address nativeSymbols !! s) as [sa|]; [|done].
  simpl in Hr.
  destruct (stringTable !! nameIndex) as [name|] eqn:Hname; [|done].
  simpl in Hr. exists nameIndex.
  destruct fileIndex as [fileIndex|]; simpl in Hr;
    [destruct (stringTable !! fileIndex); [|done]; simpl in Hr|];
    destruct (FrameTable.line oldFrameTable !! f); try done; simpl in Hr;
    injection Hr as <-; done.
Qed.

Lemma stepC_names thread info results stringTable nativeSymbols column c :
  stepC thread info results stringTable nativeSymbols column = Returns c →
  ∀ f r,
    (f, r) ∈ StepC.resolved c →
    ∃ s address,
      column !! f = Some (Some s)
      ∧ FrameTable.address (Thread.frameTable thread) !! f = Some address
      ∧ match results !! address with
        | Some addressResult => r = addressResult
        | None =>
            ∃ nameIndex,
              NativeSymbolTable.name nativeSymbols !! s = Some nameIndex
              ∧ StepC.stringTable c !! nameIndex
                = Some (AddressResult.name r)
        end.
Proof.
  unfold stepC.
  apply (foldlM_invariant _
           (λ _ c,
              ∀ f r,
                (f, r) ∈ StepC.resolved c →
                ∃ s address,
                  column !! f = Some (Some s)
                  ∧ FrameTable.address (Thread.frameTable thread) !! f
                    = Some address
                  ∧ match results !! address with
                    | Some addressResult => r = addressResult
                    | None =>
                        ∃ nameIndex,
                          NativeSymbolTable.name nativeSymbols !! s
                          = Some nameIndex
                          ∧ StepC.stringTable c !! nameIndex
                            = Some (AddressResult.name r)
                    end)).
  { by intros f r ?%elem_of_nil. }
  intros pre f post c0 c1 _ IH Hstep f0 r0.
  pose proof (canonicalizeFunc_monotone _ _ _ _ _ _ _ _ Hstep)
    as (Hstrings & _ & _).
  apply canonicalizeFunc_Returns in Hstep
    as (oldFunc & r & ni & st & fi & n & ft & _ & Hr & _ & _ & _ & _ & _ & _
        & _ & ->).
  intros [Hold|[= -> ->]%list_elem_of_singleton]%elem_of_app.
  - destruct (IH _ _ Hold) as (s & address & Hs & Haddress & Hcases).
    exists s, address. split_and!; [done..|].
    destruct (results !! address); [done|].
    destruct Hcases as (nameIndex & Hname & Hstring).
    exists nameIndex. split; [done|].
    by eapply prefix_lookup_Some.
  - apply funcAddressResult_Returns in Hr
      as (s & address & Hs & Haddress & Hcases).
    exists s, address. split_and!; [done..|].
    destruct (results !! address); [done|].
    destruct Hcases as (nameIndex & Hname & Hstring & _).
    exists nameIndex. split; [done|].
    by eapply prefix_lookup_Some.
Qed.

Lemma stepB_names thread info results a b :
  (∀ s, s ∈ ThreadLibSymbolicationInfo.allNativeSymbolsForThisLib info →
        s < NativeSymbolTable.length (Thread.nativeSymbols thread)) →
  stepA thread info results = Returns a →
  stepB thread (ThreadLibSymbolicationInfo.libIndex info) a = Returns b →
  ∀ symbolAddress name,
    (symbolAddress, name) ∈ StepA.symbolAddressToNameMap a →
    ∃ s index,
      JsMap.get (StepB.symbolAddressToCanonicalSymbolIndexMap b)
        symbolAddress = Some s
      ∧ NativeSymbolTable.address (StepB.nativeSymbols b) !! s
        = Some symbolAddress
      ∧ NativeSymbolTable.name (StepB.nativeSymbols b) !! s = Some index
      ∧ lookupIndex (StepB.stringTable b) name = Some index.
Proof.
  intros Hlt Ha Hb.
  pose proof (stepA_spec _ _ _ _ Ha)
    as (_ & _ & _ & Hn_nd & _ & Hc_nd & _ & Hv_nd & Hav_nd & Hvalues
        & Havailable).
  assert (∀ s, s ∈ JsSet.of_list
                     (ThreadLibSymbolicationInfo.allNativeSymbolsForThisLib
                        info) →
               s < NativeSymbolTable.length (Thread.nativeSymbols thread))
    as Hlt'.
  { intros s Hs. by apply Hlt, jsset_of_list_spec. }
  assert (stepB_invariant (StepA.symbolAddressToCanonicalSymbolIndexMap a)
            (StepA.availableNativeSymbols a)
            (NativeSymbolTable.length (Thread.nativeSymbols thread))
            (StepA.symbolAddressToNameMap a) b
          ∧ ∀ symbolAddress name,
              (symbolAddress, name) ∈ StepA.symbolAddressToNameMap a →
              ∃ s index,
                JsMap.get (StepB.symbolAddressToCanonicalSymbolIndexMap b)
                  symbolAddress = Some s
                ∧ NativeSymbolTable.name (StepB.nativeSymbols b) !! s
                  = Some index
                ∧ lookupIndex (StepB.stringTable b) name = Some index)
    as [Hinv Hnames].
  { revert Hb. unfold stepB.
    apply (foldlM_invariant _
             (λ visited b,
                stepB_invariant
                  (StepA.symbolAddressToCanonicalSymbolIndexMap a)
                  (StepA.availableNativeSymbols a)
                  (NativeSymbolTable.length (Thread.nativeSymbols thread))
                  visited b
                ∧ ∀ symbolAddress name,
                    (symbolAddress, name) ∈ visited →
                    ∃ s index,
                      JsMap.get
                        (StepB.symbolAddressToCanonicalSymbolIndexMap b)
                        symbolAddress = Some s
                      ∧ NativeSymbolTable.name (StepB.nativeSymbols b) !! s
                        = Some index
                      ∧ lookupIndex (StepB.stringTable b) name
                        = Some index)).
    - split; [|by intros sa nm ?%elem_of_nil].
      unfold stepB_invariant, shallowCloneNativeSymbolTable. simpl.
      split_and!; try done.
      + exists []. split; [done|]. intros s. rewrite elem_of_nil.
        split; [by left|]. intros [?|[?|?]]; [done|done|lia].
      + by intros sa nm ?%elem_of_nil.
    - intros pre [sa nm] post b0 b1 Heq [Hinv0 IH] Hstep.
      assert (sa ∉ pre.*1) as Hfresh.
      { rewrite Heq, fmap_app, fmap_cons in Hn_nd.
        apply NoDup_app in Hn_nd as (_ & Hd & _).
        intros Hsa. apply (Hd sa Hsa). left. }
      assert (stepB_invariant
                (StepA.symbolAddressToCanonicalSymbolIndexMap a)
                (StepA.availableNativeSymbols a)
                (NativeSymbolTable.length (Thread.nativeSymbols thread))
                (pre ++ [(sa, nm)]) b1) as Hinv1.
      { eapply stepB_invariant_step; [done| | |done|done|done].
        - intros s [Hs Hout]%Havailable. split; [by apply Hlt'|done].
        - intros s Hs%Hvalues. by apply Hlt'. }
      split; [done|].
      destruct Hinv1 as (_ & Hvalues1 & _).
      pose proof (indexForString_extends nm (StepB.stringTable b0)) as Hext.
      apply canonicalizeSymbol_rows in Hstep
        as (s & mid & ssi & Hget & Hindex & Hcases & _ & _ & Hrow & Hrows).
      specialize (Hext _ _ Hindex).
      intros sa0 nm0 [Hold|[= -> ->]%list_elem_of_singleton]%elem_of_app.
      + destruct (IH _ _ Hold) as (s0 & idx0 & Hget0 & Hname0 & Hlookup0).
        assert (sa0 ≠ sa) as Hne.
        { intros ->. apply Hfresh.
          apply list_elem_of_fmap. by exists (sa, nm0). }
        assert (JsMap.get (StepB.symbolAddressToCanonicalSymbolIndexMap b1)
                  sa0 = Some s0) as Hget1.
        { destruct Hcases as [(_ & _ & _ & ->)|(_ & -> & _)]; [done|].
          rewrite jsmap_get_set. by destruct (decide (sa = sa0)). }
        assert (s0 ≠ s) as Hs.
        { intros ->. apply Hne.
          by eapply (jsmap_values_inj
                       (StepB.symbolAddressToCanonicalSymbolIndexMap b1)). }
        exists s0, idx0. split_and!; [done| |by eapply lookupIndex_extends].
        specialize (Hrows s0 Hs). unfold symbolRowName in Hrows.
        injection Hrows as _ ->.
        destruct Hcases as [(_ & _ & -> & _)|(_ & _ & [[_ ->]|(_ & _ & Hadd)])];
          [done|done|].
        apply addNativeSymbol_rows in Hadd as (_ & _ & _ & -> & _). done.
      + exists s, ssi. unfold symbolRowName in Hrow.
        injection Hrow as _ Hname.
        split_and!; [done|done|by eapply indexForString_lookupIndex]. }
  intros sa nm Hin.
  destruct Hinv as (_ & _ & _ & _ & _ & _ & Hvisited).
  destruct (Hvisited _ _ Hin) as (s & idx & Hget & Haddress & _).
  destruct (Hnames _ _ Hin) as (s' & idx' & Hget' & Hname & Hlookup).
  assert (s' = s) as -> by congruence.
  by exists s, idx'.
Qed.

Lemma foldlM_ext_in {A B : Type} (f g : A → B → completion A) a l :
  (∀ a b, b ∈ l → f a b = g a b) → foldlM f a l = foldlM g a l.
Proof.
  revert a. induction l as [|b l IH]; intros a Hfg; [done|]. simpl.
  rewrite Hfg by left. destruct (g a b); [|done..]. simpl.
  apply IH. intros a' b' Hb'. apply Hfg. by right.
Qed.

Lemma collectLib_Returns thread resourceIndex libIndex info :
  collectLib thread resourceIndex libIndex = Returns info →
  collectFrames (Thread.frameTable thread) (Thread.funcTable thread)
    resourceIndex
  = Returns (ThreadLibSymbolicationInfo.allFramesForThisLib info,
             ThreadLibSymbolicationInfo.frameAddresses info)
  ∧ ThreadLibSymbolicationInfo.resourceIndex info = resourceIndex
  ∧ ThreadLibSymbolicationInfo.libIndex info = libIndex
  ∧ ThreadLibSymbolicationInfo.allFuncsForThisLib info
    = collectFuncs (Thread.funcTable thread) resourceIndex
  ∧ ThreadLibSymbolicationInfo.allNativeSymbolsForThisLib info
    = collectNativeSymbols (Thread.nativeSymbols thread) libIndex.
Proof.
  unfold collectLib.
  destruct (collectFrames _ _ _) as [[frames addresses]| |]; [|done..].
  simpl. by intros [= <-].
Qed.

Lemma thread_eq (t1 t2 : Thread.t) :
  Thread.libs t1 = Thread.libs t2 →
  FrameTable.length (Thread.frameTable t1)
  = FrameTable.length (Thread.frameTable t2) →
  FrameTable.address (Thread.frameTable t1)
  = FrameTable.address (Thread.frameTable t2) →
  FrameTable.func (Thread.frameTable t1)
  = FrameTable.func (Thread.frameTable t2) →
  FrameTable.nativeSymbol (Thread.frameTable t1)
  = FrameTable.nativeSymbol (Thread.frameTable t2) →
  FrameTable.line (Thread.frameTable t1)
  = FrameTable.line (Thread.frameTable t2) →
  FrameTable.innerWindowID (Thread.frameTable t1)
  = FrameTable.innerWindowID (Thread.frameTable t2) →
  Thread.funcTable t1 = Thread.funcTable t2 →
  Thread.nativeSymbols t1 = Thread.nativeSymbols t2 →
  Thread.resourceTable t1 = Thread.resourceTable t2 →
  Thread.stringTable t1 = Thread.stringTable t2 →
  t1 = t2.
Proof.
  destruct t1 as [? [] ? ? ? ?], t2 as [? [] ? ? ? ?]. simpl.
  by intros -> -> -> -> -> -> -> -> -> -> ->.
Qed.

Lemma collectLib_members thread resourceIndex libIndex info :
  collectLib thread resourceIndex libIndex = Returns info →
  let frameTable := Thread.frameTable thread in
  let funcTable := Thread.funcTable thread in
  let nativeSymbols := Thread.nativeSymbols thread in
  (NoDup (ThreadLibSymbolicationInfo.allFramesForThisLib info)
   ∧ ∀ f, f ∈ ThreadLibSymbolicationInfo.allFramesForThisLib info
          ↔ f < FrameTable.length frameTable
            ∧ frameIsInResource frameTable funcTable resourceIndex f)
  ∧ (NoDup (ThreadLibSymbolicationInfo.allFuncsForThisLib info)
     ∧ ∀ n, n ∈ ThreadLibSymbolicationInfo.allFuncsForThisLib info
            ↔ n < FuncTable.length funcTable
              ∧ FuncTable.resource funcTable !! n
                = Some (Z.of_nat resourceIndex))
  ∧ NoDup (ThreadLibSymbolicationInfo.allNativeSymbolsForThisLib info)
  ∧ ∀ s, s ∈ ThreadLibSymbolicationInfo.allNativeSymbolsForThisLib info
         ↔ s < NativeSymbolTable.length nativeSymbols
           ∧ NativeSymbolTable.libIndex nativeSymbols !! s = Some libIndex.
Proof.
  intros ([-> _]%collectFrames_spec & _ & _ & -> & ->)%collectLib_Returns.
  simpl. unfold collectFuncs, collectNativeSymbols.
  split_and!; try (apply NoDup_filter, NoDup_seq);
    intros x; rewrite list_elem_of_filter, elem_of_seq; naive_solver lia.
Qed.

Lemma keyIn_Some stringTable r nameIndex fileIndex :
  keyIn stringTable r = Some (funcKey nameIndex fileIndex) →
  lookupIndex stringTable (AddressResult.name r) = Some nameIndex
  ∧ match AddressResult.file r with
    | Some file =>
        ∃ index, fileIndex = Some index
                 ∧ lookupIndex stringTable file = Some index
    | None => fileIndex = None
    end.
Proof.
  unfold keyIn.
  destruct (lookupIndex stringTable (AddressResult.name r)) as [n|];
    [|done].
  simpl. destruct (AddressResult.file r) as [file|]; simpl.
  - destruct (lookupIndex stringTable file) as [i|]; [|done]. simpl.
    intros [= [-> <-]%funcKey_inj]. split; [done|]. by exists i.
  - by intros [= [-> <-]%funcKey_inj].
Qed.

Lemma NoDup_fst_functional {A B : Type} (l : list (A * B)) x y1 y2 :
  NoDup l.*1 → (x, y1) ∈ l → (x, y2) ∈ l → y1 = y2.
Proof.
  induction l as [|[x' y'] l IH]; [by intros _ ?%elem_of_nil|].
  rewrite fmap_cons, NoDup_cons. simpl. intros [Hx Hnd].
  assert (∀ y, (x', y) ∈ l → False) as Hfresh.
  { intros y Hy. apply Hx, list_elem_of_fmap. by exists (x', y). }
  intros [[= -> ->]|H1]%elem_of_cons [[= ->]|H2]%elem_of_cons;
    [done|by destruct (Hfresh y2)| |by apply IH].
  subst. by destruct (Hfresh y1).
Qed.

Lemma info_eq (i1 i2 : ThreadLibSymbolicationInfo.t) :
  ThreadLibSymbolicationInfo.resourceIndex i1
  = ThreadLibSymbolicationInfo.resourceIndex i2 →
  ThreadLibSymbolicationInfo.libIndex i1
  = ThreadLibSymbolicationInfo.libIndex i2 →
  ThreadLibSymbolicationInfo.allFuncsForThisLib i1
  = ThreadLibSymbolicationInfo.allFuncsForThisLib i2 →
  ThreadLibSymbolicationInfo.allNativeSymbolsForThisLib i1
  = ThreadLibSymbolicationInfo.allNativeSymbolsForThisLib i2 →
  ThreadLibSymbolicationInfo.allFramesForThisLib i1
  = ThreadLibSymbolicationInfo.allFramesForThisLib i2 →
  ThreadLibSymbolicationInfo.frameAddresses i1
  = ThreadLibSymbolicationInfo.frameAddresses i2 →
  i1 = i2.
Proof. destruct i1, i2. simpl. by intros -> -> -> -> -> ->. Qed.

Lemma filter_seq_none (P : nat → Prop) `{∀ x, Decision (P x)} start len :
  (∀ n, (start ≤ n < start + len)%nat → ¬ P n) →
  filter P (seq start len) = [].
Proof.
  revert start. induction len as [|len IH]; intros start HP; [done|].
  simpl. rewrite filter_cons_False by (apply HP; lia).
  apply IH. intros n Hn. apply HP. lia.
Qed.

Section step_again.
Variables (thread : Thread.t) (resourceIndex : nat) (libIndex : Z).
Variable info : ThreadLibSymbolicationInfo.t.
Variable results : gmap Z AddressResult.t.
Variable oldFuncToNewFuncMap : list (nat * nat).
Variable run : Run.t.
Hypothesis Hwf : wellFormed thread.
Hypothesis Hinfo : collectLib thread resourceIndex libIndex = Returns info.
Hypothesis Hrun :
  runSymbolicationStep thread
    {| SymbolicationStepInfo.threadLibSymbolicationInfo := info;
       SymbolicationStepInfo.resultsForLib := results |}
    oldFuncToNewFuncMap
  = Returns run.

Local Notation new := (Run.thread run).
Local Notation frames :=
  (ThreadLibSymbolicationInfo.allFramesForThisLib info).
Local Notation funcs := (ThreadLibSymbolicationInfo.allFuncsForThisLib info).
Local Notation symbols :=
  (ThreadLibSymbolicationInfo.allNativeSymbolsForThisLib info).
Local Notation a1 := (Run.stepA run).
Local Notation b1 := (Run.stepB run).
Local Notation c1 := (Run.stepC run).
Local Notation canonical1 :=
  (StepB.symbolAddressToCanonicalSymbolIndexMap (Run.stepB run)).
Local Notation length0 := (FuncTable.length (Thread.funcTable thread)).
Local Notation length1 := (FuncTable.length (Thread.funcTable new)).

Lemma first_run_steps :
  stepA thread info results = Returns a1
  ∧ stepB thread libIndex a1 = Returns b1
  ∧ assignNativeSymbols canonical1
      (FrameTable.nativeSymbol (Thread.frameTable thread))
      (StepA.frameToSymbolAddressMap a1)
    = Returns (FrameTable.nativeSymbol (Thread.frameTable new))
  ∧ stepC thread info results (StepB.stringTable b1) (StepB.nativeSymbols b1)
      (FrameTable.nativeSymbol (Thread.frameTable new))
    = Returns c1.
Proof.
  pose proof (runSymbolicationStep_Returns _ _ _ _ Hrun) as H. simpl in H.
  pose proof (collectLib_Returns _ _ _ _ Hinfo) as (_ & _ & Hlib & _).
  rewrite Hlib in H. naive_solver.
Qed.

Lemma first_run_fields :
  Thread.libs new = Thread.libs thread
  ∧ Thread.resourceTable new = Thread.resourceTable thread
  ∧ FrameTable.length (Thread.frameTable new)
    = FrameTable.length (Thread.frameTable thread)
  ∧ FrameTable.address (Thread.frameTable new)
    = FrameTable.address (Thread.frameTable thread)
  ∧ FrameTable.innerWindowID (Thread.frameTable new)
    = FrameTable.innerWindowID (Thread.frameTable thread)
  ∧ FrameTable.func (Thread.frameTable new) = StepC.newFrameTableFuncColumn c1
  ∧ FrameTable.line (Thread.frameTable new) = StepC.newFrameTableLineColumn c1
  ∧ Thread.funcTable new = StepC.funcTable c1
  ∧ Thread.nativeSymbols new = StepB.nativeSymbols b1
  ∧ Thread.stringTable new = StepC.stringTable c1.
Proof.
  pose proof (runSymbolicationStep_Returns _ _ _ _ Hrun) as H. simpl in H.
  naive_solver.
Qed.

Lemma first_run_slice :
  (NoDup frames
   ∧ ∀ f, f ∈ frames
          ↔ f < FrameTable.length (Thread.frameTable thread)
            ∧ frameIsInResource (Thread.frameTable thread)
                (Thread.funcTable thread) resourceIndex f)
  ∧ (NoDup funcs
     ∧ ∀ n, n ∈ funcs
            ↔ n < length0
              ∧ FuncTable.resource (Thread.funcTable thread) !! n
                = Some (Z.of_nat resourceIndex))
  ∧ NoDup symbols
  ∧ ∀ s, s ∈ symbols
         ↔ s < NativeSymbolTable.length (Thread.nativeSymbols thread)
           ∧ NativeSymbolTable.libIndex (Thread.nativeSymbols thread) !! s
             = Some libIndex.
Proof. exact (collectLib_members _ _ _ _ Hinfo). Qed.

(** What the third loop of the first step left for a frame of the
    library: its func is the one of its key, the row of that func holds
    the key's name and file, and the func is one of the library's or a
    new one. *)
Lemma first_run_func f :
  f ∈ frames →
  ∃ r g nameIndex fileIndex,
    (f, r) ∈ StepC.resolved c1
    ∧ keyIn (Thread.stringTable new) r = Some (funcKey nameIndex fileIndex)
    ∧ JsMap.get (StepC.funcKeyToFuncMap c1) (funcKey nameIndex fileIndex)
      = Some g
    ∧ FrameTable.func (Thread.frameTable new) !! f = Some g
    ∧ FrameTable.line (Thread.frameTable new) !! f
      = Some (AddressResult.line r)
    ∧ FuncTable.name (Thread.funcTable new) !! g = Some nameIndex
    ∧ FuncTable.fileName (Thread.funcTable new) !! g = Some fileIndex
    ∧ (g ∈ funcs ∨ (length0 ≤ g < length1)%nat).
Proof.
  intros Hf.
  destruct first_run_steps as (_ & _ & _ & HC).
  destruct first_run_fields
    as (_ & _ & _ & _ & _ & -> & -> & -> & _ & ->).
  destruct first_run_slice as ([Hnd _] & [_ Hfuncs] & _).
  pose proof (stepC_lines _ _ _ _ _ _ _ Hnd HC) as Hlines.
  apply stepC_spec in HC
    as (Hvisited & _ & _ & (used & Hused & Hvalues) & _ & _ & Hresolved
        & Hrows); [|done|by intros n [? _]%Hfuncs].
  rewrite <-Hvisited in Hf.
  apply list_elem_of_fmap in Hf as ([f' r] & -> & Hin). simpl.
  destruct (Hresolved _ _ Hin) as (key & g & Hkey & Hget & Hcolumn).
  destruct (Hrows _ _ Hget) as (nameIndex & fileIndex & -> & Hname & Hfile).
  destruct (Hlines _ _ Hin) as [Hline _].
  exists r, g, nameIndex, fileIndex. split_and!; try done.
  apply jsmap_get_elem_of_values, Hvalues in Hget as [Hg|Hg]; [left|by right].
  apply jsset_of_list_spec. rewrite Hused. apply elem_of_app. by left.
Qed.

Lemma first_run_resources :
  (length0 ≤ length1)%nat
  ∧ (∀ n, n < length0 →
          FuncTable.resource (Thread.funcTable new) !! n
          = FuncTable.resource (Thread.funcTable thread) !! n)
  ∧ ∀ n, (length0 ≤ n < length1)%nat →
         FuncTable.resource (Thread.funcTable new) !! n
         = Some (Z.of_nat resourceIndex).
Proof.
  destruct first_run_steps as (_ & _ & _ & HC).
  destruct first_run_fields as (_ & _ & _ & _ & _ & _ & _ & -> & _).
  pose proof (collectLib_Returns _ _ _ _ Hinfo) as (_ & Hresource & _).
  apply stepC_rows in HC as (Hle & Hold & _ & Hnew).
  rewrite Hresource in Hnew. unfold funcRowKind in Hold, Hnew.
  split_and!; [done|intros n Hn|intros n Hn].
  - specialize (Hold n Hn). congruence.
  - specialize (Hnew n Hn). congruence.
Qed.

Lemma again_in_resource f :
  f < FrameTable.length (Thread.frameTable thread) →
  frameIsInResource (Thread.frameTable new) (Thread.funcTable new)
    resourceIndex f
  ↔ frameIsInResource (Thread.frameTable thread) (Thread.funcTable thread)
      resourceIndex f.
Proof.
  intros Hf.
  destruct first_run_slice as ([_ Hframes] & [_ Hfuncs] & _).
  destruct first_run_resources as (_ & Hold & Hnew).
  destruct (decide (f ∈ frames)) as [Hin|Hout].
  - split; [intros _; by apply Hframes|intros _].
    destruct (first_run_func f Hin)
      as (r & g & _ & _ & _ & _ & _ & Hg & _ & _ & _ & Hcases).
    unfold frameIsInResource. rewrite Hg. simpl.
    destruct Hcases as [[Hlt Hres]%Hfuncs|Hrange]; [|by apply Hnew].
    by rewrite Hold.
  - destruct first_run_steps as (_ & _ & _ & HC).
    apply stepC_columns in HC as [_ Hcolumns].
    destruct (Hcolumns f Hout) as [Hfunc _].
    destruct first_run_fields as (_ & _ & _ & _ & _ & Hcolumn & _).
    rewrite <-Hcolumn in Hfunc.
    apply wellFormed_spec in Hwf as Hwf'.
    destruct Hwf' as ((_ & Hlen & _) & _ & _ & Hrows & _).
    destruct (lookup_in_column
                (FrameTable.func (Thread.frameTable thread)) _ f Hlen Hf)
      as [n Hn].
    unfold frameIsInResource. rewrite Hfunc, Hn. simpl.
    by rewrite Hold by by eapply Hrows.
Qed.

Lemma again_collectFrames :
  collectFrames (Thread.frameTable new) (Thread.funcTable new) resourceIndex
  = Returns (frames, ThreadLibSymbolicationInfo.frameAddresses info).
Proof.
  pose proof (collectLib_Returns _ _ _ _ Hinfo) as (<- & _).
  destruct first_run_fields as (_ & _ & Hlength & Haddress & _).
  unfold collectFrames. rewrite Hlength, Haddress.
  apply foldlM_ext_in.
  intros [allFrames addresses] f [_ Hf]%elem_of_seq.
  pose proof (again_in_resource f ltac:(lia)).
  destruct (decide _), (decide _); tauto.
Qed.

Lemma again_collectFuncs :
  collectFuncs (Thread.funcTable new) resourceIndex
  = funcs ++ seq length0 (length1 - length0).
Proof.
  pose proof (collectLib_Returns _ _ _ _ Hinfo) as (_ & _ & _ & -> & _).
  destruct first_run_resources as (Hle & Hold & Hnew).
  unfold collectFuncs.
  replace length1 with (length0 + (length1 - length0)) at 1 by lia.
  rewrite seq_app, filter_app. f_equal.
  - apply filter_ext_in. intros n [_ Hn]%elem_of_seq.
    by rewrite Hold by lia.
  - apply filter_seq_all. intros n Hn. apply Hnew. lia.
Qed.

Lemma again_collectLib :
  collectLib new resourceIndex libIndex
  = Returns {|
      ThreadLibSymbolicationInfo.resourceIndex := resourceIndex;
      ThreadLibSymbolicationInfo.libIndex := libIndex;
      ThreadLibSymbolicationInfo.allFuncsForThisLib :=
        funcs ++ seq length0 (length1 - length0);
      ThreadLibSymbolicationInfo.allNativeSymbolsForThisLib :=
        collectNativeSymbols (Thread.nativeSymbols new) libIndex;
      ThreadLibSymbolicationInfo.allFramesForThisLib := frames;
      ThreadLibSymbolicationInfo.frameAddresses :=
        ThreadLibSymbolicationInfo.frameAddresses info |}.
Proof.
  unfold collectLib. rewrite again_collectFrames. simpl.
  by rewrite again_collectFuncs.
Qed.

Local Notation symbols' :=
  (collectNativeSymbols (Thread.nativeSymbols new) libIndex).

Lemma first_run_canonical :
  NoDup canonical1.*1 ∧ NoDup canonical1.*2
  ∧ ∀ s, s ∈ canonical1.*2 → s ∈ symbols'.
Proof.
  destruct first_run_steps as (HA & HB & _).
  destruct first_run_fields as (_ & _ & _ & _ & _ & _ & _ & _ & -> & _).
  destruct first_run_slice as (_ & _ & _ & Hsymbols).
  pose proof (collectLib_Returns _ _ _ _ Hinfo) as (_ & _ & Hlib & _).
  rewrite <-Hlib in HB.
  assert (∀ s, s ∈ symbols →
               s < NativeSymbolTable.length (Thread.nativeSymbols thread))
    as Hlt by (by intros s [? _]%Hsymbols).
  pose proof (stepB_spec _ _ _ _ _ Hlt HA HB)
    as (Hkeys & Hvalues & (used & Hused & Hchar) & _).
  split_and!; [done..|]. intros s Hs.
  pose proof (stepA_spec _ _ _ _ HA)
    as (_ & _ & _ & _ & _ & _ & _ & _ & _ & Hcanonical & Havailable).
  rewrite Hlib in HB.
  apply (stepB_rows _ _ (JsSet.of_list symbols)) in HB
    as (Hle & Hold & _ & Hnew);
    [|by intros s' [? _]%Havailable|done].
  unfold symbolRowLib in Hold, Hnew.
  unfold collectNativeSymbols.
  apply list_elem_of_filter. rewrite elem_of_seq.
  assert (s ∈ JsSet.of_list symbols
          ∨ (NativeSymbolTable.length (Thread.nativeSymbols thread) ≤ s
             < NativeSymbolTable.length (StepB.nativeSymbols b1))%nat)
    as [[Hlt' Hrow]%jsset_of_list_spec%Hsymbols|Hrange].
  { apply Hchar in Hs as [Hs|[Hs|Hs]]; [left; by apply Hcanonical| |by right].
    left. apply (Havailable s). rewrite Hused. apply elem_of_app. by left. }
  - rewrite Hold by done. split; [done|lia].
  - rewrite Hnew by done. split; [done|lia].
Qed.

Lemma first_run_symbol symbolAddress name :
  (symbolAddress, name) ∈ StepA.symbolAddressToNameMap a1 →
  ∃ s index,
    JsMap.get canonical1 symbolAddress = Some s
    ∧ NativeSymbolTable.address (Thread.nativeSymbols new) !! s
      = Some symbolAddress
    ∧ NativeSymbolTable.name (Thread.nativeSymbols new) !! s = Some index
    ∧ lookupIndex (Thread.stringTable new) name = Some index.
Proof.
  intros Hin.
  destruct first_run_steps as (HA & HB & _ & HC).
  destruct first_run_fields as (_ & _ & _ & _ & _ & _ & _ & _ & -> & ->).
  destruct first_run_slice as (_ & _ & _ & Hsymbols).
  pose proof (collectLib_Returns _ _ _ _ Hinfo) as (_ & _ & Hlib & _).
  rewrite <-Hlib in HB.
  assert (∀ s, s ∈ symbols →
               s < NativeSymbolTable.length (Thread.nativeSymbols thread))
    as Hlt by (by intros s [? _]%Hsymbols).
  destruct (stepB_names _ _ _ _ _ Hlt HA HB _ _ Hin)
    as (s & index & Hget & Haddress & Hname & Hlookup).
  exists s, index. split_and!; [done..|].
  eapply lookupIndex_extends; [|done].
  by eapply stepC_stringTable_extends.
Qed.

Lemma first_run_frame f :
  f ∈ frames →
  ∃ old r s,
    resolveFrame thread results f = Returns (old, r)
    ∧ JsMap.get (StepA.frameToSymbolAddressMap a1) f
      = Some (AddressResult.symbolAddress r)
    ∧ AddressResult.symbolAddress r ∈ (StepA.symbolAddressToNameMap a1).*1
    ∧ JsMap.get canonical1 (AddressResult.symbolAddress r) = Some s
    ∧ FrameTable.nativeSymbol (Thread.frameTable new) !! f = Some (Some s).
Proof.
  intros Hf.
  destruct first_run_steps as (HA & _ & Hassign & _).
  destruct first_run_slice as ([_ Hframes] & _).
  pose proof (stepA_spec _ _ _ _ HA)
    as (Hnd & Hkeys & Hresolved & _ & Hnames & _).
  apply wellFormed_spec in Hwf as Hwf'.
  destruct Hwf' as ((_ & _ & Hlen & _) & _).
  apply assignNativeSymbols_spec in Hassign as (_ & Hcolumn & _); [|done|].
  2:{ intros f' [Hf' _]%Hkeys%Hframes. lia. }
  apply Hkeys, jsmap_get_is_Some in Hf as [sa Hsa].
  destruct (Hresolved _ _ Hsa) as (old & r & Hr & <-).
  destruct (Hcolumn _ _ Hsa) as (s & Hs & Hcol).
  exists old, r, s. split_and!; [done..| |done|done].
  apply Hnames. by exists f.
Qed.

(** The results of the second step: some or all of those of the first;
    and where a frame's address has lost its result, the name of that
    result is the one the first step gave the symbol address in the
    end. *)
Variable results2 : gmap Z AddressResult.t.
Hypothesis Hsub :
  ∀ address addressResult,
    results2 !! address = Some addressResult →
    results !! address = Some addressResult.
Hypothesis Hforgotten :
  ∀ f address addressResult,
    f ∈ frames →
    FrameTable.address (Thread.frameTable thread) !! f = Some address →
    results !! address = Some addressResult →
    results2 !! address = None →
    JsMap.get (StepA.symbolAddressToNameMap a1)
      (AddressResult.symbolAddress addressResult)
    = Some (AddressResult.name addressResult).

(** The first loop of the second step settles, for a frame, on the symbol
    address of the first step, and on its name there or on the name the
    first step gave that address in the end. *)
Lemma again_resolveFrame f old r :
  f ∈ frames →
  resolveFrame thread results f = Returns (old, r) →
  ∃ s r',
    resolveFrame new results2 f = Returns (Some s, r')
    ∧ AddressResult.symbolAddress r' = AddressResult.symbolAddress r
    ∧ JsMap.get canonical1 (AddressResult.symbolAddress r) = Some s
    ∧ (AddressResult.name r' = AddressResult.name r
       ∨ JsMap.get (StepA.symbolAddressToNameMap a1)
           (AddressResult.symbolAddress r)
         = Some (AddressResult.name r')).
Proof.
  intros Hf Hr.
  destruct (first_run_frame f Hf)
    as (old' & r0 & s & Hr0 & _ & Hkey & Hs & Hcolumn).
  assert (r0 = r) as -> by congruence.
  apply resolveFrame_Returns in Hr as (address & _ & Haddress & Hcases).
  destruct first_run_fields as (_ & _ & _ & Haddresses & _).
  unfold resolveFrame, read. rewrite Hcolumn, Haddresses, Haddress. simpl.
  destruct (results2 !! address) as [addressResult|] eqn:Hresult2.
  { apply Hsub in Hresult2. rewrite Hresult2 in Hcases. subst r.
    exists s, addressResult. simpl. split_and!; [done..|by left]. }
  apply jsmap_get_is_Some in Hkey as [name Hname].
  destruct (first_run_symbol _ _ (jsmap_get_Some_elem _ _ _ Hname))
    as (s' & index & Hs' & Hsa & Hindex & Hstring%lookupIndex_Some).
  assert (s' = s) as -> by congruence.
  unfold getString. rewrite Hindex. simpl. rewrite Hstring. simpl.
  rewrite Hsa. simpl. eexists s, _. split_and!; [done..|]. by right.
Qed.

Local Notation info' :=
  {| ThreadLibSymbolicationInfo.resourceIndex := resourceIndex;
     ThreadLibSymbolicationInfo.libIndex := libIndex;
     ThreadLibSymbolicationInfo.allFuncsForThisLib :=
       funcs ++ seq length0 (length1 - length0);
     ThreadLibSymbolicationInfo.allNativeSymbolsForThisLib := symbols';
     ThreadLibSymbolicationInfo.allFramesForThisLib := frames;
     ThreadLibSymbolicationInfo.frameAddresses :=
       ThreadLibSymbolicationInfo.frameAddresses info |}.

(** The first loop of the second step, run beside that of the first:
    the same frame and name maps, and canonical symbols that are those
    the first step ended with. *)
Lemma again_stepA :
  ∃ a2,
    stepA new info' results2 = Returns a2
    ∧ StepA.frameToSymbolAddressMap a2 = StepA.frameToSymbolAddressMap a1
    ∧ StepA.symbolAddressToNameMap a2 = StepA.symbolAddressToNameMap a1
    ∧ ∀ symbolAddress,
        symbolAddress ∈ (StepA.symbolAddressToNameMap a1).*1 →
        JsMap.get (StepA.symbolAddressToCanonicalSymbolIndexMap a2)
          symbolAddress
        = JsMap.get canonical1 symbolAddress.
Proof.
  destruct first_run_steps as (HA & _).
  destruct first_run_canonical as (_ & Hinj & Hsymbols).
  pose proof (stepA_spec _ _ _ _ HA) as (_ & _ & _ & Hnd & _).
  unfold stepA in HA |- *. simpl.
  eapply (foldlM_simulation _ (resolveSymbolAddress new results2)
            (λ _ x1 x2,
               StepA.frameToSymbolAddressMap x2
               = StepA.frameToSymbolAddressMap x1
               ∧ (StepA.symbolAddressToNameMap x2).*1
                 = (StepA.symbolAddressToNameMap x1).*1
               ∧ (∀ sa name,
                    JsMap.get (StepA.symbolAddressToNameMap x2) sa
                    = Some name →
                    JsMap.get (StepA.symbolAddressToNameMap x1) sa
                    = Some name
                    ∨ JsMap.get (StepA.symbolAddressToNameMap a1) sa
                      = Some name)
               ∧ NoDup (StepA.availableNativeSymbols x2)
               ∧ (∀ sa s,
                    (sa, s) ∈ StepA.symbolAddressToCanonicalSymbolIndexMap x2 →
                    JsMap.get canonical1 sa = Some s)
               ∧ (∀ sa,
                    sa ∈ (StepA.symbolAddressToNameMap x2).*1 →
                    sa ∈ (StepA.symbolAddressToCanonicalSymbolIndexMap x2).*1)
               ∧ ∀ s,
                   s ∈ canonical1.*2 →
                   s ∉ (StepA.symbolAddressToCanonicalSymbolIndexMap x2).*2 →
                   s ∈ StepA.availableNativeSymbols x2))
    in HA as (a2 & Ha2 & Hframes & Hkeys & Hnames & _ & Hwithin & Hcover & _).
  - exists a2. split_and!; [done|done| |].
    + apply jsmap_eq; [done|by rewrite Hkeys|]. intros sa.
      destruct (JsMap.get (StepA.symbolAddressToNameMap a2) sa) as [name|]
        eqn:Hname.
      * by destruct (Hnames _ _ Hname) as [->| ->].
      * symmetry. apply jsmap_get_None. rewrite <-Hkeys.
        by apply jsmap_get_None.
    + intros sa Hsa. rewrite <-Hkeys in Hsa.
      apply Hcover, jsmap_get_is_Some in Hsa as [s Hs]. rewrite Hs.
      symmetry. by apply Hwithin, jsmap_get_Some_elem.
  - simpl. split_and!; try done.
    + apply jsset_of_list_spec.
    + by intros sa s ?%elem_of_nil.
    + intros s Hs _. by apply jsset_of_list_spec, Hsymbols.
  - intros pre f post x1 x1' x2 Hl Hstep _
      (Hframes & Hkeys & Hnames & Havailable & Hwithin & Hcover & Hfree).
    assert (f ∈ frames) as Hf.
    { rewrite Hl. apply elem_of_app. right. left. }
    apply resolveSymbolAddress_Returns in Hstep
      as (old & r & Hr & Hframes1 & Hnames1 & _).
    destruct (again_resolveFrame f old r Hf Hr)
      as (s & r' & Hr' & Hsa & Hs & Hname).
    assert (∀ name,
              (JsMap.set (StepA.symbolAddressToNameMap x2)
                 (AddressResult.symbolAddress r') name).*1
              = (StepA.symbolAddressToNameMap x1').*1) as Hkeys'.
    { intros name. rewrite Hnames1, Hsa, !jsmap_keys_set, Hkeys.
      destruct (JsMap.has (StepA.symbolAddressToNameMap x2) _) eqn:E2,
        (JsMap.has (StepA.symbolAddressToNameMap x1) _) eqn:E1; try done.
      - apply jsmap_has_true in E2. rewrite Hkeys in E2.
        apply jsmap_has_true in E2. congruence.
      - apply jsmap_has_true in E1. rewrite <-Hkeys in E1.
        apply jsmap_has_true in E1. congruence. }
    assert (∀ sa name,
              JsMap.get
                (JsMap.set (StepA.symbolAddressToNameMap x2)
                   (AddressResult.symbolAddress r') (AddressResult.name r'))
                sa = Some name →
              JsMap.get (StepA.symbolAddressToNameMap x1') sa = Some name
              ∨ JsMap.get (StepA.symbolAddressToNameMap a1) sa = Some name)
      as Hnames'.
    { intros sa name. rewrite Hnames1, Hsa, !jsmap_get_set.
      destruct (decide (AddressResult.symbolAddress r = sa)) as [<-|Hne];
        [|apply Hnames].
      intros [= <-]. destruct Hname as [->|Hname]; [by left|by right]. }
    unfold resolveSymbolAddress. rewrite Hr'. simpl.
    destruct (JsMap.has (StepA.symbolAddressToCanonicalSymbolIndexMap x2)
                (AddressResult.symbolAddress r')) eqn:Hhas; simpl.
    + eexists. split; [done|]. simpl.
      split_and!; [by rewrite Hframes1, Hsa, Hframes|done..| |done].
      intros sa [->|Hsa']%jsmap_elem_of_keys_set; [|by apply Hcover].
      by apply jsmap_has_true.
    + assert (s ∉ (StepA.symbolAddressToCanonicalSymbolIndexMap x2).*2)
        as Hunused.
      { intros ([sa s'] & -> & Hin)%list_elem_of_fmap. simpl in *.
        pose proof (Hwithin _ _ Hin) as Hget.
        pose proof (jsmap_values_inj _ _ _ _ Hinj Hget Hs) as ->.
        apply jsmap_has_false, jsmap_get_None in Hhas.
        apply Hhas. rewrite Hsa. apply list_elem_of_fmap.
        by exists (AddressResult.symbolAddress r, s'). }
      rewrite (proj2 (jsset_has_true _ s))
        by (apply Hfree; [by eapply jsmap_get_elem_of_values|done]).
      eexists. split; [done|]. simpl.
      split_and!; [by rewrite Hframes1, Hsa, Hframes|done|done| | | |].
      * by apply jsset_NoDup_delete.
      * intros sa s0 [[= -> ->]|Hin]%jsmap_elem_of_set; [|by apply Hwithin].
        by rewrite Hsa.
      * intros sa [->|Hsa']%jsmap_elem_of_keys_set;
          apply jsmap_elem_of_keys_set; [by left|right; by apply Hcover].
      * intros s0 Hs0. rewrite jsmap_set_new, fmap_app by done. simpl.
        rewrite elem_of_app, list_elem_of_singleton. intros Hout.
        apply jsset_elem_of_delete; [done|]. split; [naive_solver|].
        apply Hfree; [done|]. naive_solver.
Qed.

(** The second loop of the second step finds every symbol address
    canonical, and its row and string in place: it changes nothing. *)
Lemma again_stepB a2 :
  StepA.symbolAddressToNameMap a2 = StepA.symbolAddressToNameMap a1 →
  (∀ symbolAddress,
     symbolAddress ∈ (StepA.symbolAddressToNameMap a1).*1 →
     JsMap.get (StepA.symbolAddressToCanonicalSymbolIndexMap a2) symbolAddress
     = JsMap.get canonical1 symbolAddress) →
  stepB new libIndex a2
  = Returns {|
      StepB.stringTable := Thread.stringTable new;
      StepB.availableNativeSymbolIterator := StepA.availableNativeSymbols a2;
      StepB.nativeSymbols := Thread.nativeSymbols new;
      StepB.symbolAddressToCanonicalSymbolIndexMap :=
        StepA.symbolAddressToCanonicalSymbolIndexMap a2 |}.
Proof.
  intros Hnames Hcanonical. unfold stepB, shallowCloneNativeSymbolTable.
  rewrite Hnames. apply foldlM_unchanged. intros [sa name] Hin.
  destruct (first_run_symbol _ _ Hin)
    as (s & index & Hs & Haddress & Hname & Hlookup).
  unfold canonicalizeSymbol. simpl.
  rewrite (indexForString_known _ _ _ Hlookup).
  rewrite Hcanonical, Hs by (apply list_elem_of_fmap; by exists (sa, name)).
  simpl. rewrite (write_same _ _ _ Haddress). simpl.
  rewrite (write_same _ _ _ Hname). simpl.
  by destruct (Thread.nativeSymbols new).
Qed.

Lemma again_assignNativeSymbols a2 :
  StepA.frameToSymbolAddressMap a2 = StepA.frameToSymbolAddressMap a1 →
  (∀ symbolAddress,
     symbolAddress ∈ (StepA.symbolAddressToNameMap a1).*1 →
     JsMap.get (StepA.symbolAddressToCanonicalSymbolIndexMap a2) symbolAddress
     = JsMap.get canonical1 symbolAddress) →
  assignNativeSymbols (StepA.symbolAddressToCanonicalSymbolIndexMap a2)
    (FrameTable.nativeSymbol (Thread.frameTable new))
    (StepA.frameToSymbolAddressMap a2)
  = Returns (FrameTable.nativeSymbol (Thread.frameTable new)).
Proof.
  intros Hframes Hcanonical. unfold assignNativeSymbols. rewrite Hframes.
  destruct first_run_steps as (HA & _).
  pose proof (stepA_spec _ _ _ _ HA) as (Hnd & Hkeys & _).
  apply foldlM_unchanged. intros [f sa] Hin.
  assert (f ∈ frames) as Hf.
  { apply Hkeys, list_elem_of_fmap. by exists (f, sa). }
  apply jsmap_elem_get in Hin; [|done].
  destruct (first_run_frame f Hf) as (old & r & s & _ & Hsa & Hkey & Hs & Hcol).
  assert (AddressResult.symbolAddress r = sa) as <- by congruence.
  unfold assignNativeSymbol. rewrite Hcanonical, Hs by done.
  by apply write_same.
Qed.

Lemma first_run_resolved f r :
  (f, r) ∈ StepC.resolved c1 →
  f ∈ frames
  ∧ ∃ g nameIndex fileIndex,
      keyIn (Thread.stringTable new) r = Some (funcKey nameIndex fileIndex)
      ∧ JsMap.get (StepC.funcKeyToFuncMap c1) (funcKey nameIndex fileIndex)
        = Some g
      ∧ FrameTable.func (Thread.frameTable new) !! f = Some g
      ∧ FrameTable.line (Thread.frameTable new) !! f
        = Some (AddressResult.line r)
      ∧ FuncTable.name (Thread.funcTable new) !! g = Some nameIndex
      ∧ FuncTable.fileName (Thread.funcTable new) !! g = Some fileIndex.
Proof.
  intros Hin.
  destruct first_run_steps as (_ & _ & _ & HC).
  destruct first_run_slice as ([Hnd _] & [_ Hfuncs] & _).
  apply stepC_spec in HC as (Hvisited & _); [|done|by intros n [? _]%Hfuncs].
  assert (f ∈ frames) as Hf.
  { rewrite <-Hvisited. apply list_elem_of_fmap. by exists (f, r). }
  split; [done|].
  destruct (first_run_func f Hf)
    as (r' & g & nameIndex & fileIndex & Hin' & Hrest).
  rewrite <-Hvisited in Hnd.
  rewrite (NoDup_fst_functional _ _ _ _ Hnd Hin Hin').
  exists g, nameIndex, fileIndex. naive_solver.
Qed.

(** The third loop of the second step settles, for a frame, on the name,
    file and line of the first step. *)
Lemma again_funcAddressResult f r g :
  (f, r) ∈ StepC.resolved c1 →
  FrameTable.func (Thread.frameTable new) !! f = Some g →
  ∃ r',
    funcAddressResult (Thread.frameTable new) results2
      (Thread.nativeSymbols new)
      (FrameTable.nativeSymbol (Thread.frameTable new))
      (Thread.stringTable new) (Thread.funcTable new) f g
    = Returns r'
    ∧ AddressResult.name r' = AddressResult.name r
    ∧ AddressResult.file r' = AddressResult.file r
    ∧ AddressResult.line r' = AddressResult.line r.
Proof.
  intros Hin Hg.
  destruct (first_run_resolved f r Hin)
    as (Hf & g' & nameIndex & fileIndex & Hkey & _ & Hg' & Hline & _ & Hfile).
  assert (g' = g) as -> by congruence.
  destruct first_run_steps as (_ & _ & _ & HC).
  destruct (stepC_names _ _ _ _ _ _ _ HC f r Hin)
    as (s & address & Hs & Haddress & Hcases).
  destruct first_run_fields
    as (_ & _ & _ & Haddresses & _ & _ & _ & _ & Hsymbols & Hstrings).
  unfold funcAddressResult, read. rewrite Hs, Haddresses, Haddress. simpl.
  destruct (results2 !! address) as [addressResult|] eqn:Hresult2.
  { apply Hsub in Hresult2. rewrite Hresult2 in Hcases. subst r.
    by exists addressResult. }
  destruct (first_run_frame f Hf)
    as (old0 & r0 & s0 & Hr0 & _ & Hkey0 & Hs0 & Hcolumn0).
  assert (s0 = s) as -> by congruence.
  assert (is_Some (NativeSymbolTable.address (Thread.nativeSymbols new) !! s))
    as [sa Hsa].
  { apply jsmap_get_is_Some in Hkey0 as [name0 Hname0].
    destruct (first_run_symbol _ _ (jsmap_get_Some_elem _ _ _ Hname0))
      as (s1 & _ & Hs1 & Hsa1 & _).
    assert (s1 = s) as -> by congruence. by eexists. }
  assert (∃ index,
            NativeSymbolTable.name (Thread.nativeSymbols new) !! s
            = Some index
            ∧ Thread.stringTable new !! index = Some (AddressResult.name r))
    as (index & Hindex & Hname).
  { destruct (results !! address) as [addressResult|] eqn:Hresult.
    - subst r.
      pose proof (Hforgotten f address addressResult Hf Haddress Hresult
                    Hresult2) as Hfinal.
      apply resolveFrame_Returns in Hr0 as (address0 & _ & Haddress0 & Hr0).
      assert (address0 = address) as -> by congruence.
      rewrite Hresult in Hr0. subst r0.
      destruct (first_run_symbol _ _ (jsmap_get_Some_elem _ _ _ Hfinal))
        as (s1 & index & Hs1 & _ & Hindex & Hstring%lookupIndex_Some).
      assert (s1 = s) as -> by congruence. by exists index.
    - destruct Hcases as (index & Hindex & Hname).
      rewrite <-Hsymbols in Hindex. rewrite <-Hstrings in Hname.
      by exists index. }
  rewrite Hindex, Hfile. simpl. rewrite Hsa. simpl.
  unfold getString. rewrite Hname. simpl.
  apply keyIn_Some in Hkey as [_ Hfiles]. rewrite Hline.
  destruct (AddressResult.file r) as [file|] eqn:Hr.
  - destruct Hfiles as (i & -> & Hi%lookupIndex_Some). rewrite Hi. simpl.
    by eexists.
  - subst fileIndex. simpl. by eexists.
Qed.

Lemma first_run_order :
  (StepC.funcKeyToFuncMap c1).*2
  `prefix_of` funcs ++ seq length0 (length1 - length0).
Proof.
  destruct first_run_steps as (_ & _ & _ & HC).
  destruct first_run_fields as (_ & _ & _ & _ & _ & _ & _ & -> & _).
  destruct first_run_slice as (_ & [Hnd _] & _).
  destruct (stepC_order _ _ _ _ _ _ _ HC) as (used & Hused & -> & Hiter & _).
  rewrite (jsset_of_list_NoDup_id _ Hnd) in Hused. rewrite Hused.
  destruct (StepC.availableFuncIter c1) as [|n iter] eqn:E.
  - by rewrite app_nil_r.
  - rewrite Hiter, Nat.sub_diag by done. simpl. rewrite !app_nil_r.
    by apply prefix_app_r.
Qed.

(** The third loop of the second step, run beside that of the first: the
    same func keys with the same funcs, handed out in the same order, and
    every write finds its value in place. *)
Lemma again_stepC :
  ∃ c2,
    stepC new info' results2 (Thread.stringTable new)
      (Thread.nativeSymbols new)
      (FrameTable.nativeSymbol (Thread.frameTable new))
    = Returns c2
    ∧ StepC.stringTable c2 = Thread.stringTable new
    ∧ StepC.funcTable c2 = Thread.funcTable new
    ∧ StepC.newFrameTableFuncColumn c2
      = FrameTable.func (Thread.frameTable new)
    ∧ StepC.newFrameTableLineColumn c2
      = FrameTable.line (Thread.frameTable new)
    ∧ (∀ oldFunc newFunc,
         (oldFunc, newFunc) ∈ StepC.oldFuncToNewFuncEntries c2 →
         newFunc = oldFunc)
    ∧ ∀ f, f ∈ frames →
           ∃ g, FrameTable.func (Thread.frameTable new) !! f = Some g
                ∧ (g, g) ∈ StepC.oldFuncToNewFuncEntries c2.
Proof.
  destruct first_run_steps as (_ & _ & _ & HC).
  destruct first_run_fields
    as (_ & _ & _ & _ & _ & _ & _ & Hfuncs & _ & Hstrings).
  destruct first_run_slice as (_ & [Hnd Hmembers] & _).
  destruct first_run_order as [unused Horder].
  unfold stepC in HC |- *. simpl.
  eapply (foldlM_simulation _
            (canonicalizeFunc (Thread.frameTable new) results2
               (Thread.nativeSymbols new)
               (FrameTable.nativeSymbol (Thread.frameTable new))
               resourceIndex)
            (λ visited x1 x2,
               StepC.stringTable x2 = Thread.stringTable new
               ∧ StepC.funcTable x2 = Thread.funcTable new
               ∧ StepC.newFrameTableFuncColumn x2
                 = FrameTable.func (Thread.frameTable new)
               ∧ StepC.newFrameTableLineColumn x2
                 = FrameTable.line (Thread.frameTable new)
               ∧ StepC.funcKeyToFuncMap x2 = StepC.funcKeyToFuncMap x1
               ∧ funcs ++ seq length0 (length1 - length0)
                 = (StepC.funcKeyToFuncMap x1).*2
                   ++ StepC.availableFuncIter x2
               ∧ (∀ oldFunc newFunc,
                    (oldFunc, newFunc) ∈ StepC.oldFuncToNewFuncEntries x2 →
                    newFunc = oldFunc)
               ∧ ∀ f, f ∈ visited →
                      ∃ g, FrameTable.func (Thread.frameTable new) !! f
                           = Some g
                           ∧ (g, g) ∈ StepC.oldFuncToNewFuncEntries x2))
    in HC as (c2 & Hc2 & Hs2 & Hf2 & Hfc2 & Hlc2 & _ & _ & Hsame & Hall).
  - by exists c2.
  - simpl. split_and!; try done.
    + symmetry. apply jsset_of_list_NoDup_id, NoDup_app.
      split_and!; [done| |apply NoDup_seq].
      intros n [Hn _]%Hmembers [Hn' _]%elem_of_seq. lia.
    + by intros o n ?%elem_of_nil.
    + by intros f ?%elem_of_nil.
  - intros pre f post x1 x1' x2 Hl Hstep Hrest
      (Hstrs & Hft & Hfc & Hlc & Hkeys & Hiter & Hsame & Hall).
    pose proof (canonicalizeFunc_fold_monotone _ _ _ _ _ _ _ _ Hrest)
      as (Hp1 & [later Hp2] & [resolved Hp3]).
    pose proof (canonicalizeFunc_Returns _ _ _ _ _ _ _ _ Hstep)
      as (oldFunc & r & ni & st & fi & n & ft & _ & _ & Hni & Hfi & Hget'
          & Hcases & _ & _ & _ & Hresolved).
    pose proof (canonicalizeFunc_keyIn _ _ _ _ _ _ _ _ _ _ _ _ Hni Hfi Hstep)
      as [_ Hkey].
    apply (keyIn_extends _ _ _ _ Hp1) in Hkey. rewrite <-Hstrings in Hkey.
    assert ((f, r) ∈ StepC.resolved c1) as Hin.
    { rewrite Hp3, Hresolved, !elem_of_app, list_elem_of_singleton. tauto. }
    destruct (first_run_resolved f r Hin)
      as (Hf & g & nameIndex & fileIndex & Hkey' & Hget1 & Hg & Hline & Hname
          & Hfile).
    assert (funcKey nameIndex fileIndex = funcKey ni fi) as Heq
      by congruence.
    apply funcKey_inj in Heq as [-> ->]. clear Hkey'.
    assert (g = n) as ->.
    { rewrite Hp2 in Hget1.
      pose proof (jsmap_prefix_get _ _ _ _ (prefix_app_r _ _ later
                                              (reflexivity _)) Hget')
        as Hget''.
      congruence. }
    destruct (again_funcAddressResult f r n Hin Hg)
      as (r' & Hr' & Hn' & Hf' & Hl').
    apply keyIn_Some in Hkey as [Hlookup Hfiles].
    assert (indexForOptionalString (AddressResult.file r')
              (Thread.stringTable new)
            = (fi, Thread.stringTable new)) as Hfi'.
    { unfold indexForOptionalString. rewrite Hf'.
      destruct (AddressResult.file r) as [file|]; [|by subst fi].
      destruct Hfiles as (i & -> & Hi).
      by rewrite (indexForString_known _ _ _ Hi). }
    unfold canonicalizeFunc, read. rewrite Hg. simpl.
    rewrite Hstrs, Hft, Hr'. simpl.
    rewrite Hn', (indexForString_known _ _ _ Hlookup), Hfi', Hkeys, Hfc, Hlc.
    rewrite Hl'.
    assert (∀ oldFunc newFunc,
              (oldFunc, newFunc)
              ∈ StepC.oldFuncToNewFuncEntries x2 ++ [(n, n)] →
              newFunc = oldFunc) as Hsame'.
    { intros o m [?%Hsame|[= -> ->]%list_elem_of_singleton]%elem_of_app;
        done. }
    assert (∀ f', f' ∈ pre ++ [f] →
                  ∃ g, FrameTable.func (Thread.frameTable new) !! f' = Some g
                       ∧ (g, g)
                         ∈ StepC.oldFuncToNewFuncEntries x2 ++ [(n, n)])
      as Hall'.
    { intros f' [(g & Hg' & Hin')%Hall| ->%list_elem_of_singleton]%elem_of_app.
      - exists g. split; [done|]. apply elem_of_app. by left.
      - exists n. split; [done|]. apply elem_of_app. right. left. }
    destruct Hcases as [(Hget0 & _ & _ & Hk0)|(Hget0 & Hk0 & _)].
    + rewrite Hget0. simpl. rewrite (write_same _ _ _ Hg). simpl.
      rewrite (write_same _ _ _ Hline). simpl.
      eexists. split; [done|]. simpl.
      split_and!; [done..|by rewrite Hk0|done|done].
    + rewrite Hget0. simpl.
      assert (∃ rest, StepC.availableFuncIter x2 = n :: rest
                      ∧ funcs ++ seq length0 (length1 - length0)
                        = (StepC.funcKeyToFuncMap x1').*2 ++ rest)
        as (rest & -> & Hrest').
      { exists (later.*2 ++ unused).
        assert ((StepC.funcKeyToFuncMap x1').*2
                = (StepC.funcKeyToFuncMap x1).*2 ++ [n]) as Hvalues.
        { rewrite Hk0, jsmap_set_new by by apply jsmap_has_false.
          by rewrite fmap_app. }
        rewrite Horder, Hp2, fmap_app, Hvalues, <-!app_assoc in Hiter.
        apply app_inv_head in Hiter. simpl in Hiter.
        split; [done|].
        by rewrite Horder, Hp2, fmap_app, Hvalues, <-!app_assoc. }
      simpl. rewrite (nameFunc_same _ _ _ _ Hname Hfile). simpl.
      rewrite (write_same _ _ _ Hg). simpl.
      rewrite (write_same _ _ _ Hline). simpl.
      eexists. split; [done|]. simpl.
      split_and!; [done..|by rewrite Hk0|done|done|done].
Qed.

Lemma again_runSymbolicationStep map :
  ∃ run2,
    runSymbolicationStep new
      {| SymbolicationStepInfo.threadLibSymbolicationInfo := info';
         SymbolicationStepInfo.resultsForLib := results2 |}
      map
    = Returns run2
    ∧ Run.thread run2 = new
    ∧ (∀ f g, f ∈ frames →
              FrameTable.func (Thread.frameTable new) !! f = Some g →
              JsMap.get (Run.oldFuncToNewFuncMap run2) g = Some g)
    ∧ ∀ g, (∀ f, f ∈ frames →
                 FrameTable.func (Thread.frameTable new) !! f ≠ Some g) →
           JsMap.get (Run.oldFuncToNewFuncMap run2) g = JsMap.get map g.
Proof.
  destruct again_stepA as (a2 & Ha2 & Hframes & Hnames & Hcanonical).
  destruct again_stepC
    as (c2 & Hc2 & Hstrings & Hfuncs & Hfunc & Hline & Hsame & Hall).
  unfold runSymbolicationStep. simpl. rewrite Ha2. simpl.
  rewrite (again_stepB a2 Hnames Hcanonical). simpl.
  rewrite (again_assignNativeSymbols a2 Hframes Hcanonical). simpl.
  rewrite Hc2. simpl. eexists. split; [done|]. simpl.
  split; [by apply thread_eq|]. split.
  - intros f g Hf Hg. destruct (Hall f Hf) as (g' & Hg' & Hin).
    assert (g' = g) as -> by congruence.
    rewrite jsmap_get_foldl_set by apply makeConsensusMap_NoDup.
    assert (JsMap.get (makeConsensusMap (StepC.oldFuncToNewFuncEntries c2)) g
            = Some g) as ->; [|done].
    apply makeConsensusMap_spec. split; [done|]. intros v'. apply Hsame.
  - intros g Hunused.
    rewrite jsmap_get_foldl_set by apply makeConsensusMap_NoDup.
    destruct (JsMap.get (makeConsensusMap (StepC.oldFuncToNewFuncEntries c2))
                g) as [v|] eqn:Hget; [|done].
    apply makeConsensusMap_spec in Hget as [Hin _].
    destruct (stepC_entries_from_frames _ _ _ _ _ _ _ Hc2 _ _ Hin)
      as (f & Hf & Hg).
    by destruct (Hunused f Hf).
Qed.

(** When the first step added no row, the slice collected from its
    result is the slice it was given. *)
Lemma again_same_slice :
  length1 = length0 →
  NativeSymbolTable.length (Thread.nativeSymbols new)
  = NativeSymbolTable.length (Thread.nativeSymbols thread) →
  collectLib new resourceIndex libIndex = Returns info.
Proof.
  intros Hfuncs Hsymbols. rewrite again_collectLib. f_equal.
  pose proof (collectLib_Returns _ _ _ _ Hinfo) as (_ & Hr & Hl & _ & Hs).
  apply info_eq; simpl; [done|done| |symmetry|done|done].
  { by rewrite Hfuncs, Nat.sub_diag, app_nil_r. }
  rewrite Hs. unfold collectNativeSymbols. rewrite Hsymbols.
  apply filter_ext_in. intros s [_ Hlt]%elem_of_seq.
  destruct first_run_steps as (HA & HB & _).
  destruct first_run_fields as (_ & _ & _ & _ & _ & _ & _ & _ & -> & _).
  pose proof (stepA_spec _ _ _ _ HA)
    as (_ & _ & _ & _ & _ & _ & _ & _ & _ & Hcanonical & Havailable).
  apply (stepB_rows _ _ (JsSet.of_list symbols)) in HB as (_ & Hold & _);
    [|by intros s' [? _]%Havailable|done].
  unfold symbolRowLib in Hold. by rewrite Hold by lia.
Qed.

Lemma first_run_libs :
  (NativeSymbolTable.length (Thread.nativeSymbols thread)
   ≤ NativeSymbolTable.length (Thread.nativeSymbols new))%nat
  ∧ (∀ s, s < NativeSymbolTable.length (Thread.nativeSymbols thread) →
          NativeSymbolTable.libIndex (Thread.nativeSymbols new) !! s
          = NativeSymbolTable.libIndex (Thread.nativeSymbols thread) !! s)
  ∧ ∀ s, (NativeSymbolTable.length (Thread.nativeSymbols thread) ≤ s
          < NativeSymbolTable.length (Thread.nativeSymbols new))%nat →
         NativeSymbolTable.libIndex (Thread.nativeSymbols new) !! s
         = Some libIndex.
Proof.
  destruct first_run_steps as (HA & HB & _).
  destruct first_run_fields as (_ & _ & _ & _ & _ & _ & _ & _ & -> & _).
  pose proof (stepA_spec _ _ _ _ HA)
    as (_ & _ & _ & _ & _ & _ & _ & _ & _ & Hcanonical & Havailable).
  apply (stepB_rows _ _ (JsSet.of_list symbols)) in HB
    as (Hle & Hold & _ & Hnew); [|by intros s' [? _]%Havailable|done].
  done.
Qed.

(** The slice of the library after the step: the native symbols it had,
    and the rows the step added. *)
Lemma again_collectNativeSymbols :
  symbols'
  = symbols
    ++ seq (NativeSymbolTable.length (Thread.nativeSymbols thread))
         (NativeSymbolTable.length (Thread.nativeSymbols new)
          - NativeSymbolTable.length (Thread.nativeSymbols thread)).
Proof.
  pose proof (collectLib_Returns _ _ _ _ Hinfo) as (_ & _ & _ & _ & ->).
  destruct first_run_libs as (Hle & Hold & Hnew).
  unfold collectNativeSymbols.
  replace (NativeSymbolTable.length (Thread.nativeSymbols new))
    with (NativeSymbolTable.length (Thread.nativeSymbols thread)
          + (NativeSymbolTable.length (Thread.nativeSymbols new)
             - NativeSymbolTable.length (Thread.nativeSymbols thread)))
    at 1 by lia.
  rewrite seq_app, filter_app. f_equal.
  - apply filter_ext_in. intros s [_ Hs]%elem_of_seq.
    by rewrite Hold by lia.
  - apply filter_seq_all. intros s Hs. apply Hnew. lia.
Qed.

(** Another library: its frames, funcs and native symbols are those it
    had before the step. *)
Lemma other_in_resource resourceIndex2 f :
  resourceIndex2 ≠ resourceIndex →
  f < FrameTable.length (Thread.frameTable thread) →
  frameIsInResource (Thread.frameTable new) (Thread.funcTable new)
    resourceIndex2 f
  ↔ frameIsInResource (Thread.frameTable thread) (Thread.funcTable thread)
      resourceIndex2 f.
Proof.
  intros Hne Hf.
  destruct first_run_slice as ([_ Hframes] & [_ Hfuncs] & _).
  destruct first_run_resources as (_ & Hold & Hnew).
  destruct (decide (f ∈ frames)) as [Hin|Hout].
  - apply Hframes in Hin as [_ Hin].
    pose proof (proj2 (again_in_resource f Hf) Hin) as Hagain.
    unfold frameIsInResource in *. rewrite Hin, Hagain.
    split; intros [= ?]; lia.
  - destruct first_run_steps as (_ & _ & _ & HC).
    apply stepC_columns in HC as [_ Hcolumns].
    destruct (Hcolumns f Hout) as [Hfunc _].
    destruct first_run_fields as (_ & _ & _ & _ & _ & Hcolumn & _).
    rewrite <-Hcolumn in Hfunc.
    apply wellFormed_spec in Hwf as Hwf'.
    destruct Hwf' as ((_ & Hlen & _) & _ & _ & Hrows & _).
    destruct (lookup_in_column
                (FrameTable.func (Thread.frameTable thread)) _ f Hlen Hf)
      as [n Hn].
    unfold frameIsInResource. rewrite Hfunc, Hn. simpl.
    by rewrite Hold by by eapply Hrows.
Qed.

Lemma other_collectLib resourceIndex2 libIndex2 :
  resourceIndex2 ≠ resourceIndex → libIndex2 ≠ libIndex →
  collectLib new resourceIndex2 libIndex2
  = collectLib thread resourceIndex2 libIndex2.
Proof.
  intros Hresource Hlib.
  destruct first_run_fields as (_ & _ & Hlength & Haddress & _).
  destruct first_run_resources as (Hle & Hold & Hnew).
  destruct first_run_libs as (Hle' & Hold' & Hnew').
  assert (collectFrames (Thread.frameTable new) (Thread.funcTable new)
            resourceIndex2
          = collectFrames (Thread.frameTable thread)
              (Thread.funcTable thread) resourceIndex2) as Hframes.
  { unfold collectFrames. rewrite Hlength, Haddress.
    apply foldlM_ext_in.
    intros [allFrames addresses] f [_ Hf]%elem_of_seq.
    pose proof (other_in_resource resourceIndex2 f Hresource ltac:(lia)).
    destruct (decide _), (decide _); tauto. }
  assert (collectFuncs (Thread.funcTable new) resourceIndex2
          = collectFuncs (Thread.funcTable thread) resourceIndex2) as Hfuncs.
  { unfold collectFuncs.
    replace length1 with (length0 + (length1 - length0)) at 1 by lia.
    rewrite seq_app, filter_app, (filter_seq_none _ length0), app_nil_r.
    - apply filter_ext_in. intros n [_ Hn]%elem_of_seq.
      by rewrite Hold by lia.
    - intros n Hn. rewrite Hnew by lia. intros [= ?]. lia. }
  assert (collectNativeSymbols (Thread.nativeSymbols new) libIndex2
          = collectNativeSymbols (Thread.nativeSymbols thread) libIndex2)
    as Hsymbols.
  { unfold collectNativeSymbols.
    replace (NativeSymbolTable.length (Thread.nativeSymbols new))
      with (NativeSymbolTable.length (Thread.nativeSymbols thread)
            + (NativeSymbolTable.length (Thread.nativeSymbols new)
               - NativeSymbolTable.length (Thread.nativeSymbols thread)))
      at 1 by lia.
    rewrite seq_app, filter_app,
      (filter_seq_none _
         (NativeSymbolTable.length (Thread.nativeSymbols thread))),
      app_nil_r.
    - apply filter_ext_in. intros s [_ Hs]%elem_of_seq.
      by rewrite Hold' by lia.
    - intros s Hs. rewrite Hnew' by lia. congruence. }
  unfold collectLib. by rewrite Hframes, Hfuncs, Hsymbols.
Qed.

(** The frames of a resource row, whichever it is, are those it had
    before the step. *)
Lemma any_collectFrames resourceIndex2 :
  collectFrames (Thread.frameTable new) (Thread.funcTable new) resourceIndex2
  = collectFrames (Thread.frameTable thread) (Thread.funcTable thread)
      resourceIndex2.
Proof.
  destruct first_run_fields as (_ & _ & Hlength & Haddress & _).
  unfold collectFrames. rewrite Hlength, Haddress.
  apply foldlM_ext_in.
  intros [allFrames addresses] f [_ Hf]%elem_of_seq.
  assert (frameIsInResource (Thread.frameTable new) (Thread.funcTable new)
            resourceIndex2 f
          ↔ frameIsInResource (Thread.frameTable thread)
              (Thread.funcTable thread) resourceIndex2 f) as Hiff.
  { destruct (decide (resourceIndex2 = resourceIndex)) as [->|Hne].
    - apply again_in_resource. lia.
    - apply other_in_resource; [done|lia]. }
  destruct (decide _), (decide _); tauto.
Qed.

End step_again.

(** A step settles: collect the library's slice again from the thread a
    step returned, and apply the step again with the same symbol results,
    or with some of them; the step returns the very same thread. *)
Lemma applySymbolicationStep_again (thread : Thread.t)
  (resourceIndex : nat) (libIndex : Z)
  (info : ThreadLibSymbolicationInfo.t)
  (results results2 : gmap Z AddressResult.t)
  (oldFuncToNewFuncMap map1 : list (nat * nat)) (new : Thread.t) :
  wellFormed thread →
  collectLib thread resourceIndex libIndex = Returns info →
  applySymbolicationStep thread
    {| SymbolicationStepInfo.threadLibSymbolicationInfo := info;
       SymbolicationStepInfo.resultsForLib := results |}
    oldFuncToNewFuncMap
  = Returns (new, map1) →
  (∀ address addressResult,
     results2 !! address = Some addressResult →
     results !! address = Some addressResult) →
  (∀ f address addressResult f' old' r',
     f ∈ ThreadLibSymbolicationInfo.allFramesForThisLib info →
     FrameTable.address (Thread.frameTable thread) !! f = Some address →
     results !! address = Some addressResult →
     results2 !! address = None →
     f' ∈ ThreadLibSymbolicationInfo.allFramesForThisLib info →
     resolveFrame thread results f' = Returns (old', r') →
     AddressResult.symbolAddress r'
     = AddressResult.symbolAddress addressResult →
     AddressResult.name r' = AddressResult.name addressResult) →
  ∃ info',
    collectLib new resourceIndex libIndex = Returns info'
    ∧ ∀ map, ∃ map2,
        applySymbolicationStep new
          {| SymbolicationStepInfo.threadLibSymbolicationInfo := info';
             SymbolicationStepInfo.resultsForLib := results2 |}
          map
        = Returns (new, map2)
        ∧ (∀ f g,
             f ∈ ThreadLibSymbolicationInfo.allFramesForThisLib info →
             FrameTable.func (Thread.frameTable new) !! f = Some g →
             JsMap.get map2 g = Some g)
        ∧ ∀ g,
            (∀ f, f ∈ ThreadLibSymbolicationInfo.allFramesForThisLib info →
                  FrameTable.func (Thread.frameTable new) !! f ≠ Some g) →
            JsMap.get map2 g = JsMap.get map g.
Proof.
  intros Hwf Hinfo. unfold applySymbolicationStep.
  intros (run & Hrun & [= <- <-])%bind_Returns Hsub Hnames.
  eexists. split; [by eapply again_collectLib|].
  intros map.
  assert (∀ f address addressResult,
            f ∈ ThreadLibSymbolicationInfo.allFramesForThisLib info →
            FrameTable.address (Thread.frameTable thread) !! f
            = Some address →
            results !! address = Some addressResult →
            results2 !! address = None →
            JsMap.get (StepA.symbolAddressToNameMap (Run.stepA run))
              (AddressResult.symbolAddress addressResult)
            = Some (AddressResult.name addressResult)) as Hforgotten.
  { intros f address addressResult Hf Haddress Hresult Hresult2.
    destruct (first_run_frame _ _ _ _ _ _ _ Hwf Hinfo Hrun f Hf)
      as (old & r & s & Hr & _ & Hkey & _).
    apply resolveFrame_Returns in Hr as Hr'.
    destruct Hr' as (address' & _ & Haddress' & Hcases).
    assert (address' = address) as -> by congruence.
    rewrite Hresult in Hcases. subst r.
    apply jsmap_get_is_Some in Hkey as [name Hname]. rewrite Hname.
    destruct (first_run_steps _ _ _ _ _ _ _ Hinfo Hrun) as (HA & _).
    destruct (stepA_names _ _ _ _ HA _ _ Hname)
      as (f' & old' & r' & Hf' & Hr'' & Hsa & <-).
    f_equal.
    by eapply (Hnames f address addressResult f' old' r'). }
  destruct (again_runSymbolicationStep _ _ _ _ _ _ _ Hwf Hinfo Hrun results2
              Hsub Hforgotten map)
    as (run2 & -> & Hthread & Hsame & Hother).
  simpl. rewrite Hthread. by eexists.
Qed.

(** The collector on a thread with the same resources and libs: it
    returns again, and what it holds for a key comes from the same
    resource row and lib. *)
Lemma getThreadSymbolicationInfo_again thread new map :
  Thread.resourceTable new = Thread.resourceTable thread →
  Thread.libs new = Thread.libs thread →
  (FrameTable.length (Thread.frameTable new)
   ≤ length (FrameTable.address (Thread.frameTable new)))%nat →
  getThreadSymbolicationInfo thread = Returns map →
  ∃ map',
    getThreadSymbolicationInfo new = Returns map'
    ∧ map'.*1 = map.*1
    ∧ ∀ key info,
        JsMap.get map key = Some info →
        ∃ resourceIndex libIndex info',
          collectLib thread resourceIndex libIndex = Returns info
          ∧ collectLib new resourceIndex libIndex = Returns info'
          ∧ JsMap.get map' key = Some info'.
Proof.
  intros Hresources Hlibs Hlength. unfold getThreadSymbolicationInfo.
  rewrite Hresources. intros Hfold.
  eapply (foldlM_simulation _ (collectResource new)
            (λ _ m1 m2,
               m2.*1 = m1.*1
               ∧ ∀ key info,
                   JsMap.get m1 key = Some info →
                   ∃ resourceIndex libIndex info',
                     collectLib thread resourceIndex libIndex = Returns info
                     ∧ collectLib new resourceIndex libIndex = Returns info'
                     ∧ JsMap.get m2 key = Some info'))
    in Hfold; [done|done|].
  intros pre r post m1 m1' m2 _ Hstep _ [Hkeys IH].
  unfold collectResource in Hstep |- *. rewrite Hresources, Hlibs.
  destruct (decide _); [|injection Hstep as <-; by exists m2].
  destruct (ResourceTable.lib (Thread.resourceTable thread) !! r)
    as [[l|]|]; [|injection Hstep as <-; by exists m2..].
  destruct (decide (l = (-1)%Z)); [injection Hstep as <-; by exists m2|].
  destruct (lookupZ (Thread.libs thread) l) as [lib|]; [|done].
  apply bind_Returns in Hstep as (info1 & Hinfo1 & [= <-]).
  destruct (collectLib_returns new r l Hlength) as [info2 Hinfo2].
  rewrite Hinfo2. simpl. eexists. split; [done|]. split.
  - rewrite !jsmap_keys_set, Hkeys.
    destruct (JsMap.has m2 (libKey lib)) eqn:E2,
      (JsMap.has m1 (libKey lib)) eqn:E1; try done.
    + apply jsmap_has_true in E2. rewrite Hkeys in E2.
      apply jsmap_has_true in E2. congruence.
    + apply jsmap_has_true in E1. rewrite <-Hkeys in E1.
      apply jsmap_has_true in E1. congruence.
  - intros key info. rewrite !jsmap_get_set.
    destruct (decide (libKey lib = key)); [|apply IH].
    intros [= <-]. by exists r, l, info2.
Qed.

(** X21. A step settles.  Take the slice the collector holds for a
    library of a thread whose tables fit together, and a step with it
    that returns a thread.  On that thread the collector returns again
    and holds a slice for the same library; and the step with that slice
    and the same symbol results returns the very same thread, whatever
    map the caller passes. *)
Theorem applySymbolicationStep_settles (thread : Thread.t)
  (symbolicationInfo : list (string * ThreadLibSymbolicationInfo.t))
  (key : string) (info : ThreadLibSymbolicationInfo.t)
  (resultsForLib : gmap Z AddressResult.t)
  (oldFuncToNewFuncMap map1 : list (nat * nat)) (new : Thread.t) :
  wellFormed thread →
  getThreadSymbolicationInfo thread = Returns symbolicationInfo →
  JsMap.get symbolicationInfo key = Some info →
  applySymbolicationStep thread
    {| SymbolicationStepInfo.threadLibSymbolicationInfo := info;
       SymbolicationStepInfo.resultsForLib := resultsForLib |}
    oldFuncToNewFuncMap
  = Returns (new, map1) →
  ∃ symbolicationInfo' info',
    getThreadSymbolicationInfo new = Returns symbolicationInfo'
    ∧ JsMap.get symbolicationInfo' key = Some info'
    ∧ ∀ map, ∃ map2,
        applySymbolicationStep new
          {| SymbolicationStepInfo.threadLibSymbolicationInfo := info';
             SymbolicationStepInfo.resultsForLib := resultsForLib |}
          map
        = Returns (new, map2).
Proof.
  intros Hwf Hmap Hget Hstep.
  assert (Thread.resourceTable new = Thread.resourceTable thread
          ∧ Thread.libs new = Thread.libs thread
          ∧ (FrameTable.length (Thread.frameTable new)
             ≤ length (FrameTable.address (Thread.frameTable new)))%nat)
    as (Hresources & Hlibs & Hlength).
  { revert Hstep. unfold applySymbolicationStep.
    intros (run & Hrun%runSymbolicationStep_Returns & [= <- <-])%bind_Returns.
    simpl in Hrun.
    destruct Hrun as (_ & _ & _ & _ & _ & _ & -> & -> & _ & _ & _ & _ & ->
                      & -> & _).
    split_and!; [done..|].
    by apply wellFormed_spec in Hwf as ((? & _) & _). }
  destruct (getThreadSymbolicationInfo_again _ _ _ Hresources Hlibs Hlength
              Hmap) as (map' & Hmap' & _ & Hentries).
  destruct (Hentries _ _ Hget) as (r & l & info' & Hinfo & Hinfo' & Hget').
  destruct (applySymbolicationStep_again _ _ _ _ _ resultsForLib _ _ _ Hwf
              Hinfo Hstep)
    as (info'' & Hinfo'' & Hagain); [done|congruence|].
  assert (info'' = info') as -> by congruence.
  exists map', info'. split_and!; [done..|].
  intros map. destruct (Hagain map) as (map2 & Hmap2 & _). by exists map2.
Qed.

Lemma applySymbolicationStep_settles_witness :
  ∃ symbolicationInfo' info',
    getThreadSymbolicationInfo Example.refined.1 = Returns symbolicationInfo'
    ∧ JsMap.get symbolicationInfo' (libKey Example.lib) = Some info'
    ∧ ∀ map, ∃ map2,
        applySymbolicationStep Example.refined.1
          {| SymbolicationStepInfo.threadLibSymbolicationInfo := info';
             SymbolicationStepInfo.resultsForLib :=
               Example.completeSymbolTable |}
          map
        = Returns (Example.refined.1, map2).
Proof.
  assert (wellFormed Example.coarse.1) as Hwf.
  { refine (bool_decide_unpack _ _). vm_compute. exact I. }
  assert (getThreadSymbolicationInfo Example.coarse.1
          = Returns [(libKey Example.lib, Example.infoOf Example.coarse.1)])
    as Hmap by (vm_compute; reflexivity).
  assert (JsMap.get [(libKey Example.lib, Example.infoOf Example.coarse.1)]
            (libKey Example.lib)
          = Some (Example.infoOf Example.coarse.1))
    as Hget by (vm_compute; reflexivity).
  assert (applySymbolicationStep Example.coarse.1
            {| SymbolicationStepInfo.threadLibSymbolicationInfo :=
                 Example.infoOf Example.coarse.1;
               SymbolicationStepInfo.resultsForLib :=
                 Example.completeSymbolTable |}
            []
          = Returns (Example.refined.1, Example.refined.2))
    as Hstep by (vm_compute; reflexivity).
  exact (applySymbolicationStep_settles Example.coarse.1
           [(libKey Example.lib, Example.infoOf Example.coarse.1)]
           (libKey Example.lib) (Example.infoOf Example.coarse.1)
           Example.completeSymbolTable [] Example.refined.2
           Example.refined.1 Hwf Hmap Hget Hstep).
Defined.

(** X22. A step that added no row can be applied again as it is.  Take a
    well-formed thread, the record the collector holds for a lib key, and
    a step with it that returns a thread whose func table and
    native-symbol table are as long as before.  Then the step on the
    returned thread, with the very same record and the same symbol
    results, returns the very same thread. *)
Theorem applySymbolicationStep_same_slice (thread : Thread.t)
  (symbolicationInfo : list (string * ThreadLibSymbolicationInfo.t))
  (key : string) (info : ThreadLibSymbolicationInfo.t)
  (resultsForLib : gmap Z AddressResult.t)
  (oldFuncToNewFuncMap map1 : list (nat * nat)) (new : Thread.t) :
  wellFormed thread →
  getThreadSymbolicationInfo thread = Returns symbolicationInfo →
  JsMap.get symbolicationInfo key = Some info →
  applySymbolicationStep thread
    {| SymbolicationStepInfo.threadLibSymbolicationInfo := info;
       SymbolicationStepInfo.resultsForLib := resultsForLib |}
    oldFuncToNewFuncMap
  = Returns (new, map1) →
  FuncTable.length (Thread.funcTable new)
  = FuncTable.length (Thread.funcTable thread) →
  NativeSymbolTable.length (Thread.nativeSymbols new)
  = NativeSymbolTable.length (Thread.nativeSymbols thread) →
  ∀ map, ∃ map2,
    applySymbolicationStep new
      {| SymbolicationStepInfo.threadLibSymbolicationInfo := info;
         SymbolicationStepInfo.resultsForLib := resultsForLib |}
      map
    = Returns (new, map2).
Proof.
  intros Hwf Hmap Hget%jsmap_get_Some_elem Hstep Hfuncs Hsymbols.
  destruct (getThreadSymbolicationInfo_entries _ _ _ _ Hmap Hget)
    as (r & l & Hinfo).
  destruct (applySymbolicationStep_again _ _ _ _ _ resultsForLib _ _ _ Hwf
              Hinfo Hstep)
    as (info' & Hinfo' & Hagain); [done|congruence|].
  revert Hstep. unfold applySymbolicationStep at 1.
  intros (run & Hrun & [= <- <-])%bind_Returns.
  rewrite (again_same_slice _ _ _ _ _ _ _ Hwf Hinfo Hrun Hfuncs Hsymbols)
    in Hinfo'.
  injection Hinfo' as <-.
  intros map. destruct (Hagain map) as (map2 & Hmap2 & _). by exists map2.
Qed.

Lemma applySymbolicationStep_same_slice_witness :
  wellFormed Example.fine.1
  ∧ ∀ map, ∃ map2,
      applySymbolicationStep
        (Example.after Example.fine.1 Example.partialSymbolTable).1
        {| SymbolicationStepInfo.threadLibSymbolicationInfo :=
             Example.infoOf Example.fine.1;
           SymbolicationStepInfo.resultsForLib :=
             Example.partialSymbolTable |}
        map
      = Returns
          ((Example.after Example.fine.1 Example.partialSymbolTable).1,
           map2).
Proof.
  assert (wellFormed Example.fine.1) as Hwf.
  { refine (bool_decide_unpack _ _). vm_compute. exact I. }
  split; [exact Hwf|].
  assert (getThreadSymbolicationInfo Example.fine.1
          = Returns [(libKey Example.lib, Example.infoOf Example.fine.1)])
    as Hmap by (vm_compute; reflexivity).
  assert (JsMap.get [(libKey Example.lib, Example.infoOf Example.fine.1)]
            (libKey Example.lib)
          = Some (Example.infoOf Example.fine.1))
    as Hget by (vm_compute; reflexivity).
  assert (applySymbolicationStep Example.fine.1
            {| SymbolicationStepInfo.threadLibSymbolicationInfo :=
                 Example.infoOf Example.fine.1;
               SymbolicationStepInfo.resultsForLib :=
                 Example.partialSymbolTable |}
            []
          = Returns
              ((Example.after Example.fine.1 Example.partialSymbolTable).1,
               (Example.after Example.fine.1 Example.partialSymbolTable).2))
    as Hstep by (vm_compute; reflexivity).
  assert (FuncTable.length
            (Thread.funcTable
               (Example.after Example.fine.1 Example.partialSymbolTable).1)
          = FuncTable.length (Thread.funcTable Example.fine.1))
    as Hfuncs by (vm_compute; reflexivity).
  assert (NativeSymbolTable.length
            (Thread.nativeSymbols
               (Example.after Example.fine.1 Example.partialSymbolTable).1)
          = NativeSymbolTable.length (Thread.nativeSymbols Example.fine.1))
    as Hsymbols by (vm_compute; reflexivity).
  exact (applySymbolicationStep_same_slice Example.fine.1
           [(libKey Example.lib, Example.infoOf Example.fine.1)]
           (libKey Example.lib) (Example.infoOf Example.fine.1)
           Example.partialSymbolTable []
           (Example.after Example.fine.1 Example.partialSymbolTable).2
           (Example.after Example.fine.1 Example.partialSymbolTable).1
           Hwf Hmap Hget Hstep Hfuncs Hsymbols).
Defined.

(** Once rows were added, the record of the thread before the step is no
    longer the record of the thread after it.  On the example thread the
    step with the complete table adds four native symbols; applied again
    to its result with the first record, whose set of native symbols is
    empty, it adds four more. *)
Example applySymbolicationStep_stale_slice :
  ∃ new2 map2,
    applySymbolicationStep Example.thread
      (Example.stepOf Example.thread Example.completeSymbolTable) []
    = Returns Example.fine
    ∧ applySymbolicationStep Example.fine.1
        (Example.stepOf Example.thread Example.completeSymbolTable) []
      = Returns (new2, map2)
    ∧ NativeSymbolTable.length (Thread.nativeSymbols Example.thread) = 0
    ∧ NativeSymbolTable.length (Thread.nativeSymbols Example.fine.1) = 4
    ∧ NativeSymbolTable.length (Thread.nativeSymbols new2) = 8.
Proof.
  eexists _, _. split_and!; [vm_compute; reflexivity..].
Qed.

(** X23. A step for one library leaves the other libraries' slices
    alone.  After a step with the record the collector holds for a lib
    key of a well-formed thread, the collector returns on the new thread
    a map with the same keys in the same order; and every record the old
    map holds for another resource row and another lib is the record the
    new map holds under the same key. *)
Theorem applySymbolicationStep_other_libs (thread : Thread.t)
  (symbolicationInfo : list (string * ThreadLibSymbolicationInfo.t))
  (key : string) (info : ThreadLibSymbolicationInfo.t)
  (resultsForLib : gmap Z AddressResult.t)
  (oldFuncToNewFuncMap map1 : list (nat * nat)) (new : Thread.t) :
  wellFormed thread →
  getThreadSymbolicationInfo thread = Returns symbolicationInfo →
  JsMap.get symbolicationInfo key = Some info →
  applySymbolicationStep thread
    {| SymbolicationStepInfo.threadLibSymbolicationInfo := info;
       SymbolicationStepInfo.resultsForLib := resultsForLib |}
    oldFuncToNewFuncMap
  = Returns (new, map1) →
  ∃ symbolicationInfo',
    getThreadSymbolicationInfo new = Returns symbolicationInfo'
    ∧ symbolicationInfo'.*1 = symbolicationInfo.*1
    ∧ ∀ key2 info2,
        JsMap.get symbolicationInfo key2 = Some info2 →
        ThreadLibSymbolicationInfo.resourceIndex info2
        ≠ ThreadLibSymbolicationInfo.resourceIndex info →
        ThreadLibSymbolicationInfo.libIndex info2
        ≠ ThreadLibSymbolicationInfo.libIndex info →
        JsMap.get symbolicationInfo' key2 = Some info2.
Proof.
  intros Hwf Hmap Hget Hstep.
  assert (∃ run,
            runSymbolicationStep thread
              {| SymbolicationStepInfo.threadLibSymbolicationInfo := info;
                 SymbolicationStepInfo.resultsForLib := resultsForLib |}
              oldFuncToNewFuncMap
            = Returns run
            ∧ new = Run.thread run) as (run & Hrun & ->).
  { revert Hstep. unfold applySymbolicationStep.
    intros (run & Hrun & [= <- <-])%bind_Returns. by exists run. }
  pose proof (runSymbolicationStep_Returns _ _ _ _ Hrun) as Hfields.
  simpl in Hfields.
  destruct Hfields as (_ & _ & _ & _ & _ & _ & Haddress & Hlength & _ & _ & _
                       & _ & Hresources & Hlibs & _).
  destruct (getThreadSymbolicationInfo_again thread (Run.thread run)
              symbolicationInfo Hresources Hlibs) as (map' & Hmap' & Hkeys
                                                      & Hentries); [|done|].
  { rewrite Hlength, Haddress.
    by apply wellFormed_spec in Hwf as ((? & _) & _). }
  exists map'. split_and!; [done..|].
  intros key2 info2 Hget2 Hresource Hlib.
  destruct (Hentries _ _ Hget2) as (r2 & l2 & info2' & Hinfo2 & Hinfo2' & ->).
  destruct (Hentries _ _ Hget) as (r & l & _ & Hinfo & _).
  pose proof (collectLib_Returns _ _ _ _ Hinfo) as (_ & Hr & Hl & _).
  pose proof (collectLib_Returns _ _ _ _ Hinfo2) as (_ & Hr2 & Hl2 & _).
  rewrite (other_collectLib thread r l info resultsForLib oldFuncToNewFuncMap
             run Hwf Hinfo Hrun r2 l2) in Hinfo2' by congruence.
  congruence.
Qed.

Lemma applySymbolicationStep_other_libs_witness :
  ∃ symbolicationInfo',
    getThreadSymbolicationInfo twoLibAfter.1 = Returns symbolicationInfo'
    ∧ symbolicationInfo'.*1 = [libKey Example.lib; libKey otherLib]
    ∧ JsMap.get symbolicationInfo' (libKey otherLib)
      = Some {|
          ThreadLibSymbolicationInfo.resourceIndex := 1;
          ThreadLibSymbolicationInfo.libIndex := 1;
          ThreadLibSymbolicationInfo.allFuncsForThisLib := [3; 4];
          ThreadLibSymbolicationInfo.allNativeSymbolsForThisLib := [];
          ThreadLibSymbolicationInfo.allFramesForThisLib := [3; 4];
          ThreadLibSymbolicationInfo.frameAddresses := [6671; 3855]%Z |}.
Proof.
  assert (wellFormed twoLibThread) as Hwf.
  { refine (bool_decide_unpack _ _). vm_compute. exact I. }
  pose (other :=
          {| ThreadLibSymbolicationInfo.resourceIndex := 1;
             ThreadLibSymbolicationInfo.libIndex := 1;
             ThreadLibSymbolicationInfo.allFuncsForThisLib := [3; 4];
             ThreadLibSymbolicationInfo.allNativeSymbolsForThisLib := [];
             ThreadLibSymbolicationInfo.allFramesForThisLib := [3; 4];
             ThreadLibSymbolicationInfo.frameAddresses := [6671; 3855]%Z |}).
  assert (getThreadSymbolicationInfo twoLibThread
          = Returns [(libKey Example.lib, Example.infoOf twoLibThread);
                     (libKey otherLib, other)])
    as Hmap by (vm_compute; reflexivity).
  assert (JsMap.get [(libKey Example.lib, Example.infoOf twoLibThread);
                     (libKey otherLib, other)] (libKey Example.lib)
          = Some (Example.infoOf twoLibThread))
    as Hget by (vm_compute; reflexivity).
  assert (applySymbolicationStep twoLibThread
            {| SymbolicationStepInfo.threadLibSymbolicationInfo :=
                 Example.infoOf twoLibThread;
               SymbolicationStepInfo.resultsForLib :=
                 Example.completeSymbolTable |}
            []
          = Returns (twoLibAfter.1, twoLibAfter.2))
    as Hstep by (vm_compute; reflexivity).
  destruct (applySymbolicationStep_other_libs twoLibThread
              [(libKey Example.lib, Example.infoOf twoLibThread);
               (libKey otherLib, other)]
              (libKey Example.lib) (Example.infoOf twoLibThread)
              Example.completeSymbolTable [] twoLibAfter.2 twoLibAfter.1
              Hwf Hmap Hget Hstep) as (map' & Hmap' & Hkeys & Hother).
  exists map'. split; [exact Hmap'|]. split; [exact Hkeys|].
  apply (Hother (libKey otherLib) other).
  - vm_compute; reflexivity.
  - vm_compute. intros H. discriminate H.
  - vm_compute. intros H. discriminate H.
Defined.

(** X24. The slice of the library after a step.  After a step with the
    record the collector holds for a lib key of a well-formed thread, the
    record the collector holds on the new thread under the same key has
    the resource row, the lib, the frames and the addresses of the record
    the step was given; its funcs are those of that record followed by
    the func rows the step added, and its native symbols those of that
    record followed by the native-symbol rows the step added. *)
Theorem applySymbolicationStep_slice_after (thread : Thread.t)
  (symbolicationInfo : list (string * ThreadLibSymbolicationInfo.t))
  (key : string) (info : ThreadLibSymbolicationInfo.t)
  (resultsForLib : gmap Z AddressResult.t)
  (oldFuncToNewFuncMap map1 : list (nat * nat)) (new : Thread.t) :
  wellFormed thread →
  getThreadSymbolicationInfo thread = Returns symbolicationInfo →
  JsMap.get symbolicationInfo key = Some info →
  applySymbolicationStep thread
    {| SymbolicationStepInfo.threadLibSymbolicationInfo := info;
       SymbolicationStepInfo.resultsForLib := resultsForLib |}
    oldFuncToNewFuncMap
  = Returns (new, map1) →
  ∃ symbolicationInfo',
    getThreadSymbolicationInfo new = Returns symbolicationInfo'
    ∧ JsMap.get symbolicationInfo' key
      = Some {|
          ThreadLibSymbolicationInfo.resourceIndex :=
            ThreadLibSymbolicationInfo.resourceIndex info;
          ThreadLibSymbolicationInfo.libIndex :=
            ThreadLibSymbolicationInfo.libIndex info;
          ThreadLibSymbolicationInfo.allFuncsForThisLib :=
            ThreadLibSymbolicationInfo.allFuncsForThisLib info
            ++ seq (FuncTable.length (Thread.funcTable thread))
                 (FuncTable.length (Thread.funcTable new)
                  - FuncTable.length (Thread.funcTable thread));
          ThreadLibSymbolicationInfo.allNativeSymbolsForThisLib :=
            ThreadLibSymbolicationInfo.allNativeSymbolsForThisLib info
            ++ seq (NativeSymbolTable.length (Thread.nativeSymbols thread))
                 (NativeSymbolTable.length (Thread.nativeSymbols new)
                  - NativeSymbolTable.length (Thread.nativeSymbols thread));
          ThreadLibSymbolicationInfo.allFramesForThisLib :=
            ThreadLibSymbolicationInfo.allFramesForThisLib info;
          ThreadLibSymbolicationInfo.frameAddresses :=
            ThreadLibSymbolicationInfo.frameAddresses info |}.
Proof.
  intros Hwf Hmap Hget Hstep.
  assert (∃ run,
            runSymbolicationStep thread
              {| SymbolicationStepInfo.threadLibSymbolicationInfo := info;
                 SymbolicationStepInfo.resultsForLib := resultsForLib |}
              oldFuncToNewFuncMap
            = Returns run
            ∧ new = Run.thread run) as (run & Hrun & ->).
  { revert Hstep. unfold applySymbolicationStep.
    intros (run & Hrun & [= <- <-])%bind_Returns. by exists run. }
  pose proof (runSymbolicationStep_Returns _ _ _ _ Hrun) as Hfields.
  simpl in Hfields.
  destruct Hfields as (_ & _ & _ & _ & _ & _ & Haddress & Hlength & _ & _ & _
                       & _ & Hresources & Hlibs & _).
  destruct (getThreadSymbolicationInfo_again thread (Run.thread run)
              symbolicationInfo Hresources Hlibs) as (map' & Hmap' & _
                                                      & Hentries); [|done|].
  { rewrite Hlength, Haddress.
    by apply wellFormed_spec in Hwf as ((? & _) & _). }
  exists map'. split; [done|].
  destruct (Hentries _ _ Hget) as (r & l & info' & Hinfo & Hinfo' & ->).
  pose proof (collectLib_Returns _ _ _ _ Hinfo) as (_ & Hr & Hl & _).
  rewrite (again_collectLib thread r l info resultsForLib oldFuncToNewFuncMap
             run Hwf Hinfo Hrun) in Hinfo'.
  injection Hinfo' as <-. rewrite Hr, Hl. do 2 f_equal.
  apply (again_collectNativeSymbols thread r l info resultsForLib
           oldFuncToNewFuncMap run Hinfo Hrun).
Qed.

Lemma applySymbolicationStep_slice_after_witness :
  ∃ symbolicationInfo',
    getThreadSymbolicationInfo Example.refined.1 = Returns symbolicationInfo'
    ∧ JsMap.get symbolicationInfo' (libKey Example.lib)
      = Some {|
          ThreadLibSymbolicationInfo.resourceIndex := 0;
          ThreadLibSymbolicationInfo.libIndex := 0;
          ThreadLibSymbolicationInfo.allFuncsForThisLib := [0; 1; 2; 3; 4];
          ThreadLibSymbolicationInfo.allNativeSymbolsForThisLib :=
            [0; 1; 2; 3];
          ThreadLibSymbolicationInfo.allFramesForThisLib := [0; 1; 2; 3; 4];
          ThreadLibSymbolicationInfo.frameAddresses :=
            [10; 8192; 0; 6671; 3855]%Z |}.
Proof.
  assert (wellFormed Example.coarse.1) as Hwf.
  { refine (bool_decide_unpack _ _). vm_compute. exact I. }
  assert (getThreadSymbolicationInfo Example.coarse.1
          = Returns [(libKey Example.lib, Example.infoOf Example.coarse.1)])
    as Hmap by (vm_compute; reflexivity).
  assert (JsMap.get [(libKey Example.lib, Example.infoOf Example.coarse.1)]
            (libKey Example.lib)
          = Some (Example.infoOf Example.coarse.1))
    as Hget by (vm_compute; reflexivity).
  assert (applySymbolicationStep Example.coarse.1
            {| SymbolicationStepInfo.threadLibSymbolicationInfo :=
                 Example.infoOf Example.coarse.1;
               SymbolicationStepInfo.resultsForLib :=
                 Example.completeSymbolTable |}
            []
          = Returns (Example.refined.1, Example.refined.2))
    as Hstep by (vm_compute; reflexivity).
  exact (applySymbolicationStep_slice_after Example.coarse.1
           [(libKey Example.lib, Example.infoOf Example.coarse.1)]
           (libKey Example.lib) (Example.infoOf Example.coarse.1)
           Example.completeSymbolTable [] Example.refined.2
           Example.refined.1 Hwf Hmap Hget Hstep).
Defined.

Lemma getThreadSymbolicationInfo_NoDup thread map :
  getThreadSymbolicationInfo thread = Returns map → NoDup map.*1.
Proof.
  unfold getThreadSymbolicationInfo.
  apply (foldlM_invariant _ (λ _ map, NoDup map.*1)); [constructor|].
  intros pre r post m m' _ Hnd
    [[-> _]|(k & i & _ & ->)]%collectResource_Returns; [done|].
  by apply jsmap_NoDup_set.
Qed.

Lemma addFrameAddresses_foldl_ext m
  (l1 l2 : list (string * ThreadLibSymbolicationInfo.t)) :
  Forall2 (λ e1 e2,
             e1.1 = e2.1
             ∧ ThreadLibSymbolicationInfo.frameAddresses e1.2
               = ThreadLibSymbolicationInfo.frameAddresses e2.2) l1 l2 →
  foldl addFrameAddresses m l1 = foldl addFrameAddresses m l2.
Proof.
  intros Hall. revert m.
  induction Hall as [|[k1 i1] [k2 i2] l1 l2 [Hk Ha] _ IH]; intros m; [done|].
  simpl in *. subst k2. rewrite Ha. apply IH.
Qed.

(** X25. A step does not change what would be requested.  After a step
    with the record the collector holds for a lib key of a well-formed
    thread, the collector returns on the new thread a map with which, in
    the place of the old one among the maps of the profile's threads,
    the request aggregator builds the same requests: the same libraries
    in the same order, each with the same addresses in the same
    order. *)
Theorem buildLibSymbolicationRequestsForAllThreads_after_step
  (thread : Thread.t)
  (symbolicationInfo : list (string * ThreadLibSymbolicationInfo.t))
  (key : string) (info : ThreadLibSymbolicationInfo.t)
  (resultsForLib : gmap Z AddressResult.t)
  (oldFuncToNewFuncMap map1 : list (nat * nat)) (new : Thread.t) :
  wellFormed thread →
  getThreadSymbolicationInfo thread = Returns symbolicationInfo →
  JsMap.get symbolicationInfo key = Some info →
  applySymbolicationStep thread
    {| SymbolicationStepInfo.threadLibSymbolicationInfo := info;
       SymbolicationStepInfo.resultsForLib := resultsForLib |}
    oldFuncToNewFuncMap
  = Returns (new, map1) →
  ∃ symbolicationInfo',
    getThreadSymbolicationInfo new = Returns symbolicationInfo'
    ∧ ∀ before after,
        buildLibSymbolicationRequestsForAllThreads
          (before ++ symbolicationInfo' :: after)
        = buildLibSymbolicationRequestsForAllThreads
            (before ++ symbolicationInfo :: after).
Proof.
  intros Hwf Hmap Hget Hstep.
  assert (∃ run,
            runSymbolicationStep thread
              {| SymbolicationStepInfo.threadLibSymbolicationInfo := info;
                 SymbolicationStepInfo.resultsForLib := resultsForLib |}
              oldFuncToNewFuncMap
            = Returns run
            ∧ new = Run.thread run) as (run & Hrun & ->).
  { revert Hstep. unfold applySymbolicationStep.
    intros (run & Hrun & [= <- <-])%bind_Returns. by exists run. }
  pose proof (runSymbolicationStep_Returns _ _ _ _ Hrun) as Hfields.
  simpl in Hfields.
  destruct Hfields as (_ & _ & _ & _ & _ & _ & Haddress & Hlength & _ & _ & _
                       & _ & Hresources & Hlibs & _).
  destruct (getThreadSymbolicationInfo_again thread (Run.thread run)
              symbolicationInfo Hresources Hlibs) as (map' & Hmap' & Hkeys
                                                      & Hentries); [|done|].
  { rewrite Hlength, Haddress.
    by apply wellFormed_spec in Hwf as ((? & _) & _). }
  exists map'. split; [done|]. intros before after.
  pose proof (getThreadSymbolicationInfo_NoDup _ _ Hmap) as Hnd.
  pose proof (getThreadSymbolicationInfo_NoDup _ _ Hmap') as Hnd'.
  destruct (Hentries _ _ Hget) as (r & l & _ & Hinfo & _).
  assert (Forall2 (λ e1 e2,
                     e1.1 = e2.1
                     ∧ ThreadLibSymbolicationInfo.frameAddresses e1.2
                       = ThreadLibSymbolicationInfo.frameAddresses e2.2)
            map' symbolicationInfo) as Hall.
  { apply Forall2_same_length_lookup. split.
    { by rewrite <-(length_fmap fst map'), Hkeys, length_fmap. }
    intros i [k' info'] [k info0] Hi' Hi. simpl.
    assert (k' = k) as ->.
    { assert (map'.*1 !! i = Some k') as Hk'
        by by rewrite list_lookup_fmap, Hi'.
      rewrite Hkeys, list_lookup_fmap, Hi in Hk'. by injection Hk'. }
    split; [done|].
    apply list_elem_of_lookup_2, jsmap_elem_get in Hi; [|done].
    apply list_elem_of_lookup_2, jsmap_elem_get in Hi'; [|done].
    destruct (Hentries _ _ Hi) as (r0 & l0 & info0' & Hinfo0 & Hinfo0' & Hget0).
    assert (info0' = info') as -> by congruence.
    apply collectLib_Returns in Hinfo0 as (Hframes0 & _).
    apply collectLib_Returns in Hinfo0' as (Hframes0' & _).
    rewrite (any_collectFrames thread r l info resultsForLib
               oldFuncToNewFuncMap run Hwf Hinfo Hrun r0) in Hframes0'.
    congruence. }
  unfold buildLibSymbolicationRequestsForAllThreads, libKeyToAddressesMap.
  rewrite !foldl_app. simpl.
  by rewrite (addFrameAddresses_foldl_ext _ _ _ Hall).
Qed.

Lemma buildLibSymbolicationRequestsForAllThreads_after_step_witness :
  ∃ symbolicationInfo',
    getThreadSymbolicationInfo twoLibAfter.1 = Returns symbolicationInfo'
    ∧ ∀ before after,
        buildLibSymbolicationRequestsForAllThreads
          (before ++ symbolicationInfo' :: after)
        = buildLibSymbolicationRequestsForAllThreads
            (before
             ++ [(libKey Example.lib, Example.infoOf twoLibThread);
                 (libKey otherLib,
                  {| ThreadLibSymbolicationInfo.resourceIndex := 1;
                     ThreadLibSymbolicationInfo.libIndex := 1;
                     ThreadLibSymbolicationInfo.allFuncsForThisLib := [3; 4];
                     ThreadLibSymbolicationInfo.allNativeSymbolsForThisLib :=
                       [];
                     ThreadLibSymbolicationInfo.allFramesForThisLib := [3; 4];
                     ThreadLibSymbolicationInfo.frameAddresses :=
                       [6671; 3855]%Z |})]
                :: after).
Proof.
  assert (wellFormed twoLibThread) as Hwf.
  { refine (bool_decide_unpack _ _). vm_compute. exact I. }
  pose (other :=
          {| ThreadLibSymbolicationInfo.resourceIndex := 1;
             ThreadLibSymbolicationInfo.libIndex := 1;
             ThreadLibSymbolicationInfo.allFuncsForThisLib := [3; 4];
             ThreadLibSymbolicationInfo.allNativeSymbolsForThisLib := [];
             ThreadLibSymbolicationInfo.allFramesForThisLib := [3; 4];
             ThreadLibSymbolicationInfo.frameAddresses := [6671; 3855]%Z |}).
  assert (getThreadSymbolicationInfo twoLibThread
          = Returns [(libKey Example.lib, Example.infoOf twoLibThread);
                     (libKey otherLib, other)])
    as Hmap by (vm_compute; reflexivity).
  assert (JsMap.get [(libKey Example.lib, Example.infoOf twoLibThread);
                     (libKey otherLib, other)] (libKey Example.lib)
          = Some (Example.infoOf twoLibThread))
    as Hget by (vm_compute; reflexivity).
  assert (applySymbolicationStep twoLibThread
            {| SymbolicationStepInfo.threadLibSymbolicationInfo :=
                 Example.infoOf twoLibThread;
               SymbolicationStepInfo.resultsForLib :=
                 Example.completeSymbolTable |}
            []
          = Returns (twoLibAfter.1, twoLibAfter.2))
    as Hstep by (vm_compute; reflexivity).
  exact (buildLibSymbolicationRequestsForAllThreads_after_step twoLibThread
           [(libKey Example.lib, Example.infoOf twoLibThread);
            (libKey otherLib, other)]
           (libKey Example.lib) (Example.infoOf twoLibThread)
           Example.completeSymbolTable [] twoLibAfter.2 twoLibAfter.1
           Hwf Hmap Hget Hstep).
Defined.

(** X26. What the func map learns from a step applied again.  In the
    situation of a step that settles (the slice collected again from the
    thread a step returned, the same symbol results), the map the step
    returns holds every func of a frame of the library under itself, and
    under every other func what the caller's map held. *)
Theorem applySymbolicationStep_settles_map (thread : Thread.t)
  (symbolicationInfo : list (string * ThreadLibSymbolicationInfo.t))
  (key : string) (info : ThreadLibSymbolicationInfo.t)
  (resultsForLib : gmap Z AddressResult.t)
  (oldFuncToNewFuncMap map1 : list (nat * nat)) (new : Thread.t) :
  wellFormed thread →
  getThreadSymbolicationInfo thread = Returns symbolicationInfo →
  JsMap.get symbolicationInfo key = Some info →
  applySymbolicationStep thread
    {| SymbolicationStepInfo.threadLibSymbolicationInfo := info;
       SymbolicationStepInfo.resultsForLib := resultsForLib |}
    oldFuncToNewFuncMap
  = Returns (new, map1) →
  ∃ symbolicationInfo' info',
    getThreadSymbolicationInfo new = Returns symbolicationInfo'
    ∧ JsMap.get symbolicationInfo' key = Some info'
    ∧ ∀ map new2 map2,
        applySymbolicationStep new
          {| SymbolicationStepInfo.threadLibSymbolicationInfo := info';
             SymbolicationStepInfo.resultsForLib := resultsForLib |}
          map
        = Returns (new2, map2) →
        (∀ f func,
           f ∈ ThreadLibSymbolicationInfo.allFramesForThisLib info →
           FrameTable.func (Thread.frameTable new) !! f = Some func →
           JsMap.get map2 func = Some func)
        ∧ ∀ func,
            (∀ f, f ∈ ThreadLibSymbolicationInfo.allFramesForThisLib info →
                  FrameTable.func (Thread.frameTable new) !! f ≠ Some func) →
            JsMap.get map2 func = JsMap.get map func.
Proof.
  intros Hwf Hmap Hget Hstep.
  assert (Thread.resourceTable new = Thread.resourceTable thread
          ∧ Thread.libs new = Thread.libs thread
          ∧ (FrameTable.length (Thread.frameTable new)
             ≤ length (FrameTable.address (Thread.frameTable new)))%nat)
    as (Hresources & Hlibs & Hlength).
  { revert Hstep. unfold applySymbolicationStep.
    intros (run & Hrun%runSymbolicationStep_Returns & [= <- <-])%bind_Returns.
    simpl in Hrun.
    destruct Hrun as (_ & _ & _ & _ & _ & _ & -> & -> & _ & _ & _ & _ & ->
                      & -> & _).
    split_and!; [done..|].
    by apply wellFormed_spec in Hwf as ((? & _) & _). }
  destruct (getThreadSymbolicationInfo_again _ _ _ Hresources Hlibs Hlength
              Hmap) as (map' & Hmap' & _ & Hentries).
  destruct (Hentries _ _ Hget) as (r & l & info' & Hinfo & Hinfo' & Hget').
  destruct (applySymbolicationStep_again _ _ _ _ _ resultsForLib _ _ _ Hwf
              Hinfo Hstep)
    as (info'' & Hinfo'' & Hagain); [done|congruence|].
  assert (info'' = info') as -> by congruence.
  exists map', info'. split_and!; [done..|].
  intros map new2 map2 Hstep2.
  destruct (Hagain map) as (map2' & Hmap2 & Hsame & Hother).
  assert (map2' = map2) as -> by congruence.
  by split.
Qed.

Lemma applySymbolicationStep_settles_map_witness :
  ∃ symbolicationInfo' info',
    getThreadSymbolicationInfo Example.refined.1 = Returns symbolicationInfo'
    ∧ JsMap.get symbolicationInfo' (libKey Example.lib) = Some info'
    ∧ ∀ map new2 map2,
        applySymbolicationStep Example.refined.1
          {| SymbolicationStepInfo.threadLibSymbolicationInfo := info';
             SymbolicationStepInfo.resultsForLib :=
               Example.completeSymbolTable |}
          map
        = Returns (new2, map2) →
        (∀ f func,
           f ∈ ThreadLibSymbolicationInfo.allFramesForThisLib
                 (Example.infoOf Example.coarse.1) →
           FrameTable.func (Thread.frameTable Example.refined.1) !! f
           = Some func →
           JsMap.get map2 func = Some func)
        ∧ ∀ func,
            (∀ f, f ∈ ThreadLibSymbolicationInfo.allFramesForThisLib
                        (Example.infoOf Example.coarse.1) →
                  FrameTable.func (Thread.frameTable Example.refined.1) !! f
                  ≠ Some func) →
            JsMap.get map2 func = JsMap.get map func.
Proof.
  assert (wellFormed Example.coarse.1) as Hwf.
  { refine (bool_decide_unpack _ _). vm_compute. exact I. }
  assert (getThreadSymbolicationInfo Example.coarse.1
          = Returns [(libKey Example.lib, Example.infoOf Example.coarse.1)])
    as Hmap by (vm_compute; reflexivity).
  assert (JsMap.get [(libKey Example.lib, Example.infoOf Example.coarse.1)]
            (libKey Example.lib)
          = Some (Example.infoOf Example.coarse.1))
    as Hget by (vm_compute; reflexivity).
  assert (applySymbolicationStep Example.coarse.1
            {| SymbolicationStepInfo.threadLibSymbolicationInfo :=
                 Example.infoOf Example.coarse.1;
               SymbolicationStepInfo.resultsForLib :=
                 Example.completeSymbolTable |}
            []
          = Returns (Example.refined.1, Example.refined.2))
    as Hstep by (vm_compute; reflexivity).
  exact (applySymbolicationStep_settles_map Example.coarse.1
           [(libKey Example.lib, Example.infoOf Example.coarse.1)]
           (libKey Example.lib) (Example.infoOf Example.coarse.1)
           Example.completeSymbolTable [] Example.refined.2
           Example.refined.1 Hwf Hmap Hget Hstep).
Defined.

(** X27. A symbolicated library keeps what it has when results are
    missing.  Take a well-formed thread, the record the collector holds
    for a lib key, and a step with it that returns a thread, with symbol
    results that name every symbol address in one way: frames of the
    library that resolve to the same symbol address resolve to the same
    name.  Then the step on the returned thread, with the record
    collected from it and any part of the results, or none at all,
    returns the very same thread: what the native symbols, the funcs and
    the frames' lines hold stands in for the results that are no longer
    there. *)
Theorem applySymbolicationStep_settles_with_fewer (thread : Thread.t)
  (symbolicationInfo : list (string * ThreadLibSymbolicationInfo.t))
  (key : string) (info : ThreadLibSymbolicationInfo.t)
  (resultsForLib fewer : gmap Z AddressResult.t)
  (oldFuncToNewFuncMap map1 : list (nat * nat)) (new : Thread.t) :
  wellFormed thread →
  getThreadSymbolicationInfo thread = Returns symbolicationInfo →
  JsMap.get symbolicationInfo key = Some info →
  applySymbolicationStep thread
    {| SymbolicationStepInfo.threadLibSymbolicationInfo := info;
       SymbolicationStepInfo.resultsForLib := resultsForLib |}
    oldFuncToNewFuncMap
  = Returns (new, map1) →
  (∀ f1 f2 old1 old2 r1 r2,
     f1 ∈ ThreadLibSymbolicationInfo.allFramesForThisLib info →
     f2 ∈ ThreadLibSymbolicationInfo.allFramesForThisLib info →
     resolveFrame thread resultsForLib f1 = Returns (old1, r1) →
     resolveFrame thread resultsForLib f2 = Returns (old2, r2) →
     AddressResult.symbolAddress r1 = AddressResult.symbolAddress r2 →
     AddressResult.name r1 = AddressResult.name r2) →
  fewer ⊆ resultsForLib →
  ∃ symbolicationInfo' info',
    getThreadSymbolicationInfo new = Returns symbolicationInfo'
    ∧ JsMap.get symbolicationInfo' key = Some info'
    ∧ ∀ map, ∃ map2,
        applySymbolicationStep new
          {| SymbolicationStepInfo.threadLibSymbolicationInfo := info';
             SymbolicationStepInfo.resultsForLib := fewer |}
          map
        = Returns (new, map2).
Proof.
  intros Hwf Hmap Hget Hstep Hnames Hfewer.
  assert (Thread.resourceTable new = Thread.resourceTable thread
          ∧ Thread.libs new = Thread.libs thread
          ∧ (FrameTable.length (Thread.frameTable new)
             ≤ length (FrameTable.address (Thread.frameTable new)))%nat)
    as (Hresources & Hlibs & Hlength).
  { revert Hstep. unfold applySymbolicationStep.
    intros (run & Hrun%runSymbolicationStep_Returns & [= <- <-])%bind_Returns.
    simpl in Hrun.
    destruct Hrun as (_ & _ & _ & _ & _ & _ & -> & -> & _ & _ & _ & _ & ->
                      & -> & _).
    split_and!; [done..|].
    by apply wellFormed_spec in Hwf as ((? & _) & _). }
  destruct (getThreadSymbolicationInfo_again _ _ _ Hresources Hlibs Hlength
              Hmap) as (map' & Hmap' & _ & Hentries).
  destruct (Hentries _ _ Hget) as (r & l & info' & Hinfo & Hinfo' & Hget').
  destruct (applySymbolicationStep_again _ _ _ _ _ fewer _ _ _ Hwf Hinfo
              Hstep) as (info'' & Hinfo'' & Hagain).
  { intros address addressResult.
    apply (proj1 (map_subseteq_spec fewer resultsForLib) Hfewer). }
  { intros f address addressResult f' old' r' Hf Haddress Hresult _ Hf' Hr'
      Hsa.
    assert (∃ old, resolveFrame thread resultsForLib f
                   = Returns (old, addressResult)) as [old Hr].
    { apply Hentries in Hget as Hrow.
      apply wellFormed_spec in Hwf as Hwf'.
      pose proof (collectLib_members _ _ _ _ Hinfo) as ([_ Hframes] & _).
      apply Hframes in Hf as [Hf _].
      destruct (resolveFrame_progress thread resultsForLib f Hwf Hf)
        as (old & r0 & Hr0).
      exists old. rewrite Hr0. do 2 f_equal.
      apply resolveFrame_Returns in Hr0 as (address0 & _ & Haddress0 & Hr0).
      assert (address0 = address) as -> by congruence.
      by rewrite Hresult in Hr0. }
    by apply (Hnames f' f old' old r' addressResult). }
  assert (info'' = info') as -> by congruence.
  exists map', info'. split_and!; [done..|].
  intros map. destruct (Hagain map) as (map2 & Hmap2 & _). by exists map2.
Qed.

Lemma applySymbolicationStep_settles_with_fewer_witness :
  ∃ symbolicationInfo' info',
    getThreadSymbolicationInfo Example.refined.1 = Returns symbolicationInfo'
    ∧ JsMap.get symbolicationInfo' (libKey Example.lib) = Some info'
    ∧ ∀ map, ∃ map2,
        applySymbolicationStep Example.refined.1
          {| SymbolicationStepInfo.threadLibSymbolicationInfo := info';
             SymbolicationStepInfo.resultsForLib := Example.noSymbols |}
          map
        = Returns (Example.refined.1, map2).
Proof.
  assert (wellFormed Example.coarse.1) as Hwf.
  { refine (bool_decide_unpack _ _). vm_compute. exact I. }
  assert (getThreadSymbolicationInfo Example.coarse.1
          = Returns [(libKey Example.lib, Example.infoOf Example.coarse.1)])
    as Hmap by (vm_compute; reflexivity).
  assert (JsMap.get [(libKey Example.lib, Example.infoOf Example.coarse.1)]
            (libKey Example.lib)
          = Some (Example.infoOf Example.coarse.1))
    as Hget by (vm_compute; reflexivity).
  assert (applySymbolicationStep Example.coarse.1
            {| SymbolicationStepInfo.threadLibSymbolicationInfo :=
                 Example.infoOf Example.coarse.1;
               SymbolicationStepInfo.resultsForLib :=
                 Example.completeSymbolTable |}
            []
          = Returns (Example.refined.1, Example.refined.2))
    as Hstep by (vm_compute; reflexivity).
  assert (∀ f1 f2 old1 old2 r1 r2,
            f1 ∈ ThreadLibSymbolicationInfo.allFramesForThisLib
                   (Example.infoOf Example.coarse.1) →
            f2 ∈ ThreadLibSymbolicationInfo.allFramesForThisLib
                   (Example.infoOf Example.coarse.1) →
            resolveFrame Example.coarse.1 Example.completeSymbolTable f1
            = Returns (old1, r1) →
            resolveFrame Example.coarse.1 Example.completeSymbolTable f2
            = Returns (old2, r2) →
            AddressResult.symbolAddress r1 = AddressResult.symbolAddress r2 →
            AddressResult.name r1 = AddressResult.name r2) as Hnames.
  { assert (ThreadLibSymbolicationInfo.allFramesForThisLib
              (Example.infoOf Example.coarse.1) = [0; 1; 2; 3; 4]) as ->
      by (vm_compute; reflexivity).
    intros f1 f2 old1 old2 r1 r2 Hf1 Hf2.
    apply list_elem_of_In in Hf1, Hf2. simpl in Hf1, Hf2.
    destruct Hf1 as [<-|[<-|[<-|[<-|[<-|[]]]]]];
      destruct Hf2 as [<-|[<-|[<-|[<-|[<-|[]]]]]];
      intros Hr1 Hr2; vm_compute in Hr1, Hr2;
      injection Hr1 as <- <-; injection Hr2 as <- <-;
      intros Hsa; vm_compute in Hsa; vm_compute;
      first [reflexivity|discriminate Hsa]. }
  assert (Example.noSymbols ⊆ Example.completeSymbolTable) as Hfewer.
  { apply map_empty_subseteq. }
  exact (applySymbolicationStep_settles_with_fewer Example.coarse.1
           [(libKey Example.lib, Example.infoOf Example.coarse.1)]
           (libKey Example.lib) (Example.infoOf Example.coarse.1)
           Example.completeSymbolTable Example.noSymbols [] Example.refined.2
           Example.refined.1 Hwf Hmap Hget Hstep Hnames Hfewer).
Defined.

Lemma runSymbolicationStep_other_frames thread symbolicationStepInfo map run :
  runSymbolicationStep thread symbolicationStepInfo map = Returns run →
  ∀ f,
    f ∉ ThreadLibSymbolicationInfo.allFramesForThisLib
          (SymbolicationStepInfo.threadLibSymbolicationInfo
             symbolicationStepInfo) →
    FrameTable.func (Thread.frameTable (Run.thread run)) !! f
    = FrameTable.func (Thread.frameTable thread) !! f
    ∧ FrameTable.nativeSymbol (Thread.frameTable (Run.thread run)) !! f
      = FrameTable.nativeSymbol (Thread.frameTable thread) !! f
    ∧ FrameTable.line (Thread.frameTable (Run.thread run)) !! f
      = FrameTable.line (Thread.frameTable thread) !! f.
Proof.
  intros Hrun%runSymbolicationStep_Returns.
  destruct Hrun as (Ha & _ & Hcol & Hc & Hfunc & Hline & _).
  apply stepA_spec in Ha as (Hf_nd & Hf_keys & Hf_res & _).
  apply assignNativeSymbols_spec in Hcol as (_ & _ & Hcol); [|done|].
  2:{ intros f (sa & Hsa)%jsmap_get_is_Some.
      destruct (Hf_res f sa Hsa) as (old & r & Hres & _).
      apply resolveFrame_in_range in Hres as [Hres _].
      by eapply lookup_lt_Some. }
  apply stepC_columns in Hc as [_ Hc].
  rewrite Hfunc, Hline. intros f Hf. destruct (Hc f Hf) as [-> ->].
  split; [done|]. split; [|done]. apply Hcol. by rewrite Hf_keys.
Qed.

(** X28. One collection serves the steps of all libraries.  Take a
    well-formed thread and two records of the collector's map, for
    different resource rows and different libs.  After a step with the
    first, a step with the second, as it was collected before the first
    step, returns for whatever symbol results and map it is given; the
    thread it returns is well-formed, and the frames of the first library
    have in it the func, the native symbol and the line the first step
    gave them. *)
Theorem applySymbolicationStep_next_lib (thread : Thread.t)
  (symbolicationInfo : list (string * ThreadLibSymbolicationInfo.t))
  (key key2 : string) (info info2 : ThreadLibSymbolicationInfo.t)
  (resultsForLib : gmap Z AddressResult.t)
  (oldFuncToNewFuncMap map1 : list (nat * nat)) (new : Thread.t) :
  wellFormed thread →
  getThreadSymbolicationInfo thread = Returns symbolicationInfo →
  JsMap.get symbolicationInfo key = Some info →
  JsMap.get symbolicationInfo key2 = Some info2 →
  ThreadLibSymbolicationInfo.resourceIndex info2
  ≠ ThreadLibSymbolicationInfo.resourceIndex info →
  ThreadLibSymbolicationInfo.libIndex info2
  ≠ ThreadLibSymbolicationInfo.libIndex info →
  applySymbolicationStep thread
    {| SymbolicationStepInfo.threadLibSymbolicationInfo := info;
       SymbolicationStepInfo.resultsForLib := resultsForLib |}
    oldFuncToNewFuncMap
  = Returns (new, map1) →
  ∀ resultsForLib2 map,
    ∃ new2 map2,
      applySymbolicationStep new
        {| SymbolicationStepInfo.threadLibSymbolicationInfo := info2;
           SymbolicationStepInfo.resultsForLib := resultsForLib2 |}
        map
      = Returns (new2, map2)
      ∧ wellFormed new2
      ∧ ∀ f, f ∈ ThreadLibSymbolicationInfo.allFramesForThisLib info →
             FrameTable.func (Thread.frameTable new2) !! f
             = FrameTable.func (Thread.frameTable new) !! f
             ∧ FrameTable.nativeSymbol (Thread.frameTable new2) !! f
               = FrameTable.nativeSymbol (Thread.frameTable new) !! f
             ∧ FrameTable.line (Thread.frameTable new2) !! f
               = FrameTable.line (Thread.frameTable new) !! f.
Proof.
  intros Hwf Hmap Hget%jsmap_get_Some_elem Hget2%jsmap_get_Some_elem
    Hresource Hlib Hstep results2 map.
  destruct (getThreadSymbolicationInfo_entries _ _ _ _ Hmap Hget)
    as (r & l & Hinfo).
  destruct (getThreadSymbolicationInfo_entries _ _ _ _ Hmap Hget2)
    as (r2 & l2 & Hinfo2).
  pose proof (collectLib_Returns _ _ _ _ Hinfo) as (_ & Hr & Hl & _).
  pose proof (collectLib_Returns _ _ _ _ Hinfo2) as (_ & Hr2 & Hl2 & _).
  assert (∃ run,
            runSymbolicationStep thread
              {| SymbolicationStepInfo.threadLibSymbolicationInfo := info;
                 SymbolicationStepInfo.resultsForLib := resultsForLib |}
              oldFuncToNewFuncMap
            = Returns run
            ∧ new = Run.thread run) as (run & Hrun & ->).
  { revert Hstep. unfold applySymbolicationStep.
    intros (run & Hrun & [= <- <-])%bind_Returns. by exists run. }
  assert (wellFormed (Run.thread run)) as Hwf'.
  { destruct (runSymbolicationStep_progress thread
                {| SymbolicationStepInfo.threadLibSymbolicationInfo := info;
                   SymbolicationStepInfo.resultsForLib := resultsForLib |}
                oldFuncToNewFuncMap Hwf (collectLib_sliceOf _ _ _ _ Hinfo))
      as (run' & Hrun' & Hwf' & _).
    assert (run' = run) as -> by congruence. done. }
  assert (collectLib (Run.thread run) r2 l2 = Returns info2) as Hinfo2'.
  { rewrite (other_collectLib thread r l info resultsForLib
               oldFuncToNewFuncMap run Hwf Hinfo Hrun r2 l2)
      by congruence.
    done. }
  destruct (runSymbolicationStep_progress (Run.thread run)
              {| SymbolicationStepInfo.threadLibSymbolicationInfo := info2;
                 SymbolicationStepInfo.resultsForLib := results2 |}
              map Hwf' (collectLib_sliceOf _ _ _ _ Hinfo2'))
    as (run2 & Hrun2 & Hwf2 & _).
  exists (Run.thread run2), (Run.oldFuncToNewFuncMap run2).
  unfold applySymbolicationStep. rewrite Hrun2. simpl.
  split_and!; [done..|].
  intros f Hf.
  apply (runSymbolicationStep_other_frames _ _ _ _ Hrun2). simpl.
  pose proof (collectLib_members _ _ _ _ Hinfo) as ([_ Hframes] & _).
  pose proof (collectLib_members _ _ _ _ Hinfo2) as ([_ Hframes2] & _).
  intros [_ Hin2]%Hframes2. apply Hframes in Hf as [_ Hin].
  unfold frameIsInResource in Hin, Hin2. rewrite Hin in Hin2.
  injection Hin2 as Heq. apply Hresource. lia.
Qed.

Lemma applySymbolicationStep_next_lib_witness :
  ∃ new2 map2,
    applySymbolicationStep twoLibAfter.1
      {| SymbolicationStepInfo.threadLibSymbolicationInfo :=
           {| ThreadLibSymbolicationInfo.resourceIndex := 1;
              ThreadLibSymbolicationInfo.libIndex := 1;
              ThreadLibSymbolicationInfo.allFuncsForThisLib := [3; 4];
              ThreadLibSymbolicationInfo.allNativeSymbolsForThisLib := [];
              ThreadLibSymbolicationInfo.allFramesForThisLib := [3; 4];
              ThreadLibSymbolicationInfo.frameAddresses :=
                [6671; 3855]%Z |};
         SymbolicationStepInfo.resultsForLib := Example.completeSymbolTable |}
      twoLibAfter.2
    = Returns (new2, map2)
    ∧ wellFormed new2.
Proof.
  assert (wellFormed twoLibThread) as Hwf.
  { refine (bool_decide_unpack _ _). vm_compute. exact I. }
  pose (other :=
          {| ThreadLibSymbolicationInfo.resourceIndex := 1;
             ThreadLibSymbolicationInfo.libIndex := 1;
             ThreadLibSymbolicationInfo.allFuncsForThisLib := [3; 4];
             ThreadLibSymbolicationInfo.allNativeSymbolsForThisLib := [];
             ThreadLibSymbolicationInfo.allFramesForThisLib := [3; 4];
             ThreadLibSymbolicationInfo.frameAddresses := [6671; 3855]%Z |}).
  assert (getThreadSymbolicationInfo twoLibThread
          = Returns [(libKey Example.lib, Example.infoOf twoLibThread);
                     (libKey otherLib, other)])
    as Hmap by (vm_compute; reflexivity).
  assert (JsMap.get [(libKey Example.lib, Example.infoOf twoLibThread);
                     (libKey otherLib, other)] (libKey Example.lib)
          = Some (Example.infoOf twoLibThread))
    as Hget by (vm_compute; reflexivity).
  assert (JsMap.get [(libKey Example.lib, Example.infoOf twoLibThread);
                     (libKey otherLib, other)] (libKey otherLib)
          = Some other)
    as Hget2 by (vm_compute; reflexivity).
  assert (ThreadLibSymbolicationInfo.resourceIndex other
          ≠ ThreadLibSymbolicationInfo.resourceIndex
              (Example.infoOf twoLibThread)) as Hresource.
  { vm_compute. intros H. discriminate H. }
  assert (ThreadLibSymbolicationInfo.libIndex other
          ≠ ThreadLibSymbolicationInfo.libIndex
              (Example.infoOf twoLibThread)) as Hlib.
  { vm_compute. intros H. discriminate H. }
  assert (applySymbolicationStep twoLibThread
            {| SymbolicationStepInfo.threadLibSymbolicationInfo :=
                 Example.infoOf twoLibThread;
               SymbolicationStepInfo.resultsForLib :=
                 Example.completeSymbolTable |}
            []
          = Returns (twoLibAfter.1, twoLibAfter.2))
    as Hstep by (vm_compute; reflexivity).
  destruct (applySymbolicationStep_next_lib twoLibThread
              [(libKey Example.lib, Example.infoOf twoLibThread);
               (libKey otherLib, other)]
              (libKey Example.lib) (libKey otherLib)
              (Example.infoOf twoLibThread) other
              Example.completeSymbolTable [] twoLibAfter.2 twoLibAfter.1
              Hwf Hmap Hget Hget2 Hresource Hlib Hstep
              Example.completeSymbolTable twoLibAfter.2)
    as (new2 & map2 & Hstep2 & Hwf2 & _).
  exists new2, map2. split; [exact Hstep2|exact Hwf2].
Defined.

(** ** The name of a sub-frame resource *)

Lemma arrayFind_Some {A : Type} (test : A → bool) (array : list A) x :
  arrayFind test array = Some x →
  test x = true ∧ ∃ i, array !! i = Some x.
Proof.
  induction array as [|y array IH]; [done|]. simpl.
  destruct (test y) eqn:E.
  - intros [= ->]. split; [done|]. by exists 0.
  - intros [Htest [i Hi]]%IH. split; [done|]. by exists (S i).
Qed.

Lemma _getInnerWindowIDToPageMap_values (pages : list Page.t) id page :
  JsMap.get (_getInnerWindowIDToPageMap pages) id = Some page →
  page ∈ pages ∧ Page.innerWindowID page = id.
Proof.
  unfold _getInnerWindowIDToPageMap.
  cut (∀ m,
         (∀ id page, JsMap.get m id = Some page →
                     page ∈ pages ∧ Page.innerWindowID page = id) →
         ∀ l, l ⊆ pages →
           JsMap.get
             (foldl (λ innerWindowIDToPageMap page,
                       JsMap.set innerWindowIDToPageMap
                         (Page.innerWindowID page) page) m l) id
           = Some page →
           page ∈ pages ∧ Page.innerWindowID page = id).
  { intros Hcut. by apply (Hcut []). }
  intros m Hm l. revert m Hm.
  induction l as [|p l IH]; intros m Hm Hl; simpl; [apply Hm|].
  apply IH; [|set_solver].
  intros id' page'. rewrite jsmap_get_set.
  destruct (decide (Page.innerWindowID p = id')) as [<-|]; [|apply Hm].
  intros [= <-]. split; [|done]. apply Hl. left.
Qed.

Lemma getTopmostInnerWindowIDs_spec (pages : list Page.t) id :
  id ∈ getTopmostInnerWindowIDs pages
  ↔ ∃ page, page ∈ pages ∧ Page.embedderInnerWindowID page = 0
            ∧ Page.innerWindowID page = id.
Proof.
  unfold getTopmostInnerWindowIDs.
  rewrite (proj2 (jsset_of_list_spec _)), topmost_pages_foldl, elem_of_nil.
  naive_solver.
Qed.

(** X29. A resource named after a page is named after an embedded page.
    For a main thread that [isTopmostThread] does not hold topmost for
    the topmost window ids of the relevant pages, and whose window-id
    column and marker data are no longer than their tables say: when
    [_getActiveTabResourceName] returns with the page map of the same
    pages, what it returns is the url of one of these pages, and that
    page is embedded in another (its [embedderInnerWindowID] is not 0).
    Of [ensureExists] this assumes that it returns nothing but the item
    it was given. *)
Theorem _getActiveTabResourceName_sub_frame
  (ensureExists : option Page.t → completion Page.t)
  (relevantPages : list Page.t) (name : string)
  (frameTable : FrameTable.t) (markers : RawMarkerTable.t) (url : string) :
  (∀ item page, ensureExists item = Returns page → item = Some page) →
  (length (FrameTable.innerWindowID frameTable)
   ≤ FrameTable.length frameTable)%nat →
  (length (RawMarkerTable.data markers) ≤ RawMarkerTable.length markers)%nat →
  isTopmostThread frameTable markers (getTopmostInnerWindowIDs relevantPages)
  = false →
  _getActiveTabResourceName ensureExists true name frameTable markers
    (_getInnerWindowIDToPageMap relevantPages)
  = Returns url →
  ∃ page,
    page ∈ relevantPages ∧ Page.url page = url
    ∧ Page.embedderInnerWindowID page ≠ 0.
Proof.
  intros Hexists Hframes Hmarkers Htopmost.
  assert (∀ i, i < FrameTable.length frameTable →
               frameIsTopmost frameTable
                 (getTopmostInnerWindowIDs relevantPages) i = false)
    as Hno_frame.
  { intros i Hi.
    destruct (frameIsTopmost _ _ i) eqn:E; [|done].
    rewrite <-Htopmost. symmetry. unfold isTopmostThread.
    apply returnsTrueAt_true. left. exists i. split; [lia|done]. }
  assert (∀ i, i < RawMarkerTable.length markers →
               markerIsTopmost markers
                 (getTopmostInnerWindowIDs relevantPages) i = false)
    as Hno_marker.
  { intros i Hi.
    destruct (markerIsTopmost _ _ i) eqn:E; [|done].
    rewrite <-Htopmost. symmetry. unfold isTopmostThread.
    apply returnsTrueAt_true. right.
    apply returnsTrueAt_true. left. exists i. split; [lia|done]. }
  assert (∀ id page,
            id ∉ getTopmostInnerWindowIDs relevantPages →
            ensureExists
              (JsMap.get (_getInnerWindowIDToPageMap relevantPages) id)
            = Returns page →
            page ∈ relevantPages ∧ Page.embedderInnerWindowID page ≠ 0)
    as Hpage.
  { intros id page Hid Hget%Hexists.
    apply _getInnerWindowIDToPageMap_values in Hget as [Hin Hwindow].
    split; [done|]. intros Hembedder. apply Hid.
    apply getTopmostInnerWindowIDs_spec. by exists page. }
  unfold _getActiveTabResourceName.
  destruct (arrayFind isWindowID (FrameTable.innerWindowID frameTable))
    as [[id|]|] eqn:Hfind.
  - apply arrayFind_Some in Hfind as [_ [i Hi]].
    intros (page & Hget & [= <-])%bind_Returns.
    exists page.
    destruct (Hpage id page) as [Hin Hembedded]; [|done|done].
    apply lookup_lt_Some in Hi as Hlt.
    specialize (Hno_frame i ltac:(lia)).
    unfold frameIsTopmost in Hno_frame. rewrite Hi in Hno_frame.
    by apply jsset_has_false.
  - by apply arrayFind_Some in Hfind as [? _].
  - destruct (arrayFind _ (RawMarkerTable.data markers))
      as [[data|]|] eqn:Hmarker; [|done..].
    apply arrayFind_Some in Hmarker as [Htest [i Hi]].
    unfold markerNamesPage in Htest.
    destruct (MarkerPayload.innerWindowID data) as [id|] eqn:Hid; [|done].
    destruct (decide (id = 0)) as [->|Hne]; [done|].
    intros (page & Hget & [= <-])%bind_Returns.
    exists page.
    destruct (Hpage id page) as [Hin Hembedded]; [|done|done].
    apply lookup_lt_Some in Hi as Hlt.
    specialize (Hno_marker i ltac:(lia)).
    unfold markerIsTopmost in Hno_marker.
    rewrite Hi, Hid in Hno_marker.
    destruct (bool_decide (MarkerPayload.type data = "Network")) eqn:Htype;
      [by rewrite bool_decide_false, andb_false_r in Htest by done|].
    rewrite bool_decide_false in Hno_marker by done.
    simpl in Hno_marker. by apply jsset_has_false.
Qed.

Lemma _getActiveTabResourceName_sub_frame_witness :
  ∃ page,
    page ∈ examplePages ∧ Page.url page = "https://example.org/frame"
    ∧ Page.embedderInnerWindowID page ≠ 0.
Proof.
  pose (ensureExists :=
          λ item : option Page.t,
            match item with
            | Some page => Returns page
            | None => Throws (Error "ensureExists")
            end).
  assert (∀ item page, ensureExists item = Returns page → item = Some page)
    as Hexists.
  { intros [page'|] page H; [|discriminate H].
    injection H as ->. reflexivity. }
  assert (length (FrameTable.innerWindowID iframeFrameTable)
          ≤ FrameTable.length iframeFrameTable)%nat as Hframes
    by (vm_compute; lia).
  assert (length (RawMarkerTable.data iframeMarkers)
          ≤ RawMarkerTable.length iframeMarkers)%nat as Hmarkers
    by (vm_compute; lia).
  assert (isTopmostThread iframeFrameTable iframeMarkers
            (getTopmostInnerWindowIDs examplePages) = false) as Htopmost
    by (vm_compute; reflexivity).
  assert (_getActiveTabResourceName ensureExists true "GeckoMain"
            iframeFrameTable iframeMarkers
            (_getInnerWindowIDToPageMap examplePages)
          = Returns "https://example.org/frame") as Hname
    by (vm_compute; reflexivity).
  exact (_getActiveTabResourceName_sub_frame ensureExists examplePages
           "GeckoMain" iframeFrameTable iframeMarkers
           "https://example.org/frame" Hexists Hframes Hmarkers Htopmost
           Hname).
Defined.

(** ** Func grouping, told from the input and the returned thread *)








(** ** Applying a step twice *)



